(** * Path planning engine of the Autonomous Path Planning Visualizer

    A shallow embedding of the planning engine of
    [PathPlanningVisualizer]: the grid helpers, the binary [MinHeap],
    [reconstruct], [runDijkstra], [runAStar] and [runRRTStar], followed by
    the properties proved about them.

    Modelling conventions.
    - A coordinate [{r, c}] is a pair of integers, small enough (array
      indices, a start and a goal near the grid) for [r + dr] and the
      Manhattan distance to be formed exactly.  The dictionary keys
      [key(r, c)] (the string "r,c") are in one-to-one correspondence with
      such pairs and are parsed back with [split(",").map(Number)], so the
      dictionaries [dist], [g], [f], [came] are finite maps keyed by pairs.
    - Cell weights are integers ([Z]), meant to be integers that a double
      holds.  The costs that Dijkstra and A* accumulate are sums of them
      formed in doubles: [dadd] gives the sum rounded as JavaScript rounds
      it, exact below 2^53 and [Infinity] on overflow.
    - Quantities that are genuinely floating point (Euclidean distances, the
      RRT* costs, the random numbers) live in an abstract number type, see
      [JSNumber].
    - [while] loops whose termination is not structural take a [fuel]
      argument; running out of it is the outcome [OutOfFuel].
    - A JavaScript [TypeError] (reading a property of [undefined]) is the
      outcome [Threw]. *)

From Stdlib Require Import ZArith List Lia QArith Qround.
From stdpp Require Import base option list gmap.

Local Open Scope Z_scope.

(** ** Data model *)

Abbreviation coord := (Z * Z)%type (only parsing).

Record Cell : Type := mkCell {
  wall : bool;
  weight : option Z   (* [undefined] is read as 1 by [?? 1] *)
}.

Abbreviation Grid := (list (list Cell)) (only parsing).

Record PlanningResult : Type := mkResult {
  visited : list coord;
  path : list coord
}.

Inductive outcome (A : Type) : Type :=
| Returned (a : A)
| Threw
| OutOfFuel.
Arguments Returned {A} a.
Arguments Threw {A}.
Arguments OutOfFuel {A}.

Definition obind {A B : Type} (o : outcome A) (k : A -> outcome B) : outcome B :=
  match o with
  | Returned a => k a
  | Threw => Threw
  | OutOfFuel => OutOfFuel
  end.

Notation "'do' x <- o ; k" := (obind o (fun x => k))
  (at level 10, x name, o at level 100, k at level 200).

(** ** Helpers *)

Definition DIRS4 : list (Z * Z) := [(1, 0); (-1, 0); (0, 1); (0, -1)].
Definition DIRS8 : list (Z * Z) := DIRS4 ++ [(1, 1); (1, -1); (-1, 1); (-1, -1)].

Definition manhattan (a b : coord) : Z :=
  Z.abs (fst a - fst b) + Z.abs (snd a - snd b).

Definition inBounds (r c rows cols : Z) : bool :=
  (0 <=? r) && (r <? rows) && (0 <=? c) && (c <? cols).

Definition neighbors (r c rows cols : Z) (diag : bool) : list coord :=
  let dirs := if diag then DIRS8 else DIRS4 in
  omap (fun d : Z * Z =>
          let nr := r + fst d in
          let nc := c + snd d in
          if inBounds nr nc rows cols then Some (nr, nc) else None) dirs.

(** [grid[r][c]]; [None] is JavaScript's [undefined]. *)
Definition cellAt (grid : Grid) (r c : Z) : option Cell :=
  if (0 <=? r) && (0 <=? c) then
    match grid !! Z.to_nat r with
    | Some row => row !! Z.to_nat c
    | None => None
    end
  else None.

(** [cell.weight ?? 1] *)
Definition weightOf (cell : Cell) : Z := default 1 (weight cell).

(** [rows = grid.length], [cols = grid[0].length]; the latter throws on an
    empty outer array. *)
Definition dims (grid : Grid) : outcome (Z * Z) :=
  match grid with
  | [] => Threw
  | row0 :: _ => Returned (Z.of_nat (length grid), Z.of_nat (length row0))
  end.

(** ** The number interface

    JavaScript numbers are IEEE 754 doubles.  The planners are written
    against this interface; nothing below depends on how it is
    implemented except where a theorem names [JSNumberLaws]. *)

Class JSNumber : Type := {
  num : Type;
  of_Z : Z -> num;                 (* an integer used as a number *)
  nadd : num -> num -> num;        (* a + b *)
  nmul : num -> num -> num;        (* a * b *)
  ndiv : num -> num -> num;        (* a / b *)
  nle : num -> num -> bool;        (* a <= b *)
  nlt : num -> num -> bool;        (* a < b *)
  neq : num -> num -> bool;        (* a === b *)
  nlt_infinity : num -> bool;      (* a < Infinity *)
  hypot : Z -> Z -> num;           (* Math.hypot on two integers *)
  nround : num -> option Z;        (* Math.round; None when not finite *)
  nfloor : num -> option Z         (* Math.floor; None when not finite *)
}.

(** ** Sums of integers in doubles

    A double holds an integer exactly when the integer has at most 53
    significant bits; [dist[k] + w] and [tentative + h] are the exact sums
    rounded to the nearest such integer, to the one with the even
    significand when two are equally near, and to [Infinity] from
    [2^1024 - 2^970] on.  The integer [2^1024], larger than every double,
    stands for [Infinity], and its opposite for [-Infinity]. *)

Definition Infinity : Z := 2 ^ 1024.

(** The distance between neighbouring doubles around [z]. *)
Definition ulp (z : Z) : Z := 2 ^ Z.max 0 (Z.log2 (Z.abs z) - 52).

(** The double nearest to the integer [z]. *)
Definition roundDouble (z : Z) : Z :=
  let u := ulp z in
  let q := Z.abs z / u in
  let r := Z.abs z mod u in
  let q' := if r * 2 <? u then q
            else if u <? r * 2 then q + 1
            else if Z.even q then q else q + 1 in
  Z.sgn z * Z.min (q' * u) Infinity.

(** [a + b] for a double [a] and a finite double [b], both integers: an
    infinite [a] stays as it is. *)
Definition dadd (a b : Z) : Z :=
  if Infinity <=? Z.abs a then a else roundDouble (a + b).

(** [z] is an integer that a double holds, or stands for an infinity. *)
Definition isDouble (z : Z) : Prop :=
  Z.abs z <= Infinity /\ z mod ulp z = 0.

(** ** MinHeap *)

Section MinHeap.
Context {P : Type}.
Variable ple : P -> P -> bool.   (* <= on priorities *)
Variable plt : P -> P -> bool.   (* <  on priorities *)

Record entry : Type := mkEntry { prio : P; node : coord }.

(** [a[j].prio < a[m].prio] *)
Definition prioLt (a : list entry) (j m : nat) : bool :=
  match a !! j, a !! m with
  | Some x, Some y => plt (prio x) (prio y)
  | _, _ => false
  end.

(** [[a[i], a[m]] = [a[m], a[i]]] *)
Definition swap (a : list entry) (i m : nat) : list entry :=
  match a !! i, a !! m with
  | Some x, Some y => <[m:=x]> (<[i:=y]> a)
  | _, _ => a
  end.

(** [#up(i)]: [i] halves at every round, so [i] rounds are enough. *)
Fixpoint up (fuel : nat) (a : list entry) (i : nat) : list entry :=
  match fuel with
  | O => a
  | S fuel' =>
    if (0 <? i)%nat then
      let p := Nat.div2 (i - 1) in
      match a !! p, a !! i with
      | Some ap, Some ai =>
        if ple (prio ap) (prio ai) then a
        else up fuel' (swap a p i) p
      | _, _ => a
      end
    else a
  end.

Definition push (x : entry) (a : list entry) : list entry :=
  let a' := a ++ [x] in
  up (length a' - 1) a' (length a' - 1).

(** [#down(i)]: [i] grows at every round and stays below [a.length]. *)
Fixpoint down (fuel : nat) (a : list entry) (i : nat) : list entry :=
  match fuel with
  | O => a
  | S fuel' =>
    let n := length a in
    let l := (i * 2 + 1)%nat in
    let r := (l + 1)%nat in
    let m := i in
    let m := if (l <? n)%nat && prioLt a l m then l else m in
    let m := if (r <? n)%nat && prioLt a r m then r else m in
    if (m =? i)%nat then a else down fuel' (swap a i m) m
  end.

Definition pop (a : list entry) : option (entry * list entry) :=
  match a with
  | [] => None
  | top :: _ =>
    match last a with
    | None => None
    | Some lst =>
      let a' := removelast a in
      match a' with
      | [] => Some (top, a')
      | _ :: _ => Some (top, down (length a') (<[0%nat:=lst]> a') 0)
      end
    end
  end.
End MinHeap.

Arguments entry : clear implicits.
Arguments mkEntry {P} prio node.

(** ** reconstruct *)

(** The sequence pushed by the [while (cur)] loop of [reconstruct]:
    [cur], [cameFrom[cur]], ... until an absent key. *)
Fixpoint chain (fuel : nat) (cameFrom : gmap coord coord) (cur : option coord)
  : option (list coord) :=
  match cur with
  | None => Some []
  | Some k =>
    match fuel with
    | O => None
    | S fuel' => cons k <$> chain fuel' cameFrom (cameFrom !! k)
    end
  end.

Definition reconstruct (fuel : nat) (cameFrom : gmap coord coord) (gkey : coord)
  : outcome (list coord) :=
  match cameFrom !! gkey with
  | None => Returned []
  | Some _ =>
    match chain fuel cameFrom (Some gkey) with
    | Some p => Returned (reverse p)
    | None => OutOfFuel
    end
  end.

(** ** runDijkstra *)

Record DState : Type := mkDState {
  d_pq : list (entry Z);
  d_dist : gmap coord Z;
  d_came : gmap coord coord;
  d_visited : list coord
}.

(** One round of [for (const nb of neighbors(...))] in [runDijkstra]. *)
Definition dijkstraRelax (grid : Grid) (cur : coord) (st : DState) (nb : coord)
  : outcome DState :=
  match cellAt grid (fst nb) (snd nb) with
  | None => Threw
  | Some cell =>
    if wall cell then Returned st
    else
      let w := weightOf cell in
      match d_dist st !! cur with
      | None => Returned st   (* never taken: a popped key has a distance *)
      | Some dcur =>
        let alt := dadd dcur w in
        if match d_dist st !! nb with
           | None => true
           | Some dnb => alt <? dnb
           end
        then Returned (mkDState (push Z.leb (mkEntry alt nb) (d_pq st))
                                (<[nb:=alt]> (d_dist st))
                                (<[nb:=cur]> (d_came st))
                                (d_visited st))
        else Returned st
      end
  end.

Fixpoint foldOutcome {A B : Type} (f : A -> B -> outcome A) (l : list B) (a : A)
  : outcome A :=
  match l with
  | [] => Returned a
  | b :: l' => do a' <- f a b; foldOutcome f l' a'
  end.

Fixpoint dijkstraLoop (fuel : nat) (grid : Grid) (rows cols : Z) (goal : coord)
    (diag : bool) (st : DState) : outcome DState :=
  match fuel with
  | O => OutOfFuel
  | S fuel' =>
    match pop Z.ltb (d_pq st) with
    | None => Returned st
    | Some (cur, pq') =>
      let st := mkDState pq' (d_dist st) (d_came st) (d_visited st) in
      if match d_dist st !! node cur with
         | Some d => negb (prio cur =? d)
         | None => true
         end
      then dijkstraLoop fuel' grid rows cols goal diag st
      else
        let st := mkDState (d_pq st) (d_dist st) (d_came st)
                           (d_visited st ++ [node cur]) in
        if (fst (node cur) =? fst goal) && (snd (node cur) =? snd goal)
        then Returned st
        else
          do st' <- foldOutcome (dijkstraRelax grid (node cur))
                      (neighbors (fst (node cur)) (snd (node cur)) rows cols diag) st;
          dijkstraLoop fuel' grid rows cols goal diag st'
    end
  end.

Definition runDijkstra (fuel : nat) (grid : Grid) (start goal : coord) (diag : bool)
  : outcome PlanningResult :=
  do rc <- dims grid;
  let st0 := mkDState (push Z.leb (mkEntry 0 start) []) {[start := 0]} ∅ [] in
  do st <- dijkstraLoop fuel grid (fst rc) (snd rc) goal diag st0;
  do p <- reconstruct fuel (d_came st) goal;
  Returned (mkResult (d_visited st) p).

(** ** runAStar *)

(** The body of [runAStar] is written once for its two heuristics.  The
    priorities are integers under the Manhattan heuristic and numbers of
    [JSNumber] under the Euclidean one; the sum [g[cur] + w] is [dadd] in
    both cases, see [runAStar] below.  The same body with the sums formed
    in the integers, [Z.add], is used further down to tell what a search
    without rounding would return. *)
Section AStar.
Context {P : Type}.
Variable ple plt peq : P -> P -> bool.   (* <=, < and === on priorities *)
Variable hfun : coord -> P.              (* h(., goal) *)
Variable padd : Z -> P -> P.             (* tentative + h *)
Variable gadd : Z -> Z -> Z.             (* g[cur] + w *)

Record AState : Type := mkAState {
  a_pq : list (entry P);
  a_g : gmap coord Z;
  a_f : gmap coord P;
  a_came : gmap coord coord;
  a_visited : list coord
}.

(** One round of [for (const nb of neighbors(...))] in [runAStar]. *)
Definition astarRelax (grid : Grid) (cur : coord) (st : AState) (nb : coord)
  : outcome AState :=
  match cellAt grid (fst nb) (snd nb) with
  | None => Threw
  | Some cell =>
    if wall cell then Returned st
    else
      let w := weightOf cell in
      match a_g st !! cur with
      | None => Returned st   (* never taken: a popped key has a cost *)
      | Some gcur =>
        let tentative := gadd gcur w in
        if match a_g st !! nb with
           | None => true
           | Some gnb => tentative <? gnb
           end
        then
          let fnk := padd tentative (hfun nb) in
          Returned (mkAState (push ple (mkEntry fnk nb) (a_pq st))
                             (<[nb:=tentative]> (a_g st))
                             (<[nb:=fnk]> (a_f st))
                             (<[nb:=cur]> (a_came st))
                             (a_visited st))
        else Returned st
      end
  end.

Fixpoint astarLoop (fuel : nat) (grid : Grid) (rows cols : Z) (goal : coord)
    (diag : bool) (st : AState) : outcome AState :=
  match fuel with
  | O => OutOfFuel
  | S fuel' =>
    match pop plt (a_pq st) with
    | None => Returned st
    | Some (cur, pq') =>
      let st := mkAState pq' (a_g st) (a_f st) (a_came st) (a_visited st) in
      if match a_f st !! node cur with
         | Some fv => negb (peq (prio cur) fv)
         | None => true
         end
      then astarLoop fuel' grid rows cols goal diag st
      else
        let st := mkAState (a_pq st) (a_g st) (a_f st) (a_came st)
                           (a_visited st ++ [node cur]) in
        if (fst (node cur) =? fst goal) && (snd (node cur) =? snd goal)
        then Returned st
        else
          do st' <- foldOutcome (astarRelax grid (node cur))
                      (neighbors (fst (node cur)) (snd (node cur)) rows cols diag) st;
          astarLoop fuel' grid rows cols goal diag st'
    end
  end.

Definition astar (fuel : nat) (grid : Grid) (start goal : coord) (diag : bool)
  : outcome PlanningResult :=
  do rc <- dims grid;
  let f0 := hfun start in
  let st0 := mkAState (push ple (mkEntry f0 start) []) {[start := 0]}
                      {[start := f0]} ∅ [] in
  do st <- astarLoop fuel grid (fst rc) (snd rc) goal diag st0;
  do p <- reconstruct fuel (a_came st) goal;
  Returned (mkResult (a_visited st) p).
End AStar.

Arguments AState : clear implicits.
Arguments mkAState {P} a_pq a_g a_f a_came a_visited.

Section Planners.
Context {N : JSNumber}.

(** [Math.hypot(a.r - b.r, a.c - b.c)] *)
Definition euclid (a b : coord) : num := hypot (fst a - fst b) (snd a - snd b).

(** [runAStar]: the heuristic is [euclid] when diagonals are allowed and
    [manhattan] otherwise; in the second case every priority is an
    integer, the sum [tentative + h] formed in doubles. *)
Definition runAStar (fuel : nat) (grid : Grid) (start goal : coord) (diag : bool)
  : outcome PlanningResult :=
  if diag
  then astar nle nlt neq (fun a => euclid a goal) (fun t h => nadd (of_Z t) h) dadd
             fuel grid start goal diag
  else astar Z.leb Z.ltb Z.eqb (fun a => manhattan a goal) dadd dadd
             fuel grid start goal diag.
End Planners.

(** ** runRRTStar *)

Record TreeNode {N : JSNumber} : Type := mkNode {
  n_r : Z;
  n_c : Z;
  n_parent : Z;     (* index of the parent, -1 for the root *)
  n_cost : num
}.

Record RRTOpts {N : JSNumber} : Type := mkOpts {
  iterations : option nat;
  radius : option num;
  step : option num;
  goalBias : option num
}.

Record RState {N : JSNumber} : Type := mkRState {
  r_nodes : list TreeNode;
  r_visited : list coord;
  r_calls : nat;        (* how many times Math.random() has been called *)
  r_goalIndex : Z
}.

Arguments mkNode {N} n_r n_c n_parent n_cost.
Arguments mkOpts {N} iterations radius step goalBias.
Arguments mkRState {N} r_nodes r_visited r_calls r_goalIndex.

Section RRTStar.
Context {N : JSNumber}.
Variable rand : nat -> num.   (* the value of the k-th call of Math.random() *)

Definition pos (n : TreeNode) : coord := (n_r n, n_c n).

Section Run.
Variable grid : Grid.
Variables rows cols : Z.

(** [inBounds(r, c, rows, cols) && !grid[r][c].wall] *)
Definition isFree (r c : Z) : outcome bool :=
  if inBounds r c rows cols then
    match cellAt grid r c with
    | Some cell => Returned (negb (wall cell))
    | None => Threw
    end
  else Returned false.

(** The [while (true)] loop of [lineFree]. *)
Fixpoint lineWalk (fuel : nat) (x1 y1 dx dy sx sy : Z) (x0 y0 err : Z)
  : outcome bool :=
  match fuel with
  | O => OutOfFuel
  | S fuel' =>
    do free <- isFree x0 y0;
    if negb free then Returned false
    else if (x0 =? x1) && (y0 =? y1) then Returned true
    else
      let e2 := err * 2 in
      let ex := if - dy <? e2 then (err - dy, x0 + sx) else (err, x0) in
      let ey := if e2 <? dx then (fst ex + dx, y0 + sy) else (fst ex, y0) in
      lineWalk fuel' x1 y1 dx dy sx sy (snd ex) (snd ey) (fst ey)
  end.

Definition lineFree (fuel : nat) (a b : coord) : outcome bool :=
  let x0 := fst a in
  let y0 := snd a in
  let x1 := fst b in
  let y1 := snd b in
  let dx := Z.abs (x1 - x0) in
  let dy := Z.abs (y1 - y0) in
  let sx := if x0 <? x1 then 1 else -1 in
  let sy := if y0 <? y1 then 1 else -1 in
  lineWalk fuel x1 y1 dx dy sx sy x0 y0 (dx - dy).

(** [nearest]: the accumulator is [(best, bestD, i)], with [bestD = None]
    standing for [Infinity]. *)
Definition nearestStep (pt : coord) (acc : nat * option num * nat) (nd : TreeNode)
  : nat * option num * nat :=
  let '(best, bestD, i) := acc in
  let d := euclid pt (pos nd) in
  if match bestD with
     | None => nlt_infinity d
     | Some b => nlt d b
     end
  then (i, Some d, S i)
  else (best, bestD, S i).

Definition nearest (nodes : list TreeNode) (pt : coord) : nat :=
  fst (fst (fold_left (nearestStep pt) nodes (O, None, O))).

(** [steer]; [None] when a rounded coordinate is not a finite number. *)
Definition steer (stp : num) (from to : coord) : option coord :=
  let d := euclid from to in
  if nle d stp then Some to
  else
    let t := ndiv stp d in
    match nround (nadd (of_Z (fst from)) (nmul (of_Z (fst to - fst from)) t)),
          nround (nadd (of_Z (snd from)) (nmul (of_Z (snd to - snd from)) t)) with
    | Some r, Some c => Some (r, c)
    | _, _ => None
    end.

(** The sample of one iteration, and the number of random draws used. *)
Definition drawSample (goal : coord) (gb : num) (k : nat) : option coord * nat :=
  if nlt (rand k) gb then (Some goal, S k)
  else
    (match nfloor (nmul (rand (S k)) (of_Z rows)),
           nfloor (nmul (rand (S (S k))) (of_Z cols)) with
     | Some r, Some c => Some (r, c)
     | _, _ => None
     end, S (S (S k))).

(** One round of the rewiring loop, for the index [j]. *)
Definition rewireOne (fuel : nat) (rad : num) (nd : TreeNode) (newIndex : nat)
    (nodes : list TreeNode) (j : nat) : outcome (list TreeNode) :=
  match nodes !! j with
  | None => Threw
  | Some nbh =>
    if nle (euclid (pos nbh) (pos nd)) rad then
      do lf <- lineFree fuel (pos nd) (pos nbh);
      if lf then
        match cellAt grid (n_r nbh) (n_c nbh) with
        | None => Threw
        | Some cell =>
          let alt := nadd (n_cost nd)
                       (nmul (of_Z (weightOf cell)) (euclid (pos nd) (pos nbh))) in
          if nlt alt (n_cost nbh)
          then Returned (<[j := mkNode (n_r nbh) (n_c nbh) (Z.of_nat newIndex) alt]> nodes)
          else Returned nodes
        end
      else Returned nodes
    else Returned nodes
  end.

Definition rewire (fuel : nat) (rad : num) (nd : TreeNode) (newIndex : nat)
    (nodes : list TreeNode) : outcome (list TreeNode) :=
  foldOutcome (rewireOne fuel rad nd newIndex) (seq 0 newIndex) nodes.

(** The body of the sampling loop; a [continue] returns the state with
    only the draw counter advanced. *)
Definition rrtIter (fuel : nat) (goal : coord) (rad stp gb : num) (st : RState)
  : outcome RState :=
  let '(sample, k) := drawSample goal gb (r_calls st) in
  let skip := mkRState (r_nodes st) (r_visited st) k (r_goalIndex st) in
  match sample with
  | None => Returned skip
  | Some smp =>
    do fs <- isFree (fst smp) (snd smp);
    if negb fs then Returned skip
    else
      let ni := nearest (r_nodes st) smp in
      match r_nodes st !! ni with
      | None => Threw
      | Some near =>
        match steer stp (pos near) smp with
        | None => Returned skip
        | Some newPt =>
          do fn <- isFree (fst newPt) (snd newPt);
          if negb fn then Returned skip
          else
            do lf <- lineFree fuel (pos near) newPt;
            if negb lf then Returned skip
            else
              match cellAt grid (fst newPt) (snd newPt) with
              | None => Threw
              | Some cell =>
                let newCost := nadd (n_cost near)
                                 (nmul (of_Z (weightOf cell)) (euclid (pos near) newPt)) in
                let nd := mkNode (fst newPt) (snd newPt) (Z.of_nat ni) newCost in
                let newIndex := length (r_nodes st) in
                do nodes' <- rewire fuel rad nd newIndex (r_nodes st ++ [nd]);
                let vis := r_visited st ++ [newPt] in
                if nle (euclid newPt goal) stp then
                  do lg <- lineFree fuel newPt goal;
                  if lg then
                    Returned (mkRState
                                (nodes' ++ [mkNode (fst goal) (snd goal)
                                                   (Z.of_nat newIndex) newCost])
                                vis k (Z.of_nat (length nodes')))
                  else Returned (mkRState nodes' vis k (r_goalIndex st))
                else Returned (mkRState nodes' vis k (r_goalIndex st))
              end
        end
      end
  end.

(** [for (let it = 0; it < iterations; it++)], left by [break] once the
    goal has been connected. *)
Fixpoint rrtLoop (its fuel : nat) (goal : coord) (rad stp gb : num) (st : RState)
  : outcome RState :=
  match its with
  | O => Returned st
  | S its' =>
    do st' <- rrtIter fuel goal rad stp gb st;
    if r_goalIndex st' =? -1
    then rrtLoop its' fuel goal rad stp gb st'
    else Returned st'
  end.
End Run.

(** The [while (cur !== -1)] loop that collects the path. *)
Fixpoint parentWalk (fuel : nat) (nodes : list TreeNode) (cur : Z)
  : outcome (list coord) :=
  match fuel with
  | O => if cur =? -1 then Returned [] else OutOfFuel
  | S fuel' =>
    if cur =? -1 then Returned []
    else
      match (if 0 <=? cur then nodes !! Z.to_nat cur else None) with
      | None => Threw
      | Some n =>
        do rest <- parentWalk fuel' nodes (n_parent n);
        Returned (pos n :: rest)
      end
  end.

Definition rrtStart (start : coord) : RState :=
  mkRState [mkNode (fst start) (snd start) (-1) (of_Z 0)] [start] O (-1).

Definition runRRTStar (fuel : nat) (grid : Grid) (start goal : coord) (opts : RRTOpts)
  : outcome PlanningResult :=
  do rc <- dims grid;
  let its := default 1500%nat (iterations opts) in
  let rad := default (of_Z 4) (radius opts) in
  let stp := default (of_Z 2) (step opts) in
  let gb := default (ndiv (of_Z 8) (of_Z 100)) (goalBias opts) in
  do st <- rrtLoop grid (fst rc) (snd rc) its fuel goal rad stp gb (rrtStart start);
  if r_goalIndex st =? -1
  then Returned (mkResult (r_visited st) [])
  else
    do p <- parentWalk fuel (r_nodes st) (r_goalIndex st);
    Returned (mkResult (r_visited st) (reverse p)).
End RRTStar.

(** * Specification vocabulary *)

(** ** Heap order *)

(** Every entry is at least as large as its parent. *)
Definition heapOrdered (a : list (entry Z)) : Prop :=
  forall j x y, (0 < j)%nat ->
    a !! j = Some x -> a !! Nat.div2 (j - 1) = Some y -> prio y <= prio x.

(** Heap order everywhere except between [i] and its parent, the children
    of [i] being no smaller than the parent of [i]: the state of [#up]. *)
Definition upInv (a : list (entry Z)) (i : nat) : Prop :=
  (forall j x y, (0 < j)%nat -> j <> i ->
     a !! j = Some x -> a !! Nat.div2 (j - 1) = Some y -> prio y <= prio x) /\
  (forall j x y, (0 < i)%nat -> Nat.div2 (j - 1) = i -> (0 < j)%nat ->
     a !! j = Some x -> a !! Nat.div2 (i - 1) = Some y -> prio y <= prio x).

(** Heap order everywhere except between [i] and its children, the
    children of [i] being no smaller than the parent of [i]: the state of
    [#down]. *)
Definition downInv (a : list (entry Z)) (i : nat) : Prop :=
  (forall j x y, (0 < j)%nat -> Nat.div2 (j - 1) <> i ->
     a !! j = Some x -> a !! Nat.div2 (j - 1) = Some y -> prio y <= prio x) /\
  (forall j x y, (0 < i)%nat -> Nat.div2 (j - 1) = i -> (0 < j)%nat ->
     a !! j = Some x -> a !! Nat.div2 (i - 1) = Some y -> prio y <= prio x).

(** ** The search graph *)

(** Every row has the length of every other: the grid is a matrix. *)
Definition rectGrid (grid : Grid) : Prop :=
  forall row row', row ∈ grid -> row' ∈ grid -> length row = length row'.

(** The data-model invariant [cost >= 1]. *)
Definition posWeights (grid : Grid) : Prop :=
  forall row cell, row ∈ grid -> cell ∈ row -> 1 <= weightOf cell.

Definition noWalls (grid : Grid) : Prop :=
  forall row cell, row ∈ grid -> cell ∈ row -> wall cell = false.

(** The cell at [v] exists and is a wall. *)
Definition occupied (grid : Grid) (v : coord) : Prop :=
  exists cell, cellAt grid (fst v) (snd v) = Some cell /\ wall cell = true.

(** The cell at [v] exists and is not a wall. *)
Definition passable (grid : Grid) (v : coord) : Prop :=
  exists cell, cellAt grid (fst v) (snd v) = Some cell /\ wall cell = false.

(** The weight paid for entering [v]. *)
Definition enterCost (grid : Grid) (v : coord) : Z :=
  match cellAt grid (fst v) (snd v) with
  | Some cell => weightOf cell
  | None => 1
  end.

(** [v] is adjacent to [u] under the configured connectivity. *)
Definition adjacent (rows cols : Z) (diag : bool) (u v : coord) : Prop :=
  v ∈ neighbors (fst u) (snd u) rows cols diag.

(** A move the searches may take: to an adjacent cell that is not a wall. *)
Definition edge (grid : Grid) (rows cols : Z) (diag : bool) (u v : coord) : Prop :=
  adjacent rows cols diag u v /\ passable grid v.

(** [reach ... s v c]: some sequence of moves leads from [s] to [v] at total
    cost [c]. *)
Inductive reach (grid : Grid) (rows cols : Z) (diag : bool) (s : coord)
  : coord -> Z -> Prop :=
| reach_refl : reach grid rows cols diag s s 0
| reach_step u v c :
    reach grid rows cols diag s u c ->
    edge grid rows cols diag u v ->
    reach grid rows cols diag s v (c + enterCost grid v).

(** Consecutive elements of [p] are related by [R]. *)
Fixpoint linked (R : coord -> coord -> Prop) (p : list coord) : Prop :=
  match p with
  | [] => True
  | u :: p' =>
    match p' with
    | [] => True
    | v :: _ => R u v /\ linked R p'
    end
  end.

(** Total cost of a path: the sum of the weights of the cells entered. *)
Definition pathCost (grid : Grid) (p : list coord) : Z :=
  match p with
  | [] => 0
  | _ :: p' => foldr (fun v acc => enterCost grid v + acc) 0 p'
  end.

(** ** Invariant of the search loop *)

Section AStarInv.
Context {P : Type}.
Variable hfun : coord -> P.
Variable padd : Z -> P -> P.
Variable grid : Grid.
Variables rows cols : Z.
Variable diag : bool.
Variable start : coord.

(** The priority with which a key of cost [gv] was last pushed. *)
Definition fval (v : coord) (gv : Z) : P :=
  if decide (v = start) then hfun start else padd gv (hfun v).

Record AInv (st : AState P) : Prop := mkAInv {
  inv_start : a_g st !! start = Some 0;
  inv_came_start : a_came st !! start = None;
  inv_nonneg : forall v d, a_g st !! v = Some d -> 0 <= d;
  inv_dom : forall v, is_Some (a_g st !! v) ->
              v = start \/ inBounds (fst v) (snd v) rows cols = true;
  inv_came : forall v u, a_came st !! v = Some u ->
               edge grid rows cols diag u v /\
               exists gu gv, a_g st !! u = Some gu /\ a_g st !! v = Some gv;
  inv_g_came : forall v, is_Some (a_g st !! v) ->
                 v = start \/ is_Some (a_came st !! v);
  inv_f : forall v gv, a_g st !! v = Some gv -> a_f st !! v = Some (fval v gv);
  inv_live : forall v gv, a_g st !! v = Some gv ->
               v ∈ a_visited st \/ mkEntry (fval v gv) v ∈ a_pq st;
  inv_pq : forall e, e ∈ a_pq st -> is_Some (a_g st !! node e);
  inv_visited : forall v, v ∈ a_visited st -> is_Some (a_g st !! v);
  inv_reach : forall v, is_Some (a_g st !! v) ->
                exists c, reach grid rows cols diag start v c
}.

(** The back-pointers cannot form a cycle.  [stamp v] is a ghost time
    stamp, the round in which the cost of [v] was last written, and
    [tick] the next stamp to be given out: along a back-pointer the cost
    does not grow, and where it stays the same the predecessor carries
    the older stamp.  [gnorm] holds of every recorded cost. *)
Record GInv (gnorm : Z -> Prop) (stamp : coord -> nat) (tick : nat)
    (st : AState P) : Prop := mkGInv {
  gi_norm : forall v d, a_g st !! v = Some d -> gnorm d;
  gi_tick : forall v, (stamp v < tick)%nat;
  gi_came : forall v u gu gv, a_came st !! v = Some u ->
              a_g st !! u = Some gu -> a_g st !! v = Some gv ->
              gu <= gv /\ (gu < gv \/ (stamp u < stamp v)%nat)
}.

Definition acyclic (gnorm : Z -> Prop) (st : AState P) : Prop :=
  exists stamp tick, GInv gnorm stamp tick st.

(** The state before the first round of the loop. *)
Definition astarInit (ple : P -> P -> bool) : AState P :=
  mkAState (push ple (mkEntry (hfun start) start) []) {[start := 0]}
           {[start := hfun start]} ∅ [].

(** The state after [pq.pop()]. *)
Definition popped (st : AState P) (pq' : list (entry P)) : AState P :=
  mkAState pq' (a_g st) (a_f st) (a_came st) (a_visited st).

(** The state after [visited.push({ r, c })]. *)
Definition visit (st : AState P) (v : coord) : AState P :=
  mkAState (a_pq st) (a_g st) (a_f st) (a_came st) (a_visited st ++ [v]).

(** [cur.prio !== f[cur.node]] *)
Definition stale (peq : P -> P -> bool) (st : AState P) (cur : entry P) : bool :=
  match a_f st !! node cur with
  | Some fv => negb (peq (prio cur) fv)
  | None => true
  end.
End AStarInv.

(** ** Termination measure of the search loop *)

(** Sum of the recorded costs. *)
Definition gsum (g : gmap coord Z) : nat :=
  map_fold (fun _ d acc => (Z.to_nat d + acc)%nat) 0%nat g.

(** The cells of a [rows] x [cols] grid. *)
Definition cells (rows cols : Z) : list coord :=
  r ← seqZ 0 rows; c ← seqZ 0 cols; [(r, c)].

(** The keys a search from [start] can ever record. *)
Definition universe (start : coord) (rows cols : Z) : gset coord :=
  {[start]} ∪ list_to_set (cells rows cols).

(** Keys still unrecorded, then the sum of the recorded costs:
    lexicographically smaller after every push. *)
Definition gless (start : coord) (rows cols : Z) (g' g : gmap coord Z) : Prop :=
  (size (universe start rows cols) - size g' < size (universe start rows cols) - size g)%nat \/
  (size g' = size g /\ gsum g' < gsum g)%nat.

(** ** Dijkstra as a search without heuristic *)

(** The state of [runDijkstra] read as a state of [runAStar] whose [f] and
    [g] coincide. *)
Definition toA (ds : DState) : AState Z :=
  mkAState (d_pq ds) (d_dist ds) (d_dist ds) (d_came ds) (d_visited ds).

Definition omapOutcome {A B : Type} (f : A -> B) (o : outcome A) : outcome B :=
  match o with
  | Returned a => Returned (f a)
  | Threw => Threw
  | OutOfFuel => OutOfFuel
  end.

(** Cost of the pushed sequence of [reconstruct]: every cell but the last
    one (the start) is entered. *)
Fixpoint chainCost (grid : Grid) (l : list coord) : Z :=
  match l with
  | [] => 0
  | v :: l' =>
    match l' with
    | [] => 0
    | _ :: _ => enterCost grid v + chainCost grid l'
    end
  end.

(** ** What a search result looks like *)

Record searchResult (grid : Grid) (rows cols : Z) (diag : bool) (start goal : coord)
    (r : PlanningResult) : Prop := mkSearchResult {
  (* every coordinate after the first is adjacent to its predecessor and
     is not a wall *)
  sr_linked : linked (edge grid rows cols diag) (path r);
  (* a non-empty path leads from the start to the goal *)
  sr_ends : path r = [] \/ (head (path r) = Some start /\ last (path r) = Some goal);
  (* the start is the first visited coordinate *)
  sr_visited : head (visited r) = Some start;
  (* a path is returned only if the goal has been popped *)
  sr_goal_visited : path r <> [] -> goal ∈ visited r;
  (* no path into a wall *)
  sr_goal_wall : occupied grid goal -> path r = [];
  (* start = goal: one visited coordinate, no path *)
  sr_same : start = goal -> visited r = [start] /\ path r = [];
  (* only cells that can be reached are visited *)
  sr_reach : forall v, v ∈ visited r -> exists c, reach grid rows cols diag start v c
}.

(** ** Invariant of a search with a consistent heuristic

    This is the search with its sums formed in the integers, without
    rounding; [runDijkstra] and [runAStar] coincide with it as long as
    their sums stay below 2^53. *)

Section OptimalInv.
Variable hfun : coord -> Z.
Variable grid : Grid.
Variables rows cols : Z.
Variable diag : bool.
Variable start : coord.

(** The heuristic never drops by more than the cost of a move. *)
Definition consistent : Prop :=
  forall u v, edge grid rows cols diag u v -> hfun u <= enterCost grid v + hfun v.

(** The move from [u] to [v] cannot improve the recorded cost of [v]. *)
Definition relaxed (g : gmap coord Z) (u v : coord) : Prop :=
  forall gu, g !! u = Some gu ->
    exists gv, g !! v = Some gv /\ gv <= gu + enterCost grid v.

(** Back-pointers lead to visited cells and account exactly for the
    recorded costs. *)
Definition cameExact (st : AState Z) : Prop :=
  forall v u, a_came st !! v = Some u ->
    u ∈ a_visited st /\
    exists gu gv, a_g st !! u = Some gu /\ a_g st !! v = Some gv /\
                  gv = gu + enterCost grid v.

(** Every recorded cost is the cost of some sequence of moves. *)
Definition gReach (st : AState Z) : Prop :=
  forall v gv, a_g st !! v = Some gv -> reach grid rows cols diag start v gv.

(** At the head of the loop. *)
Record OInv (st : AState Z) : Prop := mkOInv {
  o_inv : AInv hfun Z.add grid rows cols diag start st;
  o_heap : heapOrdered (a_pq st);
  o_relaxed : forall u v, u ∈ a_visited st -> edge grid rows cols diag u v ->
                relaxed (a_g st) u v;
  o_mono : forall u gu e, u ∈ a_visited st -> a_g st !! u = Some gu ->
             e ∈ a_pq st -> gu + hfun u <= prio e;
  o_came : cameExact st;
  o_reach : gReach st
}.

(** While the neighbours of [cur], popped with priority [pcur], are
    relaxed; [seen] are the neighbours already handled. *)
Record RInv (cur : coord) (pcur : Z) (seen : list coord) (st : AState Z)
  : Prop := mkRInv {
  r_inv : AInv hfun Z.add grid rows cols diag start st;
  r_heap : heapOrdered (a_pq st);
  r_cur : cur ∈ a_visited st /\
          exists gcur, a_g st !! cur = Some gcur /\ pcur = gcur + hfun cur;
  r_relaxed : forall u v, u ∈ a_visited st -> u <> cur ->
                edge grid rows cols diag u v -> relaxed (a_g st) u v;
  r_seen : forall v, v ∈ seen -> edge grid rows cols diag cur v ->
             relaxed (a_g st) cur v;
  r_low : forall u gu, u ∈ a_visited st -> a_g st !! u = Some gu ->
            gu + hfun u <= pcur;
  r_high : forall e, e ∈ a_pq st -> pcur <= prio e;
  r_came : cameExact st;
  r_reach : gReach st
}.

(** The recorded cost of [goal] is a lower bound on every way to reach it. *)
Definition optimalTo (st : AState Z) (goal : coord) : Prop :=
  forall c, reach grid rows cols diag start goal c ->
    exists gg, a_g st !! goal = Some gg /\ gg <= c.

(** When the loop has been left. *)
Record OFinal (goal : coord) (st : AState Z) : Prop := mkOFinal {
  f_inv : AInv hfun Z.add grid rows cols diag start st;
  f_came : cameExact st;
  f_reach : gReach st;
  f_opt : optimalTo st goal
}.

(** The returned path is a cheapest way to the goal, or there is none. *)
Definition cheapest (goal : coord) (p : list coord) : Prop :=
  (reach grid rows cols diag start goal (pathCost grid p) /\
   forall c, reach grid rows cols diag start goal c -> pathCost grid p <= c) \/
  (p = [] /\ forall c, ~ reach grid rows cols diag start goal c).
End OptimalInv.

(** ** Laws of the number interface

    The few facts about IEEE 754 arithmetic that the proofs below rely on,
    stated against an order [nleq] that extends [<=] by putting NaN above
    every number.
    - [nlt_nleq]: [a < b] is false as soon as one side is NaN, and otherwise
      is the strict part of [<=].
    - [nadd_edge]: an integer weight [w >= 0] times a distance is
      non-negative or NaN; adding it to [a] gives NaN or, rounding being
      monotone, a number that is not below [a].
    - [nadd_mono]: adding the same term to [a <= b] keeps the order; the
      only sums that differ in being NaN involve a negative infinity, which
      [0 <= a] rules out.
    - [neq_hypot_refl], [neq_prio_refl]: a distance, or a non-negative
      integer plus a distance, is never NaN, hence [===] to itself. *)

Class JSNumberLaws (N : JSNumber) : Type := {
  nleq : num -> num -> bool;
  nleq_refl : forall a, nleq a a = true;
  nleq_trans : forall a b c, nleq a b = true -> nleq b c = true -> nleq a c = true;
  nlt_nleq : forall a b, nlt a b = true -> nleq a b = true /\ nleq b a = false;
  nadd_edge : forall a w dr dc, 0 <= w ->
    nleq a (nadd a (nmul (of_Z w) (hypot dr dc))) = true;
  nadd_mono : forall a b x, nleq (of_Z 0) a = true -> nleq a b = true ->
    nleq (nadd a x) (nadd b x) = true;
  neq_hypot_refl : forall dr dc, neq (hypot dr dc) (hypot dr dc) = true;
  neq_prio_refl : forall t dr dc, 0 <= t ->
    neq (nadd (of_Z t) (hypot dr dc)) (nadd (of_Z t) (hypot dr dc)) = true
}.

(** ** Exact rational arithmetic as an instance

    Sums, products, quotients and comparisons are exact; a distance is
    exact when it is an integer and is otherwise the square root rounded
    down to six decimals.  On small integers and dyadic fractions this
    agrees with IEEE doubles. *)

Definition hypotQ (dr dc : Z) : Q :=
  let s := dr * dr + dc * dc in
  let r := Z.sqrt s in
  if r * r =? s then inject_Z r
  else Qmake (Z.sqrt (s * 1000000000000)) 1000000.

#[export] Instance QNum : JSNumber := {|
  num := Q;
  of_Z := inject_Z;
  nadd := Qplus;
  nmul := Qmult;
  ndiv := Qdiv;
  nle := Qle_bool;
  nlt := fun a b => negb (Qle_bool b a);
  neq := Qeq_bool;
  nlt_infinity := fun _ => true;
  hypot := hypotQ;
  nround := fun x => Some (Qfloor (Qplus x (Qmake 1 2)));
  nfloor := fun x => Some (Qfloor x)
|}.

(** A grid as the data model describes it: at least one row, all rows of
    the same length, every weight at least 1. *)
Definition wfGrid (grid : Grid) : Prop :=
  grid <> [] /\ rectGrid grid /\ posWeights grid.

(** [grid.length] and [grid[0].length] of a grid that has a first row. *)
Definition gridRows (grid : Grid) : Z := Z.of_nat (length grid).
Definition gridCols (grid : Grid) : Z :=
  match grid with
  | [] => 0
  | row0 :: _ => Z.of_nat (length row0)
  end.

(** Executable versions of [wfGrid] and [noWalls]. *)
Definition wfGridb (grid : Grid) : bool :=
  match grid with
  | [] => false
  | row0 :: _ =>
    forallb (fun row => (length row =? length row0)%nat &&
                        forallb (fun cell => 1 <=? weightOf cell) row) grid
  end.

Definition noWallsb (grid : Grid) : bool :=
  forallb (fun row => forallb (fun cell => negb (wall cell)) row) grid.

(** ** The cells of the line walk *)

(** The cells visited by the [while (true)] loop of [lineFree] when no cell
    is blocked: the current cell, then the walk from the next one. *)
Fixpoint linePoints (fuel : nat) (x1 y1 dx dy sx sy : Z) (x0 y0 err : Z)
  : list coord :=
  match fuel with
  | O => []
  | S fuel' =>
    (x0, y0) ::
    if (x0 =? x1) && (y0 =? y1) then []
    else
      let e2 := err * 2 in
      let ex := if - dy <? e2 then (err - dy, x0 + sx) else (err, x0) in
      let ey := if e2 <? dx then (fst ex + dx, y0 + sy) else (fst ex, y0) in
      linePoints fuel' x1 y1 dx dy sx sy (snd ex) (snd ey) (fst ey)
  end.

(** The cells of the discrete line from [a] to [b], both included. *)
Definition bresenham (a b : coord) : list coord :=
  let dx := Z.abs (fst b - fst a) in
  let dy := Z.abs (snd b - snd a) in
  let sx := if fst a <? fst b then 1 else -1 in
  let sy := if snd a <? snd b then 1 else -1 in
  linePoints (S (Z.to_nat (dx + dy))) (fst b) (snd b) dx dy sx sy
             (fst a) (snd a) (dx - dy).

(** [isFree] as a total function on a grid that is a matrix. *)
Definition freeCell (grid : Grid) (rows cols : Z) (v : coord) : bool :=
  inBounds (fst v) (snd v) rows cols &&
  match cellAt grid (fst v) (snd v) with
  | Some cell => negb (wall cell)
  | None => false
  end.

(** One step of a king on a chess board. *)
Definition kingStep (p q : coord) : Prop :=
  Z.abs (fst q - fst p) <= 1 /\ Z.abs (snd q - snd p) <= 1.

(** The state of the line walk: [rx], [ry] cells remain to be walked in
    each direction, and [err] accounts for them. *)
Definition walkInv (x1 y1 dx dy sx sy x0 y0 err rx ry : Z) : Prop :=
  0 <= rx <= dx /\ 0 <= ry <= dy /\
  (sx = 1 \/ sx = -1) /\ (sy = 1 \/ sy = -1) /\
  x1 = x0 + sx * rx /\ y1 = y0 + sy * ry /\
  err = dx - dy + rx * dy - ry * dx.

(** ** Invariant of the RRT* tree *)

Section TreeInv.
Context {N : JSNumber} {L : JSNumberLaws N}.
Variable grid : Grid.
Variables rows cols : Z.
Variable start : coord.

(** Every cell of the line walk from [a] to [b] is free. *)
Definition lineOK (a b : coord) : Prop :=
  forallb (freeCell grid rows cols) (bresenham a b) = true.

(** [stamp k] is a ghost time stamp: when the cost of node [k] was last
    written.  Along a parent link the cost does not grow, and where it
    stays the same the parent carries the older stamp. *)
Record TInv (stamp : nat -> nat) (nodes : list TreeNode) : Prop := mkTInv {
  t_root : nodes !! 0%nat = Some (mkNode (fst start) (snd start) (-1) (of_Z 0));
  t_parent : forall k nd, (0 < k)%nat -> nodes !! k = Some nd ->
    exists p pn, n_parent nd = Z.of_nat p /\ nodes !! p = Some pn /\
      lineOK (pos pn) (pos nd) /\
      nleq (n_cost pn) (n_cost nd) = true /\
      ((stamp p < stamp k)%nat \/ nleq (n_cost nd) (n_cost pn) = false);
  t_cost : forall k nd, nodes !! k = Some nd -> nleq (of_Z 0) (n_cost nd) = true
}.

(** What the link from [pn] to its child [nd] costs on top of the cost
    stored in [pn]: [pn.cost + cellWeight(nd) * dist(pn, nd)]. *)
Definition edgeCost (pn nd : TreeNode) : num :=
  nadd (n_cost pn)
       (nmul (of_Z (enterCost grid (pos nd))) (euclid (pos pn) (pos nd))).

(** Every node but the root and the goal node [gi] stores a cost that is
    not below the cost of the link from its current parent. *)
Definition CInv (gi : Z) (nodes : list TreeNode) : Prop :=
  forall k nd, (0 < k)%nat -> Z.of_nat k <> gi -> nodes !! k = Some nd ->
    exists p pn, n_parent nd = Z.of_nat p /\ nodes !! p = Some pn /\
                 nleq (edgeCost pn nd) (n_cost nd) = true.

(** The cost accumulated from the root along the parent links of node
    [k]: the sum of [cellWeight(child) * dist(parent, child)]. *)
Fixpoint accumCost (fuel : nat) (nodes : list TreeNode) (k : nat) : option num :=
  match fuel with
  | O => None
  | S fuel' =>
    match nodes !! k with
    | None => None
    | Some nd =>
      if n_parent nd =? -1 then Some (of_Z 0)
      else
        match nodes !! Z.to_nat (n_parent nd) with
        | None => None
        | Some pn =>
          match accumCost fuel' nodes (Z.to_nat (n_parent nd)) with
          | None => None
          | Some acc =>
            Some (nadd acc (nmul (of_Z (enterCost grid (pos nd)))
                                 (euclid (pos pn) (pos nd))))
          end
        end
    end
  end.

(** Node [m] comes strictly before node [k]: smaller cost, or the same
    cost and an older stamp. *)
Definition below (stamp : nat -> nat) (nodes : list TreeNode) (k m : nat) : bool :=
  match nodes !! m, nodes !! k with
  | Some a, Some b =>
    (nleq (n_cost a) (n_cost b) && negb (nleq (n_cost b) (n_cost a))) ||
    (nleq (n_cost a) (n_cost b) && nleq (n_cost b) (n_cost a) &&
     (stamp m <? stamp k)%nat)
  | _, _ => false
  end.

(** How many nodes come strictly before node [k]. *)
Definition rank (stamp : nat -> nat) (nodes : list TreeNode) (k : nat) : nat :=
  length (List.filter (below stamp nodes k) (seq 0 (length nodes))).

(** The goal has not been connected, or it is the last node, hangs below
    the node inserted just before it, and sits on the goal cell. *)
Definition goalOK (goal : coord) (st : RState) : Prop :=
  r_goalIndex st = -1 \/
  exists gi gn, r_goalIndex st = Z.of_nat gi /\ (2 <= gi)%nat /\
    r_nodes st !! gi = Some gn /\ pos gn = goal /\
    n_parent gn = Z.of_nat (gi - 1).

Record SInv (goal : coord) (st : RState) : Prop := mkSInv {
  s_tree : exists stamp, TInv stamp (r_nodes st);
  s_visited : head (r_visited st) = Some start;
  s_goal : goalOK goal st;
  s_cost : CInv (r_goalIndex st) (r_nodes st)
}.
End TreeInv.

(** ** Returning from some amount of fuel on *)

Definition settles {A : Type} (f : nat -> outcome A) (a : A) : Prop :=
  exists n, forall m, (n <= m)%nat -> f m = Returned a.

(** ** What an RRT* result looks like *)

Record rrtResult (grid : Grid) (rows cols : Z) (start goal : coord)
    (r : PlanningResult) : Prop := mkRrtResult {
  (* the start is the first visited coordinate *)
  rr_visited : head (visited r) = Some start;
  (* no coordinate of the path is a wall or out of bounds *)
  rr_free : forall v, v ∈ path r -> freeCell grid rows cols v = true;
  (* consecutive coordinates are joined by a free line walk *)
  rr_linked : linked (lineOK grid rows cols) (path r);
  (* a path has the start, at least one tree node and the goal *)
  rr_shape : path r = [] \/
             (head (path r) = Some start /\ last (path r) = Some goal /\
              (3 <= length (path r))%nat)
}.

(** ** Example inputs *)

Definition freeCell1 : Cell := mkCell false (Some 1).
Definition wallCell1 : Cell := mkCell true (Some 1).

(** One row: a wall, then a free cell. *)
Definition exGridWallStart : Grid := [[wallCell1; freeCell1]].

(** One row: free, wall, free. *)
Definition exGridBlocked : Grid := [[freeCell1; wallCell1; freeCell1]].

(** A single free cell. *)
Definition exGrid1 : Grid := [[freeCell1]].

(** One row of three free cells. *)
Definition exGridRow3 : Grid := [[freeCell1; freeCell1; freeCell1]].

(** Two rows of two free cells. *)
Definition exGrid2x2 : Grid := [[freeCell1; freeCell1]; [freeCell1; freeCell1]].

(** One row of eight free cells, the third of weight 10. *)
Definition exGridRow8 : Grid :=
  [[freeCell1; freeCell1; mkCell false (Some 10); freeCell1;
    freeCell1; freeCell1; freeCell1; freeCell1]].

(** [opts = {}] *)
Definition noOpts {N : JSNumber} : RRTOpts := mkOpts None None None None.

(** Random numbers that always fall below the goal bias: every sample is
    the goal. *)
Definition randGoal (_ : nat) : Q := Qmake 1 16.

(** Random numbers that never fall below the goal bias and sample the
    middle column of a grid with one row and three columns: draw 0 decides
    between goal and cell, draw 1 gives the row, draw 2 the column. *)
Definition randMiddle (k : nat) : Q :=
  match (k mod 3)%nat with
  | 0%nat => Qmake 1 2
  | 1%nat => 0%Q
  | _ => Qmake 1 2
  end.

(** Random numbers that sample the cells (0,2), (0,3), (0,1) of a grid with
    one row and eight columns, in this order. *)
Definition randRow8 (k : nat) : Q :=
  match (k mod 3)%nat with
  | 0%nat => Qmake 1 2
  | 1%nat => 0%Q
  | _ => match (k / 3)%nat with
         | 0%nat => Qmake 1 4
         | 1%nat => Qmake 3 8
         | _ => Qmake 1 8
         end
  end.

From Stdlib Require Import Sorted.
From Stdlib Require String Ascii DecimalString DecimalZ DecimalPos.

(** * Further vocabulary *)

(** ** The heap as a priority queue *)

(** [for (x of l) pq.push(x)] on an empty heap. *)
Definition pushAll (l : list (entry Z)) : list (entry Z) :=
  fold_left (fun a x => push Z.leb x a) l [].

(** [while (pq.size) out.push(pq.pop())]; a heap of [n] entries is empty
    after [n] rounds. *)
Fixpoint popAll (fuel : nat) (a : list (entry Z)) : list (entry Z) :=
  match fuel with
  | O => []
  | S fuel' =>
    match pop Z.ltb a with
    | None => []
    | Some (top, a') => top :: popAll fuel' a'
    end
  end.

Definition prioLe (x y : entry Z) : Prop := prio x <= prio y.

(** ** Distances on the grid *)

Definition chebyshev (a b : coord) : Z :=
  Z.max (Z.abs (fst a - fst b)) (Z.abs (snd a - snd b)).

(** [d] is the least cost at which [v] can be reached from [start]. *)
Definition shortest (grid : Grid) (rows cols : Z) (diag : bool)
    (start v : coord) (d : Z) : Prop :=
  reach grid rows cols diag start v d /\
  forall c, reach grid rows cols diag start v c -> d <= c.

(** ** What the search loop knows about the cells it has visited *)

Section VisitInv.
Variable hfun : coord -> Z.
Variable grid : Grid.
Variables rows cols : Z.
Variable diag : bool.
Variable start : coord.

(** The queue holds no entry twice and none below the recorded priority
    of its cell; the entries left for a visited cell are stale; no cell
    is visited twice; cells are visited in order of priority, each at
    its least cost. *)
Record WInv (st : AState Z) : Prop := mkWInv {
  w_pq : NoDup (a_pq st);
  w_low : forall e gv, e ∈ a_pq st -> a_g st !! node e = Some gv ->
            gv + hfun (node e) <= prio e;
  w_done : forall e gv, e ∈ a_pq st -> node e ∈ a_visited st ->
             a_g st !! node e = Some gv -> gv + hfun (node e) < prio e;
  w_visited : NoDup (a_visited st);
  w_order : forall i j u v gu gv, (i <= j)%nat ->
              a_visited st !! i = Some u -> a_visited st !! j = Some v ->
              a_g st !! u = Some gu -> a_g st !! v = Some gv ->
              gu + hfun u <= gv + hfun v;
  w_settled : forall u gu c, u ∈ a_visited st -> a_g st !! u = Some gu ->
                reach grid rows cols diag start u c -> gu <= c
}.
End VisitInv.

(** ** Sums that doubles hold exactly *)

(** The largest weight of a grid, and at least 1. *)
Definition maxWeight (grid : Grid) : Z :=
  foldr (fun row acc => foldr (fun cell a => Z.max (weightOf cell) a) acc row) 1 grid.

(** No cost recorded by a search that visits no cell twice exceeds this:
    the start may lie outside the grid, and every cost is that of a
    visited cell plus one weight. *)
Definition sumBound (grid : Grid) : Z :=
  maxWeight grid * (gridRows grid * gridCols grid + 1).

(** No Manhattan distance from a cell of the grid to [goal] exceeds this. *)
Definition heurBound (grid : Grid) (goal : coord) : Z :=
  gridRows grid + gridCols grid + Z.abs (fst goal) + Z.abs (snd goal).

(** Every recorded cost is at most [W] for each cell visited so far. *)
Definition costsBelow (W : Z) (st : AState Z) : Prop :=
  forall v d, a_g st !! v = Some d -> d <= W * Z.of_nat (length (a_visited st)).

(** Two rows of two cells whose weights lie around 2^53: from the top
    right cell to the bottom left one the way through the top left cell
    costs 2^53 and the way through the bottom right cell 2^53 + 1. *)
Definition exGridHeavy : Grid :=
  [[mkCell false (Some (2 ^ 53 - 1)); mkCell false (Some (2 ^ 53 + 2))];
   [mkCell false (Some 1); mkCell false (Some (2 ^ 53))]].

(** ** The loop of [nearest] *)

(** After the first [i] nodes, [bestD] is the distance of node [best] and
    no node seen is strictly closer; as long as [bestD] is [Infinity] no
    node seen is at a distance below [Infinity]. *)
Definition nearInv {N : JSNumber} (nodes : list TreeNode) (pt : coord)
    (acc : nat * option num * nat) : Prop :=
  let '(best, bestD, i) := acc in
  match bestD with
  | None => best = 0%nat /\
            forall j nd, (j < i)%nat -> nodes !! j = Some nd ->
                         nlt_infinity (euclid pt (pos nd)) = false
  | Some b => exists bn, nodes !! best = Some bn /\ b = euclid pt (pos bn) /\
              forall j nd, (j < i)%nat -> nodes !! j = Some nd ->
                           nlt (euclid pt (pos nd)) b = false
  end.

(** * The editor around the planners

    [PathPlanningVisualizer] keeps its state in React state variables;
    each handler is modelled as a function from the state in which it is
    called to the state after it.  A handler that draws random numbers
    takes the values of its own calls of [Math.random()], in order, as
    [rand 0], [rand 1], ...; these are doubles in [[0, 1)], read as
    rationals. *)

Definition DEFAULT_ROWS : Z := 24.
Definition DEFAULT_COLS : Z := 38.

(** [clamp(n, lo, hi)], on integers. *)
Definition clamp (n lo hi : Z) : Z := Z.max lo (Z.min hi n).

(** [makeGrid(rows, cols)]: [Array.from({ length: n }, ...)] has no element
    when [n] is not positive. *)
Definition makeGrid (rows cols : Z) : Grid :=
  replicate (Z.to_nat rows) (replicate (Z.to_nat cols) (mkCell false (Some 1))).

Inductive Tool : Type := WALL | ERASE | WEIGHT | START | GOAL.

Inductive Algorithm : Type := ASTAR | DIJKSTRA | RRTSTAR.

Record AppState : Type := mkApp {
  app_rows : Z;
  app_cols : Z;
  app_grid : Grid;
  app_start : coord;
  app_goal : coord;
  app_tool : Tool;
  app_algo : Algorithm;
  app_diag : bool;
  app_speed : Z;
  app_animating : bool;
  app_visited : list coord;
  app_path : list coord;
  app_mouseDown : bool;
  app_weightBrush : Z
}.

(** The state of the first render. *)
Definition initialState : AppState :=
  mkApp DEFAULT_ROWS DEFAULT_COLS (makeGrid DEFAULT_ROWS DEFAULT_COLS)
        (2, 2) (DEFAULT_ROWS - 3, DEFAULT_COLS - 3)
        WALL ASTAR false 28 false [] [] false 5.

Definition setGrid (g : Grid) (st : AppState) : AppState :=
  mkApp (app_rows st) (app_cols st) g (app_start st) (app_goal st) (app_tool st) (app_algo st)
        (app_diag st) (app_speed st) (app_animating st) (app_visited st) (app_path st)
        (app_mouseDown st) (app_weightBrush st).

Definition setStart (v : coord) (st : AppState) : AppState :=
  mkApp (app_rows st) (app_cols st) (app_grid st) v (app_goal st) (app_tool st) (app_algo st)
        (app_diag st) (app_speed st) (app_animating st) (app_visited st) (app_path st)
        (app_mouseDown st) (app_weightBrush st).

Definition setGoal (v : coord) (st : AppState) : AppState :=
  mkApp (app_rows st) (app_cols st) (app_grid st) (app_start st) v (app_tool st) (app_algo st)
        (app_diag st) (app_speed st) (app_animating st) (app_visited st) (app_path st)
        (app_mouseDown st) (app_weightBrush st).

Definition setTool (t : Tool) (st : AppState) : AppState :=
  mkApp (app_rows st) (app_cols st) (app_grid st) (app_start st) (app_goal st) t (app_algo st)
        (app_diag st) (app_speed st) (app_animating st) (app_visited st) (app_path st)
        (app_mouseDown st) (app_weightBrush st).

Definition setAlgo (a : Algorithm) (st : AppState) : AppState :=
  mkApp (app_rows st) (app_cols st) (app_grid st) (app_start st) (app_goal st) (app_tool st) a
        (app_diag st) (app_speed st) (app_animating st) (app_visited st) (app_path st)
        (app_mouseDown st) (app_weightBrush st).

Definition setDiag (b : bool) (st : AppState) : AppState :=
  mkApp (app_rows st) (app_cols st) (app_grid st) (app_start st) (app_goal st) (app_tool st)
        (app_algo st) b (app_speed st) (app_animating st) (app_visited st) (app_path st)
        (app_mouseDown st) (app_weightBrush st).

Definition setSpeed (n : Z) (st : AppState) : AppState :=
  mkApp (app_rows st) (app_cols st) (app_grid st) (app_start st) (app_goal st) (app_tool st)
        (app_algo st) (app_diag st) n (app_animating st) (app_visited st) (app_path st)
        (app_mouseDown st) (app_weightBrush st).

Definition setMouseDown (b : bool) (st : AppState) : AppState :=
  mkApp (app_rows st) (app_cols st) (app_grid st) (app_start st) (app_goal st) (app_tool st)
        (app_algo st) (app_diag st) (app_speed st) (app_animating st) (app_visited st) (app_path st)
        b (app_weightBrush st).

Definition setWeightBrush (n : Z) (st : AppState) : AppState :=
  mkApp (app_rows st) (app_cols st) (app_grid st) (app_start st) (app_goal st) (app_tool st)
        (app_algo st) (app_diag st) (app_speed st) (app_animating st) (app_visited st) (app_path st)
        (app_mouseDown st) n.

(** [setVisited(v); setPath(p)] *)
Definition setResult (v p : list coord) (st : AppState) : AppState :=
  mkApp (app_rows st) (app_cols st) (app_grid st) (app_start st) (app_goal st) (app_tool st)
        (app_algo st) (app_diag st) (app_speed st) (app_animating st) v p
        (app_mouseDown st) (app_weightBrush st).

(** [reset] *)
Definition reset (st : AppState) : AppState :=
  mkApp (app_rows st) (app_cols st) (app_grid st) (app_start st) (app_goal st) (app_tool st)
        (app_algo st) (app_diag st) (app_speed st) false [] []
        (app_mouseDown st) (app_weightBrush st).

(** [clearAll] *)
Definition clearAll (st : AppState) : AppState :=
  reset (setGrid (makeGrid (app_rows st) (app_cols st)) st).

(** The effect that runs when [rows] or [cols] has changed. *)
Definition sizeEffect (st : AppState) : AppState :=
  mkApp (app_rows st) (app_cols st) (makeGrid (app_rows st) (app_cols st))
        (2, 2) (app_rows st - 3, app_cols st - 3) (app_tool st)
        (app_algo st) (app_diag st) (app_speed st) false [] []
        (app_mouseDown st) (app_weightBrush st).

(** [setRows(clamp(parseInt(e.target.value || "0"), 8, 60))], where [n] is
    the integer that [parseInt] reads from the text of the input (a text
    in which it finds no integer is not covered); setting the value the
    state already has renders nothing and runs no effect. *)
Definition changeRows (n : Z) (st : AppState) : AppState :=
  let rows' := clamp n 8 60 in
  if rows' =? app_rows st then st
  else sizeEffect
         (mkApp rows' (app_cols st) (app_grid st) (app_start st) (app_goal st) (app_tool st)
                (app_algo st) (app_diag st) (app_speed st) (app_animating st) (app_visited st)
                (app_path st) (app_mouseDown st) (app_weightBrush st)).

(** [setCols(clamp(parseInt(e.target.value || "0"), 8, 80))] *)
Definition changeCols (n : Z) (st : AppState) : AppState :=
  let cols' := clamp n 8 80 in
  if cols' =? app_cols st then st
  else sizeEffect
         (mkApp (app_rows st) cols' (app_grid st) (app_start st) (app_goal st) (app_tool st)
                (app_algo st) (app_diag st) (app_speed st) (app_animating st) (app_visited st)
                (app_path st) (app_mouseDown st) (app_weightBrush st)).

(** [mutateCell(r, c, fn)] as a function of the grid.  Every [fn] of the
    source returns both fields of a cell, so that the spread
    [{ ...ng[r][c], ...fn(ng[r][c]) }] is the cell [fn] returns.  A missing
    row makes the read [ng[r][c]] throw; the column just past the end of
    a row extends the row; a column further out would leave holes in the
    row, which is then no row of a [Grid] any more: [Returned None]. *)
Definition mutateCell (g : Grid) (r c : nat) (fn : option Cell -> Cell)
  : outcome (option Grid) :=
  match g !! r with
  | None => Threw
  | Some row =>
    let x := fn (row !! c) in
    if (c <? length row)%nat then Returned (Some (<[r := <[c := x]> row]> g))
    else if (c =? length row)%nat then Returned (Some (<[r := row ++ [x]]> g))
    else Returned None
  end.

Definition withGrid (st : AppState) (g : outcome (option Grid))
  : outcome (option AppState) :=
  do og <- g; Returned ((fun g' => setGrid g' st) <$> og).

(** [handleCell(r, c)] *)
Definition handleCell (st : AppState) (r c : nat) : outcome (option AppState) :=
  if app_animating st then Returned (Some st)
  else
    match app_tool st with
    | START => Returned (Some (setStart (Z.of_nat r, Z.of_nat c) st))
    | GOAL => Returned (Some (setGoal (Z.of_nat r, Z.of_nat c) st))
    | WALL =>
      withGrid st (mutateCell (app_grid st) r c (fun _ => mkCell true (Some 1)))
    | ERASE =>
      withGrid st (mutateCell (app_grid st) r c (fun _ => mkCell false (Some 1)))
    | WEIGHT =>
      withGrid st (mutateCell (app_grid st) r c
                     (fun _ => mkCell false (Some (clamp (app_weightBrush st) 1 20))))
    end.

(** [handleDrag(r, c)] *)
Definition handleDrag (st : AppState) (r c : nat) : outcome (option AppState) :=
  if negb (app_mouseDown st) then Returned (Some st) else handleCell st r c.

(** [(r, c)] is one of the cells rendered by
    [grid.map((row, r) => row.map((cell, c) => ...))], the only ones that
    carry the mouse handlers. *)
Definition rendered (g : Grid) (r c : nat) : Prop :=
  exists row cell, g !! r = Some row /\ row !! c = Some cell.

(** The cell [g[r][c]] at indices that are natural numbers. *)
Definition cellOf (g : Grid) (r c : nat) : option Cell :=
  g !! r ≫= (fun row => row !! c).

(** The cell a tool paints, if it paints one. *)
Definition paint (t : Tool) (brush : Z) : option Cell :=
  match t with
  | WALL => Some (mkCell true (Some 1))
  | ERASE => Some (mkCell false (Some 1))
  | WEIGHT => Some (mkCell false (Some (clamp brush 1 20)))
  | START | GOAL => None
  end.

Section RandomScenes.
Variable rand : nat -> Q.

(** [a < b] on rationals. *)
Definition Qltb (a b : Q) : bool := negb (Qle_bool b a).

(** [row.map((cell, c) => ...)], threading the number [k] of random
    draws made so far. *)
Fixpoint mapCells (f : nat -> Cell -> nat -> Cell * nat) (c : nat)
    (row : list Cell) (k : nat) : list Cell * nat :=
  match row with
  | [] => ([], k)
  | cell :: row' =>
    let '(x, k1) := f c cell k in
    let '(xs, k2) := mapCells f (S c) row' k1 in
    (x :: xs, k2)
  end.

(** [g.map((row, r) => row.map(...))] *)
Fixpoint mapRows (f : nat -> nat -> Cell -> nat -> Cell * nat) (r : nat)
    (g : Grid) (k : nat) : Grid * nat :=
  match g with
  | [] => ([], k)
  | row :: g' =>
    let '(xs, k1) := mapCells (f r) 0 row k in
    let '(xss, k2) := mapRows f (S r) g' k1 in
    (xs :: xss, k2)
  end.

(** The cell function of [randomMaze(density)]. *)
Definition mazeCell (density : Q) (start goal : coord) (r c : nat) (cell : Cell)
    (k : nat) : Cell * nat :=
  if ((Z.of_nat r =? fst start) && (Z.of_nat c =? snd start)) ||
     ((Z.of_nat r =? fst goal) && (Z.of_nat c =? snd goal))
  then (mkCell false (Some 1), k)
  else if Qltb (rand k) density
       then (mkCell true (Some 1), S k)
       else (mkCell false (Some 1), S k).

Definition randomMaze (density : Q) (st : AppState) : AppState :=
  reset (setGrid (fst (mapRows (mazeCell density (app_start st) (app_goal st)) 0
                         (app_grid st) 0)) st).

(** The cell function of [randomWeights(prob)]. *)
Definition weightCell (prob : Q) (r c : nat) (cell : Cell) (k : nat) : Cell * nat :=
  if wall cell then (mkCell true (Some 1), k)
  else if Qltb (rand k) prob
       then (mkCell false (Some (6 + Qfloor (rand (S k) * 8))), S (S k))
       else (mkCell false (Some 1), S k).

Definition randomWeights (prob : Q) (st : AppState) : AppState :=
  reset (setGrid (fst (mapRows (weightCell prob) 0 (app_grid st) 0)) st).
End RandomScenes.

Section RunOnce.
Context {N : JSNumber}.
Variable rand : nat -> num.

(** The options [runOnce] passes to [runRRTStar]. *)
Definition uiOpts : RRTOpts :=
  mkOpts (Some 2500%nat) (Some (of_Z 4)) (Some (of_Z 2)) None.

(** [runOnce] *)
Definition runOnce (fuel : nat) (st : AppState) : outcome AppState :=
  if app_animating st then Returned st
  else
    do result <-
      match app_algo st with
      | DIJKSTRA => runDijkstra fuel (app_grid st) (app_start st) (app_goal st) (app_diag st)
      | RRTSTAR => runRRTStar rand fuel (app_grid st) (app_start st) (app_goal st) uiOpts
      | ASTAR => runAStar fuel (app_grid st) (app_start st) (app_goal st) (app_diag st)
      end;
    Returned (setResult (visited result) (path result) st).
End RunOnce.

(** What every state of the editor satisfies: the sizes are within the
    limits of the two inputs, the grid is a [rows] x [cols] matrix of cells
    with a weight between 1 and 20, and start and goal are in bounds. *)
Definition cellOK (cell : Cell) : Prop :=
  exists w, weight cell = Some w /\ 1 <= w <= 20.

Definition gridOK (rows cols : Z) (g : Grid) : Prop :=
  Z.of_nat (length g) = rows /\
  Forall (fun row => Z.of_nat (length row) = cols /\ Forall cellOK row) g.

Record EInv (st : AppState) : Prop := mkEInv {
  e_rows : 8 <= app_rows st <= 60;
  e_cols : 8 <= app_cols st <= 80;
  e_grid : gridOK (app_rows st) (app_cols st) (app_grid st);
  e_start : inBounds (fst (app_start st)) (snd (app_start st)) (app_rows st) (app_cols st) = true;
  e_goal : inBounds (fst (app_goal st)) (snd (app_goal st)) (app_rows st) (app_cols st) = true
}.

(** One user action, apart from the animation and the import of a
    scene; the two size inputs hold a text that [parseInt] reads as an
    integer. *)
Inductive editorStep {N : JSNumber} : AppState -> AppState -> Prop :=
| step_click st r c st' :
    rendered (app_grid st) r c -> handleCell st r c = Returned (Some st') ->
    editorStep st st'
| step_press st r c st' :
    rendered (app_grid st) r c ->
    handleCell (setMouseDown true st) r c = Returned (Some st') ->
    editorStep st st'
| step_drag st r c st' :
    rendered (app_grid st) r c -> handleDrag st r c = Returned (Some st') ->
    editorStep st st'
| step_release st : editorStep st (setMouseDown false st)
| step_tool st t : editorStep st (setTool t st)
| step_algo st a : editorStep st (setAlgo a st)
| step_diag st b : editorStep st (setDiag b st)
| step_speed st n : editorStep st (setSpeed n st)
| step_brush st n : editorStep st (setWeightBrush n st)
| step_rows st n : editorStep st (changeRows n st)
| step_cols st n : editorStep st (changeCols n st)
| step_reset st : editorStep st (reset st)
| step_clear st : editorStep st (clearAll st)
| step_maze st rand density : editorStep st (randomMaze rand density st)
| step_weights st rand prob :
    (forall k, (0 <= rand k)%Q /\ (rand k < 1)%Q) ->
    editorStep st (randomWeights rand prob st)
| step_run st rand fuel st' :
    runOnce rand fuel st = Returned st' -> editorStep st st'.

Inductive reachable {N : JSNumber} : AppState -> Prop :=
| reach_init : reachable initialState
| reach_next st st' : reachable st -> editorStep st st' -> reachable st'.

(** ** animate

    [animate] is an asynchronous function: it awaits a timer after every
    update of the display.  It is modelled by the list of the states in
    which it waits, in order, followed by the state it leaves, as they are
    when no other handler runs in between. *)

(** [l.slice(i, j)] *)
Definition slice {A : Type} (l : list A) (i j : nat) : list A :=
  take (j - i) (drop i l).

(** The values of [visited] after each round of
    [for (let i = 0; i < result.visited.length; i += batchSize)]; beginning
    at [i] with [cur] on display. *)
Fixpoint visitedFrames (fuel i : nat) (res cur : list coord) : list (list coord) :=
  match fuel with
  | O => []
  | S fuel' =>
    if (i <? length res)%nat
    then let cur' := cur ++ slice res i (i + 3) in
         cur' :: visitedFrames fuel' (i + 3) res cur'
    else []
  end.

(** The values of [path] after each round of the second loop. *)
Fixpoint pathFrames (res cur : list coord) : list (list coord) :=
  match res with
  | [] => []
  | v :: res' => (cur ++ [v]) :: pathFrames res' (cur ++ [v])
  end.

Definition setAnimating (b : bool) (st : AppState) : AppState :=
  mkApp (app_rows st) (app_cols st) (app_grid st) (app_start st) (app_goal st) (app_tool st)
        (app_algo st) (app_diag st) (app_speed st) b (app_visited st) (app_path st)
        (app_mouseDown st) (app_weightBrush st).

(** The states in which [animate] waits and the state it leaves, given
    the result of the planner. *)
Definition animateFrames (st : AppState) (result : PlanningResult) : list AppState :=
  if app_animating st then []
  else
    let st0 := setAnimating true (setResult [] [] st) in
    let vs := visitedFrames (length (visited result)) 0 (visited result) [] in
    let shown := default [] (last vs) in
    let ps := pathFrames (path result) [] in
    ((fun v => setResult v [] st0) <$> vs) ++
    ((fun p => setResult shown p st0) <$> ps) ++
    [setAnimating false (setResult shown (default [] (last ps)) st0)].

(** * Keys

    The searches index their dictionaries by the string [key(r, c)] and
    read the coordinates back with [split(",").map(Number)].  The
    embedding above uses the pair [(r, c)] itself; what follows models the
    strings, for integers that JavaScript writes in plain decimal
    notation. *)

Definition comma : Ascii.ascii := Ascii.ascii_of_nat 44.

(** [`${n}`] for an integer [n]: decimal digits after an optional minus
    sign.  From 10^21 on JavaScript writes an exponent, which is not
    modelled: [None]. *)
Definition numberToString (n : Z) : option String.string :=
  if Z.abs n <? 10 ^ 21
  then Some (DecimalString.NilZero.string_of_int (Z.to_int n))
  else None.

(** [key(r, c)] *)
Definition key (r c : Z) : option String.string :=
  match numberToString r, numberToString c with
  | Some a, Some b => Some (String.append a (String.String comma b))
  | _, _ => None
  end.

(** [s.split(",")] *)
Fixpoint splitComma (s : String.string) : list String.string :=
  match s with
  | String.EmptyString => [String.EmptyString]
  | String.String a s' =>
    if Ascii.eqb a comma then String.EmptyString :: splitComma s'
    else match splitComma s' with
         | [] => [String.String a String.EmptyString]
         | p :: ps => String.String a p :: ps
         end
  end.

(** [Number(s)] for a string that is a decimal integer literal with an
    optional minus sign; [None] for the strings that are none (among them
    those for which JavaScript gives [NaN]). *)
Definition toNumber (s : String.string) : option Z :=
  option_map Z.of_int (DecimalString.NilZero.int_of_string s).

(** [const [r, c] = k.split(",").map(Number)] *)
Definition parseKey (k : String.string) : option Z * option Z :=
  match splitComma k with
  | a :: b :: _ => (toNumber a, toNumber b)
  | [a] => (toNumber a, None)
  | [] => (None, None)
  end.

Fixpoint hasComma (s : String.string) : bool :=
  match s with
  | String.EmptyString => false
  | String.String a s' => Ascii.eqb a comma || hasComma s'
  end.

(** * Properties *)

(** ** The heap keeps its entries *)

Section HeapEntries.
Context {P : Type}.
Variable ple plt : P -> P -> bool.
Implicit Types a : list (entry P).

Lemma swap_perm a i m : swap a i m ≡ₚ a.
Proof.
  unfold swap. destruct (a !! i) eqn:Hi; [|done].
  destruct (a !! m) eqn:Hm; [|done].
  by apply Permutation_insert_swap.
Qed.

Lemma swap_length a i m : length (swap a i m) = length a.
Proof. apply Permutation_length, swap_perm. Qed.

Lemma up_perm fuel a i : up ple fuel a i ≡ₚ a.
Proof.
  revert a i. induction fuel as [|fuel IH]; intros a i; simpl; [done|].
  destruct (0 <? i)%nat; [|done].
  destruct (a !! Nat.div2 (i - 1)); [|done].
  destruct (a !! i); [|done].
  destruct (ple _ _); [done|].
  rewrite IH. apply swap_perm.
Qed.

Lemma down_perm fuel a i : down plt fuel a i ≡ₚ a.
Proof.
  revert a i. induction fuel as [|fuel IH]; intros a i; simpl; [done|].
  match goal with |- context [(?m =? i)%nat] => destruct (m =? i)%nat; [done|] end.
  rewrite IH. apply swap_perm.
Qed.

Lemma push_perm x a : push ple x a ≡ₚ x :: a.
Proof.
  unfold push. rewrite up_perm. symmetry. apply Permutation_cons_append.
Qed.

Lemma pop_None a : pop plt a = None <-> a = [].
Proof.
  split; [|by intros ->].
  destruct a as [|top rest]; [done|]. unfold pop.
  destruct (last (top :: rest)) eqn:Hl.
  - destruct (removelast (top :: rest)); discriminate.
  - apply last_None in Hl. discriminate.
Qed.

Local Opaque down.

Lemma pop_perm a top a' : pop plt a = Some (top, a') -> a ≡ₚ top :: a'.
Proof.
  destruct a as [|t rest]; [done|]. unfold pop.
  destruct (last (t :: rest)) as [lst|] eqn:Hl; [|done].
  apply last_Some in Hl as [l' Hl']. rewrite Hl', removelast_last.
  destruct l' as [|t' l'].
  - simpl in Hl'. injection Hl' as -> ->. intros [= <- <-]. done.
  - simpl in Hl'. injection Hl' as <- ->. simpl. intros [= <- <-].
    rewrite down_perm. simpl.
    constructor. symmetry. apply Permutation_cons_append.
Qed.

Lemma pop_eq a top a' :
  pop plt a = Some (top, a') ->
  exists l lst, a = l ++ [lst] /\
    ((l = [] /\ top = lst /\ a' = []) \/
     (exists t l2, l = t :: l2 /\ top = t /\
        a' = down plt (length l) (lst :: l2) 0)).
Proof.
  destruct a as [|t rest]; [done|]. unfold pop.
  destruct (last (t :: rest)) as [lst|] eqn:Hl; [|done].
  apply last_Some in Hl as [l' Hl']. rewrite Hl', removelast_last.
  exists l', lst. split; [done|].
  destruct l' as [|t' l'].
  - simpl in Hl'. injection Hl' as -> ->. injection H as <- <-. by left.
  - simpl in Hl'. injection Hl' as <- ->. simpl in H. injection H as <- <-.
    right. by exists t, l'.
Qed.

Local Transparent down.

Lemma pop_top a top a' : pop plt a = Some (top, a') -> a !! 0%nat = Some top.
Proof.
  destruct a as [|t rest]; [done|]. unfold pop.
  destruct (last (t :: rest)); [|done].
  destruct (removelast (t :: rest)); by intros [= <- <-].
Qed.
End HeapEntries.

(** ** The heap is a min-heap on integer priorities *)

Lemma div2_pred_lt j : (0 < j)%nat -> (Nat.div2 (j - 1) < j)%nat.
Proof. intros. rewrite Nat.div2_div. apply Nat.lt_le_trans with (S (j - 1)); [|lia].
  apply Nat.lt_succ_r, Nat.Div0.div_le_upper_bound. lia. Qed.

Lemma div2_pred_child j i :
  (0 < j)%nat -> Nat.div2 (j - 1) = i <-> (j = i * 2 + 1 \/ j = i * 2 + 1 + 1)%nat.
Proof.
  intros Hj. rewrite Nat.div2_div.
  pose proof (Nat.div_mod_eq (j - 1) 2) as E.
  pose proof (Nat.mod_upper_bound (j - 1) 2 ltac:(lia)) as B.
  split; [intros <-; lia|].
  intros [->| ->].
  - replace (i * 2 + 1 - 1)%nat with (i * 2)%nat by lia. apply Nat.div_mul. lia.
  - replace (i * 2 + 1 + 1 - 1)%nat with (1 + i * 2)%nat by lia.
    rewrite Nat.div_add by lia. reflexivity.
Qed.

Lemma swap_lookup_l {P} (a : list (entry P)) i m x y :
  a !! i = Some x -> a !! m = Some y -> swap a i m !! i = Some y.
Proof.
  intros Hi Hm. unfold swap. rewrite Hi, Hm.
  destruct (decide (i = m)) as [->|Hne].
  - rewrite list_lookup_insert_eq; [congruence|].
    rewrite length_insert. by eapply lookup_lt_Some.
  - rewrite list_lookup_insert_ne by done.
    rewrite list_lookup_insert_eq; [done|]. by eapply lookup_lt_Some.
Qed.

Lemma swap_lookup_r {P} (a : list (entry P)) i m x y :
  a !! i = Some x -> a !! m = Some y -> swap a i m !! m = Some x.
Proof.
  intros Hi Hm. unfold swap. rewrite Hi, Hm.
  rewrite list_lookup_insert_eq; [done|].
  rewrite length_insert. by eapply lookup_lt_Some.
Qed.

Lemma swap_lookup_ne {P} (a : list (entry P)) i m j :
  j <> i -> j <> m -> swap a i m !! j = a !! j.
Proof.
  intros Hi Hm. unfold swap.
  destruct (a !! i); [|done]. destruct (a !! m); [|done].
  by rewrite !list_lookup_insert_ne by done.
Qed.

Lemma heapOrdered_upInv a i : heapOrdered a -> upInv a i.
Proof.
  intros H. split.
  - intros j x y Hj _ Hx Hy. eauto.
  - intros j x y Hi Hp Hj Hx Hy.
    destruct (a !! i) as [z|] eqn:Hz.
    + transitivity (prio z); [eapply (H i); eauto | eapply (H j); eauto; congruence].
    + apply lookup_ge_None in Hz. apply lookup_lt_Some in Hx.
      pose proof (div2_pred_lt j Hj). lia.
Qed.

Lemma up_ordered fuel a i :
  (i <= fuel)%nat -> upInv a i -> heapOrdered (up Z.leb fuel a i).
Proof.
  revert a i. induction fuel as [|fuel IH]; intros a i Hf [H1 H2].
  - assert (i = 0%nat) as -> by lia. simpl.
    intros j x y Hj Hx Hy. apply (H1 j); auto; lia.
  - simpl. destruct (0 <? i)%nat eqn:Hi.
    2:{ apply Nat.ltb_ge in Hi. assert (i = 0%nat) as -> by lia.
        intros j x y Hj Hx Hy. apply (H1 j); auto; lia. }
    apply Nat.ltb_lt in Hi.
    set (p := Nat.div2 (i - 1)).
    assert (Hpi : (p < i)%nat) by (apply div2_pred_lt; lia).
    destruct (a !! p) as [ap|] eqn:Hap.
    2:{ intros j x y Hj Hx Hy.
        destruct (decide (j = i)) as [->|Hne]; [|by apply (H1 j x y)].
        fold p in Hy. congruence. }
    destruct (a !! i) as [ai|] eqn:Hai.
    2:{ intros j x y Hj Hx Hy.
        destruct (decide (j = i)) as [->|Hne]; [congruence|by apply (H1 j x y)]. }
    destruct (prio ap <=? prio ai) eqn:Hle.
    { apply Z.leb_le in Hle. intros j x y Hj Hx Hy.
      destruct (decide (j = i)) as [->|Hne]; [|by apply (H1 j x y)].
      fold p in Hy. congruence. }
    apply Z.leb_gt in Hle.
    apply IH; [lia|].
    assert (Sp : swap a p i !! p = Some ai) by (eapply swap_lookup_l; eauto).
    assert (Si : swap a p i !! i = Some ap) by (eapply swap_lookup_r; eauto).
    split.
    + intros j x y Hj Hjp Hx Hy.
      destruct (decide (j = i)) as [->|Hji].
      * fold p in Hy. rewrite Sp in Hy. rewrite Si in Hx. simplify_eq. lia.
      * rewrite swap_lookup_ne in Hx by done.
        destruct (decide (Nat.div2 (j - 1) = p)) as [Ep|Np].
        { rewrite Ep, Sp in Hy. simplify_eq.
          assert (prio ap <= prio x) by (apply (H1 j x ap); auto; congruence). lia. }
        destruct (decide (Nat.div2 (j - 1) = i)) as [Ei|Ni].
        { rewrite Ei, Si in Hy. simplify_eq. apply (H2 j x y); auto. }
        rewrite swap_lookup_ne in Hy by done. by apply (H1 j x y).
    + intros j x y Hp Hjp Hj Hx Hy.
      pose proof (div2_pred_lt p Hp) as Hpp.
      rewrite swap_lookup_ne in Hy by lia.
      assert (Hy' : prio y <= prio ap) by (apply (H1 p ap y); auto; lia).
      destruct (decide (j = i)) as [->|Hji].
      * rewrite Si in Hx. by simplify_eq.
      * assert (j <> p) by (pose proof (div2_pred_lt j Hj); lia).
        rewrite swap_lookup_ne in Hx by done.
        assert (prio ap <= prio x) by (apply (H1 j x ap); auto; congruence). lia.
Qed.

Lemma push_ordered x a : heapOrdered a -> heapOrdered (push Z.leb x a).
Proof.
  intros H. unfold push. apply up_ordered; [lia|].
  rewrite length_app. simpl.
  replace (length a + 1 - 1)%nat with (length a) by lia.
  split.
  - intros j y z Hj Hne Hy Hz.
    assert (j < length a)%nat.
    { apply lookup_lt_Some in Hy. rewrite length_app in Hy. simpl in Hy. lia. }
    pose proof (div2_pred_lt j Hj).
    rewrite lookup_app_l in Hy, Hz by lia. by apply (H j).
  - intros j y z Hi Hp Hj Hy Hz.
    apply lookup_lt_Some in Hy. rewrite length_app in Hy. simpl in Hy.
    pose proof (div2_pred_lt j Hj). lia.
Qed.

Lemma down_choice (a : list (entry Z)) i ai :
  a !! i = Some ai ->
  let n := length a in
  let l := (i * 2 + 1)%nat in
  let r := (l + 1)%nat in
  let m1 := if (l <? n)%nat && prioLt Z.ltb a l i then l else i in
  let m := if (r <? n)%nat && prioLt Z.ltb a r m1 then r else m1 in
  (m = i /\ forall c x, c = l \/ c = r -> a !! c = Some x -> prio ai <= prio x) \/
  ((m = l \/ m = r) /\ exists am, a !! m = Some am /\ prio am < prio ai /\
     forall c x, c = l \/ c = r -> a !! c = Some x -> prio am <= prio x).
Proof.
  intros Hi n l r m1 m. subst m m1. unfold prioLt.
  destruct (a !! l) as [al|] eqn:Hl; destruct (a !! r) as [ar|] eqn:Hr.
  - pose proof (lookup_lt_Some _ _ _ Hl). pose proof (lookup_lt_Some _ _ _ Hr).
    destruct (l <? n)%nat eqn:Bl; [|apply Nat.ltb_ge in Bl; lia].
    destruct (r <? n)%nat eqn:Br; [|apply Nat.ltb_ge in Br; lia].
    simpl. rewrite Hi.
    destruct (prio al <? prio ai) eqn:C1.
    + rewrite Hl. apply Z.ltb_lt in C1.
      destruct (prio ar <? prio al) eqn:C2.
      * apply Z.ltb_lt in C2. right. split; [auto|]. exists ar. repeat split; auto; [lia|].
        intros c x [->| ->] Hx; simplify_eq; lia.
      * apply Z.ltb_ge in C2. right. split; [auto|]. exists al. repeat split; auto.
        intros c x [->| ->] Hx; simplify_eq; lia.
    + rewrite Hi. apply Z.ltb_ge in C1.
      destruct (prio ar <? prio ai) eqn:C2.
      * apply Z.ltb_lt in C2. right. split; [auto|]. exists ar. repeat split; auto.
        intros c x [->| ->] Hx; simplify_eq; lia.
      * apply Z.ltb_ge in C2. left. split; [auto|].
        intros c x [->| ->] Hx; simplify_eq; lia.
  - pose proof (lookup_lt_Some _ _ _ Hl).
    destruct (l <? n)%nat eqn:Bl; [|apply Nat.ltb_ge in Bl; lia].
    rewrite andb_false_r. simpl. rewrite Hi.
    destruct (prio al <? prio ai) eqn:C1.
    + apply Z.ltb_lt in C1. right. split; [auto|]. exists al. repeat split; auto.
      intros c x [->| ->] Hx; simplify_eq; lia.
    + apply Z.ltb_ge in C1. left. split; [auto|].
      intros c x [->| ->] Hx; simplify_eq; lia.
  - apply lookup_ge_None in Hl. apply lookup_lt_Some in Hr. subst r. lia.
  - rewrite !andb_false_r. left. split; [auto|].
    intros c x [->| ->] Hx; simplify_eq.
Qed.

Lemma down_ordered fuel a i :
  (length a - i <= fuel)%nat -> downInv a i -> heapOrdered (down Z.ltb fuel a i).
Proof.
  revert a i. induction fuel as [|fuel IH]; intros a i Hf [H1 H2].
  - simpl. intros j x y Hj Hx Hy. apply (H1 j); auto.
    apply lookup_lt_Some in Hy. lia.
  - destruct (a !! i) as [ai|] eqn:Hai.
    2:{ apply lookup_ge_None in Hai. simpl.
        destruct (i * 2 + 1 <? length a)%nat eqn:B1; [apply Nat.ltb_lt in B1; lia|].
        destruct (i * 2 + 1 + 1 <? length a)%nat eqn:B2; [apply Nat.ltb_lt in B2; lia|].
        simpl. rewrite Nat.eqb_refl.
        intros j x y Hj Hx Hy. apply (H1 j); auto.
        apply lookup_lt_Some in Hy. lia. }
    pose proof (down_choice a i ai Hai) as Hc. simpl in Hc. simpl.
    match type of Hc with
    | (?mm = i /\ _) \/ _ => set (m := mm) in *
    end.
    destruct Hc as [[Hm Hch]|[Hm (am & Ham & Hlt & Hch)]].
    + rewrite Hm, Nat.eqb_refl.
      intros j x y Hj Hx Hy.
      destruct (decide (Nat.div2 (j - 1) = i)) as [E|NE]; [|by apply (H1 j)].
      rewrite E, Hai in Hy. simplify_eq.
      apply (Hch j); auto. by apply div2_pred_child.
    + assert (Hmi : (i < m)%nat) by lia.
      destruct (m =? i)%nat eqn:E; [apply Nat.eqb_eq in E; lia|].
      assert (Hpm : Nat.div2 (m - 1) = i) by (apply div2_pred_child; lia).
      assert (Si : swap a i m !! i = Some am) by (eapply swap_lookup_l; eauto).
      assert (Sm : swap a i m !! m = Some ai) by (eapply swap_lookup_r; eauto).
      apply IH.
      { rewrite swap_length. lia. }
      split.
      * intros j x y Hj Hjp Hx Hy.
        destruct (decide (Nat.div2 (j - 1) = i)) as [Ei|Ni].
        { rewrite Ei, Si in Hy. simplify_eq.
          destruct (decide (j = m)) as [->|Hjm].
          - rewrite Sm in Hx. simplify_eq. lia.
          - assert (j <> i) by (pose proof (div2_pred_lt j Hj); lia).
            rewrite swap_lookup_ne in Hx by done.
            apply (Hch j); auto. by apply div2_pred_child. }
        assert (j <> m) by congruence.
        rewrite (swap_lookup_ne _ _ _ (Nat.div2 (j - 1))) in Hy by done.
        destruct (decide (j = i)) as [->|Hji].
        { rewrite Si in Hx. simplify_eq.
          destruct (decide (0 < i)%nat) as [Hi0|Hi0]; [|lia].
          apply (H2 m x y); auto. lia. }
        rewrite swap_lookup_ne in Hx by done. by apply (H1 j).
      * intros j x y Hm0 Hjp Hj Hx Hy.
        rewrite Hpm, Si in Hy. simplify_eq.
        pose proof (div2_pred_lt j Hj).
        rewrite swap_lookup_ne in Hx by lia.
        apply (H1 j x y); auto; [lia|]. by rewrite Hjp.
Qed.

Lemma heapOrdered_root_min a top :
  heapOrdered a -> a !! 0%nat = Some top -> forall e, e ∈ a -> prio top <= prio e.
Proof.
  intros H H0 e [j Hj]%list_elem_of_lookup. revert e Hj.
  induction (lt_wf j) as [j _ IH]. intros e Hj.
  destruct (decide (j = 0%nat)) as [->|Hne]; [simplify_eq; lia|].
  assert (Hp : (Nat.div2 (j - 1) < j)%nat) by (apply div2_pred_lt; lia).
  destruct (a !! Nat.div2 (j - 1)) as [y|] eqn:Hy.
  - transitivity (prio y); [by eapply IH|]. apply (H j); auto. lia.
  - apply lookup_ge_None in Hy. apply lookup_lt_Some in Hj. lia.
Qed.

Lemma heapOrdered_nil : heapOrdered [].
Proof. intros j x y _ Hx. by destruct j. Qed.

Lemma pop_ordered a top a' :
  heapOrdered a -> pop Z.ltb a = Some (top, a') -> heapOrdered a'.
Proof.
  intros H (l & lst & -> & [(-> & -> & ->)|(t & l2 & -> & -> & ->)])%pop_eq.
  - apply heapOrdered_nil.
  - apply down_ordered; [simpl; lia|].
    split.
    + intros j x y Hj Hp Hx Hy.
      assert (j <> 0%nat) by lia.
      destruct j as [|j]; [done|].
      destruct (Nat.div2 (S j - 1)) as [|k] eqn:Hk; [done|].
      simpl in Hx, Hy.
      apply (H (S j) x y); [lia| |].
      * simpl. by apply lookup_app_l_Some.
      * rewrite Hk. simpl. by apply lookup_app_l_Some.
    + intros; lia.
Qed.

Lemma pop_min a top a' :
  heapOrdered a -> pop Z.ltb a = Some (top, a') -> forall e, e ∈ a -> prio top <= prio e.
Proof.
  intros H Hp. eapply heapOrdered_root_min; eauto. eapply pop_top; eauto.
Qed.

(** ** Grid facts *)

Lemma inBounds_spec r c rows cols :
  inBounds r c rows cols = true <-> 0 <= r < rows /\ 0 <= c < cols.
Proof. unfold inBounds. rewrite !andb_true_iff. lia. Qed.

Lemma neighbors_inBounds r c rows cols diag v :
  v ∈ neighbors r c rows cols diag -> inBounds (fst v) (snd v) rows cols = true.
Proof.
  unfold neighbors. intros (d & _ & Hd)%list_elem_of_omap.
  destruct (inBounds _ _ _ _) eqn:E; [|done]. by simplify_eq.
Qed.

Lemma neighbors_ne r c rows cols diag v :
  v ∈ neighbors r c rows cols diag -> v <> (r, c).
Proof.
  unfold neighbors. intros (d & Hin & Hd)%list_elem_of_omap.
  destruct (inBounds _ _ _ _); [|done]. simplify_eq. intros [= E1 E2].
  assert (d = (0, 0)) as -> by (destruct d; simpl in *; f_equal; lia).
  destruct diag; unfold DIRS8, DIRS4 in Hin; simpl in Hin;
    repeat (apply elem_of_cons in Hin as [Hin|Hin]; [discriminate|]);
    by apply elem_of_nil in Hin.
Qed.

Lemma dims_Returned grid rows cols :
  dims grid = Returned (rows, cols) ->
  exists row0 rest, grid = row0 :: rest /\ rows = Z.of_nat (length grid) /\
                    cols = Z.of_nat (length row0).
Proof. destruct grid as [|row0 rest]; [done|]. intros [= <- <-]. eauto. Qed.

Lemma cellAt_inBounds grid rows cols r c :
  rectGrid grid -> dims grid = Returned (rows, cols) ->
  inBounds r c rows cols = true -> is_Some (cellAt grid r c).
Proof.
  intros Hrect (row0 & rest & -> & -> & ->)%dims_Returned
    (Hr & Hc)%inBounds_spec.
  unfold cellAt.
  destruct (0 <=? r) eqn:E1; [|apply Z.leb_gt in E1; lia].
  destruct (0 <=? c) eqn:E2; [|apply Z.leb_gt in E2; lia]. cbn [andb].
  destruct ((row0 :: rest) !! Z.to_nat r) as [row|] eqn:Hrow.
  - apply lookup_lt_is_Some_2.
    rewrite (Hrect row row0); [lia| |apply elem_of_cons; by left].
    eapply list_elem_of_lookup_2; eauto.
  - apply lookup_ge_None in Hrow. lia.
Qed.

Lemma cellAt_elem grid r c cell :
  cellAt grid r c = Some cell -> exists row, row ∈ grid /\ cell ∈ row.
Proof.
  unfold cellAt. destruct (_ && _); [|done].
  destruct (grid !! Z.to_nat r) as [row|] eqn:Hrow; [|done].
  intros Hc. exists row. split; eapply list_elem_of_lookup_2; eauto.
Qed.

Lemma enterCost_pos grid v : posWeights grid -> 1 <= enterCost grid v.
Proof.
  intros Hpos. unfold enterCost.
  destruct (cellAt grid (fst v) (snd v)) as [cell|] eqn:E; [|lia].
  apply cellAt_elem in E as (row & ? & ?). eauto.
Qed.

(** ** Loops over outcomes *)

Lemma foldOutcome_inv {A B : Type} (f : A -> B -> outcome A) (J : A -> Prop) l :
  (forall a b a', b ∈ l -> J a -> f a b = Returned a' -> J a') ->
  forall a a', J a -> foldOutcome f l a = Returned a' -> J a'.
Proof.
  induction l as [|b l IH]; intros Hstep a a' Ha; simpl.
  - by intros [= <-].
  - destruct (f a b) as [a1| |] eqn:E; simpl; [|done|done].
    apply IH.
    + intros ???? ; apply Hstep. by apply elem_of_cons; right.
    + eapply Hstep; eauto. apply elem_of_cons; by left.
Qed.

Lemma foldOutcome_total {A B : Type} (f : A -> B -> outcome A) (J : A -> Prop) l :
  (forall a b, b ∈ l -> J a -> exists a', f a b = Returned a' /\ J a') ->
  forall a, J a -> exists a', foldOutcome f l a = Returned a' /\ J a'.
Proof.
  induction l as [|b l IH]; intros Hstep a Ha; simpl.
  - eauto.
  - destruct (Hstep a b) as (a1 & -> & Ha1); [apply elem_of_cons; by left|done|].
    simpl. apply IH; [|done].
    intros ????; apply Hstep; [apply elem_of_cons; by right|done].
Qed.

(** ** The termination measure *)

Lemma gsum_comm (m : gmap coord Z) :
  forall (j1 j2 : coord) (z1 z2 : Z) (y : nat),
    j1 <> j2 -> m !! j1 = Some z1 -> m !! j2 = Some z2 ->
    (Z.to_nat z1 + (Z.to_nat z2 + y) = Z.to_nat z2 + (Z.to_nat z1 + y))%nat.
Proof. intros. lia. Qed.

Lemma gsum_insert_None (g : gmap coord Z) k v :
  g !! k = None -> gsum (<[k:=v]> g) = (Z.to_nat v + gsum g)%nat.
Proof.
  intros Hk. unfold gsum.
  rewrite (map_fold_insert_L (fun _ d acc => (Z.to_nat d + acc)%nat)); auto.
  apply gsum_comm.
Qed.

Lemma gsum_insert_Some (g : gmap coord Z) k v old :
  g !! k = Some old ->
  (gsum (<[k:=v]> g) + Z.to_nat old = gsum g + Z.to_nat v)%nat.
Proof.
  intros Hk. rewrite <- (insert_delete_eq g k v).
  rewrite gsum_insert_None by apply lookup_delete_eq.
  unfold gsum at 2.
  rewrite (map_fold_delete_L (fun _ d acc => (Z.to_nat d + acc)%nat) _ k old g);
    [|apply gsum_comm|done].
  fold (gsum (delete k g)). lia.
Qed.

Lemma elem_of_cells r c rows cols :
  (r, c) ∈ cells rows cols <-> 0 <= r < rows /\ 0 <= c < cols.
Proof.
  unfold cells. rewrite list_elem_of_bind. split.
  - intros (r' & (c' & Hrc%list_elem_of_singleton & Hc%elem_of_seqZ)%list_elem_of_bind
               & Hr%elem_of_seqZ).
    simplify_eq. lia.
  - intros [Hr Hc]. exists r. split; [|apply elem_of_seqZ; lia].
    apply list_elem_of_bind. exists c. split; [by apply list_elem_of_singleton|].
    apply elem_of_seqZ. lia.
Qed.

Lemma elem_of_universe start rows cols v :
  v = start \/ inBounds (fst v) (snd v) rows cols = true ->
  v ∈ universe start rows cols.
Proof.
  unfold universe. intros [->|Hb]; [set_solver|].
  apply elem_of_union_r, elem_of_list_to_set.
  destruct v as [r c]. apply elem_of_cells. by apply inBounds_spec.
Qed.

Lemma gless_new (start : coord) (rows cols : Z) (g : gmap coord Z) (k : coord) (v : Z) :
  dom g ⊆ universe start rows cols -> k ∈ universe start rows cols ->
  g !! k = None -> gless start rows cols (<[k:=v]> g) g.
Proof.
  intros Hdom Hk Hnone. left.
  rewrite map_size_insert_None by done.
  assert (size (dom (<[k:=v]> g)) <= size (universe start rows cols))%nat.
  { apply subseteq_size. rewrite dom_insert_L.
    apply union_subseteq. split; [by apply singleton_subseteq_l|done]. }
  rewrite size_dom, map_size_insert_None in H by done. lia.
Qed.

Lemma gless_lower (start : coord) (rows cols : Z) (g : gmap coord Z) (k : coord) (v old : Z) :
  g !! k = Some old -> 0 <= v < old -> gless start rows cols (<[k:=v]> g) g.
Proof.
  intros Hk Hv. right. split.
  - apply map_size_insert_Some. eauto.
  - pose proof (gsum_insert_Some g k v old Hk). lia.
Qed.

Lemma gless_trans (start : coord) (rows cols : Z) (g1 g2 g3 : gmap coord Z) :
  gless start rows cols g1 g2 -> gless start rows cols g2 g3 ->
  gless start rows cols g1 g3.
Proof. unfold gless. lia. Qed.

(** ** The search loop keeps its invariant *)

Section AStarStructure.
Context {P : Type}.
Variables ple plt peq : P -> P -> bool.
Variable hfun : coord -> P.
Variable padd : Z -> P -> P.
Variable gadd : Z -> Z -> Z.
Variable gnorm : Z -> Prop.
Variable grid : Grid.
Variables rows cols : Z.
Variable goal : coord.
Variable diag : bool.
Variable start : coord.

Hypothesis Hdims : dims grid = Returned (rows, cols).
Hypothesis Hrect : rectGrid grid.
Hypothesis Hpos : posWeights grid.
Hypothesis Hpeq : forall v gv, 0 <= gv ->
  peq (fval hfun padd start v gv) (fval hfun padd start v gv) = true.
Hypothesis Hgadd : forall g w, 0 <= g -> 1 <= w -> 0 <= gadd g w.
Hypothesis Hgnorm : forall g w, gnorm g -> 0 <= g -> 1 <= w ->
  g <= gadd g w /\ gnorm (gadd g w).
Hypothesis Hgnorm0 : gnorm 0.

Local Abbreviation Inv := (AInv hfun padd grid rows cols diag start).
Local Abbreviation relax := (astarRelax ple hfun padd gadd grid).
Local Abbreviation stale := (stale peq).
Local Abbreviation loop :=
  (fun fuel => astarLoop ple plt peq hfun padd gadd fuel grid rows cols goal diag).

Lemma astarRelax_cases cur st nb st' :
  relax cur st nb = Returned st' ->
  st' = st \/
  exists cell gcur,
    cellAt grid (fst nb) (snd nb) = Some cell /\ wall cell = false /\
    a_g st !! cur = Some gcur /\
    (a_g st !! nb = None \/
     exists gnb, a_g st !! nb = Some gnb /\ gadd gcur (weightOf cell) < gnb) /\
    st' = mkAState
            (push ple (mkEntry (padd (gadd gcur (weightOf cell)) (hfun nb)) nb) (a_pq st))
            (<[nb:=gadd gcur (weightOf cell)]> (a_g st))
            (<[nb:=padd (gadd gcur (weightOf cell)) (hfun nb)]> (a_f st))
            (<[nb:=cur]> (a_came st))
            (a_visited st).
Proof.
  unfold astarRelax.
  destruct (cellAt grid (fst nb) (snd nb)) as [cell|] eqn:Hcell; [|done].
  destruct (wall cell) eqn:Hwall; [intros [= <-]; by left|].
  destruct (a_g st !! cur) as [gcur|] eqn:Hcur; [|intros [= <-]; by left].
  destruct (a_g st !! nb) as [gnb|] eqn:Hnb.
  - destruct (gadd gcur (weightOf cell) <? gnb) eqn:Hlt; [|intros [= <-]; by left].
    apply Z.ltb_lt in Hlt. intros [= <-]. right.
    exists cell, gcur. repeat split; eauto.
  - intros [= <-]. right. exists cell, gcur. repeat split; eauto.
Qed.

Lemma astarRelax_total cur st nb :
  nb ∈ neighbors (fst cur) (snd cur) rows cols diag ->
  exists st', relax cur st nb = Returned st'.
Proof.
  intros Hnb%neighbors_inBounds.
  destruct (cellAt_inBounds grid rows cols _ _ Hrect Hdims Hnb) as [cell Hcell].
  unfold astarRelax. rewrite Hcell.
  destruct (wall cell); [eauto|].
  destruct (a_g st !! cur); [|eauto].
  match goal with |- context [if ?b then _ else _] => destruct b end; eauto.
Qed.

Lemma astarRelax_inv cur st nb st' :
  nb ∈ neighbors (fst cur) (snd cur) rows cols diag ->
  Inv st -> relax cur st nb = Returned st' -> Inv st'.
Proof.
  intros Hnb HI Hr.
  apply astarRelax_cases in Hr
    as [->|(cell & gcur & Hcell & Hwall & Hcur & Hcond & ->)]; [done|].
  destruct HI as [Hs Hcs Hnn Hdom Hcame Hgc Hf Hlive Hpq Hvis Hreach].
  assert (Hw : 1 <= weightOf cell).
  { apply cellAt_elem in Hcell as (row & ? & ?). eauto. }
  assert (Hgc0 : 0 <= gcur) by eauto.
  pose proof (Hgadd gcur (weightOf cell) Hgc0 Hw) as Ht0.
  assert (Hne : nb <> start).
  { intros ->. destruct Hcond as [Hn|(gnb & Hn & Hlt)]; simplify_eq. lia. }
  assert (Hnc : nb <> cur).
  { destruct cur. by eapply neighbors_ne. }
  split; simpl.
  - by rewrite lookup_insert_ne.
  - by rewrite lookup_insert_ne.
  - intros v d. rewrite lookup_insert. case_decide; [intros [= <-]; lia|eauto].
  - intros v. rewrite lookup_insert. case_decide; [|eauto].
    subst v. intros _. right. by eapply neighbors_inBounds.
  - intros v u. rewrite lookup_insert. case_decide.
    + subst v. intros [= <-]. split.
      * split; [destruct cur; exact Hnb|]. by exists cell.
      * exists gcur, (gadd gcur (weightOf cell)).
        rewrite lookup_insert_ne by done. by rewrite lookup_insert_eq.
    + intros Hv. destruct (Hcame v u Hv) as [He (gu & gv & Hgu & Hgv)].
      split; [done|].
      rewrite (lookup_insert_ne _ nb v) by done.
      rewrite lookup_insert. case_decide.
      * subst u. by exists (gadd gcur (weightOf cell)), gv.
      * by exists gu, gv.
  - intros v. rewrite !lookup_insert. case_decide; [right; eauto|eauto].
  - intros v gv. rewrite !lookup_insert. case_decide.
    + subst v. intros [= <-]. unfold fval. by rewrite decide_False.
    + eauto.
  - intros v gv. rewrite lookup_insert. case_decide.
    + subst v. intros [= <-]. right. rewrite push_perm.
      apply elem_of_cons. left. unfold fval. by rewrite decide_False.
    + intros Hv. destruct (Hlive v gv Hv) as [?|?]; [by left|right].
      rewrite push_perm. apply elem_of_cons. by right.
  - intros e. rewrite push_perm. intros [->|He]%elem_of_cons.
    + simpl. rewrite lookup_insert_eq. eauto.
    + rewrite lookup_insert. case_decide; eauto.
  - intros v Hv. rewrite lookup_insert. case_decide; eauto.
  - intros v. rewrite lookup_insert. case_decide; [|eauto].
    subst v. intros _. destruct (Hreach cur) as [c Hc]; [eauto|].
    exists (c + enterCost grid nb). eapply reach_step; eauto.
    split; [destruct cur; exact Hnb|]. by exists cell.
Qed.

(** Writing the cost of [nb] gives it the newest stamp. *)
Lemma astarRelax_acyclic cur st nb st' :
  nb ∈ neighbors (fst cur) (snd cur) rows cols diag ->
  Inv st -> acyclic gnorm st -> relax cur st nb = Returned st' ->
  acyclic gnorm st'.
Proof.
  intros Hnb HI (stamp & tick & [Hn Ht Hc]) Hr.
  apply astarRelax_cases in Hr
    as [->|(cell & gcur & Hcell & Hwall & Hcur & Hcond & ->)];
    [by exists stamp, tick|].
  assert (Hw : 1 <= weightOf cell).
  { apply cellAt_elem in Hcell as (row & ? & ?). eauto. }
  assert (Hgc0 : 0 <= gcur) by (by eapply inv_nonneg).
  destruct (Hgnorm gcur (weightOf cell) (Hn _ _ Hcur) Hgc0 Hw) as [Hle Hnew].
  assert (Hnc : nb <> cur) by (destruct cur; by eapply neighbors_ne).
  exists (fun v => if decide (v = nb) then tick else stamp v), (S tick).
  split; simpl.
  - intros v d. rewrite lookup_insert. case_decide; [intros [= <-]; done|eauto].
  - intros v. case_decide; [lia|]. specialize (Ht v). lia.
  - intros v u gu gv. rewrite !lookup_insert.
    destruct (decide (nb = v)) as [<-|Hv].
    + intros [= <-]. rewrite decide_False by done. intros Hgu [= <-].
      simplify_eq. split; [done|]. right.
      destruct (decide (cur = nb)); [congruence|].
      destruct (decide (nb = nb)); [apply Ht|done].
    + intros Hvu. destruct (decide (nb = u)) as [<-|Hu].
      * intros [= <-] Hgv.
        destruct (inv_came _ _ _ _ _ _ _ _ HI v nb Hvu) as (_ & gu & gv' & Hgu & Hgv').
        simplify_eq.
        destruct Hcond as [Hnone|(gnb & Hgnb & Hlt)]; [congruence|].
        simplify_eq. destruct (Hc v nb gnb gv Hvu Hgnb Hgv) as [? _].
        split; [lia|]. left. lia.
      * intros Hgu Hgv. destruct (Hc v u gu gv Hvu Hgu Hgv) as [? Hs].
        split; [done|].
        destruct (decide (u = nb)); [congruence|].
        destruct (decide (v = nb)); [congruence|done].
Qed.

Lemma relaxAll_inv cur st st' :
  Inv st ->
  foldOutcome (relax cur) (neighbors (fst cur) (snd cur) rows cols diag) st
    = Returned st' ->
  Inv st'.
Proof.
  apply (foldOutcome_inv (relax cur) Inv). intros a b a' Hb Ha.
  by apply astarRelax_inv.
Qed.

Lemma relaxAll_acyclic cur st st' :
  Inv st -> acyclic gnorm st ->
  foldOutcome (relax cur) (neighbors (fst cur) (snd cur) rows cols diag) st
    = Returned st' ->
  acyclic gnorm st'.
Proof.
  intros HI HA Hf.
  apply (foldOutcome_inv (relax cur) (fun s => Inv s /\ acyclic gnorm s)) in Hf;
    [tauto| |done].
  intros a b a' Hb [Ha Hc] Hr. split.
  - by eapply astarRelax_inv.
  - by eapply astarRelax_acyclic.
Qed.

Lemma relaxAll_total cur st :
  exists st',
    foldOutcome (relax cur) (neighbors (fst cur) (snd cur) rows cols diag) st
      = Returned st'.
Proof.
  destruct (foldOutcome_total (relax cur) (fun _ => True)
              (neighbors (fst cur) (snd cur) rows cols diag)) with (a := st)
    as (st' & H & _); [|done|eauto].
  intros a b Hb _. destruct (astarRelax_total cur a b Hb) as [a' Ha']. eauto.
Qed.

Lemma stale_live st v gv :
  Inv st -> a_g st !! v = Some gv ->
  stale st (mkEntry (fval hfun padd start v gv) v) = false.
Proof.
  intros HI Hg. unfold stale. simpl.
  rewrite (inv_f _ _ _ _ _ _ _ _ HI v gv Hg).
  rewrite Hpeq; [done|]. by eapply inv_nonneg.
Qed.

Lemma popped_stale_inv st cur pq' :
  Inv st -> pop plt (a_pq st) = Some (cur, pq') -> stale st cur = true ->
  Inv (popped st pq').
Proof.
  intros HI Hpop Hst. pose proof (pop_perm _ _ _ _ Hpop) as Hperm.
  destruct HI as [Hs Hcs Hnn Hdom Hcame Hgc Hf Hlive Hpq Hvis Hreach].
  split; simpl; auto.
  - intros v gv Hg. destruct (Hlive v gv Hg) as [?|Hin]; [by left|right].
    rewrite Hperm in Hin. apply elem_of_cons in Hin as [<-|Hin]; [|done].
    rewrite stale_live in Hst; [done| |done]. by split.
  - intros e He. apply Hpq. rewrite Hperm. apply elem_of_cons. by right.
Qed.

Lemma popped_visit_inv st cur pq' :
  Inv st -> pop plt (a_pq st) = Some (cur, pq') -> stale st cur = false ->
  Inv (visit (popped st pq') (node cur)).
Proof.
  intros HI Hpop Hst. pose proof (pop_perm _ _ _ _ Hpop) as Hperm.
  destruct HI as [Hs Hcs Hnn Hdom Hcame Hgc Hf Hlive Hpq Hvis Hreach].
  split; simpl; auto.
  - intros v gv Hg. destruct (Hlive v gv Hg) as [?|Hin].
    { left. apply elem_of_app. by left. }
    rewrite Hperm in Hin. apply elem_of_cons in Hin as [<-|Hin]; [|by right].
    left. simpl. apply elem_of_app. right. by apply list_elem_of_singleton.
  - intros e He. apply Hpq. rewrite Hperm. apply elem_of_cons. by right.
  - intros v [Hv|Hv%list_elem_of_singleton]%elem_of_app; [eauto|].
    subst v. apply Hpq. rewrite Hperm. apply elem_of_cons. by left.
Qed.

(** One unfolding of the loop. *)
Lemma astarLoop_S fuel st :
  loop (S fuel) st =
  match pop plt (a_pq st) with
  | None => Returned st
  | Some (cur, pq') =>
    if stale st cur
    then loop fuel (popped st pq')
    else
      if (fst (node cur) =? fst goal) && (snd (node cur) =? snd goal)
      then Returned (visit (popped st pq') (node cur))
      else
        do st' <- foldOutcome (relax (node cur))
                    (neighbors (fst (node cur)) (snd (node cur)) rows cols diag)
                    (visit (popped st pq') (node cur));
        loop fuel st'
  end.
Proof. reflexivity. Qed.

Lemma relaxAll_visited cur st st' :
  foldOutcome (relax cur) (neighbors (fst cur) (snd cur) rows cols diag) st
    = Returned st' ->
  a_visited st' = a_visited st.
Proof.
  apply (foldOutcome_inv (relax cur) (fun s => a_visited s = a_visited st));
    [|done].
  intros a b a' _ Ha [->|(? & ? & _ & _ & _ & _ & ->)]%astarRelax_cases; done.
Qed.

Lemma inv_dom_universe st : Inv st -> dom (a_g st) ⊆ universe start rows cols.
Proof.
  intros HI v Hv%elem_of_dom. apply elem_of_universe. by eapply inv_dom.
Qed.

Lemma astarRelax_measure cur st nb st' :
  nb ∈ neighbors (fst cur) (snd cur) rows cols diag ->
  Inv st -> relax cur st nb = Returned st' ->
  (a_g st' = a_g st /\ a_pq st' = a_pq st) \/
  gless start rows cols (a_g st') (a_g st).
Proof.
  intros Hnb HI Hr.
  apply astarRelax_cases in Hr
    as [->|(cell & gcur & Hcell & Hwall & Hcur & Hcond & ->)]; [by left|].
  right. simpl.
  assert (Hw : 1 <= weightOf cell).
  { apply cellAt_elem in Hcell as (row & ? & ?). eauto. }
  assert (Hgc0 : 0 <= gcur) by (by eapply inv_nonneg).
  pose proof (Hgadd gcur (weightOf cell) Hgc0 Hw) as Ht0.
  destruct Hcond as [Hn|(gnb & Hn & Hlt)].
  - apply gless_new; [by apply inv_dom_universe| |done].
    apply elem_of_universe. right. by eapply neighbors_inBounds.
  - eapply gless_lower; [done|lia].
Qed.

Lemma relaxAll_measure cur st st' :
  Inv st ->
  foldOutcome (relax cur) (neighbors (fst cur) (snd cur) rows cols diag) st
    = Returned st' ->
  (a_g st' = a_g st /\ a_pq st' = a_pq st) \/
  gless start rows cols (a_g st') (a_g st).
Proof.
  intros HI Hf.
  apply (foldOutcome_inv (relax cur)
           (fun s => Inv s /\ ((a_g s = a_g st /\ a_pq s = a_pq st) \/
                               gless start rows cols (a_g s) (a_g st)))) in Hf.
  - tauto.
  - intros a b a' Hb [Ha Hm] Hr. split; [by eapply astarRelax_inv|].
    destruct (astarRelax_measure cur a b a' Hb Ha Hr) as [[Eg Ep]|Hl].
    + rewrite Eg, Ep. done.
    + right. destruct Hm as [[Eg Ep]|Hm]; [by rewrite <- Eg|].
      by eapply gless_trans.
  - auto.
Qed.

Lemma astarLoop_terminates st :
  Inv st -> exists fuel r, loop fuel st = Returned r.
Proof.
  set (U := size (universe start rows cols)).
  assert (forall a b c st,
            (U - size (a_g st))%nat = a -> gsum (a_g st) = b ->
            length (a_pq st) = c -> Inv st ->
            exists fuel r, loop fuel st = Returned r) as Hall;
    [|by eapply Hall].
  clear st.
  induction a as [a IHa] using lt_wf_ind.
  induction b as [b IHb] using lt_wf_ind.
  induction c as [c IHc] using lt_wf_ind.
  intros st Ea Eb Ec HI.
  destruct (pop plt (a_pq st)) as [[cur pq']|] eqn:Hpop.
  2:{ exists 1%nat, st. by rewrite astarLoop_S, Hpop. }
  pose proof (Permutation_length (pop_perm _ _ _ _ Hpop)) as Hlen. simpl in Hlen.
  destruct (stale st cur) eqn:Hst.
  { destruct (IHc (length pq') ltac:(lia) (popped st pq')) as (fuel & r & Hr);
      [done|done|done|by eapply popped_stale_inv|].
    exists (S fuel), r. by rewrite astarLoop_S, Hpop, Hst. }
  pose proof (popped_visit_inv st cur pq' HI Hpop Hst) as HI'.
  destruct ((fst (node cur) =? fst goal) && (snd (node cur) =? snd goal)) eqn:Hg.
  { exists 1%nat, (visit (popped st pq') (node cur)).
    by rewrite astarLoop_S, Hpop, Hst, Hg. }
  destruct (relaxAll_total (node cur) (visit (popped st pq') (node cur)))
    as [st' Hfold].
  pose proof (relaxAll_inv _ _ _ HI' Hfold) as HI''.
  assert (exists fuel r, loop fuel st' = Returned r) as (fuel & r & Hr).
  { destruct (relaxAll_measure _ _ _ HI' Hfold) as [[Eg Ep]|[Hl|[Hs Hl]]];
      simpl in *.
    - eapply (IHc (length pq')); [lia|by rewrite Eg|by rewrite Eg|by rewrite Ep|done].
    - fold U in Hl. eapply (IHa (U - size (a_g st'))%nat); [lia|done..].
    - eapply (IHb (gsum (a_g st'))); [lia|by rewrite Hs|done..]. }
  exists (S fuel), r. rewrite astarLoop_S, Hpop, Hst, Hg, Hfold. exact Hr.
Qed.

(** What holds when the loop is left: the queue is exhausted or the goal
    has been visited. *)
Lemma astarLoop_acyclic fuel st r :
  Inv st -> acyclic gnorm st -> loop fuel st = Returned r -> acyclic gnorm r.
Proof.
  revert st. induction fuel as [|fuel IH]; intros st HI HA; [done|].
  rewrite astarLoop_S.
  destruct (pop plt (a_pq st)) as [[cur pq']|] eqn:Hpop; [|by intros [= <-]].
  assert (HA' : forall pq vis,
            acyclic gnorm (mkAState pq (a_g st) (a_f st) (a_came st) vis)).
  { intros pq vis. destruct HA as (stamp & tick & [? ? ?]).
    exists stamp, tick. by split. }
  destruct (stale st cur) eqn:Hst.
  { apply IH; [by eapply popped_stale_inv|apply HA']. }
  pose proof (popped_visit_inv st cur pq' HI Hpop Hst) as HI'.
  destruct ((fst (node cur) =? fst goal) && (snd (node cur) =? snd goal)).
  { intros [= <-]. apply HA'. }
  destruct (foldOutcome _ _ _) as [st'| |] eqn:Hfold; simpl; [|done|done].
  apply IH; [by eapply relaxAll_inv|].
  eapply relaxAll_acyclic; [exact HI'|apply HA'|exact Hfold].
Qed.

Lemma astarLoop_inv fuel st r :
  Inv st -> loop fuel st = Returned r ->
  Inv r /\ (a_pq r = [] \/ goal ∈ a_visited r) /\
  a_visited st `prefix_of` a_visited r.
Proof.
  revert st. induction fuel as [|fuel IH]; intros st HI; [done|].
  rewrite astarLoop_S.
  destruct (pop plt (a_pq st)) as [[cur pq']|] eqn:Hpop.
  2:{ intros [= <-]. apply pop_None in Hpop. auto. }
  destruct (stale st cur) eqn:Hst.
  { intros Hr. apply IH in Hr; [|by eapply popped_stale_inv]. exact Hr. }
  pose proof (popped_visit_inv st cur pq' HI Hpop Hst) as HI'.
  destruct ((fst (node cur) =? fst goal) && (snd (node cur) =? snd goal)) eqn:Hg.
  { intros [= <-]. split; [done|]. split.
    - right. simpl. apply elem_of_app. right. apply list_elem_of_singleton.
      apply andb_true_iff in Hg as [?%Z.eqb_eq ?%Z.eqb_eq].
      destruct (node cur), goal; simpl in *; congruence.
    - simpl. by apply prefix_app_r. }
  destruct (foldOutcome _ _ _) as [st'| |] eqn:Hfold; simpl; [|done|done].
  intros Hr. pose proof Hfold as Hvis.
  apply relaxAll_inv in Hfold; [|done].
  apply IH in Hr as (? & ? & Hpre); [|done].
  split; [done|]. split; [done|].
  etrans; [|exact Hpre].
  rewrite (relaxAll_visited _ _ _ Hvis). simpl. by apply prefix_app_r.
Qed.
End AStarStructure.

(** ** More fuel never changes a result *)

Lemma chain_fuel_mono n m came cur l :
  chain n came cur = Some l -> (n <= m)%nat -> chain m came cur = Some l.
Proof.
  revert m cur l. induction n as [|n IH]; intros m cur l.
  - destruct cur; [done|]. simpl. intros [= <-] _. by destruct m.
  - destruct cur as [k|]; [|simpl; intros [= <-] _; by destruct m].
    simpl. destruct (chain n came (came !! k)) as [l'|] eqn:E; [|done].
    intros [= <-] Hle. destruct m as [|m]; [lia|]. simpl.
    by rewrite (IH m _ l' E) by lia.
Qed.

Lemma reconstruct_fuel_mono n m came gkey :
  reconstruct n came gkey <> OutOfFuel -> (n <= m)%nat ->
  reconstruct m came gkey = reconstruct n came gkey.
Proof.
  unfold reconstruct. destruct (came !! gkey); [|done].
  destruct (chain n came (Some gkey)) as [l|] eqn:E; [|done].
  intros _ Hle. by rewrite (chain_fuel_mono n m _ _ l E Hle).
Qed.

Section FuelMono.
Context {P : Type}.
Variables ple plt peq : P -> P -> bool.
Variable hfun : coord -> P.
Variable padd : Z -> P -> P.
Variable gadd : Z -> Z -> Z.

Lemma astarLoop_fuel_mono n m grid rows cols goal diag st :
  astarLoop ple plt peq hfun padd gadd n grid rows cols goal diag st <> OutOfFuel ->
  (n <= m)%nat ->
  astarLoop ple plt peq hfun padd gadd m grid rows cols goal diag st =
  astarLoop ple plt peq hfun padd gadd n grid rows cols goal diag st.
Proof.
  revert m st. induction n as [|n IH]; intros m st; [done|].
  intros Hne Hle. destruct m as [|m]; [lia|].
  rewrite !astarLoop_S in *.
  destruct (pop plt (a_pq st)) as [[cur pq']|]; [|done].
  destruct (stale peq st cur); [apply IH; [done|lia]|].
  destruct (_ && _); [done|].
  destruct (foldOutcome _ _ _) as [st'| |]; simpl in *; [|done|done].
  apply IH; [done|lia].
Qed.

Lemma astar_fuel_mono n m grid start goal diag :
  astar ple plt peq hfun padd gadd n grid start goal diag <> OutOfFuel ->
  (n <= m)%nat ->
  astar ple plt peq hfun padd gadd m grid start goal diag =
  astar ple plt peq hfun padd gadd n grid start goal diag.
Proof.
  unfold astar. destruct (dims grid) as [rc| |]; simpl; [|done|done].
  intros Hne Hle.
  destruct (astarLoop ple plt peq hfun padd gadd n grid (fst rc) (snd rc) goal diag _)
    as [st| |] eqn:E; simpl in *; [| |done].
  - rewrite (astarLoop_fuel_mono n m); [rewrite E|by rewrite E|done]. simpl.
    destruct (reconstruct n (a_came st) goal) as [p| |] eqn:Er; simpl in *; [| |done].
    + rewrite (reconstruct_fuel_mono n m); [by rewrite Er|by rewrite Er|done].
    + rewrite (reconstruct_fuel_mono n m); [by rewrite Er|by rewrite Er|done].
  - rewrite (astarLoop_fuel_mono n m); [by rewrite E|by rewrite E|done].
Qed.
End FuelMono.

(** ** runDijkstra is the search with the zero heuristic *)

Lemma foldOutcome_sim {A A' B : Type} (t : A -> A')
    (f : A -> B -> outcome A) (f' : A' -> B -> outcome A') l :
  (forall a b, f' (t a) b = omapOutcome t (f a b)) ->
  forall a, foldOutcome f' l (t a) = omapOutcome t (foldOutcome f l a).
Proof.
  intros Hf. induction l as [|b l IH]; intros a; simpl; [done|].
  rewrite Hf. destruct (f a b); simpl; auto.
Qed.

Lemma dijkstraRelax_sim grid cur ds nb :
  astarRelax Z.leb (fun _ => 0) Z.add dadd grid cur (toA ds) nb =
  omapOutcome toA (dijkstraRelax grid cur ds nb).
Proof.
  unfold astarRelax, dijkstraRelax. simpl.
  destruct (cellAt grid (fst nb) (snd nb)) as [cell|]; [|done].
  destruct (wall cell); [done|].
  destruct (d_dist ds !! cur) as [dcur|]; [|done].
  rewrite Z.add_0_r.
  match goal with |- context [if ?b then _ else _] => destruct b end; done.
Qed.

Lemma dijkstraLoop_sim fuel grid rows cols goal diag ds :
  astarLoop Z.leb Z.ltb Z.eqb (fun _ => 0) Z.add dadd fuel grid rows cols goal diag (toA ds) =
  omapOutcome toA (dijkstraLoop fuel grid rows cols goal diag ds).
Proof.
  revert ds. induction fuel as [|fuel IH]; intros ds; [done|].
  rewrite astarLoop_S. simpl.
  destruct (pop Z.ltb (d_pq ds)) as [[cur pq']|]; [|done].
  unfold stale. simpl.
  destruct (d_dist ds !! node cur) as [d|].
  - destruct (negb (prio cur =? d)).
    + apply (IH (mkDState pq' (d_dist ds) (d_came ds) (d_visited ds))).
    + destruct (_ && _); [done|].
      change (visit (popped (toA ds) pq') (node cur))
        with (toA (mkDState pq' (d_dist ds) (d_came ds) (d_visited ds ++ [node cur]))).
      rewrite (foldOutcome_sim toA (dijkstraRelax grid (node cur)));
        [|apply dijkstraRelax_sim].
      destruct (foldOutcome (dijkstraRelax grid (node cur)) _ _); simpl; auto.
  - apply (IH (mkDState pq' (d_dist ds) (d_came ds) (d_visited ds))).
Qed.

Lemma runDijkstra_astar fuel grid start goal diag :
  runDijkstra fuel grid start goal diag =
  astar Z.leb Z.ltb Z.eqb (fun _ => 0) Z.add dadd fuel grid start goal diag.
Proof.
  unfold runDijkstra, astar.
  destruct (dims grid) as [rc| |]; simpl; [|done|done].
  change (mkAState (push Z.leb (mkEntry 0 start) []) {[start := 0]} {[start := 0]} ∅ [])
    with (toA (mkDState (push Z.leb (mkEntry 0 start) []) {[start := 0]} ∅ [])).
  rewrite dijkstraLoop_sim.
  destruct (dijkstraLoop fuel grid (fst rc) (snd rc) goal diag _); done.
Qed.

(** ** Linked sequences *)

Lemma linked_cons R u v p : linked R (u :: v :: p) <-> R u v /\ linked R (v :: p).
Proof. reflexivity. Qed.

Lemma linked_impl (R R' : coord -> coord -> Prop) p :
  (forall u v, R u v -> R' u v) -> linked R p -> linked R' p.
Proof.
  intros HR. induction p as [|u [|v p] IH]; [done|done|].
  rewrite !linked_cons. intros [? ?]. auto.
Qed.

Lemma linked_snoc R p u v :
  linked R (p ++ [u]) -> R u v -> linked R ((p ++ [u]) ++ [v]).
Proof.
  induction p as [|x [|y p] IH]; simpl; [auto|..].
  - intros [? _] ?. auto.
  - intros [? Hl] ?. split; [done|]. apply (IH Hl). done.
Qed.

Lemma linked_reverse R l : linked (fun x y => R y x) l -> linked R (reverse l).
Proof.
  induction l as [|u [|v l] IH]; [done|done|].
  rewrite linked_cons. intros [Hr Hl]. specialize (IH Hl).
  rewrite reverse_cons. rewrite reverse_cons in IH |- *.
  apply linked_snoc; [exact IH|done].
Qed.

Lemma pathCost_reverse grid l : pathCost grid (reverse l) = chainCost grid l.
Proof.
  assert (forall p v, foldr (fun v acc => enterCost grid v + acc) 0 (p ++ [v]) =
                      foldr (fun v acc => enterCost grid v + acc) 0 p + enterCost grid v)
    as Hsnoc.
  { induction p as [|x p IH]; intros v; simpl; [lia|]. rewrite IH. lia. }
  induction l as [|u [|v l] IH]; [done|done|].
  rewrite reverse_cons. change (chainCost grid (u :: v :: l))
    with (enterCost grid u + chainCost grid (v :: l)).
  rewrite <- IH. rewrite reverse_cons.
  unfold pathCost. destruct (reverse l) as [|x p]; simpl; [lia|].
  rewrite Hsnoc. lia.
Qed.

(** ** What every search returns *)

Section AStarResult.
Context {P : Type}.
Variables ple plt peq : P -> P -> bool.
Variable hfun : coord -> P.
Variable padd : Z -> P -> P.
Variable gadd : Z -> Z -> Z.
Variable gnorm : Z -> Prop.
Variable grid : Grid.
Variables rows cols : Z.
Variable goal : coord.
Variable diag : bool.
Variable start : coord.

Hypothesis Hdims : dims grid = Returned (rows, cols).
Hypothesis Hrect : rectGrid grid.
Hypothesis Hpos : posWeights grid.
Hypothesis Hpeq : forall v gv, 0 <= gv ->
  peq (fval hfun padd start v gv) (fval hfun padd start v gv) = true.
Hypothesis Hgadd : forall g w, 0 <= g -> 1 <= w -> 0 <= gadd g w.
Hypothesis Hgnorm : forall g w, gnorm g -> 0 <= g -> 1 <= w ->
  g <= gadd g w /\ gnorm (gadd g w).
Hypothesis Hgnorm0 : gnorm 0.

Local Abbreviation Inv := (AInv hfun padd grid rows cols diag start).
Local Abbreviation loop :=
  (fun fuel => astarLoop ple plt peq hfun padd gadd fuel grid rows cols goal diag).

Local Abbreviation astarInit := (astarInit hfun start ple).

Lemma astarInit_inv : Inv astarInit.
Proof.
  assert (Hf : fval hfun padd start start 0 = hfun start).
  { unfold fval. by rewrite decide_True. }
  split; simpl.
  - apply lookup_singleton_eq.
  - apply lookup_empty.
  - intros v d [-> <-]%lookup_singleton_Some. lia.
  - intros v [d [-> _]%lookup_singleton_Some]. by left.
  - intros v u. by rewrite lookup_empty.
  - intros v [d [-> _]%lookup_singleton_Some]. by left.
  - intros v gv [-> <-]%lookup_singleton_Some. by rewrite Hf, lookup_singleton_eq.
  - intros v gv [-> <-]%lookup_singleton_Some. right. rewrite Hf.
    apply list_elem_of_singleton. reflexivity.
  - intros e He. assert (e = mkEntry (hfun start) start) as ->.
    { apply list_elem_of_singleton. exact He. }
    simpl. rewrite lookup_singleton_eq. eauto.
  - intros v Hv. by apply elem_of_nil in Hv.
  - intros v [d [-> _]%lookup_singleton_Some]. exists 0. constructor.
Qed.

Lemma astarInit_acyclic : acyclic gnorm astarInit.
Proof.
  exists (fun _ => O), 1%nat. split; simpl.
  - by intros v d [-> <-]%lookup_singleton_Some.
  - intros _. lia.
  - intros v u gu gv. by rewrite lookup_empty.
Qed.

Lemma astarLoop_first fuel r :
  loop fuel astarInit = Returned r ->
  head (a_visited r) = Some start /\
  (start = goal -> a_visited r = [start]).
Proof.
  destruct fuel as [|fuel]; [done|]. rewrite astarLoop_S.
  change (pop plt (a_pq astarInit))
    with (Some (mkEntry (hfun start) start, @nil (entry P))).
  cbv beta iota.
  assert (stale peq astarInit (mkEntry (hfun start) start) = false) as ->.
  { unfold stale. simpl. rewrite lookup_singleton_eq.
    specialize (Hpeq start 0 ltac:(lia)). unfold fval in Hpeq.
    rewrite decide_True in Hpeq by done. by rewrite Hpeq. }
  simpl node.
  destruct ((fst start =? fst goal) && (snd start =? snd goal)) eqn:Hg.
  - intros [= <-]. done.
  - destruct (foldOutcome _ _ _) as [st'| |] eqn:Hfold; simpl; [|done|done].
    intros Hr. split.
    + pose proof Hfold as Hvis. apply relaxAll_visited in Hvis.
      simpl in Hvis.
      assert (Inv st') as HI'.
      { eapply (relaxAll_inv ple hfun padd gadd); eauto.
        eapply (popped_visit_inv plt peq) with (cur := mkEntry (hfun start) start)
                                               (pq' := []); eauto.
        - apply astarInit_inv.
        - unfold stale. simpl. rewrite lookup_singleton_eq.
          specialize (Hpeq start 0 ltac:(lia)). unfold fval in Hpeq.
          rewrite decide_True in Hpeq by done. by rewrite Hpeq. }
      eapply astarLoop_inv in Hr as (_ & _ & [k Hk]); eauto.
      rewrite Hk, Hvis. done.
    + intros ->. rewrite !Z.eqb_refl in Hg. done.
Qed.

(** The back-pointers lead from every recorded cell to the start: along
    them the pair of cost and stamp decreases. *)
Lemma chain_of_inv st v gv :
  Inv st -> acyclic gnorm st -> a_g st !! v = Some gv ->
  exists n l, chain n (a_came st) (Some v) = Some l /\
    head l = Some v /\ last l = Some start /\
    linked (fun x y => a_came st !! x = Some y) l.
Proof.
  intros HI (stamp & tick & HG).
  assert (forall gv sv v, stamp v = sv -> a_g st !! v = Some gv ->
            exists n l, chain n (a_came st) (Some v) = Some l /\
              head l = Some v /\ last l = Some start /\
              linked (fun x y => a_came st !! x = Some y) l) as Hall; [|eauto].
  clear v gv. intros gv. induction (Z.lt_wf 0 gv) as [gv _ IHg].
  intros sv. induction (lt_wf sv) as [sv _ IHs]. intros v Es Hv.
  destruct (inv_g_came _ _ _ _ _ _ _ _ HI v) as [->|[u Hu]]; [eauto|..].
  - exists 1%nat, [start]. simpl.
    by rewrite (inv_came_start _ _ _ _ _ _ _ _ HI).
  - destruct (inv_came _ _ _ _ _ _ _ _ HI v u Hu) as (He & gu & gv' & Hgu & Hgv).
    simplify_eq.
    pose proof (inv_nonneg _ _ _ _ _ _ _ _ HI u gu Hgu).
    destruct (gi_came _ _ _ _ HG v u gu gv Hu Hgu Hv) as [Hle Hlt].
    assert (exists n l, chain n (a_came st) (Some u) = Some l /\
              head l = Some u /\ last l = Some start /\
              linked (fun x y => a_came st !! x = Some y) l)
      as (n & l & Hc & Hh & Hl & Hlk).
    { destruct (decide (gu < gv)) as [Hs|Hs].
      - by apply (IHg gu ltac:(lia) (stamp u) u).
      - assert (gu = gv) as -> by lia.
        apply (IHs (stamp u)); [lia|done|done]. }
    exists (S n), (v :: l). simpl. rewrite Hu, Hc. simpl.
    destruct l as [|u' l]; [done|]. simpl in Hh. simplify_eq.
    repeat split; auto.
Qed.

Lemma passable_not_occupied v : passable grid v -> occupied grid v -> False.
Proof. intros (c1 & H1 & W1) (c2 & H2 & W2). simplify_eq. congruence. Qed.

Theorem astar_result :
  exists n, forall m, (n <= m)%nat ->
    exists r, astar ple plt peq hfun padd gadd m grid start goal diag = Returned r /\
              searchResult grid rows cols diag start goal r.
Proof.
  destruct (astarLoop_terminates ple plt peq hfun padd gadd grid rows cols goal diag
              start Hdims Hrect Hpos Hpeq Hgadd astarInit astarInit_inv)
    as (n1 & stf & Hloop).
  pose proof Hloop as Hfin.
  eapply astarLoop_inv in Hfin as (HI & Hexit & _); eauto using astarInit_inv.
  assert (HA : acyclic gnorm stf).
  { eapply (astarLoop_acyclic ple plt peq hfun padd gadd gnorm grid rows cols goal
              diag start Hpos Hpeq Hgadd Hgnorm);
      [apply astarInit_inv|apply astarInit_acyclic|exact Hloop]. }
  destruct (astarLoop_first _ _ Hloop) as [Hhead Hsame].
  assert (Hrun : forall m p, (n1 <= m)%nat ->
            reconstruct m (a_came stf) goal = Returned p ->
            astar ple plt peq hfun padd gadd m grid start goal diag
              = Returned (mkResult (a_visited stf) p)).
  { intros m p Hm Hrec. unfold astar. rewrite Hdims. simpl.
    change (mkAState _ _ _ _ _) with astarInit.
    rewrite (astarLoop_fuel_mono ple plt peq hfun padd gadd n1 m);
      [|by rewrite Hloop|done].
    rewrite Hloop. simpl. by rewrite Hrec. }
  destruct (a_came stf !! goal) as [u|] eqn:Hcame.
  - destruct (inv_came _ _ _ _ _ _ _ _ HI goal u Hcame)
      as (He & gu & gv & Hgu & Hgv).
    destruct (chain_of_inv stf goal gv HI HA Hgv) as (n2 & l & Hc & Hh & Hl & Hlk).
    exists (n1 `max` n2)%nat. intros m Hm.
    exists (mkResult (a_visited stf) (reverse l)). split.
    + apply Hrun; [lia|]. unfold reconstruct. rewrite Hcame.
      by rewrite (chain_fuel_mono n2 m _ _ l Hc) by lia.
    + split; simpl.
      * apply linked_reverse. eapply linked_impl; [|exact Hlk].
        intros x y Hxy. simpl in Hxy.
        by destruct (inv_came _ _ _ _ _ _ _ _ HI x y Hxy).
      * right. by rewrite head_reverse, last_reverse.
      * done.
      * intros _. destruct (inv_live _ _ _ _ _ _ _ _ HI goal gv Hgv) as [?|Hin]; [done|].
        destruct Hexit as [Hq|?]; [|done]. rewrite Hq in Hin.
        by apply elem_of_nil in Hin.
      * intros Hocc. destruct He as [_ Hp].
        destruct (passable_not_occupied goal Hp Hocc).
      * intros ->. rewrite (inv_came_start _ _ _ _ _ _ _ _ HI) in Hcame. done.
      * intros v Hv. eapply inv_reach; [exact HI|].
        by eapply inv_visited.
  - exists n1. intros m Hm. exists (mkResult (a_visited stf) []). split.
    + apply Hrun; [done|]. unfold reconstruct. by rewrite Hcame.
    + split; simpl; auto; [done|].
      intros v Hv. eapply inv_reach; [exact HI|]. by eapply inv_visited.
Qed.
End AStarResult.

(** ** A search with a consistent heuristic returns a cheapest path *)

Lemma foldOutcome_inv_seen {A B : Type} (f : A -> B -> outcome A)
    (J : list B -> A -> Prop) l :
  (forall seen b a a', b ∈ l -> J seen a -> f a b = Returned a' -> J (seen ++ [b]) a') ->
  forall seen a a', J seen a -> foldOutcome f l a = Returned a' -> J (seen ++ l) a'.
Proof.
  induction l as [|b l IH]; intros Hstep seen a a' Ha; simpl.
  - intros [= <-]. by rewrite app_nil_r.
  - destruct (f a b) as [a1| |] eqn:E; simpl; [|done|done].
    intros Hf. replace (seen ++ b :: l) with ((seen ++ [b]) ++ l)
      by (by rewrite <- app_assoc).
    eapply IH; [| |exact Hf].
    + intros ?????; apply Hstep. by apply elem_of_cons; right.
    + eapply Hstep; eauto. apply elem_of_cons; by left.
Qed.

Section Optimal.
Variable hfun : coord -> Z.
Variable grid : Grid.
Variables rows cols : Z.
Variable goal : coord.
Variable diag : bool.
Variable start : coord.

Hypothesis Hdims : dims grid = Returned (rows, cols).
Hypothesis Hrect : rectGrid grid.
Hypothesis Hpos : posWeights grid.
Hypothesis Hcons : consistent hfun grid rows cols diag.

Local Abbreviation Inv := (AInv hfun Z.add grid rows cols diag start).
Local Abbreviation relax := (astarRelax Z.leb hfun Z.add Z.add grid).
Local Abbreviation loop :=
  (fun fuel => astarLoop Z.leb Z.ltb Z.eqb hfun Z.add Z.add fuel grid rows cols goal diag).
Local Abbreviation OInv := (OInv hfun grid rows cols diag start).
Local Abbreviation RInv := (RInv hfun grid rows cols diag start).
Local Abbreviation OFinal := (OFinal hfun grid rows cols diag start).
Local Abbreviation Edge := (edge grid rows cols diag).
Local Abbreviation Reach := (reach grid rows cols diag start).

Lemma Zeqb_fval v gv :
  0 <= gv ->
  (fval hfun Z.add start v gv =? fval hfun Z.add start v gv) = true.
Proof. intros _. apply Z.eqb_refl. Qed.

Lemma Zadd_nonneg g w : 0 <= g -> 1 <= w -> 0 <= g + w.
Proof. lia. Qed.

Lemma fval_Z st v gv :
  Inv st -> a_g st !! v = Some gv -> fval hfun Z.add start v gv = gv + hfun v.
Proof.
  intros HI Hg. unfold fval. case_decide; [|done]. subst v.
  rewrite (inv_start _ _ _ _ _ _ _ _ HI) in Hg. by simplify_eq.
Qed.

Lemma astarRelax_cases2 cur st nb st' :
  relax cur st nb = Returned st' ->
  (st' = st /\
   (~ passable grid nb \/ a_g st !! cur = None \/
    exists gcur gnb, a_g st !! cur = Some gcur /\ a_g st !! nb = Some gnb /\
                     gnb <= gcur + enterCost grid nb)) \/
  (exists gcur,
    passable grid nb /\ a_g st !! cur = Some gcur /\
    (a_g st !! nb = None \/
     exists gnb, a_g st !! nb = Some gnb /\ gcur + enterCost grid nb < gnb) /\
    st' = mkAState
            (push Z.leb (mkEntry (gcur + enterCost grid nb + hfun nb) nb) (a_pq st))
            (<[nb:=gcur + enterCost grid nb]> (a_g st))
            (<[nb:=gcur + enterCost grid nb + hfun nb]> (a_f st))
            (<[nb:=cur]> (a_came st))
            (a_visited st)).
Proof.
  unfold astarRelax, enterCost, passable.
  destruct (cellAt grid (fst nb) (snd nb)) as [cell|] eqn:Hcell; [|done].
  destruct (wall cell) eqn:Hwall.
  { intros [= <-]. left. split; [done|]. left. intros (c & ? & ?). simplify_eq. congruence. }
  destruct (a_g st !! cur) as [gcur|] eqn:Hcur; [|intros [= <-]; left; auto].
  destruct (a_g st !! nb) as [gnb|] eqn:Hnb.
  - destruct (gcur + weightOf cell <? gnb) eqn:Hlt.
    + apply Z.ltb_lt in Hlt. intros [= <-]. right.
      exists gcur. repeat split; eauto.
    + apply Z.ltb_ge in Hlt. intros [= <-]. left. split; [done|].
      right. right. eauto.
  - intros [= <-]. right. exists gcur. repeat split; eauto.
Qed.

Lemma astarRelax_RInv cur pcur seen st nb st' :
  nb ∈ neighbors (fst cur) (snd cur) rows cols diag ->
  RInv cur pcur seen st -> relax cur st nb = Returned st' ->
  RInv cur pcur (seen ++ [nb]) st'.
Proof.
  intros Hnb HR Hr.
  assert (HI' : Inv st').
  { eapply (astarRelax_inv Z.leb hfun Z.add Z.add); eauto using Zadd_nonneg. apply HR. }
  destruct HR as [HI Hheap (Hcv & gcur & Hgcur & Hp) Hrel Hseen Hlow Hhigh Hcame Hreach].
  apply astarRelax_cases2 in Hr
    as [(-> & Hwhy)|(gcur' & Hpass & Hcur & Hcond & ->)].
  { split; auto; [eauto|].
    intros v [Hv|Hv%list_elem_of_singleton]%elem_of_app He; [auto|]. subst v.
    destruct Hwhy as [Hnp|[Hn|(g1 & g2 & H1 & H2 & Hle)]].
    - destruct He as [_ ?]. done.
    - congruence.
    - intros gu Hgu. simplify_eq. eauto. }
  simplify_eq.
  assert (He : Edge cur nb) by (split; [destruct cur; exact Hnb|done]).
  pose proof (Hcons cur nb He) as Hc.
  assert (Hold : forall gnb, a_g st !! nb = Some gnb -> gcur + enterCost grid nb < gnb).
  { intros gnb Hg. destruct Hcond as [Hn|(gnb' & Hn & Hlt)]; simplify_eq. done. }
  assert (Hnv : nb ∉ a_visited st).
  { intros Hv. destruct (inv_visited _ _ _ _ _ _ _ _ HI nb Hv) as [gnb Hgnb].
    specialize (Hold gnb Hgnb). specialize (Hlow nb gnb Hv Hgnb). lia. }
  assert (Hnc : nb <> cur) by (intros ->; done).
  unfold cameExact, gReach in *.
  split; unfold cameExact, gReach; simpl; auto.
  - by apply push_ordered.
  - split; [done|]. exists gcur. by rewrite lookup_insert_ne.
  - intros u v Hu Huc Huv gu. rewrite lookup_insert_ne by (intros <-; done).
    intros Hgu. destruct (Hrel u v Hu Huc Huv gu Hgu) as (gv & Hgv & Hle).
    rewrite lookup_insert. case_decide.
    + subst v. specialize (Hold gv Hgv). eexists; split; [done|]. lia.
    + eauto.
  - intros v Hv Hcv' gu. rewrite lookup_insert_ne by done. intros Hgu. simplify_eq.
    rewrite lookup_insert. case_decide.
    + subst v. eexists; split; [done|]. lia.
    + apply elem_of_app in Hv as [Hv|Hv%list_elem_of_singleton]; [|congruence].
      eapply Hseen; eauto.
  - intros u gu Hu. rewrite lookup_insert_ne by (intros <-; done). eauto.
  - intros e. rewrite push_perm. intros [->|He']%elem_of_cons; [simpl; lia|eauto].
  - intros v u. rewrite lookup_insert. case_decide.
    + subst v. intros [= <-]. split; [done|].
      exists gcur, (gcur + enterCost grid nb).
      rewrite lookup_insert_ne by done. by rewrite lookup_insert_eq.
    + intros Hvu. destruct (Hcame v u Hvu) as (Hu & gu & gv & Hgu & Hgv & Heq).
      split; [done|]. exists gu, gv.
      rewrite !lookup_insert_ne by (try done; intros <-; done). done.
  - intros v gv. rewrite lookup_insert. case_decide.
    + subst v. intros [= <-]. eapply reach_step; eauto.
    + eauto.
Qed.

Lemma relaxAll_RInv cur pcur st st' :
  RInv cur pcur [] st ->
  foldOutcome (relax cur) (neighbors (fst cur) (snd cur) rows cols diag) st
    = Returned st' ->
  RInv cur pcur (neighbors (fst cur) (snd cur) rows cols diag) st'.
Proof.
  intros HR Hf.
  apply (foldOutcome_inv_seen (relax cur) (RInv cur pcur) _) with (seen := []) in Hf;
    [done| |done].
  intros seen b a a' Hb Ha Hr. by eapply astarRelax_RInv.
Qed.

Lemma RInv_OInv cur pcur st :
  RInv cur pcur (neighbors (fst cur) (snd cur) rows cols diag) st -> OInv st.
Proof.
  intros [HI Hheap (Hcv & gcur & Hgcur & Hp) Hrel Hseen Hlow Hhigh Hcame Hreach].
  split; auto.
  - intros u v Hu Huv. destruct (decide (u = cur)) as [->|Hne]; [|auto].
    apply Hseen; [|done]. destruct Huv as [Hadj _]. exact Hadj.
  - intros u gu e Hu Hgu He. specialize (Hlow u gu Hu Hgu).
    specialize (Hhigh e He). lia.
Qed.

(** Every way to [v] either ends in a visited cell whose cost is no
    larger, or passes through a recorded cell still waiting in the queue. *)
Lemma lower_bound st v c :
  OInv st -> Reach v c ->
  (v ∈ a_visited st /\ exists gv, a_g st !! v = Some gv /\ gv <= c) \/
  (exists x gx, (x ∉ a_visited st) /\ a_g st !! x = Some gx /\
                gx + hfun x <= c + hfun v).
Proof.
  intros HO. induction 1 as [|u v c Hr IH He].
  - pose proof (inv_start _ _ _ _ _ _ _ _ (o_inv _ _ _ _ _ _ _ HO)) as Hs.
    destruct (decide (start ∈ a_visited st)); [left|right].
    + split; [done|]. exists 0. split; [done|lia].
    + exists start, 0. repeat split; auto. lia.
  - pose proof (Hcons u v He) as Hc.
    destruct IH as [(Hu & gu & Hgu & Hle)|(x & gx & Hx & Hgx & Hle)].
    + destruct (o_relaxed _ _ _ _ _ _ _ HO u v Hu He gu Hgu) as (gv & Hgv & Hle').
      destruct (decide (v ∈ a_visited st)); [left|right].
      * split; [done|]. exists gv. split; [done|lia].
      * exists v, gv. repeat split; auto. lia.
    + right. exists x, gx. repeat split; auto. lia.
Qed.

Lemma astarInit_OInv : OInv (astarInit hfun start Z.leb).
Proof.
  split.
  - eapply astarInit_inv with (peq := Z.eqb); eauto using Zeqb_fval.
  - apply push_ordered, heapOrdered_nil.
  - intros u v Hu. by apply elem_of_nil in Hu.
  - intros u gu e Hu. by apply elem_of_nil in Hu.
  - intros v u. simpl. by rewrite lookup_empty.
  - intros v gv. simpl. intros [<- <-]%lookup_singleton_Some. constructor.
Qed.

Lemma astarLoop_optimal fuel st r :
  OInv st -> loop fuel st = Returned r -> OFinal goal r.
Proof.
  revert st. induction fuel as [|fuel IH]; intros st HO; [done|].
  rewrite astarLoop_S.
  pose proof HO as [HI Hheap Hrel Hmono Hcame Hreach].
  destruct (pop Z.ltb (a_pq st)) as [[cur pq']|] eqn:Hpop.
  { pose proof (pop_perm _ _ _ _ Hpop) as Hperm.
    pose proof (pop_ordered _ _ _ Hheap Hpop) as Hheap'.
    pose proof (pop_min _ _ _ Hheap Hpop) as Hmin.
    destruct (stale Z.eqb st cur) eqn:Hst.
    - apply IH. split; simpl; auto.
      + eapply popped_stale_inv; eauto using Zeqb_fval.
      + intros u gu e Hu Hgu He. apply (Hmono u gu e Hu Hgu).
        rewrite Hperm. apply elem_of_cons. by right.
    - assert (HI' : Inv (visit (popped st pq') (node cur)))
        by (eapply (popped_visit_inv Z.ltb Z.eqb); eauto using Zeqb_fval).
      assert (Hcin : cur ∈ a_pq st) by (rewrite Hperm; apply elem_of_cons; by left).
      destruct (inv_pq _ _ _ _ _ _ _ _ HI cur Hcin) as [gc Hgc].
      assert (Hprio : prio cur = gc + hfun (node cur)).
      { unfold stale in Hst.
        rewrite (inv_f _ _ _ _ _ _ _ _ HI _ _ Hgc) in Hst.
        rewrite (fval_Z st _ _ HI Hgc) in Hst.
        apply negb_false_iff, Z.eqb_eq in Hst. done. }
      assert (Hcame' : cameExact grid (visit (popped st pq') (node cur))).
      { intros v u Hvu. destruct (Hcame v u Hvu) as (Hu & Hx).
        split; [|done]. simpl. apply elem_of_app. by left. }
      destruct ((fst (node cur) =? fst goal) && (snd (node cur) =? snd goal)) eqn:Hg.
      + intros [= <-]. split; auto.
        apply andb_true_iff in Hg as [?%Z.eqb_eq ?%Z.eqb_eq].
        assert (node cur = goal) as Hnode
          by (destruct (node cur), goal; simpl in *; congruence).
        intros c Hc. simpl. rewrite <- Hnode. exists gc. split; [done|].
        rewrite <- Hnode in Hc.
        destruct (lower_bound st (node cur) c HO Hc)
          as [(Hu & gv & Hgv & Hle)|(x & gx & Hx & Hgx & Hle)].
        * by simplify_eq.
        * destruct (inv_live _ _ _ _ _ _ _ _ HI x gx Hgx) as [?|Hin]; [done|].
          specialize (Hmin _ Hin). simpl in Hmin.
          rewrite (fval_Z st _ _ HI Hgx) in Hmin. lia.
      + destruct (foldOutcome _ _ _) as [st'| |] eqn:Hfold; simpl; [|done|done].
        apply IH. eapply RInv_OInv. eapply (relaxAll_RInv _ (prio cur)); [|exact Hfold].
        split; simpl; auto.
        * split; [apply elem_of_app; right; by apply list_elem_of_singleton|].
          eauto.
        * intros u v [Hu|Hu%list_elem_of_singleton]%elem_of_app Hne; [auto|done].
        * intros v Hv. by apply elem_of_nil in Hv.
        * intros u gu [Hu|Hu%list_elem_of_singleton]%elem_of_app Hgu.
          -- by apply (Hmono u gu cur).
          -- subst u. simplify_eq. lia.
        * intros e He. apply Hmin. rewrite Hperm. apply elem_of_cons. by right. }
  intros [= <-]. apply pop_None in Hpop. split; auto.
  intros c Hc.
  destruct (lower_bound st goal c HO Hc)
    as [(Hu & gv & Hgv & Hle)|(x & gx & Hx & Hgx & Hle)]; [eauto|].
  destruct (inv_live _ _ _ _ _ _ _ _ HI x gx Hgx) as [?|Hin]; [done|].
  rewrite Hpop in Hin. by apply elem_of_nil in Hin.
Qed.

Lemma chain_cost st n :
  Inv st -> cameExact grid st ->
  forall v l gv, chain n (a_came st) (Some v) = Some l -> a_g st !! v = Some gv ->
                 chainCost grid l = gv.
Proof.
  intros HI Hcame. induction n as [|n IH]; intros v l gv; [done|].
  simpl. destruct (a_came st !! v) as [u|] eqn:Hu.
  - destruct (chain n (a_came st) (Some u)) as [l'|] eqn:Hl'; [|done].
    simpl. intros [= <-] Hgv.
    destruct (Hcame v u Hu) as (_ & gu & gv' & Hgu & Hgv' & Heq). simplify_eq.
    rewrite <- (IH u l' gu Hl' Hgu).
    destruct n as [|n]; [done|]. simpl in Hl'.
    destruct (chain n (a_came st) (a_came st !! u)); [|done].
    simpl in Hl'. simplify_eq. simpl. lia.
  - destruct n; simpl; intros [= <-] Hgv; simpl.
    all: destruct (inv_g_came _ _ _ _ _ _ _ _ HI v) as [->|[? ?]]; [eauto| |congruence].
    all: rewrite (inv_start _ _ _ _ _ _ _ _ HI) in Hgv; by simplify_eq.
Qed.

(** The path returned by a search with a consistent integer heuristic is
    a cheapest one. *)
Theorem astar_cheapest fuel r :
  astar Z.leb Z.ltb Z.eqb hfun Z.add Z.add fuel grid start goal diag = Returned r ->
  cheapest grid rows cols diag start goal (path r).
Proof.
  unfold astar. rewrite Hdims. simpl.
  change (mkAState _ _ _ _ _) with (astarInit hfun start Z.leb).
  destruct (astarLoop _ _ _ _ _ _ _ _ _ _ _ _) as [stf| |] eqn:Hloop; simpl; [|done|done].
  apply astarLoop_optimal in Hloop as [HI Hcame Hreach Hopt]; [|apply astarInit_OInv].
  unfold reconstruct.
  destruct (a_came stf !! goal) as [u|] eqn:Hu.
  - destruct (chain fuel (a_came stf) (Some goal)) as [l|] eqn:Hl; simpl; [|done].
    intros [= <-]. simpl. left.
    destruct (Hcame goal u Hu) as (_ & gu & gg & _ & Hgg & _).
    rewrite pathCost_reverse, (chain_cost stf fuel HI Hcame goal l gg Hl Hgg).
    split; [by apply Hreach|].
    intros c Hc. destruct (Hopt c Hc) as (gg' & Hgg' & Hle). by simplify_eq.
  - simpl. intros [= <-]. simpl.
    destruct (a_g stf !! goal) as [gg|] eqn:Hgg.
    + left. destruct (inv_g_came _ _ _ _ _ _ _ _ HI goal) as [->|[? ?]];
        [eauto| |congruence].
      split; [constructor|].
      intros c Hc. destruct (Hopt c Hc) as (gg' & Hgg' & Hle).
      rewrite (inv_start _ _ _ _ _ _ _ _ HI) in Hgg'. by simplify_eq.
    + right. split; [done|]. intros c Hc.
      destruct (Hopt c Hc) as (gg' & Hgg' & Hle). congruence.
Qed.
End Optimal.

Lemma cheapest_unique grid rows cols diag start goal p1 p2 :
  cheapest grid rows cols diag start goal p1 ->
  cheapest grid rows cols diag start goal p2 ->
  pathCost grid p1 = pathCost grid p2.
Proof.
  intros [[R1 M1]|[-> N1]] [[R2 M2]|[-> N2]].
  - specialize (M1 _ R2). specialize (M2 _ R1). lia.
  - destruct (N2 _ R1).
  - destruct (N1 _ R2).
  - done.
Qed.

(** ** Sums in doubles *)

Lemma ulp_pos z : 0 < ulp z.
Proof. unfold ulp. apply Z.pow_pos_nonneg; lia. Qed.

Lemma ulp_small z : Z.abs z < 2 ^ 53 -> ulp z = 1.
Proof.
  intros Hz. unfold ulp.
  assert (Z.log2 (Z.abs z) <= 52) as Hl.
  { destruct (Z.eq_dec (Z.abs z) 0) as [->|Hne]; [simpl; lia|].
    assert (Z.log2 (Z.abs z) < 53); [|lia].
    apply Z.log2_lt_pow2; lia. }
  rewrite Z.max_l by lia. reflexivity.
Qed.

Lemma Infinity_large : 2 ^ 53 < Infinity.
Proof. unfold Infinity. apply Z.pow_lt_mono_r; lia. Qed.

(** Below 2^53 every integer is a double: nothing is rounded. *)
Lemma roundDouble_small z : Z.abs z < 2 ^ 53 -> roundDouble z = z.
Proof.
  intros Hz. pose proof Infinity_large as Hinf.
  unfold roundDouble. rewrite (ulp_small z Hz).
  rewrite Z.div_1_r, Z.mod_1_r.
  change (0 * 2 <? 1) with true. cbv iota.
  rewrite Z.mul_1_r, Z.min_l by lia.
  rewrite Z.mul_comm. apply Z.abs_sgn.
Qed.

Lemma dadd_small a b :
  Z.abs a < 2 ^ 53 -> Z.abs (a + b) < 2 ^ 53 -> dadd a b = a + b.
Proof.
  intros Ha Hab. unfold dadd. pose proof Infinity_large.
  destruct (Infinity <=? Z.abs a) eqn:E; [apply Z.leb_le in E; lia|].
  by apply roundDouble_small.
Qed.

Lemma roundDouble_nonneg z : 0 <= z -> 0 <= roundDouble z.
Proof.
  intros Hz. unfold roundDouble. pose proof (ulp_pos z) as Hu.
  pose proof Infinity_large.
  assert (0 <= Z.abs z / ulp z) by (apply Z.div_pos; lia).
  apply Z.mul_nonneg_nonneg; [lia|].
  apply Z.min_glb; [|lia].
  repeat match goal with |- context [if ?b then _ else _] => destruct b end; nia.
Qed.

Lemma dadd_nonneg a b : 0 <= a -> 0 <= b -> 0 <= dadd a b.
Proof.
  intros Ha Hb. unfold dadd. destruct (Infinity <=? Z.abs a); [done|].
  apply roundDouble_nonneg. lia.
Qed.

Lemma isDouble_0 : isDouble 0.
Proof. split; [unfold Infinity; simpl; lia|reflexivity]. Qed.

(** The binade of a positive integer of at least 54 bits. *)
Lemma ulp_binade x :
  2 ^ 53 <= x ->
  let k := Z.log2 x in
  ulp x = 2 ^ (k - 52) /\ 53 <= k /\
  2 ^ 52 * ulp x <= x < 2 ^ 53 * ulp x /\
  2 ^ 52 <= x / ulp x < 2 ^ 53.
Proof.
  intros Hx k.
  assert (Hx0 : 0 < x) by lia.
  pose proof (Z.log2_spec x Hx0) as [Hlo Hhi]. fold k in Hlo, Hhi.
  assert (Hk : 53 <= k).
  { assert (53 <= Z.log2 x); [|done]. apply Z.log2_le_pow2; lia. }
  unfold ulp. rewrite Z.abs_eq by lia. fold k. rewrite Z.max_r by lia.
  assert (Hu : 0 < 2 ^ (k - 52)) by (apply Z.pow_pos_nonneg; lia).
  assert (E1 : 2 ^ k = 2 ^ 52 * 2 ^ (k - 52)).
  { rewrite <- Z.pow_add_r by lia. f_equal. lia. }
  assert (E2 : 2 ^ Z.succ k = 2 ^ 53 * 2 ^ (k - 52)).
  { rewrite <- Z.pow_add_r by lia. f_equal. lia. }
  split; [done|]. split; [done|]. split; [lia|].
  split.
  - apply Z.div_le_lower_bound; lia.
  - apply Z.div_lt_upper_bound; lia.
Qed.

(** The doubles up to [x] lie on or below the multiple of [ulp x] next
    below [x], and those above [x] on or above the next one. *)
Lemma double_below x d :
  2 ^ 53 <= x -> isDouble d -> d <= x -> d <= x / ulp x * ulp x.
Proof.
  intros Hbig [Hinf Hmod] Hdx.
  destruct (ulp_binade x Hbig) as (Eu & Hk & [Hlo Hhi] & [Hqlo Hqhi]).
  set (k := Z.log2 x) in *. set (u := ulp x) in *.
  pose proof (ulp_pos x) as Hu. fold u in Hu.
  set (q := x / u) in *.
  destruct (Z_lt_le_dec d (2 ^ 53)) as [Hds|Hdb]; [nia|].
  destruct (ulp_binade d Hdb) as (Eud & Hkd & [Hdlo Hdhi] & _).
  assert (Hle : Z.log2 d <= k) by (apply Z.log2_le_mono; lia).
  destruct (Z.eq_dec (Z.log2 d) k) as [Ek|Nk].
  - assert (ulp d = u) as Eq by (rewrite Eud, Eu; by rewrite Ek).
    rewrite Eq in Hmod.
    apply Z.mod_divide in Hmod as [m Hm]; [|lia]. subst d.
    assert (m <= q); [|nia].
    apply Z.div_le_lower_bound; lia.
  - assert (ulp d * 2 <= u).
    { rewrite Eud, Eu.
      replace (k - 52) with (Z.succ (Z.log2 d - 52) + (k - Z.log2 d - 1)) by lia.
      rewrite Z.pow_add_r, Z.pow_succ_r by lia.
      assert (0 < 2 ^ (k - Z.log2 d - 1)) by (apply Z.pow_pos_nonneg; lia).
      assert (0 < 2 ^ (Z.log2 d - 52)) by (apply Z.pow_pos_nonneg; lia).
      nia. }
    nia.
Qed.

Lemma double_above x d :
  2 ^ 53 <= x -> isDouble d -> x < d -> (x / ulp x + 1) * ulp x <= d.
Proof.
  intros Hbig [Hinf Hmod] Hxd.
  destruct (ulp_binade x Hbig) as (Eu & Hk & [Hlo Hhi] & [Hqlo Hqhi]).
  set (k := Z.log2 x) in *. set (u := ulp x) in *.
  pose proof (ulp_pos x) as Hu. fold u in Hu.
  set (q := x / u) in *.
  assert (Hdb : 2 ^ 53 <= d) by lia.
  destruct (ulp_binade d Hdb) as (Eud & Hkd & [Hdlo Hdhi] & _).
  assert (Hle : k <= Z.log2 d) by (apply Z.log2_le_mono; lia).
  destruct (Z.eq_dec (Z.log2 d) k) as [Ek|Nk].
  - assert (ulp d = u) as Eq by (rewrite Eud, Eu; by rewrite Ek).
    rewrite Eq in Hmod.
    apply Z.mod_divide in Hmod as [m Hm]; [|lia]. subst d.
    assert (q < m); [|nia].
    apply Z.div_lt_upper_bound; lia.
  - assert (u * 2 <= ulp d).
    { rewrite Eud, Eu.
      replace (Z.log2 d - 52) with (Z.succ (k - 52) + (Z.log2 d - k - 1)) by lia.
      rewrite Z.pow_add_r, Z.pow_succ_r by lia.
      assert (0 < 2 ^ (Z.log2 d - k - 1)) by (apply Z.pow_pos_nonneg; lia).
      assert (0 < 2 ^ (k - 52)) by (apply Z.pow_pos_nonneg; lia).
      nia. }
    nia.
Qed.

(** Rounding never passes a double that lies below. *)
Lemma roundDouble_lower a x :
  isDouble a -> 0 <= a <= x -> a <= roundDouble x.
Proof.
  intros Hd [Ha Hax].
  destruct (Z_lt_le_dec x (2 ^ 53)) as [Hsmall|Hbig].
  { rewrite roundDouble_small; [done|lia]. }
  pose proof (double_below x a Hbig Hd Hax) as Hq.
  destruct Hd as [Hinf _].
  unfold roundDouble.
  destruct (ulp_binade x Hbig) as (Eu & Hk & [Hlo Hhi] & [Hqlo Hqhi]).
  set (k := Z.log2 x) in *. set (u := ulp x) in *.
  pose proof (ulp_pos x) as Hu. fold u in Hu.
  rewrite Z.abs_eq by lia. rewrite Z.sgn_pos by lia. rewrite Z.mul_1_l.
  set (q := x / u) in *.
  apply Z.min_glb; [|rewrite Z.abs_eq in Hinf by lia; done].
  repeat match goal with |- context [if ?b then _ else _] => destruct b end; nia.
Qed.

(** No double is nearer to [x] than the one [x] is rounded to. *)
Lemma roundDouble_nearest x d :
  0 <= x < Infinity -> isDouble d ->
  Z.abs (x - roundDouble x) <= Z.abs (x - d).
Proof.
  intros [Hx Hfin] Hd.
  destruct (Z_lt_le_dec x (2 ^ 53)) as [Hsmall|Hbig].
  { rewrite roundDouble_small by lia. lia. }
  assert (Hlow : d <= x -> d <= x / ulp x * ulp x) by apply (double_below x d Hbig Hd).
  assert (Hup : x < d -> (x / ulp x + 1) * ulp x <= d) by apply (double_above x d Hbig Hd).
  unfold roundDouble.
  destruct (ulp_binade x Hbig) as (Eu & Hk & [Hlo Hhi] & [Hqlo Hqhi]).
  set (k := Z.log2 x) in *. set (u := ulp x) in *.
  pose proof (ulp_pos x) as Hu. fold u in Hu.
  rewrite !(Z.abs_eq x) by lia. rewrite Z.sgn_pos by lia. rewrite Z.mul_1_l.
  pose proof (Z.div_mod x u ltac:(lia)) as Hdm.
  pose proof (Z.mod_pos_bound x u Hu) as Hr.
  set (q := x / u) in *. set (r := x mod u) in *.
  assert (Htop : 2 ^ 53 * u <= Infinity).
  { assert (k < 1024).
    { apply Z.log2_lt_pow2; [lia|exact Hfin]. }
    rewrite Eu, <- Z.pow_add_r by lia. unfold Infinity.
    apply Z.pow_le_mono_r; lia. }
  destruct (r * 2 <? u) eqn:E1; [apply Z.ltb_lt in E1|apply Z.ltb_ge in E1].
  { rewrite Z.min_l by nia. destruct (Z_le_gt_dec d x); [specialize (Hlow ltac:(lia))|
      specialize (Hup ltac:(lia))]; nia. }
  destruct (u <? r * 2) eqn:E2; [apply Z.ltb_lt in E2|apply Z.ltb_ge in E2].
  { rewrite Z.min_l by nia. destruct (Z_le_gt_dec d x); [specialize (Hlow ltac:(lia))|
      specialize (Hup ltac:(lia))]; nia. }
  destruct (Z.even q).
  - rewrite Z.min_l by nia. destruct (Z_le_gt_dec d x); [specialize (Hlow ltac:(lia))|
      specialize (Hup ltac:(lia))]; nia.
  - rewrite Z.min_l by nia. destruct (Z_le_gt_dec d x); [specialize (Hlow ltac:(lia))|
      specialize (Hup ltac:(lia))]; nia.
Qed.

(** Half way between two doubles, rounding takes the one whose
    significand is even. *)
Lemma roundDouble_ties_even x :
  2 ^ 53 <= x < Infinity -> x mod ulp x * 2 = ulp x ->
  Z.even (roundDouble x / ulp x) = true.
Proof.
  intros [Hbig Hfin] Htie. unfold roundDouble.
  destruct (ulp_binade x Hbig) as (Eu & Hk & [Hlo Hhi] & [Hqlo Hqhi]).
  set (k := Z.log2 x) in *. set (u := ulp x) in *.
  pose proof (ulp_pos x) as Hu. fold u in Hu.
  rewrite !(Z.abs_eq x) by lia. rewrite Z.sgn_pos by lia. rewrite Z.mul_1_l.
  set (q := x / u) in *.
  assert (Htop : 2 ^ 53 * u <= Infinity).
  { assert (k < 1024) by (apply Z.log2_lt_pow2; [lia|exact Hfin]).
    rewrite Eu, <- Z.pow_add_r by lia. unfold Infinity.
    apply Z.pow_le_mono_r; lia. }
  rewrite Htie, Z.ltb_irrefl.
  destruct (Z.even q) eqn:Ev.
  - rewrite Z.min_l by nia. rewrite Z.div_mul by lia. exact Ev.
  - rewrite Z.min_l by nia. rewrite Z.div_mul by lia.
    rewrite Z.even_add, Ev. reflexivity.
Qed.

Lemma isDouble_Infinity : isDouble Infinity.
Proof. split; [unfold Infinity; simpl; lia|]. vm_compute. reflexivity. Qed.

(** What rounding returns is a double. *)
Lemma roundDouble_isDouble x : 0 <= x -> isDouble (roundDouble x).
Proof.
  intros Hx.
  destruct (Z_lt_le_dec x (2 ^ 53)) as [Hsmall|Hbig].
  { rewrite roundDouble_small by lia. pose proof Infinity_large. split; [lia|].
    rewrite ulp_small by lia. apply Z.mod_1_r. }
  unfold roundDouble.
  destruct (ulp_binade x Hbig) as (Eu & Hk & [Hlo Hhi] & [Hqlo Hqhi]).
  set (k := Z.log2 x) in *. set (u := ulp x) in *.
  pose proof (ulp_pos x) as Hu. fold u in Hu.
  rewrite Z.abs_eq by lia. rewrite Z.sgn_pos by lia. rewrite Z.mul_1_l.
  set (q := x / u) in *.
  match goal with |- isDouble (Z.min (?qq * u) Infinity) => set (q' := qq) end.
  assert (Hq' : 2 ^ 52 <= q' <= 2 ^ 53).
  { subst q'.
    repeat match goal with |- context [if ?b then _ else _] => destruct b end; lia. }
  destruct (Z_le_gt_dec Infinity (q' * u)) as [Hov|Hfin].
  { rewrite Z.min_r by lia. apply isDouble_Infinity. }
  rewrite Z.min_l by lia.
  split; [rewrite Z.abs_eq by nia; lia|].
  destruct (Z.eq_dec q' (2 ^ 53)) as [->|Hne].
  - assert (E : 2 ^ 53 * u = 2 ^ (k + 1)).
    { rewrite Eu, <- Z.pow_add_r by lia. f_equal. lia. }
    rewrite E. unfold ulp. rewrite Z.abs_eq by (apply Z.pow_nonneg; lia).
    rewrite Z.log2_pow2 by lia. rewrite Z.max_r by lia.
    replace (k + 1) with (52 + (k + 1 - 52)) at 1 by lia.
    rewrite Z.pow_add_r by lia. apply Z.mod_mul.
    apply Z.pow_nonzero; lia.
  - assert (El : Z.log2 (q' * u) = k).
    { rewrite Eu, Z.log2_mul_pow2 by lia.
      assert (Z.log2 q' = 52); [|lia].
      apply Z.log2_unique; [lia|]. split; [lia|]. simpl Z.succ. lia. }
    unfold ulp at 1. rewrite Z.abs_eq by nia. rewrite El, Z.max_r by lia.
    rewrite <- Eu. apply Z.mod_mul. lia.
Qed.

(** Adding a weight to a double gives a double that is not smaller. *)
Lemma dadd_grows a w :
  isDouble a -> 0 <= a -> 1 <= w -> a <= dadd a w /\ isDouble (dadd a w).
Proof.
  intros Hd Ha Hw. unfold dadd.
  destruct (Infinity <=? Z.abs a); [done|].
  split; [apply roundDouble_lower; [done|lia] | apply roundDouble_isDouble; lia].
Qed.

Lemma dadd_weight_nonneg a w : 0 <= a -> 1 <= w -> 0 <= dadd a w.
Proof. intros. apply dadd_nonneg; lia. Qed.

(** ** The rational instance satisfies the laws *)

Lemma hypotQ_nonneg dr dc : Qle 0 (hypotQ dr dc).
Proof.
  unfold hypotQ. destruct (_ =? _).
  - change 0%Q with (inject_Z 0). rewrite <- Zle_Qle. apply Z.sqrt_nonneg.
  - unfold Qle. simpl. pose proof (Z.sqrt_nonneg ((dr * dr + dc * dc) * 1000000000000)).
    lia.
Qed.

Lemma QNumLaws : JSNumberLaws QNum.
Proof.
  refine {| nleq := Qle_bool |}.
  - intros a. apply Qle_bool_iff, Qle_refl.
  - intros a b c H1%Qle_bool_iff H2%Qle_bool_iff. apply Qle_bool_iff.
    by eapply Qle_trans.
  - intros a b H. simpl in H. apply negb_true_iff in H.
    split; [|done]. apply Qle_bool_iff.
    destruct (Qlt_le_dec a b) as [Hlt|Hle]; [by apply Qlt_le_weak|].
    apply Qle_bool_iff in Hle. congruence.
  - intros a w dr dc Hw. apply Qle_bool_iff. simpl.
    rewrite <- (Qplus_0_r a) at 1. apply Qplus_le_r.
    apply Qmult_le_0_compat; [|apply hypotQ_nonneg].
    change 0%Q with (inject_Z 0). by rewrite <- Zle_Qle.
  - intros a b x _ Hab%Qle_bool_iff. apply Qle_bool_iff. simpl.
    by apply Qplus_le_l.
  - intros dr dc. simpl. apply Qeq_bool_iff. reflexivity.
  - intros t dr dc _. simpl. apply Qeq_bool_iff. reflexivity.
Defined.

(** ** What runDijkstra and runAStar return *)

Lemma wfGrid_dims grid :
  grid <> [] -> dims grid = Returned (gridRows grid, gridCols grid).
Proof. by destruct grid. Qed.

Lemma runDijkstra_result grid start goal diag :
  wfGrid grid ->
  exists n, forall m, (n <= m)%nat ->
    exists r, runDijkstra m grid start goal diag = Returned r /\
              searchResult grid (gridRows grid) (gridCols grid) diag start goal r.
Proof.
  intros (Hne & Hrect & Hpos).
  destruct (astar_result Z.leb Z.ltb Z.eqb (fun _ => 0) Z.add dadd isDouble grid
              (gridRows grid) (gridCols grid) goal diag start
              (wfGrid_dims grid Hne) Hrect Hpos) as [n Hn].
  { intros v gv _. apply Z.eqb_refl. }
  { apply dadd_weight_nonneg. }
  { apply dadd_grows. }
  { apply isDouble_0. }
  exists n. intros m Hm. rewrite runDijkstra_astar. by apply Hn.
Qed.

Section AStarNumbers.
Context {N : JSNumber}.

Lemma runAStar4_result grid start goal :
  wfGrid grid ->
  exists n, forall m, (n <= m)%nat ->
    exists r, runAStar m grid start goal false = Returned r /\
              searchResult grid (gridRows grid) (gridCols grid) false start goal r.
Proof.
  intros (Hne & Hrect & Hpos). unfold runAStar.
  apply (astar_result Z.leb Z.ltb Z.eqb (fun a => manhattan a goal) dadd dadd
           isDouble grid (gridRows grid) (gridCols grid) goal false start
           (wfGrid_dims grid Hne) Hrect Hpos).
  - intros v gv _. apply Z.eqb_refl.
  - apply dadd_weight_nonneg.
  - apply dadd_grows.
  - apply isDouble_0.
Qed.

Lemma runAStar_result {L : JSNumberLaws N} grid start goal diag :
  wfGrid grid ->
  exists n, forall m, (n <= m)%nat ->
    exists r, runAStar m grid start goal diag = Returned r /\
              searchResult grid (gridRows grid) (gridCols grid) diag start goal r.
Proof.
  intros (Hne & Hrect & Hpos). unfold runAStar. destruct diag.
  - apply (astar_result nle nlt neq (fun a => euclid a goal)
             (fun t h => nadd (of_Z t) h) dadd isDouble grid
             (gridRows grid) (gridCols grid)
             goal true start (wfGrid_dims grid Hne) Hrect Hpos).
    + intros v gv Hgv. unfold fval, euclid. case_decide.
      * apply neq_hypot_refl.
      * by apply neq_prio_refl.
    + apply dadd_weight_nonneg.
    + apply dadd_grows.
    + apply isDouble_0.
  - by apply runAStar4_result.
Qed.

(** Both searches return, from some amount of fuel on. *)
Lemma searches_return {L : JSNumberLaws N} grid start goal diag :
  wfGrid grid ->
  exists n, forall m, (n <= m)%nat ->
    exists rD rA,
      runDijkstra m grid start goal diag = Returned rD /\
      runAStar m grid start goal diag = Returned rA /\
      searchResult grid (gridRows grid) (gridCols grid) diag start goal rD /\
      searchResult grid (gridRows grid) (gridCols grid) diag start goal rA.
Proof.
  intros Hwf.
  destruct (runDijkstra_result grid start goal diag Hwf) as [n1 H1].
  destruct (runAStar_result grid start goal diag Hwf) as [n2 H2].
  exists (n1 `max` n2)%nat. intros m Hm.
  destruct (H1 m ltac:(lia)) as (rD & HD & HrD).
  destruct (H2 m ltac:(lia)) as (rA & HA & HrA).
  by exists rD, rA.
Qed.

Lemma runAStar_fuel_mono n m grid start goal diag :
  runAStar n grid start goal diag <> OutOfFuel -> (n <= m)%nat ->
  runAStar m grid start goal diag = runAStar n grid start goal diag.
Proof. unfold runAStar. destruct diag; apply astar_fuel_mono. Qed.
End AStarNumbers.

Lemma runDijkstra_fuel_mono n m grid start goal diag :
  runDijkstra n grid start goal diag <> OutOfFuel -> (n <= m)%nat ->
  runDijkstra m grid start goal diag = runDijkstra n grid start goal diag.
Proof. rewrite !runDijkstra_astar. apply astar_fuel_mono. Qed.

(** ** The two heuristics of the optimality argument *)

Lemma zero_consistent grid rows cols diag :
  posWeights grid -> consistent (fun _ => 0) grid rows cols diag.
Proof. intros Hpos u v _. pose proof (enterCost_pos grid v Hpos). lia. Qed.

Lemma manhattan_consistent grid rows cols goal :
  posWeights grid -> consistent (fun a => manhattan a goal) grid rows cols false.
Proof.
  intros Hpos u v [Hadj _]. pose proof (enterCost_pos grid v Hpos) as Hc.
  unfold adjacent, neighbors in Hadj.
  apply list_elem_of_omap in Hadj as (d & Hd & Hv).
  destruct (inBounds _ _ _ _); [|done]. simplify_eq.
  unfold manhattan. simpl.
  unfold DIRS4 in Hd.
  repeat (apply elem_of_cons in Hd as [->|Hd]; [simpl in *; lia|]).
  by apply elem_of_nil in Hd.
Qed.

(** ** Checking a concrete grid *)

Lemma wfGridb_wfGrid grid : wfGridb grid = true -> wfGrid grid.
Proof.
  destruct grid as [|row0 rest] eqn:E; [done|]. rewrite <- E. unfold wfGridb.
  rewrite E at 1. intros H. rewrite forallb_forall in H.
  assert (forall row, row ∈ grid ->
            length row = length row0 /\ forall cell, cell ∈ row -> 1 <= weightOf cell)
    as Hrow.
  { intros row Hin%list_elem_of_In. apply H in Hin.
    apply andb_true_iff in Hin as [Hl%Nat.eqb_eq Hw]. split; [done|].
    intros cell Hc%list_elem_of_In. rewrite forallb_forall in Hw.
    apply Z.leb_le. by apply Hw. }
  split; [by rewrite E|]. split.
  - intros row row' [H1 _]%Hrow [H2 _]%Hrow. congruence.
  - intros row cell [_ H1]%Hrow. apply H1.
Qed.

Lemma noWallsb_noWalls grid : noWallsb grid = true -> noWalls grid.
Proof.
  unfold noWallsb. rewrite forallb_forall.
  intros H row cell Hr%list_elem_of_In Hc%list_elem_of_In.
  apply H in Hr. rewrite forallb_forall in Hr. apply Hr in Hc.
  by apply negb_true_iff in Hc.
Qed.

(** ** The line walk of RRT* *)

Lemma linePoints_S fuel x1 y1 dx dy sx sy x0 y0 err :
  linePoints (S fuel) x1 y1 dx dy sx sy x0 y0 err =
  (x0, y0) ::
  if (x0 =? x1) && (y0 =? y1) then []
  else linePoints fuel x1 y1 dx dy sx sy
         (if - dy <? err * 2 then x0 + sx else x0)
         (if err * 2 <? dx then y0 + sy else y0)
         ((if - dy <? err * 2 then err - dy else err) +
          (if err * 2 <? dx then dx else 0)).
Proof.
  simpl. destruct (_ && _); [done|].
  destruct (- dy <? err * 2), (err * 2 <? dx); simpl; f_equal; f_equal; lia.
Qed.

Lemma walkInv_step x1 y1 dx dy sx sy x0 y0 err rx ry :
  walkInv x1 y1 dx dy sx sy x0 y0 err rx ry ->
  (x0 =? x1) && (y0 =? y1) = false ->
  exists rx' ry',
    walkInv x1 y1 dx dy sx sy
      (if - dy <? err * 2 then x0 + sx else x0)
      (if err * 2 <? dx then y0 + sy else y0)
      ((if - dy <? err * 2 then err - dy else err) +
       (if err * 2 <? dx then dx else 0))
      rx' ry' /\
    rx' + ry' < rx + ry.
Proof.
  intros (Hrx & Hry & Hsx & Hsy & Hx & Hy & He) Hend.
  assert (Hpos : 0 < rx + ry).
  { apply andb_false_iff in Hend as [H%Z.eqb_neq|H%Z.eqb_neq]; nia. }
  destruct (- dy <? err * 2) eqn:Ex; destruct (err * 2 <? dx) eqn:Ey.
  - apply Z.ltb_lt in Ex, Ey.
    assert (0 < rx) by nia. assert (0 < ry) by nia.
    exists (rx - 1), (ry - 1). unfold walkInv. repeat split; try lia; nia.
  - apply Z.ltb_lt in Ex. apply Z.ltb_ge in Ey.
    assert (0 < rx) by nia.
    exists (rx - 1), ry. unfold walkInv. repeat split; try lia; nia.
  - apply Z.ltb_ge in Ex. apply Z.ltb_lt in Ey.
    assert (0 < ry) by nia.
    exists rx, (ry - 1). unfold walkInv. repeat split; try lia; nia.
  - apply Z.ltb_ge in Ex, Ey. exfalso. nia.
Qed.

Lemma linePoints_prefix n m x1 y1 dx dy sx sy x0 y0 err :
  (n <= m)%nat ->
  linePoints n x1 y1 dx dy sx sy x0 y0 err `prefix_of`
  linePoints m x1 y1 dx dy sx sy x0 y0 err.
Proof.
  revert m x0 y0 err. induction n as [|n IH]; intros m x0 y0 err Hle.
  - apply prefix_nil.
  - destruct m as [|m]; [lia|]. rewrite !linePoints_S.
    apply prefix_cons. destruct (_ && _); [done|]. apply IH. lia.
Qed.

Lemma linePoints_stable n m x1 y1 dx dy sx sy x0 y0 err :
  last (linePoints n x1 y1 dx dy sx sy x0 y0 err) = Some (x1, y1) ->
  (n <= m)%nat ->
  linePoints m x1 y1 dx dy sx sy x0 y0 err =
  linePoints n x1 y1 dx dy sx sy x0 y0 err.
Proof.
  revert m x0 y0 err. induction n as [|n IH]; intros m x0 y0 err; [done|].
  intros Hlast Hle. destruct m as [|m]; [lia|]. rewrite !linePoints_S in *.
  destruct ((x0 =? x1) && (y0 =? y1)) eqn:Hend; [done|]. f_equal.
  apply IH; [|lia].
  match goal with
  | H : last (_ :: ?l) = _ |- _ => destruct l eqn:El; [|by rewrite last_cons_cons in H]
  end.
  simpl in Hlast. simplify_eq. by rewrite !Z.eqb_refl in Hend.
Qed.

Lemma linePoints_complete fuel x1 y1 dx dy sx sy x0 y0 err rx ry :
  walkInv x1 y1 dx dy sx sy x0 y0 err rx ry ->
  (Z.to_nat (rx + ry) < fuel)%nat ->
  head (linePoints fuel x1 y1 dx dy sx sy x0 y0 err) = Some (x0, y0) /\
  last (linePoints fuel x1 y1 dx dy sx sy x0 y0 err) = Some (x1, y1) /\
  linked kingStep (linePoints fuel x1 y1 dx dy sx sy x0 y0 err).
Proof.
  revert x0 y0 err rx ry. induction fuel as [|fuel IH]; intros x0 y0 err rx ry HI Hf;
    [lia|].
  rewrite linePoints_S. split; [done|].
  destruct ((x0 =? x1) && (y0 =? y1)) eqn:Hend.
  { apply andb_true_iff in Hend as [->%Z.eqb_eq ->%Z.eqb_eq]. done. }
  destruct (walkInv_step _ _ _ _ _ _ _ _ _ _ _ HI Hend) as (rx' & ry' & HI' & Hlt).
  assert (0 <= rx' + ry') by (destruct HI' as (? & ? & _); lia).
  destruct (IH _ _ _ rx' ry' HI' ltac:(lia)) as (Hh & Hl & Hk).
  match goal with
  | |- context [(x0, y0) :: ?l] => destruct l as [|q l'] eqn:El; [done|]
  end.
  rewrite last_cons_cons. split; [done|]. split; [|done].
  simpl in Hh. injection Hh as ->. unfold kingStep. simpl.
  destruct HI as (_ & _ & Hsx & Hsy & _).
  destruct (- dy <? err * 2), (err * 2 <? dx); lia.
Qed.

Lemma linePoints_box fuel x1 y1 dx dy sx sy x0 y0 err rx ry v :
  walkInv x1 y1 dx dy sx sy x0 y0 err rx ry ->
  v ∈ linePoints fuel x1 y1 dx dy sx sy x0 y0 err ->
  exists r1 r2, 0 <= r1 <= rx /\ 0 <= r2 <= ry /\
                fst v + sx * r1 = x1 /\ snd v + sy * r2 = y1.
Proof.
  revert x0 y0 err rx ry. induction fuel as [|fuel IH]; intros x0 y0 err rx ry HI.
  { intros Hv. by apply elem_of_nil in Hv. }
  rewrite linePoints_S. intros [->|Hv]%elem_of_cons.
  { destruct HI as (Hrx & Hry & _ & _ & Hx & Hy & _).
    exists rx, ry. simpl. repeat split; lia. }
  destruct ((x0 =? x1) && (y0 =? y1)) eqn:Hend; [by apply elem_of_nil in Hv|].
  destruct (walkInv_step _ _ _ _ _ _ _ _ _ _ _ HI Hend) as (rx' & ry' & HI' & Hlt).
  destruct (IH _ _ _ rx' ry' HI' Hv) as (r1 & r2 & H1 & H2 & H3 & H4).
  assert (rx' <= rx /\ ry' <= ry) as [? ?].
  { destruct HI as (_ & _ & Hsx & Hsy & Hx & Hy & _).
    destruct HI' as (Hrx' & Hry' & _ & _ & Hx' & Hy' & _).
    destruct (- dy <? err * 2), (err * 2 <? dx); split; nia. }
  exists r1, r2. repeat split; lia.
Qed.

Lemma bresenham_walkInv a b :
  walkInv (fst b) (snd b) (Z.abs (fst b - fst a)) (Z.abs (snd b - snd a))
    (if fst a <? fst b then 1 else -1) (if snd a <? snd b then 1 else -1)
    (fst a) (snd a) (Z.abs (fst b - fst a) - Z.abs (snd b - snd a))
    (Z.abs (fst b - fst a)) (Z.abs (snd b - snd a)).
Proof.
  unfold walkInv.
  destruct (fst a <? fst b) eqn:E1; [apply Z.ltb_lt in E1|apply Z.ltb_ge in E1];
    destruct (snd a <? snd b) eqn:E2;
    try apply Z.ltb_lt in E2; try apply Z.ltb_ge in E2;
    repeat split; lia.
Qed.

(** The walk stays inside the rectangle spanned by its end points. *)
Lemma bresenham_box a b v :
  v ∈ bresenham a b ->
  Z.min (fst a) (fst b) <= fst v <= Z.max (fst a) (fst b) /\
  Z.min (snd a) (snd b) <= snd v <= Z.max (snd a) (snd b).
Proof.
  unfold bresenham. intros Hv.
  destruct (linePoints_box _ _ _ _ _ _ _ _ _ _ _ _ v (bresenham_walkInv a b) Hv)
    as (r1 & r2 & H1 & H2 & H3 & H4).
  destruct (fst a <? fst b) eqn:E1; [apply Z.ltb_lt in E1|apply Z.ltb_ge in E1];
    destruct (snd a <? snd b) eqn:E2;
    try apply Z.ltb_lt in E2; try apply Z.ltb_ge in E2; lia.
Qed.


Section LineFree.
Variable grid : Grid.
Variables rows cols : Z.
Hypothesis Hdims : dims grid = Returned (rows, cols).
Hypothesis Hrect : rectGrid grid.

Local Abbreviation free := (freeCell grid rows cols).

Lemma isFree_freeCell r c : isFree grid rows cols r c = Returned (free (r, c)).
Proof.
  unfold isFree, freeCell. simpl.
  destruct (inBounds r c rows cols) eqn:Hb; [|done].
  destruct (cellAt_inBounds grid rows cols r c Hrect Hdims Hb) as [cell ->].
  done.
Qed.

Lemma lineWalk_S fuel x1 y1 dx dy sx sy x0 y0 err :
  lineWalk grid rows cols (S fuel) x1 y1 dx dy sx sy x0 y0 err =
  if negb (free (x0, y0)) then Returned false
  else if (x0 =? x1) && (y0 =? y1) then Returned true
  else lineWalk grid rows cols fuel x1 y1 dx dy sx sy
         (if - dy <? err * 2 then x0 + sx else x0)
         (if err * 2 <? dx then y0 + sy else y0)
         ((if - dy <? err * 2 then err - dy else err) +
          (if err * 2 <? dx then dx else 0)).
Proof.
  simpl. rewrite isFree_freeCell. simpl.
  destruct (negb _); [done|]. destruct (_ && _); [done|].
  destruct (- dy <? err * 2), (err * 2 <? dx); simpl; f_equal; lia.
Qed.

(** The walk answers [false] at the first cell that is not free, [true]
    when it arrives, and needs more fuel otherwise. *)
Lemma lineWalk_points fuel x1 y1 dx dy sx sy x0 y0 err :
  lineWalk grid rows cols fuel x1 y1 dx dy sx sy x0 y0 err =
  let pts := linePoints fuel x1 y1 dx dy sx sy x0 y0 err in
  if forallb free pts
  then if decide (last pts = Some (x1, y1)) then Returned true else OutOfFuel
  else Returned false.
Proof.
  revert x0 y0 err. induction fuel as [|fuel IH]; intros x0 y0 err; [done|].
  rewrite lineWalk_S, linePoints_S. cbv zeta. cbn [forallb].
  destruct (free (x0, y0)); [|done]. cbn [negb andb].
  destruct ((x0 =? x1) && (y0 =? y1)) eqn:Hend.
  { apply andb_true_iff in Hend as [->%Z.eqb_eq ->%Z.eqb_eq].
    cbn [forallb last]. by rewrite decide_True. }
  rewrite IH. cbv zeta.
  match goal with
  | |- context [forallb free ?l] => destruct l as [|q l'] eqn:El
  end.
  - cbn [forallb last]. rewrite decide_False by done. case_decide; [|done].
    simplify_eq. by rewrite !Z.eqb_refl in Hend.
  - rewrite last_cons_cons. done.
Qed.

Theorem lineFree_bresenham fuel a b res :
  lineFree grid rows cols fuel a b = Returned res ->
  res = forallb free (bresenham a b).
Proof.
  unfold lineFree, bresenham. rewrite lineWalk_points. cbv zeta.
  set (dx := Z.abs (fst b - fst a)). set (dy := Z.abs (snd b - snd a)).
  set (sx := if fst a <? fst b then 1 else -1).
  set (sy := if snd a <? snd b then 1 else -1).
  assert (HI : walkInv (fst b) (snd b) dx dy sx sy (fst a) (snd a) (dx - dy) dx dy).
  { unfold walkInv, dx, dy, sx, sy.
    destruct (fst a <? fst b) eqn:E1; [apply Z.ltb_lt in E1|apply Z.ltb_ge in E1];
      destruct (snd a <? snd b) eqn:E2; [apply Z.ltb_lt in E2|apply Z.ltb_ge in E2| |];
      try apply Z.ltb_lt in E2; try apply Z.ltb_ge in E2;
      repeat split; lia. }
  set (N := S (Z.to_nat (dx + dy))).
  destruct (linePoints_complete N _ _ _ _ _ _ _ _ _ dx dy HI ltac:(lia))
    as (_ & HlastN & _).
  destruct (Nat.le_ge_cases fuel N) as [Hle|Hge].
  - destruct (forallb free (linePoints fuel _ _ _ _ _ _ _ _ _)) eqn:Hall.
    + case_decide as Hlast; [|done]. intros [= <-].
      rewrite (linePoints_stable fuel N) by done. by rewrite Hall.
    + intros [= <-]. symmetry. apply not_true_is_false. intros HallN.
      rewrite forallb_forall in HallN.
      apply not_true_iff_false in Hall. apply Hall. apply forallb_forall.
      intros x Hx. apply HallN.
      destruct (linePoints_prefix fuel N (fst b) (snd b) dx dy sx sy
                  (fst a) (snd a) (dx - dy) Hle) as [k ->].
      apply in_or_app. by left.
  - rewrite (linePoints_stable N fuel) by done.
    destruct (forallb free _); [|by intros [= <-]].
    case_decide; [by intros [= <-]|done].
Qed.

Theorem lineFree_returns fuel a b :
  (Z.to_nat (Z.abs (fst b - fst a) + Z.abs (snd b - snd a)) < fuel)%nat ->
  lineFree grid rows cols fuel a b = Returned (forallb free (bresenham a b)).
Proof.
  intros Hf. unfold lineFree, bresenham. rewrite lineWalk_points. cbv zeta.
  set (dx := Z.abs (fst b - fst a)) in *. set (dy := Z.abs (snd b - snd a)) in *.
  set (sx := if fst a <? fst b then 1 else -1).
  set (sy := if snd a <? snd b then 1 else -1).
  assert (HI : walkInv (fst b) (snd b) dx dy sx sy (fst a) (snd a) (dx - dy) dx dy).
  { unfold walkInv, dx, dy, sx, sy.
    destruct (fst a <? fst b) eqn:E1; [apply Z.ltb_lt in E1|apply Z.ltb_ge in E1];
      destruct (snd a <? snd b) eqn:E2;
      try apply Z.ltb_lt in E2; try apply Z.ltb_ge in E2;
      repeat split; lia. }
  set (N := S (Z.to_nat (dx + dy))).
  destruct (linePoints_complete N _ _ _ _ _ _ _ _ _ dx dy HI ltac:(lia))
    as (_ & HlastN & _).
  rewrite (linePoints_stable N fuel) by (done || lia).
  destruct (forallb free _); [|done]. by rewrite decide_True.
Qed.


(** Between two cells of the grid, "not free" means "occupied". *)
Lemma bresenham_inBounds a b v :
  inBounds (fst a) (snd a) rows cols = true ->
  inBounds (fst b) (snd b) rows cols = true ->
  v ∈ bresenham a b -> inBounds (fst v) (snd v) rows cols = true.
Proof.
  intros Ha%inBounds_spec Hb%inBounds_spec Hv%bresenham_box.
  apply inBounds_spec. lia.
Qed.

Lemma not_free_occupied v :
  inBounds (fst v) (snd v) rows cols = true ->
  free v = false <-> occupied grid v.
Proof.
  intros Hb. unfold freeCell, occupied. rewrite Hb.
  destruct (cellAt_inBounds grid rows cols _ _ Hrect Hdims Hb) as [cell ->].
  simpl. split.
  - intros Hw%negb_false_iff. eauto.
  - intros (c & [= <-] & Hw). by rewrite Hw.
Qed.
End LineFree.

Lemma bresenham_shape a b :
  head (bresenham a b) = Some a /\ last (bresenham a b) = Some b /\
  linked kingStep (bresenham a b).
Proof.
  unfold bresenham.
  set (dx := Z.abs (fst b - fst a)). set (dy := Z.abs (snd b - snd a)).
  set (sx := if fst a <? fst b then 1 else -1).
  set (sy := if snd a <? snd b then 1 else -1).
  assert (HI : walkInv (fst b) (snd b) dx dy sx sy (fst a) (snd a) (dx - dy) dx dy).
  { unfold walkInv, dx, dy, sx, sy.
    destruct (fst a <? fst b) eqn:E1; [apply Z.ltb_lt in E1|apply Z.ltb_ge in E1];
      destruct (snd a <? snd b) eqn:E2;
      try apply Z.ltb_lt in E2; try apply Z.ltb_ge in E2;
      repeat split; lia. }
  destruct (linePoints_complete (S (Z.to_nat (dx + dy))) _ _ _ _ _ _ _ _ _ dx dy HI
              ltac:(lia)) as (Hh & Hl & Hk).
  destruct a, b. done.
Qed.

(** ** The RRT* tree keeps its invariant *)

Lemma stamp_fresh (stamp : nat -> nat) n :
  exists T, forall k, (k < n)%nat -> (stamp k < T)%nat.
Proof.
  induction n as [|n [T HT]].
  - exists 0%nat. lia.
  - exists (S (T `max` stamp n)). intros k Hk.
    destruct (decide (k = n)) as [->|Hne]; [lia|].
    specialize (HT k ltac:(lia)). lia.
Qed.

Section Tree.
Context {N : JSNumber} {L : JSNumberLaws N}.
Variable grid : Grid.
Variables rows cols : Z.
Variable start : coord.

Hypothesis Hdims : dims grid = Returned (rows, cols).
Hypothesis Hrect : rectGrid grid.
Hypothesis Hpos : posWeights grid.

Local Abbreviation TInv := (TInv grid rows cols start).
Local Abbreviation lineOK := (lineOK grid rows cols).
Local Abbreviation free := (freeCell grid rows cols).

Lemma nleq_step a w dr dc b :
  0 <= w -> nleq b a = true ->
  nleq b (nadd a (nmul (of_Z w) (hypot dr dc))) = true.
Proof. intros Hw Hb. eapply nleq_trans; [exact Hb|]. by apply nadd_edge. Qed.

Lemma weightOf_nonneg r c cell : cellAt grid r c = Some cell -> 0 <= weightOf cell.
Proof.
  intros (row & Hr & Hc)%cellAt_elem. pose proof (Hpos row cell Hr Hc). lia.
Qed.

Lemma TInv_start stamp :
  TInv stamp [mkNode (fst start) (snd start) (-1) (of_Z 0)].
Proof.
  split.
  - done.
  - intros k nd Hk Hnd. destruct k; [lia|]. done.
  - intros k nd Hnd. destruct k; [|done]. simpl in Hnd. simplify_eq.
    simpl. apply nleq_refl.
Qed.

(** Appending a node below [p], reached by a free line and costing one
    more edge (or nothing more). *)
Lemma TInv_snoc stamp nodes p pn nd :
  TInv stamp nodes -> nodes !! p = Some pn ->
  n_parent nd = Z.of_nat p -> lineOK (pos pn) (pos nd) ->
  nleq (n_cost pn) (n_cost nd) = true ->
  exists stamp', TInv stamp' (nodes ++ [nd]).
Proof.
  intros [Hroot Hpar Hcost] Hp Hnp Hline Hle.
  destruct (stamp_fresh stamp (length nodes)) as [T HT].
  pose proof (lookup_lt_Some _ _ _ Hp) as Hplt.
  exists (fun k => if decide (k = length nodes) then T else stamp k).
  split.
  - by apply lookup_app_l_Some.
  - intros k nd' Hk Hnd'.
    destruct (decide (k = length nodes)) as [->|Hne].
    + rewrite lookup_app_r, Nat.sub_diag in Hnd' by lia. simpl in Hnd'.
      simplify_eq. exists p, pn. repeat split; auto.
      * by apply lookup_app_l_Some.
      * left. rewrite decide_False by lia. by apply HT.
    + assert (k < length nodes)%nat.
      { apply lookup_lt_Some in Hnd'. rewrite length_app in Hnd'. simpl in Hnd'. lia. }
      rewrite lookup_app_l in Hnd' by done.
      destruct (Hpar k nd' Hk Hnd') as (p' & pn' & H1 & H2 & H3 & H4 & H5).
      exists p', pn'. repeat split; auto.
      * by apply lookup_app_l_Some.
      * rewrite (decide_False (P := p' = length nodes))
          by (apply lookup_lt_Some in H2; lia).
        done.
  - intros k nd' Hnd'.
    destruct (decide (k = length nodes)) as [->|Hne].
    + rewrite lookup_app_r, Nat.sub_diag in Hnd' by lia. simpl in Hnd'.
      simplify_eq. eapply nleq_trans; [|exact Hle]. by eapply Hcost.
    + apply (Hcost k). rewrite lookup_app_l in Hnd'; [done|].
      apply lookup_lt_Some in Hnd'. rewrite length_app in Hnd'. simpl in Hnd'. lia.
Qed.

Lemma rewireOne_cases fuel rad nd newIndex nodes j nodes' :
  rewireOne grid rows cols fuel rad nd newIndex nodes j = Returned nodes' ->
  nodes' = nodes \/
  exists nbh cell,
    nodes !! j = Some nbh /\
    lineFree grid rows cols fuel (pos nd) (pos nbh) = Returned true /\
    cellAt grid (n_r nbh) (n_c nbh) = Some cell /\
    nlt (nadd (n_cost nd) (nmul (of_Z (weightOf cell)) (euclid (pos nd) (pos nbh))))
        (n_cost nbh) = true /\
    nodes' = <[j := mkNode (n_r nbh) (n_c nbh) (Z.of_nat newIndex)
                      (nadd (n_cost nd)
                         (nmul (of_Z (weightOf cell)) (euclid (pos nd) (pos nbh))))]>
               nodes.
Proof.
  unfold rewireOne. destruct (nodes !! j) as [nbh|] eqn:Hj; [|done].
  destruct (nle _ rad); [|intros [= <-]; by left].
  destruct (lineFree _ _ _ _ _ _) as [[|]| |] eqn:Hlf; simpl;
    [|intros [= <-]; by left|done|done].
  destruct (cellAt _ _ _) as [cell|] eqn:Hcell; [|done].
  destruct (nlt _ _) eqn:Hlt; [|intros [= <-]; by left].
  intros [= <-]. right. exists nbh, cell. done.
Qed.

Lemma rewireOne_inv fuel rad nd newIndex nodes j nodes' stamp :
  TInv stamp nodes -> nodes !! newIndex = Some nd -> (j < newIndex)%nat ->
  rewireOne grid rows cols fuel rad nd newIndex nodes j = Returned nodes' ->
  (exists stamp', TInv stamp' nodes') /\
  nodes' !! newIndex = Some nd /\ length nodes' = length nodes.
Proof.
  intros HT Hnew Hj Hr.
  apply rewireOne_cases in Hr
    as [->|(nbh & cell & Hnbh & Hlf & Hcell & Hlt & ->)]; [eauto|].
  split; [|split; [by rewrite list_lookup_insert_ne by lia|by rewrite length_insert]].
  destruct HT as [Hroot Hpar Hcost].
  set (alt := nadd (n_cost nd) (nmul (of_Z (weightOf cell)) (euclid (pos nd) (pos nbh)))) in *.
  pose proof (weightOf_nonneg _ _ _ Hcell) as Hw.
  assert (Hnd_alt : nleq (n_cost nd) alt = true) by (by apply nadd_edge).
  assert (H0alt : nleq (of_Z 0) alt = true).
  { eapply nleq_trans; [|exact Hnd_alt]. by eapply Hcost. }
  destruct (nlt_nleq _ _ Hlt) as [Hle Hnle].
  assert (Hj0 : j <> 0%nat).
  { intros ->. rewrite Hroot in Hnbh. simplify_eq. simpl in *. congruence. }
  apply lineFree_bresenham with (1 := Hdims) (2 := Hrect) in Hlf. symmetry in Hlf.
  destruct (stamp_fresh stamp (length nodes)) as [T HT].
  pose proof (lookup_lt_Some _ _ _ Hnbh) as Hjlt.
  pose proof (lookup_lt_Some _ _ _ Hnew) as Hnlt.
  exists (fun k => if decide (k = j) then T else stamp k).
  split.
  - by rewrite list_lookup_insert_ne by done.
  - intros k nd' Hk Hnd'.
    destruct (decide (k = j)) as [->|Hkj].
    + rewrite list_lookup_insert_eq in Hnd' by done. simplify_eq.
      exists newIndex, nd. simpl. repeat split; auto.
      * by rewrite list_lookup_insert_ne by lia.
      * left. rewrite decide_False by lia. by apply HT.
    + rewrite list_lookup_insert_ne in Hnd' by done.
      destruct (Hpar k nd' Hk Hnd') as (p & pn & H1 & H2 & H3 & H4 & H5).
      destruct (decide (p = j)) as [->|Hpj].
      * simplify_eq. eexists j, _. split; [done|].
        split; [by apply list_lookup_insert_eq|]. simpl.
        split; [exact H3|]. split; [by eapply nleq_trans|].
        right. destruct (nleq (n_cost nd') alt) eqn:E; [|done].
        rewrite (nleq_trans _ _ _ H4 E) in Hnle. done.
      * exists p, pn. split; [done|].
        split; [by rewrite list_lookup_insert_ne by done|].
        repeat split; auto. by rewrite decide_False by done.
  - intros k nd' Hnd'. destruct (decide (k = j)) as [->|Hkj].
    + rewrite list_lookup_insert_eq in Hnd' by done. by simplify_eq.
    + rewrite list_lookup_insert_ne in Hnd' by done. by eapply Hcost.
Qed.

Lemma rewire_inv fuel rad nd newIndex nodes nodes' :
  (exists stamp, TInv stamp nodes) -> nodes !! newIndex = Some nd ->
  rewire grid rows cols fuel rad nd newIndex nodes = Returned nodes' ->
  (exists stamp', TInv stamp' nodes') /\
  nodes' !! newIndex = Some nd /\ length nodes' = length nodes.
Proof.
  intros HT Hnew. unfold rewire.
  apply (foldOutcome_inv (rewireOne grid rows cols fuel rad nd newIndex)
           (fun ns => (exists stamp', TInv stamp' ns) /\
                      ns !! newIndex = Some nd /\ length ns = length nodes));
    [|done].
  intros a j a' Hj%elem_of_seq ([stamp Ha] & Hn & Hl) Hr.
  assert (Hlt : (j < newIndex)%nat) by lia.
  destruct (rewireOne_inv _ _ _ _ _ _ _ _ Ha Hn Hlt Hr) as (? & ? & ?).
  split; [done|]. split; [done|]. congruence.
Qed.

Local Abbreviation CInv := (CInv grid).

Lemma CInv_snoc nodes p pn nd :
  CInv (-1) nodes -> nodes !! p = Some pn -> n_parent nd = Z.of_nat p ->
  nleq (edgeCost grid pn nd) (n_cost nd) = true ->
  CInv (-1) (nodes ++ [nd]).
Proof.
  intros HC Hp Hnp Hle k nd' Hk Hgi Hnd'.
  destruct (decide (k = length nodes)) as [->|Hne].
  - rewrite lookup_app_r, Nat.sub_diag in Hnd' by lia. simpl in Hnd'. simplify_eq.
    exists p, pn. repeat split; auto. by apply lookup_app_l_Some.
  - assert (k < length nodes)%nat.
    { apply lookup_lt_Some in Hnd'. rewrite length_app in Hnd'. simpl in Hnd'. lia. }
    rewrite lookup_app_l in Hnd' by done.
    destruct (HC k nd' Hk Hgi Hnd') as (p' & pn' & H1 & H2 & H3).
    exists p', pn'. repeat split; auto. by apply lookup_app_l_Some.
Qed.

Lemma CInv_goal nodes gn :
  CInv (-1) nodes -> CInv (Z.of_nat (length nodes)) (nodes ++ [gn]).
Proof.
  intros HC k nd' Hk Hgi Hnd'.
  assert (k < length nodes)%nat.
  { apply lookup_lt_Some in Hnd'. rewrite length_app in Hnd'. simpl in Hnd'. lia. }
  rewrite lookup_app_l in Hnd' by done.
  destruct (HC k nd' Hk ltac:(lia) Hnd') as (p' & pn' & H1 & H2 & H3).
  exists p', pn'. repeat split; auto. by apply lookup_app_l_Some.
Qed.

Lemma rewireOne_cinv fuel rad nd newIndex nodes j nodes' stamp :
  TInv stamp nodes -> CInv (-1) nodes ->
  nodes !! newIndex = Some nd -> (j < newIndex)%nat ->
  rewireOne grid rows cols fuel rad nd newIndex nodes j = Returned nodes' ->
  CInv (-1) nodes'.
Proof.
  intros HT HC Hnew Hj Hr.
  apply rewireOne_cases in Hr
    as [->|(nbh & cell & Hnbh & Hlf & Hcell & Hlt & ->)]; [done|].
  destruct HT as [Hroot Hpar Hcost].
  set (alt := nadd (n_cost nd) (nmul (of_Z (weightOf cell)) (euclid (pos nd) (pos nbh)))) in *.
  pose proof (weightOf_nonneg _ _ _ Hcell) as Hw.
  assert (H0alt : nleq (of_Z 0) alt = true).
  { eapply nleq_trans; [exact (Hcost _ _ Hnew)|]. by apply nadd_edge. }
  destruct (nlt_nleq _ _ Hlt) as [Hle _].
  pose proof (lookup_lt_Some _ _ _ Hnbh) as Hjlt.
  intros k nd' Hk Hgi Hnd'.
  destruct (decide (k = j)) as [->|Hkj].
  - rewrite list_lookup_insert_eq in Hnd' by done. simplify_eq.
    exists newIndex, nd. split; [done|].
    split; [by rewrite list_lookup_insert_ne by lia|].
    unfold edgeCost, enterCost. simpl. rewrite Hcell. apply nleq_refl.
  - rewrite list_lookup_insert_ne in Hnd' by done.
    destruct (HC k nd' Hk Hgi Hnd') as (p & pn & H1 & H2 & H3).
    destruct (decide (p = j)) as [->|Hpj].
    + simplify_eq. eexists j, _. split; [done|].
      split; [by apply list_lookup_insert_eq|].
      eapply nleq_trans; [|exact H3].
      unfold edgeCost. simpl. by apply nadd_mono.
    + exists p, pn. split; [done|].
      split; [by rewrite list_lookup_insert_ne by done|done].
Qed.
End Tree.

(** ** Composing computations that settle *)

Lemma settles_ret {A : Type} (a : A) : settles (fun _ => Returned a) a.
Proof. by exists 0%nat. Qed.

Lemma settles_bind {A B : Type} (f : nat -> outcome A) (k : nat -> A -> outcome B) a b :
  settles f a -> settles (fun m => k m a) b ->
  settles (fun m => do x <- f m; k m x) b.
Proof.
  intros [n1 H1] [n2 H2]. exists (n1 `max` n2)%nat. intros m Hm.
  rewrite H1 by lia. simpl. apply H2. lia.
Qed.

Lemma settles_unique {A : Type} (f : nat -> outcome A) a b :
  settles f a -> settles f b -> a = b.
Proof.
  intros [n1 H1] [n2 H2].
  specialize (H1 (n1 `max` n2)%nat ltac:(lia)).
  specialize (H2 (n1 `max` n2)%nat ltac:(lia)). congruence.
Qed.

Lemma settles_ext {A : Type} (f g : nat -> outcome A) a :
  (forall m, f m = g m) -> settles g a -> settles f a.
Proof. intros Hfg [n H]. exists n. intros m Hm. rewrite Hfg. by apply H. Qed.

Lemma settles_fold {A B : Type} (f : nat -> A -> B -> outcome A) (J : A -> Prop) l :
  (forall a b, b ∈ l -> J a -> exists a', settles (fun m => f m a b) a' /\ J a') ->
  forall a, J a -> exists a', settles (fun m => foldOutcome (f m) l a) a' /\ J a'.
Proof.
  induction l as [|b l IH]; intros Hstep a Ha.
  - exists a. split; [apply settles_ret|done].
  - destruct (Hstep a b) as (a1 & H1 & J1); [apply elem_of_cons; by left|done|].
    destruct (IH (fun a b Hb => Hstep a b ltac:(apply elem_of_cons; by right)) a1 J1)
      as (a2 & H2 & J2).
    exists a2. split; [|done]. simpl.
    by apply (settles_bind (fun m => f m a b) (fun m x => foldOutcome (f m) l x) a1).
Qed.

(** ** Ranks: parent links cannot form a cycle *)

Lemma filter_length_le {A : Type} (f g : A -> bool) l :
  (forall x, In x l -> f x = true -> g x = true) ->
  (length (List.filter f l) <= length (List.filter g l))%nat.
Proof.
  induction l as [|x l IH]; intros Hfg; [done|]. simpl.
  assert (Hx : f x = true -> g x = true) by (apply Hfg; by left).
  assert (Hl : (length (List.filter f l) <= length (List.filter g l))%nat).
  { apply IH. intros z Hz. apply Hfg. by right. }
  destruct (f x); [rewrite Hx by done|destruct (g x)]; simpl; lia.
Qed.

Lemma filter_length_lt {A : Type} (f g : A -> bool) l y :
  (forall x, In x l -> f x = true -> g x = true) ->
  In y l -> f y = false -> g y = true ->
  (length (List.filter f l) < length (List.filter g l))%nat.
Proof.
  intros Hfg Hy Hfy Hgy. induction l as [|x l IH]; [done|]. simpl.
  assert (Hx : f x = true -> g x = true) by (apply Hfg; by left).
  assert (Hsub : forall z, In z l -> f z = true -> g z = true).
  { intros z Hz. apply Hfg. by right. }
  pose proof (filter_length_le f g l Hsub) as Hle.
  destruct Hy as [->|Hy].
  - rewrite Hfy, Hgy. simpl. lia.
  - specialize (IH Hsub Hy).
    destruct (f x); [rewrite Hx by done|destruct (g x)]; simpl; lia.
Qed.

Section Ranks.
Context {N : JSNumber} {L : JSNumberLaws N}.
Variable grid : Grid.
Variables rows cols : Z.
Variable start : coord.

Local Abbreviation TInv := (TInv grid rows cols start).
Local Abbreviation lineOK := (lineOK grid rows cols).
Local Abbreviation free := (freeCell grid rows cols).

Lemma below_irrefl stamp nodes k : below stamp nodes k k = false.
Proof.
  unfold below. destruct (nodes !! k) as [a|]; [|done].
  rewrite nleq_refl, Nat.ltb_irrefl. done.
Qed.

Lemma below_trans stamp nodes k p m :
  below stamp nodes p m = true -> below stamp nodes k p = true ->
  below stamp nodes k m = true.
Proof.
  unfold below.
  destruct (nodes !! m) as [x|]; [|done].
  destruct (nodes !! p) as [y|]; [|done].
  destruct (nodes !! k) as [z|]; [|done].
  intros H1 H2.
  assert (Hxy : nleq (n_cost x) (n_cost y) = true).
  { destruct (nleq (n_cost x) (n_cost y)); [done|]. by simpl in H1. }
  assert (Hyz : nleq (n_cost y) (n_cost z) = true).
  { destruct (nleq (n_cost y) (n_cost z)); [done|]. by simpl in H2. }
  rewrite (nleq_trans _ _ _ Hxy Hyz). simpl.
  destruct (nleq (n_cost z) (n_cost x)) eqn:Hzx; [|done]. simpl.
  rewrite Hxy, (nleq_trans _ _ _ Hyz Hzx) in H1.
  rewrite Hyz, (nleq_trans _ _ _ Hzx Hxy) in H2. simpl in *.
  apply Nat.ltb_lt in H1, H2. apply Nat.ltb_lt. lia.
Qed.

Lemma parent_below stamp nodes k nd p pn :
  nodes !! k = Some nd -> nodes !! p = Some pn ->
  nleq (n_cost pn) (n_cost nd) = true ->
  (stamp p < stamp k)%nat \/ nleq (n_cost nd) (n_cost pn) = false ->
  below stamp nodes k p = true.
Proof.
  intros Hk Hp Hle Hor. unfold below. rewrite Hk, Hp, Hle. simpl.
  destruct (nleq (n_cost nd) (n_cost pn)) eqn:E; [|done]. simpl.
  destruct Hor as [Hlt|?]; [|done]. by apply Nat.ltb_lt.
Qed.

Lemma rank_parent stamp nodes k p :
  (p < length nodes)%nat -> below stamp nodes k p = true ->
  (rank stamp nodes p < rank stamp nodes k)%nat.
Proof.
  intros Hp Hb. unfold rank.
  apply filter_length_lt with (y := p).
  - intros m _ Hm. by eapply below_trans.
  - apply in_seq. lia.
  - apply below_irrefl.
  - done.
Qed.

Lemma lineOK_free a b : lineOK a b -> free a = true /\ free b = true.
Proof.
  unfold lineOK. rewrite forallb_forall. intros H.
  destruct (bresenham_shape a b) as (Hh & Hl & _).
  split; apply H.
  - destruct (bresenham a b); simpl in Hh; simplify_eq. by left.
  - apply list_elem_of_In. by eapply last_Some_elem_of.
Qed.

(** Walking up from any node arrives at the root. *)
Lemma parentWalk_settles stamp nodes k nd :
  TInv stamp nodes -> nodes !! k = Some nd ->
  exists l, settles (fun m => parentWalk m nodes (Z.of_nat k)) l /\
    head l = Some (pos nd) /\ last l = Some start /\
    linked (fun c p => lineOK p c) l /\
    ((0 < k)%nat -> (2 <= length l)%nat).
Proof.
  intros HT. remember (rank stamp nodes k) as r eqn:Er. revert k nd Er.
  induction r as [r IH] using lt_wf_ind. intros k nd Er Hk.
  destruct (decide (k = 0%nat)) as [->|Hk0].
  - pose proof (t_root _ _ _ _ _ _ HT) as Hroot.
    rewrite Hroot in Hk. simplify_eq.
    exists [start]. split.
    + exists 1%nat. intros m Hm. destruct m as [|m]; [lia|].
      cbn [parentWalk]. change (Z.of_nat 0) with 0. cbn [Z.eqb Z.leb Z.compare].
      change (Z.to_nat 0) with 0%nat. rewrite Hroot. simpl.
      destruct m; simpl; by destruct start.
    + destruct start; repeat split; auto; lia.
  - destruct (t_parent _ _ _ _ _ _ HT k nd ltac:(lia) Hk)
      as (p & pn & Hp & Hpn & Hline & Hle & Hor).
    pose proof (parent_below stamp nodes k nd p pn Hk Hpn Hle Hor) as Hb.
    pose proof (rank_parent stamp nodes k p (lookup_lt_Some _ _ _ Hpn) Hb) as Hr.
    rewrite <- Er in Hr.
    destruct (IH _ Hr p pn eq_refl Hpn) as (l & [n Hn] & Hh & Hl & Hlk & _).
    exists (pos nd :: l). split; [|split; [done|]].
    + exists (S n). intros m Hm. destruct m as [|m]; [lia|]. simpl.
      assert ((Z.of_nat k =? -1) = false) as -> by (apply Z.eqb_neq; lia).
      assert ((0 <=? Z.of_nat k) = true) as -> by (apply Z.leb_le; lia).
      rewrite Nat2Z.id, Hk, Hp. rewrite Hn by lia. done.
    + destruct l as [|q l]; [done|]. simpl in Hh. simplify_eq.
      rewrite last_cons_cons. repeat split; auto. simpl. lia.
Qed.
End Ranks.

(** ** One iteration of RRT* *)

Section Iteration.
Context {N : JSNumber} {L : JSNumberLaws N}.
Variable rand : nat -> num.
Variable grid : Grid.
Variables rows cols : Z.
Variable start : coord.

Hypothesis Hdims : dims grid = Returned (rows, cols).
Hypothesis Hrect : rectGrid grid.
Hypothesis Hpos : posWeights grid.

Local Abbreviation TInv := (TInv grid rows cols start).
Local Abbreviation SInv := (SInv grid rows cols start).
Local Abbreviation lineOK := (lineOK grid rows cols).
Local Abbreviation free := (freeCell grid rows cols).

Lemma free_cellAt v :
  free v = true ->
  exists cell, cellAt grid (fst v) (snd v) = Some cell /\ wall cell = false.
Proof.
  unfold freeCell. intros [_ H]%andb_true_iff.
  destruct (cellAt _ _ _) as [cell|]; [|done].
  exists cell. split; [done|]. by apply negb_true_iff.
Qed.

Lemma nearestStep_cases pt best bestD i nd :
  exists d', nearestStep pt (best, bestD, i) nd = (best, d', S i) \/
             nearestStep pt (best, bestD, i) nd = (i, d', S i).
Proof.
  unfold nearestStep.
  destruct (match bestD with Some b => _ | None => _ end); eauto.
Qed.

Lemma nearestStep_bound pt nodes best bestD i :
  let res := fold_left (nearestStep pt) nodes (best, bestD, i) in
  (fst (fst res) = best \/ i <= fst (fst res) < i + length nodes)%nat.
Proof.
  revert best bestD i. induction nodes as [|nd nodes IH]; intros best bestD i.
  - by left.
  - cbn [fold_left].
    destruct (nearestStep_cases pt best bestD i nd) as [d' [->| ->]].
    + specialize (IH best d' (S i)). cbv zeta in *. cbn [length] in *.
      destruct IH as [?|?]; [by left|right; lia].
    + specialize (IH i d' (S i)). cbv zeta in *. cbn [length] in *.
      destruct IH as [->|?]; right; lia.
Qed.

Lemma nearest_lt nodes pt : nodes <> [] -> (nearest nodes pt < length nodes)%nat.
Proof.
  intros Hne. unfold nearest.
  pose proof (nearestStep_bound pt nodes 0%nat None 0%nat) as H.
  cbv zeta in H. revert H. generalize (fst (fst (fold_left (nearestStep pt) nodes (0%nat, None, 0%nat)))).
  intros n H. destruct nodes; [done|]. cbn [length] in *. lia.
Qed.

Lemma lineFree_settles a b :
  settles (fun m => lineFree grid rows cols m a b) (forallb free (bresenham a b)).
Proof.
  exists (S (Z.to_nat (Z.abs (fst b - fst a) + Z.abs (snd b - snd a)))).
  intros m Hm. apply lineFree_returns; auto; lia.
Qed.

Lemma rewireOne_settles rad nd newIndex nodes j :
  (j < length nodes)%nat ->
  exists nodes',
    settles (fun m => rewireOne grid rows cols m rad nd newIndex nodes j) nodes'.
Proof.
  intros Hj. destruct (lookup_lt_is_Some_2 nodes j Hj) as [nbh Hnbh].
  unfold rewireOne. rewrite Hnbh.
  destruct (nle _ rad); [|eexists; apply settles_ret].
  destruct (lineFree_settles (pos nd) (pos nbh)) as [n Hn].
  destruct (forallb free (bresenham (pos nd) (pos nbh))) eqn:Hall.
  - destruct (lineOK_free grid rows cols _ _ Hall) as [_ Hf].
    destruct (free_cellAt _ Hf) as (cell & Hcell & _). simpl in Hcell.
    destruct (nlt (nadd (n_cost nd)
                     (nmul (of_Z (weightOf cell)) (euclid (pos nd) (pos nbh))))
                  (n_cost nbh)) eqn:Hlt.
    + eexists. exists n. intros m Hm. rewrite Hn by done. simpl.
      rewrite Hcell, Hlt. reflexivity.
    + exists nodes, n. intros m Hm. rewrite Hn by done. simpl.
      by rewrite Hcell, Hlt.
  - exists nodes, n. intros m Hm. by rewrite Hn.
Qed.

Lemma rewire_settles rad nd newIndex nodes :
  (exists stamp, TInv stamp nodes) -> CInv grid (-1) nodes ->
  nodes !! newIndex = Some nd ->
  exists nodes',
    settles (fun m => rewire grid rows cols m rad nd newIndex nodes) nodes' /\
    ((exists stamp', TInv stamp' nodes') /\ CInv grid (-1) nodes') /\
    nodes' !! newIndex = Some nd /\ length nodes' = length nodes.
Proof.
  intros HT HC Hnew. unfold rewire.
  destruct (settles_fold
              (fun m a j => rewireOne grid rows cols m rad nd newIndex a j)
              (fun ns => ((exists stamp', TInv stamp' ns) /\ CInv grid (-1) ns) /\
                         ns !! newIndex = Some nd /\ length ns = length nodes)
              (seq 0 newIndex)) with (a := nodes) as (nodes' & Hs & HJ);
    [|done|by exists nodes'].
  intros a j Hj%elem_of_seq (([stamp Ha] & Hc) & Hn & Hl).
  pose proof (lookup_lt_Some _ _ _ Hn) as Hlt.
  destruct (rewireOne_settles rad nd newIndex a j ltac:(lia)) as [a' Ha'].
  exists a'. split; [done|].
  destruct Ha' as [n Hr]. specialize (Hr n (Nat.le_refl n)).
  assert (Hjn : (j < newIndex)%nat) by lia.
  destruct (rewireOne_inv grid rows cols start Hdims Hrect Hpos _ _ _ _ _ _ _ _
              Ha Hn Hjn Hr) as (? & ? & ?).
  assert (CInv grid (-1) a') by (eapply rewireOne_cinv; eauto).
  split; [done|]. split; [done|]. congruence.
Qed.

(** One iteration settles and keeps the invariant; the tree only grows at
    its end, and positions never change. *)
Lemma rrtIter_settles goal rad stp gb st :
  SInv goal st -> r_goalIndex st = -1 ->
  exists st', settles (fun m => rrtIter rand grid rows cols m goal rad stp gb st) st' /\
              SInv goal st'.
Proof.
  intros [[stamp HT] Hvis Hgoal HC] Hgi. unfold rrtIter. rewrite Hgi in HC.
  destruct (drawSample rand rows cols goal gb (r_calls st)) as [sample k].
  set (skip := mkRState (r_nodes st) (r_visited st) k (r_goalIndex st)).
  assert (Hskip : SInv goal skip).
  { split; simpl; [by exists stamp|done|by left|by rewrite Hgi]. }
  destruct sample as [smp|]; [|exists skip; split; [apply settles_ret|done]].
  rewrite isFree_freeCell by done. simpl.
  destruct (free (fst smp, snd smp)); simpl;
    [|exists skip; split; [apply settles_ret|done]].
  assert (Hne : r_nodes st <> []).
  { intros E. pose proof (t_root _ _ _ _ _ _ HT) as Hr. by rewrite E in Hr. }
  destruct (lookup_lt_is_Some_2 _ _ (nearest_lt (r_nodes st) smp Hne)) as [near Hnear].
  rewrite Hnear.
  destruct (steer stp (pos near) smp) as [newPt|];
    [|exists skip; split; [apply settles_ret|done]].
  rewrite isFree_freeCell by done. simpl.
  destruct (free (fst newPt, snd newPt)) eqn:Hfn; simpl;
    [|exists skip; split; [apply settles_ret|done]].
  destruct (lineFree_settles (pos near) newPt) as [n1 H1].
  destruct (forallb free (bresenham (pos near) newPt)) eqn:Hline.
  2:{ exists skip. split; [|done]. exists n1. intros m Hm. by rewrite H1. }
  destruct (free_cellAt _ Hfn) as (cell & Hcell & _). simpl in Hcell.
  rewrite Hcell.
  set (newCost := nadd (n_cost near)
                    (nmul (of_Z (weightOf cell)) (euclid (pos near) newPt))).
  set (nd := mkNode (fst newPt) (snd newPt) (Z.of_nat (nearest (r_nodes st) smp)) newCost).
  set (newIndex := length (r_nodes st)).
  assert (Hnd_pos : pos nd = newPt) by (by destruct newPt).
  destruct (TInv_snoc grid rows cols start stamp (r_nodes st) _ near nd
              HT Hnear)
    as [stamp1 HT1]; [done|by rewrite Hnd_pos| |].
  { apply nadd_edge. by eapply weightOf_nonneg. }
  assert (Hlk : (r_nodes st ++ [nd]) !! newIndex = Some nd).
  { unfold newIndex. rewrite lookup_app_r by lia. by rewrite Nat.sub_diag. }
  assert (HC1 : CInv grid (-1) (r_nodes st ++ [nd])).
  { eapply CInv_snoc; eauto. unfold edgeCost, enterCost. rewrite Hnd_pos, Hcell.
    apply nleq_refl. }
  destruct (rewire_settles rad nd newIndex (r_nodes st ++ [nd])
              (ex_intro _ stamp1 HT1) HC1 Hlk)
    as (nodes' & [n2 H2] & ([stamp2 HT2] & HC2) & Hlk' & Hlen).
  rewrite length_app in Hlen. simpl in Hlen.
  assert (Hvis' : head (r_visited st ++ [newPt]) = Some start).
  { destruct (r_visited st); [done|]. done. }
  set (stay := mkRState nodes' (r_visited st ++ [newPt]) k (r_goalIndex st)).
  assert (Hstay : SInv goal stay).
  { split; simpl; [by exists stamp2|done|by left|by rewrite Hgi]. }
  destruct (nle (euclid newPt goal) stp).
  2:{ exists stay. split; [|done]. exists (n1 `max` n2)%nat. intros m Hm.
      rewrite H1 by lia. simpl. rewrite H2 by lia. done. }
  destruct (lineFree_settles newPt goal) as [n3 H3].
  destruct (forallb free (bresenham newPt goal)) eqn:Hgl.
  2:{ exists stay. split; [|done]. exists ((n1 `max` n2) `max` n3)%nat. intros m Hm.
      rewrite H1 by lia. simpl. rewrite H2 by lia. simpl. rewrite H3 by lia. done. }
  set (gn := mkNode (fst goal) (snd goal) (Z.of_nat newIndex) newCost).
  exists (mkRState (nodes' ++ [gn]) (r_visited st ++ [newPt]) k
                   (Z.of_nat (length nodes'))).
  split.
  { exists ((n1 `max` n2) `max` n3)%nat. intros m Hm.
    rewrite H1 by lia. simpl. rewrite H2 by lia. simpl. rewrite H3 by lia. done. }
  split.
  - cbn [r_nodes].
    eapply (TInv_snoc grid rows cols start stamp2 nodes' newIndex nd gn);
      eauto.
    apply nleq_refl.
  - done.
  - right. exists (length nodes'), gn. simpl.
    assert (length (r_nodes st) >= 1)%nat by (destruct (r_nodes st); [done|simpl; lia]).
    repeat split.
    + lia.
    + rewrite lookup_app_r by lia. by rewrite Nat.sub_diag.
    + by destruct goal.
    + f_equal. unfold newIndex. lia.
  - simpl. by apply CInv_goal.
Qed.

Lemma rrtLoop_settles its goal rad stp gb st :
  SInv goal st -> r_goalIndex st = -1 ->
  exists st', settles (fun m => rrtLoop rand grid rows cols its m goal rad stp gb st) st' /\
              SInv goal st'.
Proof.
  revert st. induction its as [|its IH]; intros st HS Hgi.
  - exists st. split; [apply settles_ret|done].
  - destruct (rrtIter_settles goal rad stp gb st HS Hgi) as (st1 & [n1 H1] & HS1).
    simpl.
    destruct (r_goalIndex st1 =? -1) eqn:Hg1.
    + apply Z.eqb_eq in Hg1.
      destruct (IH st1 HS1 Hg1) as (st2 & [n2 H2] & HS2).
      exists st2. split; [|done]. exists (n1 `max` n2)%nat. intros m Hm.
      rewrite H1 by lia. simpl. rewrite (proj2 (Z.eqb_eq _ _) Hg1). apply H2. lia.
    + exists st1. split; [|done]. exists n1. intros m Hm.
      rewrite H1 by lia. simpl. by rewrite Hg1.
Qed.
End Iteration.

(** ** What runRRTStar returns *)

Section RRTResult.
Context {N : JSNumber} {L : JSNumberLaws N}.
Variable rand : nat -> num.
Variable grid : Grid.
Variable start : coord.
Hypothesis Hwf : wfGrid grid.

Local Abbreviation rows := (gridRows grid).
Local Abbreviation cols := (gridCols grid).
Local Abbreviation TInv := (TInv grid rows cols start).
Local Abbreviation SInv := (SInv grid rows cols start).
Local Abbreviation lineOK := (lineOK grid rows cols).
Local Abbreviation free := (freeCell grid rows cols).

Lemma linked_lineOK_free l :
  linked (fun c p => lineOK p c) l -> (2 <= length l)%nat ->
  forall v, v ∈ l -> free v = true.
Proof.
  induction l as [|a [|b l] IH]; simpl; [lia|lia|].
  intros [Hab Hl] _ v Hv.
  destruct (lineOK_free grid rows cols _ _ Hab) as [Hb Ha].
  apply elem_of_cons in Hv as [->|Hv]; [done|].
  destruct l as [|c l].
  - apply list_elem_of_singleton in Hv. by subst.
  - apply IH; [done|simpl; lia|done].
Qed.

Lemma parentWalk_step nodes k nd p l :
  nodes !! k = Some nd -> n_parent nd = Z.of_nat p ->
  settles (fun m => parentWalk m nodes (Z.of_nat p)) l ->
  settles (fun m => parentWalk m nodes (Z.of_nat k)) (pos nd :: l).
Proof.
  intros Hk Hp [n Hn]. exists (S n). intros m Hm.
  destruct m as [|m]; [lia|]. simpl.
  assert ((Z.of_nat k =? -1) = false) as -> by (apply Z.eqb_neq; lia).
  assert ((0 <=? Z.of_nat k) = true) as -> by (apply Z.leb_le; lia).
  rewrite Nat2Z.id, Hk, Hp. rewrite Hn by lia. done.
Qed.

Lemma rrtStart_inv goal : SInv goal (rrtStart start).
Proof.
  split; simpl.
  - exists (fun _ => 0%nat). apply TInv_start.
  - done.
  - by left.
  - intros k nd Hk _ Hnd. destruct k; [lia|done].
Qed.

(** The state after any number of iterations keeps the invariant. *)
Lemma rrtRun_settles its goal rad stp gb :
  exists st,
    settles (fun m => rrtLoop rand grid rows cols its m goal rad stp gb (rrtStart start)) st /\
    SInv goal st.
Proof.
  destruct Hwf as (Hne & Hrect & Hpos).
  apply (rrtLoop_settles rand grid rows cols start (wfGrid_dims grid Hne) Hrect Hpos).
  - apply rrtStart_inv.
  - done.
Qed.

Theorem runRRTStar_result goal opts :
  exists r, settles (fun m => runRRTStar rand m grid start goal opts) r /\
            rrtResult grid rows cols start goal r.
Proof.
  pose proof Hwf as (Hne & Hrect & Hpos).
  unfold runRRTStar. rewrite (wfGrid_dims grid Hne). simpl.
  destruct (rrtRun_settles (default 1500%nat (iterations opts)) goal
              (default (of_Z 4) (radius opts)) (default (of_Z 2) (step opts))
              (default (ndiv (of_Z 8) (of_Z 100)) (goalBias opts)))
    as (st & [n1 H1] & [[stamp HT] Hvis Hgoal _]).
  destruct Hgoal as [Hgi|(gi & gn & Hgi & Hge & Hgn & Hpos_gn & Hpar)].
  - exists (mkResult (r_visited st) []). split.
    + exists n1. intros m Hm. rewrite H1 by done. simpl. by rewrite Hgi.
    + split; simpl; auto.
      * intros v Hv. by apply elem_of_nil in Hv.
  - destruct (t_parent _ _ _ _ _ _ HT gi gn ltac:(lia) Hgn)
      as (p & pn & Hp & Hpn & Hline & _).
    assert (p = (gi - 1)%nat) as -> by lia.
    destruct (parentWalk_settles grid rows cols start stamp _ _ _ HT Hpn)
      as (l' & Hs' & Hh' & Hl' & Hlk' & Hlen').
    pose proof (parentWalk_step _ _ _ _ _ Hgn Hpar Hs') as [n2 H2].
    assert (Hlen : (2 <= length l')%nat) by (apply Hlen'; lia).
    assert (Hlk : linked (fun c p => lineOK p c) (pos gn :: l')).
    { destruct l' as [|q l']; [done|]. simpl in Hh'. simplify_eq. by split. }
    exists (mkResult (r_visited st) (reverse (pos gn :: l'))). split.
    + exists (n1 `max` n2)%nat. intros m Hm. rewrite H1 by lia. simpl.
      assert ((r_goalIndex st =? -1) = false) as -> by (apply Z.eqb_neq; lia).
      rewrite Hgi, H2 by lia. done.
    + split; cbn [path visited].
      * done.
      * intros v Hv. rewrite elem_of_reverse in Hv.
        eapply linked_lineOK_free; [exact Hlk|simpl; lia|done].
      * by apply linked_reverse.
      * right. rewrite head_reverse, last_reverse, length_reverse. simpl.
        split; [|split; [by rewrite Hpos_gn|lia]].
        destruct l'; [simpl in Hlen; lia|]. done.
Qed.
End RRTResult.

(** ** When an extension is rejected *)

Lemma forallb_false_elem {A : Type} (f : A -> bool) l :
  forallb f l = false <-> exists x, x ∈ l /\ f x = false.
Proof.
  induction l as [|a l IH]; simpl.
  - split; [done|]. intros (x & Hx & _). by apply elem_of_nil in Hx.
  - rewrite andb_false_iff, IH. split.
    + intros [Ha|(x & Hx & Hfx)].
      * exists a. split; [by left|done].
      * exists x. split; [by right|done].
    + intros (x & [->|Hx]%elem_of_cons & Hfx); [by left|right; eauto].
Qed.

Section Extension.
Context {N : JSNumber}.
Variable rand : nat -> num.
Variable grid : Grid.
Variables rows cols : Z.
Hypothesis Hdims : dims grid = Returned (rows, cols).
Hypothesis Hrect : rectGrid grid.

Local Abbreviation free := (freeCell grid rows cols).

Lemma rewireOne_length fuel rad nd newIndex nodes j nodes' :
  rewireOne grid rows cols fuel rad nd newIndex nodes j = Returned nodes' ->
  length nodes' = length nodes.
Proof.
  unfold rewireOne. destruct (nodes !! j) as [nbh|]; [|done].
  destruct (nle _ rad); [|by intros [= <-]].
  destruct (lineFree _ _ _ _ _ _) as [[|]| |]; simpl; [|by intros [= <-]|done|done].
  destruct (cellAt _ _ _); [|done].
  destruct (nlt _ _); intros [= <-]; [by rewrite length_insert|done].
Qed.

Lemma rewire_length fuel rad nd newIndex nodes nodes' :
  rewire grid rows cols fuel rad nd newIndex nodes = Returned nodes' ->
  length nodes' = length nodes.
Proof.
  unfold rewire.
  apply (foldOutcome_inv (rewireOne grid rows cols fuel rad nd newIndex)
           (fun ns => length ns = length nodes)); [|done].
  intros a j a' _ Ha Hr. rewrite <- Ha. by eapply rewireOne_length.
Qed.

End Extension.

(** ** The visited cells of a search with a consistent heuristic *)

Lemma bind_length_const {A B : Type} (f : A -> list B) (l : list A) (k : nat) :
  (forall x, length (f x) = k) -> length (l ≫= f) = (length l * k)%nat.
Proof.
  intros Hf. induction l as [|a l IH]; [done|].
  rewrite bind_cons, length_app, Hf, IH. simpl. lia.
Qed.

Lemma cells_length rows cols :
  length (cells rows cols) = (Z.to_nat rows * Z.to_nat cols)%nat.
Proof.
  unfold cells. rewrite (bind_length_const _ _ (Z.to_nat cols)).
  - by rewrite length_seqZ.
  - intros r. rewrite (bind_length_const _ _ 1%nat); [|done].
    rewrite length_seqZ. lia.
Qed.

Lemma visited_length_bound (l : list coord) start rows cols :
  NoDup l ->
  (forall v, v ∈ l -> v = start \/ inBounds (fst v) (snd v) rows cols = true) ->
  (length l <= 1 + Z.to_nat rows * Z.to_nat cols)%nat.
Proof.
  intros Hnd Hin.
  assert (Hsub : l ⊆+ start :: cells rows cols).
  { apply NoDup_submseteq; [done|]. intros v Hv. apply elem_of_cons.
    destruct (Hin v Hv) as [->|Hb]; [by left|right].
    destruct v. apply elem_of_cells. by apply inBounds_spec. }
  apply submseteq_length in Hsub. simpl in Hsub. rewrite cells_length in Hsub. lia.
Qed.

Lemma chain_elems n came v l :
  chain n came (Some v) = Some l ->
  forall x, x ∈ l -> x = v \/ exists y, came !! y = Some x.
Proof.
  revert v l. induction n as [|n IH]; intros v l; [done|]. simpl.
  destruct (came !! v) as [u|] eqn:Hu.
  - destruct (chain n came (Some u)) as [l'|] eqn:Hl'; [|done].
    simpl. intros [= <-] x [->|Hx]%elem_of_cons; [by left|].
    right. destruct (IH u l' Hl' x Hx) as [->|?]; eauto.
  - destruct n; simpl; intros [= <-] x [->|Hx]%elem_of_cons; auto;
      by apply elem_of_nil in Hx.
Qed.

Section Visits.
Variable hfun : coord -> Z.
Variable grid : Grid.
Variables rows cols : Z.
Variable goal : coord.
Variable diag : bool.
Variable start : coord.

Hypothesis Hdims : dims grid = Returned (rows, cols).
Hypothesis Hrect : rectGrid grid.
Hypothesis Hpos : posWeights grid.
Hypothesis Hcons : consistent hfun grid rows cols diag.

Local Abbreviation Inv := (AInv hfun Z.add grid rows cols diag start).
Local Abbreviation relax := (astarRelax Z.leb hfun Z.add Z.add grid).
Local Abbreviation loop :=
  (fun fuel => astarLoop Z.leb Z.ltb Z.eqb hfun Z.add Z.add fuel grid rows cols goal diag).
Local Abbreviation OInv := (OInv hfun grid rows cols diag start).
Local Abbreviation RInv := (RInv hfun grid rows cols diag start).
Local Abbreviation WInv := (WInv hfun grid rows cols diag start).
Local Abbreviation Edge := (edge grid rows cols diag).
Local Abbreviation Reach := (reach grid rows cols diag start).

Lemma astarInit_WInv : WInv (astarInit hfun start Z.leb).
Proof.
  split; simpl.
  - rewrite (push_perm Z.leb). apply NoDup_singleton.
  - intros e gv. rewrite (push_perm Z.leb).
    intros ->%list_elem_of_singleton. simpl.
    rewrite lookup_singleton_eq. intros [= <-]. lia.
  - intros e gv _ H. by apply elem_of_nil in H.
  - constructor.
  - intros i j u v gu gv _ H. by rewrite lookup_nil in H.
  - intros u gu c H. by apply elem_of_nil in H.
Qed.

Lemma astarRelax_WInv cur pcur seen st nb st' :
  nb ∈ neighbors (fst cur) (snd cur) rows cols diag ->
  RInv cur pcur seen st -> WInv st -> relax cur st nb = Returned st' ->
  WInv st'.
Proof.
  intros Hnb HR HW Hr.
  destruct HR as [HI Hheap (Hcv & gcur & Hgcur & Hp) Hrel Hseen Hlow Hhigh Hcame Hreach].
  destruct HW as [Wpq Wlow Wdone Wvis Word Wset].
  apply (astarRelax_cases2 hfun grid) in Hr
    as [(-> & Hwhy)|(gcur' & Hpass & Hcur & Hcond & ->)]; [done|].
  simplify_eq.
  assert (He : Edge cur nb) by (split; [destruct cur; exact Hnb|done]).
  pose proof (Hcons cur nb He) as Hc.
  assert (Hold : forall gnb, a_g st !! nb = Some gnb -> gcur + enterCost grid nb < gnb).
  { intros gnb Hg. destruct Hcond as [Hn|(gnb' & Hn & Hlt)]; simplify_eq. done. }
  assert (Hnv : nb ∉ a_visited st).
  { intros Hv. destruct (inv_visited _ _ _ _ _ _ _ _ HI nb Hv) as [gnb Hgnb].
    specialize (Hold gnb Hgnb). specialize (Hlow nb gnb Hv Hgnb). lia. }
  split; simpl.
  - rewrite (push_perm Z.leb). apply NoDup_cons. split; [|done].
    intros Hin. destruct (inv_pq _ _ _ _ _ _ _ _ HI _ Hin) as [gnb Hgnb].
    simpl in Hgnb. specialize (Wlow _ _ Hin Hgnb). specialize (Hold _ Hgnb).
    simpl in Wlow. lia.
  - intros e gv. rewrite (push_perm Z.leb). intros [->|Hin]%elem_of_cons.
    + simpl. rewrite lookup_insert_eq. intros [= <-]. lia.
    + rewrite lookup_insert. case_decide as Hn.
      * intros [= <-]. destruct (inv_pq _ _ _ _ _ _ _ _ HI _ Hin) as [gnb Hgnb].
        pose proof (Wlow _ _ Hin Hgnb) as Hl.
        rewrite <- Hn in Hgnb, Hl |- *. specialize (Hold _ Hgnb). lia.
      * by apply Wlow.
  - intros e gv. rewrite (push_perm Z.leb). intros [->|Hin]%elem_of_cons; [done|].
    intros Hv. rewrite lookup_insert_ne by (intros ->; done). by apply Wdone.
  - done.
  - intros i j u v gu gv Hij Hu Hv.
    rewrite !lookup_insert_ne
      by (intros ->; apply Hnv; eapply list_elem_of_lookup_2; eauto).
    by eapply Word.
  - intros u gu c Hu. rewrite lookup_insert_ne by (intros ->; done). by apply Wset.
Qed.

Lemma relaxAll_WInv cur pcur st st' :
  RInv cur pcur [] st -> WInv st ->
  foldOutcome (relax cur) (neighbors (fst cur) (snd cur) rows cols diag) st
    = Returned st' ->
  RInv cur pcur (neighbors (fst cur) (snd cur) rows cols diag) st' /\ WInv st'.
Proof.
  intros HR HW Hf.
  apply (foldOutcome_inv_seen (relax cur)
           (fun seen a => RInv cur pcur seen a /\ WInv a) _) with (seen := []) in Hf;
    [done| |done].
  intros seen b a a' Hb [Ha Hw] Hr. split.
  - by eapply (astarRelax_RInv hfun grid rows cols diag start).
  - by eapply astarRelax_WInv.
Qed.

(** A stale entry is dropped. *)
Lemma stale_step st cur pq' :
  OInv st -> WInv st ->
  pop Z.ltb (a_pq st) = Some (cur, pq') -> stale Z.eqb st cur = true ->
  OInv (popped st pq') /\ WInv (popped st pq').
Proof.
  intros HO HW Hpop Hst.
  pose proof HO as [HI Hheap Hrel Hmono Hcame Hreach].
  pose proof HW as [Wpq Wlow Wdone Wvis Word Wset].
  pose proof (pop_perm _ _ _ _ Hpop) as Hperm.
  pose proof (pop_ordered _ _ _ Hheap Hpop) as Hheap'.
  assert (Hsub : forall e, e ∈ pq' -> e ∈ a_pq st).
  { intros e He. rewrite Hperm. apply elem_of_cons. by right. }
  assert (Hnd : NoDup (cur :: pq')) by (by rewrite <- Hperm).
  apply NoDup_cons in Hnd as [Hcn Hnd'].
  split.
  - split; simpl; auto.
    eapply popped_stale_inv; eauto using Zeqb_fval.
  - split; simpl; auto.
Qed.

(** A live entry is visited at the least cost of its cell. *)
Lemma visit_step st cur pq' :
  OInv st -> WInv st ->
  pop Z.ltb (a_pq st) = Some (cur, pq') -> stale Z.eqb st cur = false ->
  RInv (node cur) (prio cur) [] (visit (popped st pq') (node cur)) /\
  WInv (visit (popped st pq') (node cur)).
Proof.
  intros HO HW Hpop Hst.
  pose proof HO as [HI Hheap Hrel Hmono Hcame Hreach].
  pose proof HW as [Wpq Wlow Wdone Wvis Word Wset].
  pose proof (pop_perm _ _ _ _ Hpop) as Hperm.
  pose proof (pop_ordered _ _ _ Hheap Hpop) as Hheap'.
  pose proof (pop_min _ _ _ Hheap Hpop) as Hmin.
  assert (Hsub : forall e, e ∈ pq' -> e ∈ a_pq st).
  { intros e He. rewrite Hperm. apply elem_of_cons. by right. }
  assert (Hnd : NoDup (cur :: pq')) by (by rewrite <- Hperm).
  apply NoDup_cons in Hnd as [Hcn Hnd'].
  assert (HI' : Inv (visit (popped st pq') (node cur)))
    by (eapply (popped_visit_inv Z.ltb Z.eqb); eauto using Zeqb_fval).
  assert (Hcin : cur ∈ a_pq st) by (rewrite Hperm; apply elem_of_cons; by left).
  destruct (inv_pq _ _ _ _ _ _ _ _ HI cur Hcin) as [gc Hgc].
  assert (Hprio : prio cur = gc + hfun (node cur)).
  { unfold stale in Hst.
    rewrite (inv_f _ _ _ _ _ _ _ _ HI _ _ Hgc) in Hst.
    rewrite (fval_Z hfun grid rows cols diag start st _ _ HI Hgc) in Hst.
    apply negb_false_iff, Z.eqb_eq in Hst. done. }
  assert (Hcame' : cameExact grid (visit (popped st pq') (node cur))).
  { intros v u Hvu. destruct (Hcame v u Hvu) as (Hu & Hx).
    split; [|done]. simpl. apply elem_of_app. by left. }
  assert (Hnew : node cur ∉ a_visited st).
  { intros Hv. specialize (Wdone cur gc Hcin Hv Hgc). lia. }
  assert (Hopt : forall c, Reach (node cur) c -> gc <= c).
  { intros c Hc.
    destruct (lower_bound hfun grid rows cols diag start Hcons st (node cur) c HO Hc)
      as [(Hu & gv & Hgv & Hle)|(x & gx & Hx & Hgx & Hle)].
    - by simplify_eq.
    - destruct (inv_live _ _ _ _ _ _ _ _ HI x gx Hgx) as [?|Hin]; [done|].
      specialize (Hmin _ Hin). simpl in Hmin.
      rewrite (fval_Z hfun grid rows cols diag start st _ _ HI Hgx) in Hmin. lia. }
  split.
  - split; simpl; auto.
    + split; [apply elem_of_app; right; by apply list_elem_of_singleton|].
      eauto.
    + intros u v [Hu|Hu%list_elem_of_singleton]%elem_of_app Hne; [auto|done].
    + intros v Hv. by apply elem_of_nil in Hv.
    + intros u gu [Hu|Hu%list_elem_of_singleton]%elem_of_app Hgu.
      * by apply (Hmono u gu cur).
      * subst u. simplify_eq. lia.
  - split; simpl; auto.
    + intros e gv He [Hv|Hv%list_elem_of_singleton]%elem_of_app Hg; [auto|].
      rewrite Hv in Hg. simplify_eq.
      specialize (Wlow e gc (Hsub e He)). rewrite Hv in Wlow |- *.
      specialize (Wlow Hgc).
      destruct (decide (prio e = prio cur)) as [Heq|Hne]; [|lia].
      exfalso. apply Hcn. replace cur with e; [done|].
      destruct e, cur; simpl in *; congruence.
    + apply NoDup_app. split; [done|]. split; [|apply NoDup_singleton].
      intros x Hx ->%list_elem_of_singleton. done.
    + intros i j u v gu gv Hij Hu Hv Hgu Hgv.
      apply lookup_app_Some in Hu as [Hu|[Hlu Hu]];
        apply lookup_app_Some in Hv as [Hv|[Hlv Hv]].
      * by eapply Word.
      * apply list_lookup_singleton_Some in Hv as [_ <-]. simplify_eq.
        rewrite <- Hprio. apply (Hmono u gu cur); [|done|done].
        by eapply list_elem_of_lookup_2.
      * apply lookup_lt_Some in Hv. lia.
      * apply list_lookup_singleton_Some in Hv as [_ <-].
        apply list_lookup_singleton_Some in Hu as [_ <-]. simplify_eq. lia.
    + intros u gu c [Hu|Hu%list_elem_of_singleton]%elem_of_app Hgu Hc; [eauto|].
      subst u. simplify_eq. by apply Hopt.
Qed.

Lemma astarLoop_visits fuel st r :
  OInv st -> WInv st -> loop fuel st = Returned r -> WInv r.
Proof.
  revert st. induction fuel as [|fuel IH]; intros st HO HW; [done|].
  rewrite (astarLoop_S Z.leb Z.ltb Z.eqb hfun Z.add Z.add grid rows cols goal diag).
  destruct (pop Z.ltb (a_pq st)) as [[cur pq']|] eqn:Hpop; [|by intros [= <-]].
  destruct (stale Z.eqb st cur) eqn:Hst.
  - destruct (stale_step st cur pq' HO HW Hpop Hst) as [HO' HW']. by apply IH.
  - destruct (visit_step st cur pq' HO HW Hpop Hst) as [HR1 HW1].
    destruct ((fst (node cur) =? fst goal) && (snd (node cur) =? snd goal)) eqn:Hg.
    + by intros [= <-].
    + destruct (foldOutcome _ _ _) as [st'| |] eqn:Hfold; simpl; [|done|done].
      destruct (relaxAll_WInv _ _ _ _ HR1 HW1 Hfold) as [HR2 HW2].
      apply IH; [|done].
      by eapply (RInv_OInv hfun grid rows cols diag start).
Qed.

Lemma astar_visits fuel r :
  astar Z.leb Z.ltb Z.eqb hfun Z.add Z.add fuel grid start goal diag = Returned r ->
  NoDup (visited r) /\
  (forall v, v ∈ visited r ->
     v = start \/ inBounds (fst v) (snd v) rows cols = true) /\
  (forall v, v ∈ path r -> v ∈ visited r) /\
  (forall i j u v du dv, (i <= j)%nat ->
     visited r !! i = Some u -> visited r !! j = Some v ->
     shortest grid rows cols diag start u du ->
     shortest grid rows cols diag start v dv ->
     du + hfun u <= dv + hfun v).
Proof.
  unfold astar. rewrite Hdims. simpl.
  change (mkAState _ _ _ _ _) with (astarInit hfun start Z.leb).
  destruct (astarLoop _ _ _ _ _ _ _ _ _ _ _ _ _) as [stf| |] eqn:Hloop; simpl;
    [|done|done].
  pose proof (astarLoop_visits _ _ _ (astarInit_OInv hfun grid rows cols diag start)
                astarInit_WInv Hloop) as [Wpq Wlow Wdone Wvis Word Wset].
  pose proof (astarLoop_optimal hfun grid rows cols goal diag start Hpos Hcons _ _ _
                (astarInit_OInv hfun grid rows cols diag start) Hloop)
    as [HI Hcame Hreach Hopt].
  assert (Hend : a_pq stf = [] \/ goal ∈ a_visited stf).
  { eapply (astarLoop_inv Z.leb Z.ltb Z.eqb hfun Z.add Z.add grid rows cols goal diag
              start); [done|apply Zeqb_fval|apply Zadd_nonneg| |exact Hloop].
    apply (o_inv _ _ _ _ _ _ _ (astarInit_OInv hfun grid rows cols diag start)). }
  assert (Hexact : forall u du, u ∈ a_visited stf ->
            shortest grid rows cols diag start u du -> a_g stf !! u = Some du).
  { intros u du Hu [Hr Hm].
    destruct (inv_visited _ _ _ _ _ _ _ _ HI u Hu) as [gu Hgu].
    pose proof (Wset u gu du Hu Hgu Hr). pose proof (Hm gu (Hreach u gu Hgu)).
    rewrite Hgu. f_equal. lia. }
  destruct (reconstruct fuel (a_came stf) goal) as [p| |] eqn:Hrec; simpl; [|done|done].
  intros [= <-]. simpl. split; [done|]. split; [|split].
  - intros v Hv. destruct (inv_visited _ _ _ _ _ _ _ _ HI v Hv) as [gv Hgv].
    eapply inv_dom; eauto.
  - intros v Hv. unfold reconstruct in Hrec.
    destruct (a_came stf !! goal) as [u|] eqn:Hu;
      [|simplify_eq; by apply elem_of_nil in Hv].
    destruct (chain fuel (a_came stf) (Some goal)) as [l|] eqn:Hl; [|done].
    simplify_eq. rewrite elem_of_reverse in Hv.
    destruct (chain_elems _ _ _ _ Hl v Hv) as [->|[y Hy]].
    + destruct Hend as [Hnil|?]; [|done].
      destruct (inv_came _ _ _ _ _ _ _ _ HI goal u Hu) as (_ & gu & gg & _ & Hgg).
      destruct (inv_live _ _ _ _ _ _ _ _ HI goal gg Hgg) as [?|Hin]; [done|].
      rewrite Hnil in Hin. by apply elem_of_nil in Hin.
    + by destruct (Hcame y v Hy).
  - intros i j u v du dv Hij Hu Hv Su Sv.
    eapply Word; eauto; apply Hexact; eauto using list_elem_of_lookup_2.
Qed.
End Visits.

(** ** Sums below 2^53 are formed exactly *)

Lemma foldOutcome_agree {A B : Type} (f f' : A -> B -> outcome A)
    (J : list B -> A -> Prop) l :
  (forall seen b a, b ∈ l -> J seen a -> f' a b = f a b) ->
  (forall seen b a a', b ∈ l -> J seen a -> f a b = Returned a' -> J (seen ++ [b]) a') ->
  forall seen a, J seen a -> foldOutcome f' l a = foldOutcome f l a.
Proof.
  induction l as [|b l IH]; intros Hag Hstep seen a Ha; simpl; [done|].
  rewrite (Hag seen b a); [|apply elem_of_cons; by left|done].
  destruct (f a b) as [a1| |] eqn:E; simpl; [|done|done].
  apply (IH) with (seen := seen ++ [b]).
  - intros ?????; eapply Hag; [apply elem_of_cons; by right|done].
  - intros ???????; eapply Hstep; [apply elem_of_cons; by right|done|done].
  - eapply Hstep; [apply elem_of_cons; by left|done|done].
Qed.

Lemma maxWeight_pos grid : 1 <= maxWeight grid.
Proof.
  unfold maxWeight. induction grid as [|row grid IH]; simpl; [lia|].
  induction row as [|cell row IHr]; simpl; lia.
Qed.

Lemma weightOf_maxWeight grid row cell :
  row ∈ grid -> cell ∈ row -> weightOf cell <= maxWeight grid.
Proof.
  unfold maxWeight. intros Hr Hc.
  induction grid as [|row' grid IH]; [by apply elem_of_nil in Hr|]. simpl.
  assert (forall (r : list Cell) acc,
            acc <= foldr (fun cell a => Z.max (weightOf cell) a) acc r) as Hmono.
  { induction r as [|c r IHr]; intros acc; simpl; [lia|]. specialize (IHr acc). lia. }
  apply elem_of_cons in Hr as [<-|Hr].
  - clear IH. induction row as [|c row IHr]; [by apply elem_of_nil in Hc|]. simpl.
    apply elem_of_cons in Hc as [<-|Hc]; [lia|]. specialize (IHr Hc). lia.
  - specialize (IH Hr). etrans; [exact IH|apply Hmono].
Qed.

Section ExactSums.
Variable hfun : coord -> Z.
Variable padd : Z -> Z -> Z.
Variable grid : Grid.
Variables rows cols : Z.
Variable goal : coord.
Variable diag : bool.
Variable start : coord.
Variables W Hmax : Z.

Hypothesis Hdims : dims grid = Returned (rows, cols).
Hypothesis Hrect : rectGrid grid.
Hypothesis Hpos : posWeights grid.
Hypothesis Hcons : consistent hfun grid rows cols diag.
Hypothesis HW : forall row cell, row ∈ grid -> cell ∈ row -> weightOf cell <= W.
Hypothesis HW1 : 1 <= W.
Hypothesis Hh : forall v, inBounds (fst v) (snd v) rows cols = true ->
  0 <= hfun v <= Hmax.
Hypothesis Hsmall : W * (rows * cols + 1) + Hmax < 2 ^ 53.
Hypothesis Hpadd : forall t h, 0 <= t -> 0 <= h -> t + h < 2 ^ 53 -> padd t h = t + h.

Local Abbreviation OInv := (OInv hfun grid rows cols diag start).
Local Abbreviation RInv := (RInv hfun grid rows cols diag start).
Local Abbreviation WInv := (WInv hfun grid rows cols diag start).

(** One relaxation forms the same sums in doubles as in the integers. *)
Lemma astarRelax_exact cur st nb gcur :
  nb ∈ neighbors (fst cur) (snd cur) rows cols diag ->
  a_g st !! cur = Some gcur -> 0 <= gcur -> gcur + W + Hmax < 2 ^ 53 ->
  astarRelax Z.leb hfun padd dadd grid cur st nb =
  astarRelax Z.leb hfun Z.add Z.add grid cur st nb.
Proof.
  intros Hnb Hg H0 Hs. unfold astarRelax.
  destruct (cellAt grid (fst nb) (snd nb)) as [cell|] eqn:Hcell; [|done].
  destruct (wall cell); [done|]. rewrite Hg.
  assert (1 <= weightOf cell <= W) as Hw.
  { apply cellAt_elem in Hcell as (row & ? & ?). split; eauto. }
  pose proof (Hh nb (neighbors_inBounds _ _ _ _ _ _ Hnb)) as Hhn.
  rewrite dadd_small by lia. rewrite Hpadd by lia. done.
Qed.

Lemma visited_count st :
  AInv hfun Z.add grid rows cols diag start st -> NoDup (a_visited st) ->
  Z.of_nat (length (a_visited st)) <= rows * cols + 1.
Proof.
  intros HI Hnd.
  pose proof (visited_length_bound (a_visited st) start rows cols Hnd) as Hb.
  apply dims_Returned in Hdims as (row0 & rest & _ & Hr & Hc).
  assert (length (a_visited st) <= 1 + Z.to_nat rows * Z.to_nat cols)%nat as Hl.
  { apply Hb. intros v Hv. eapply inv_dom; [exact HI|]. by eapply inv_visited. }
  nia.
Qed.

Lemma astarLoop_exact fuel st :
  OInv st -> WInv st -> costsBelow W st ->
  astarLoop Z.leb Z.ltb Z.eqb hfun padd dadd fuel grid rows cols goal diag st =
  astarLoop Z.leb Z.ltb Z.eqb hfun Z.add Z.add fuel grid rows cols goal diag st.
Proof.
  revert st. induction fuel as [|fuel IH]; intros st HO HWI HB; [done|].
  rewrite !astarLoop_S.
  destruct (pop Z.ltb (a_pq st)) as [[cur pq']|] eqn:Hpop; [|done].
  destruct (stale Z.eqb st cur) eqn:Hst.
  { destruct (stale_step hfun grid rows cols diag start st cur pq' HO HWI Hpop Hst)
      as [HO' HW'].
    apply IH; [done|done|]. exact HB. }
  destruct (visit_step hfun grid rows cols diag start Hcons st cur pq' HO HWI Hpop Hst)
    as [HR1 HW1'].
  destruct ((fst (node cur) =? fst goal) && (snd (node cur) =? snd goal)); [done|].
  set (st1 := visit (popped st pq') (node cur)) in *.
  set (n := Z.of_nat (length (a_visited st1))).
  assert (Hn : n = Z.of_nat (length (a_visited st)) + 1).
  { subst n st1. simpl. rewrite length_app. simpl. lia. }
  assert (Hcur : forall gcur, prio cur = gcur + hfun (node cur) ->
            a_g st !! node cur = Some gcur -> gcur <= W * (n - 1)).
  { intros gcur _ Hg. specialize (HB _ _ Hg). rewrite Hn. lia. }
  pose (J := fun (seen : list coord) (a : AState Z) =>
               RInv (node cur) (prio cur) seen a /\ WInv a /\
               a_visited a = a_visited st1 /\ a_g a !! node cur = a_g st !! node cur /\
               costsBelow W a).
  assert (HJ0 : J [] st1).
  { split; [done|]. split; [done|]. split; [done|]. split; [done|].
    intros v d Hv. specialize (HB v d Hv). fold n. nia. }
  assert (Hstep : forall seen b a a',
            b ∈ neighbors (fst (node cur)) (snd (node cur)) rows cols diag ->
            J seen a ->
            astarRelax Z.leb hfun Z.add Z.add grid (node cur) a b = Returned a' ->
            J (seen ++ [b]) a').
  { intros seen b a a' Hb (HR & HWa & Hvis & Hgc & HBa) Hr.
    split; [by eapply (astarRelax_RInv hfun grid rows cols diag start)|].
    split; [by eapply (astarRelax_WInv hfun grid rows cols diag start)|].
    apply astarRelax_cases2 in Hr
      as [(-> & _)|(gcur & Hpass & Hgcur & Hcond & ->)]; [done|]. simpl.
    split; [done|].
    assert (Hnc : b <> node cur) by (destruct (node cur); by eapply neighbors_ne).
    split; [by rewrite lookup_insert_ne|].
    destruct (r_cur _ _ _ _ _ _ _ _ _ _ HR) as (_ & gcur' & Hg' & Hp).
    assert (gcur' = gcur) as -> by congruence.
    pose proof Hgcur as Hgs. rewrite Hgc in Hgs. specialize (Hcur _ Hp Hgs).
    assert (enterCost grid b <= W).
    { destruct Hpass as (cell & Hcell & _). unfold enterCost. rewrite Hcell.
      apply cellAt_elem in Hcell as (row & ? & ?). eauto. }
    intros v d. simpl. rewrite lookup_insert. case_decide.
    - intros [= <-]. rewrite Hvis. fold n. lia.
    - intros Hv. by specialize (HBa v d Hv). }
  assert (Hagree : forall seen b a,
            b ∈ neighbors (fst (node cur)) (snd (node cur)) rows cols diag ->
            J seen a ->
            astarRelax Z.leb hfun padd dadd grid (node cur) a b =
            astarRelax Z.leb hfun Z.add Z.add grid (node cur) a b).
  { intros seen b a Hb (HR & HWa & Hvis & Hgc & HBa).
    destruct (r_cur _ _ _ _ _ _ _ _ _ _ HR) as (_ & gcur & Hg & Hp).
    pose proof Hg as Hg'. rewrite Hgc in Hg'. specialize (Hcur _ Hp Hg').
    pose proof (inv_nonneg _ _ _ _ _ _ _ _ (r_inv _ _ _ _ _ _ _ _ _ _ HR) _ _ Hg).
    pose proof (visited_count a (r_inv _ _ _ _ _ _ _ _ _ _ HR)
                  (w_visited _ _ _ _ _ _ _ HWa)) as Hc.
    rewrite Hvis in Hc. fold n in Hc.
    apply (astarRelax_exact _ _ _ gcur); [done|done|done|nia]. }
  rewrite (foldOutcome_agree _ _ J _ Hagree Hstep [] st1 HJ0).
  destruct (foldOutcome _ _ _) as [st'| |] eqn:Hfold; simpl; [|done|done].
  pose proof (foldOutcome_inv_seen _ J _ Hstep [] st1 st' HJ0 Hfold)
    as (HR2 & HW2 & _ & _ & HB2).
  apply IH; [|done|done].
  by eapply (RInv_OInv hfun grid rows cols diag start).
Qed.

(** With every sum below 2^53 the search in doubles is the search in the
    integers. *)
Theorem astar_exact fuel :
  astar Z.leb Z.ltb Z.eqb hfun padd dadd fuel grid start goal diag =
  astar Z.leb Z.ltb Z.eqb hfun Z.add Z.add fuel grid start goal diag.
Proof.
  unfold astar. rewrite Hdims. simpl.
  change (mkAState _ _ _ _ _) with (astarInit hfun start Z.leb).
  rewrite astarLoop_exact; [done| | |].
  - apply astarInit_OInv.
  - apply astarInit_WInv.
  - intros v d. simpl. intros [<- <-]%lookup_singleton_Some. lia.
Qed.
End ExactSums.

(** ** Grids on which the searches form no sum of 2^53 or more *)

Lemma manhattan_heurBound grid goal v :
  inBounds (fst v) (snd v) (gridRows grid) (gridCols grid) = true ->
  0 <= manhattan v goal <= heurBound grid goal.
Proof.
  intros (Hr & Hc)%inBounds_spec. unfold manhattan, heurBound. lia.
Qed.

Lemma runDijkstra_exact fuel grid start goal diag :
  wfGrid grid -> sumBound grid < 2 ^ 53 ->
  runDijkstra fuel grid start goal diag =
  astar Z.leb Z.ltb Z.eqb (fun _ => 0) Z.add Z.add fuel grid start goal diag.
Proof.
  intros (Hne & Hrect & Hpos) Hb. rewrite runDijkstra_astar.
  apply (astar_exact (fun _ => 0) Z.add grid (gridRows grid) (gridCols grid) goal diag
           start (maxWeight grid) 0 (wfGrid_dims grid Hne) Hpos
           (zero_consistent _ _ _ _ Hpos) (weightOf_maxWeight grid)
           (maxWeight_pos grid)).
  - intros v _. lia.
  - unfold sumBound in Hb. lia.
  - done.
Qed.

Lemma runAStar4_exact {N : JSNumber} fuel grid start goal :
  wfGrid grid -> sumBound grid + heurBound grid goal < 2 ^ 53 ->
  runAStar fuel grid start goal false =
  astar Z.leb Z.ltb Z.eqb (fun a => manhattan a goal) Z.add Z.add
        fuel grid start goal false.
Proof.
  intros (Hne & Hrect & Hpos) Hb. unfold runAStar.
  apply (astar_exact (fun a => manhattan a goal) dadd grid (gridRows grid)
           (gridCols grid) goal false start (maxWeight grid) (heurBound grid goal)
           (wfGrid_dims grid Hne) Hpos
           (manhattan_consistent _ _ _ _ Hpos) (weightOf_maxWeight grid)
           (maxWeight_pos grid)).
  - apply manhattan_heurBound.
  - unfold sumBound in Hb. lia.
  - intros t h Ht Hh Hs. apply dadd_small; lia.
Qed.

(** On such a grid Dijkstra returns a cheapest path, and so does A* on
    the Manhattan heuristic. *)
Lemma dijkstra_cheapest fuel grid start goal diag r :
  wfGrid grid -> sumBound grid < 2 ^ 53 ->
  runDijkstra fuel grid start goal diag = Returned r ->
  cheapest grid (gridRows grid) (gridCols grid) diag start goal (path r).
Proof.
  intros Hwf Hb E. rewrite (runDijkstra_exact _ _ _ _ _ Hwf Hb) in E.
  destruct Hwf as (Hne & Hrect & Hpos).
  eapply astar_cheapest; [exact (wfGrid_dims grid Hne) | exact Hpos | | exact E].
  apply zero_consistent, Hpos.
Qed.

Lemma astar4_cheapest {N : JSNumber} fuel grid start goal r :
  wfGrid grid -> sumBound grid + heurBound grid goal < 2 ^ 53 ->
  runAStar fuel grid start goal false = Returned r ->
  cheapest grid (gridRows grid) (gridCols grid) false start goal (path r).
Proof.
  intros Hwf Hb E. rewrite (runAStar4_exact _ _ _ _ Hwf Hb) in E.
  destruct Hwf as (Hne & Hrect & Hpos).
  eapply astar_cheapest; [exact (wfGrid_dims grid Hne) | exact Hpos | | exact E].
  apply manhattan_consistent, Hpos.
Qed.

(** * The testable properties of the specification *)

Lemma occupied_wall_start : occupied exGridWallStart (0, 0).
Proof. exists wallCell1. split; reflexivity. Qed.

(** ** Shape of the returned paths *)

(** C1, as the code has it.  On a well-formed grid all three planners
    return.  In the path of Dijkstra and of A* every coordinate after the
    first is adjacent to its predecessor under the configured connectivity
    and lies on a cell that is not a wall; the first coordinate is the
    start, which is never tested.  In the path of RRT* every coordinate is
    a free cell and is joined to its predecessor by a rasterised segment of
    free cells; consecutive coordinates need not be adjacent. *)
Theorem path_steps {N : JSNumber} {L : JSNumberLaws N}
    (rand : nat -> num) (grid : Grid) (start goal : coord) (diag : bool)
    (opts : RRTOpts) :
  wfGrid grid ->
  exists n, forall m, (n <= m)%nat ->
    exists rD rA rR,
      runDijkstra m grid start goal diag = Returned rD /\
      runAStar m grid start goal diag = Returned rA /\
      runRRTStar rand m grid start goal opts = Returned rR /\
      linked (edge grid (gridRows grid) (gridCols grid) diag) (path rD) /\
      (path rD = [] \/ head (path rD) = Some start) /\
      linked (edge grid (gridRows grid) (gridCols grid) diag) (path rA) /\
      (path rA = [] \/ head (path rA) = Some start) /\
      (forall v, v ∈ path rR ->
         freeCell grid (gridRows grid) (gridCols grid) v = true) /\
      linked (lineOK grid (gridRows grid) (gridCols grid)) (path rR).
Proof.
  intros Hwf.
  destruct (searches_return grid start goal diag Hwf) as [n1 H1].
  destruct (runRRTStar_result rand grid start Hwf goal opts) as (rR & [n2 H2] & HR).
  exists (n1 `max` n2)%nat. intros m Hm.
  destruct (H1 m ltac:(lia)) as (rD & rA & ED & EA & SD & SA).
  exists rD, rA, rR.
  split; [exact ED|]. split; [exact EA|]. split; [apply H2; lia|].
  split; [apply (sr_linked _ _ _ _ _ _ _ SD)|].
  split; [destruct (sr_ends _ _ _ _ _ _ _ SD) as [?|[? _]]; auto|].
  split; [apply (sr_linked _ _ _ _ _ _ _ SA)|].
  split; [destruct (sr_ends _ _ _ _ _ _ _ SA) as [?|[? _]]; auto|].
  split; [apply (rr_free _ _ _ _ _ _ HR) | apply (rr_linked _ _ _ _ _ _ HR)].
Qed.

Lemma path_steps_witness :
  wfGrid exGridRow3 /\
  exists n, forall m, (n <= m)%nat ->
    exists rD rA rR,
      runDijkstra m exGridRow3 (0, 0) (0, 2) false = Returned rD /\
      runAStar (N := QNum) m exGridRow3 (0, 0) (0, 2) false = Returned rA /\
      runRRTStar (N := QNum) randGoal m exGridRow3 (0, 0) (0, 2) noOpts = Returned rR /\
      linked (edge exGridRow3 (gridRows exGridRow3) (gridCols exGridRow3) false) (path rD) /\
      (path rD = [] \/ head (path rD) = Some (0, 0)) /\
      linked (edge exGridRow3 (gridRows exGridRow3) (gridCols exGridRow3) false) (path rA) /\
      (path rA = [] \/ head (path rA) = Some (0, 0)) /\
      (forall v, v ∈ path rR ->
         freeCell exGridRow3 (gridRows exGridRow3) (gridCols exGridRow3) v = true) /\
      linked (lineOK exGridRow3 (gridRows exGridRow3) (gridCols exGridRow3)) (path rR).
Proof.
  assert (Hwf : wfGrid exGridRow3) by (apply wfGridb_wfGrid; reflexivity).
  split; [exact Hwf|].
  exact (path_steps (N := QNum) (L := QNumLaws) randGoal exGridRow3 (0, 0) (0, 2)
           false noOpts Hwf).
Defined.

(** Dijkstra and A* return a path that begins on an occupied start, and
    RRT* returns a path whose consecutive coordinates are two columns
    apart. *)
Lemma path_steps_counterexample :
  (occupied exGridWallStart (0, 0) /\
   runDijkstra 10 exGridWallStart (0, 0) (0, 1) false =
     Returned (mkResult [(0, 0); (0, 1)] [(0, 0); (0, 1)]) /\
   runAStar (N := QNum) 10 exGridWallStart (0, 0) (0, 1) false =
     Returned (mkResult [(0, 0); (0, 1)] [(0, 0); (0, 1)])) /\
  (runRRTStar (N := QNum) randGoal 20 exGridRow3 (0, 0) (0, 2) noOpts =
     Returned (mkResult [(0, 0); (0, 2)] [(0, 0); (0, 2); (0, 2)]) /\
   forall diag, ~ adjacent 1 3 diag (0, 0) (0, 2)).
Proof.
  split; [split; [exact occupied_wall_start | split; vm_compute; reflexivity]|].
  split; [vm_compute; reflexivity|].
  intros diag H. unfold adjacent in H.
  destruct diag; vm_compute in H;
    repeat (apply elem_of_cons in H as [H|H]; [discriminate H|]);
    inversion H.
Qed.

(** ** Equal cost of A* and Dijkstra *)

(** C2, as the code has it.  On a well-formed grid without walls and
    under 4-connectivity, whose weights are so small that every sum the
    two searches form stays below 2^53 (the largest weight times the
    number of cells plus one, plus the number of rows, the number of
    columns and the absolute values of the coordinates of the goal, which
    bound the Manhattan distances), Dijkstra and A* both return, and the
    paths they return have the same total cost, the sum of the weights of
    the cells entered. *)
Theorem astar_dijkstra_equal_cost {N : JSNumber}
    (grid : Grid) (start goal : coord) :
  wfGrid grid -> noWalls grid ->
  sumBound grid + heurBound grid goal < 2 ^ 53 ->
  exists n, forall m, (n <= m)%nat ->
    exists rD rA,
      runDijkstra m grid start goal false = Returned rD /\
      runAStar m grid start goal false = Returned rA /\
      pathCost grid (path rD) = pathCost grid (path rA).
Proof.
  intros Hwf _ Hb.
  assert (HbD : sumBound grid < 2 ^ 53).
  { unfold heurBound, gridRows, gridCols in Hb. destruct grid; lia. }
  destruct (runDijkstra_result grid start goal false Hwf) as [n1 H1].
  destruct (runAStar4_result grid start goal Hwf) as [n2 H2].
  exists (n1 `max` n2)%nat. intros m Hm.
  destruct (H1 m ltac:(lia)) as (rD & ED & _).
  destruct (H2 m ltac:(lia)) as (rA & EA & _).
  exists rD, rA. split; [exact ED|]. split; [exact EA|].
  eapply cheapest_unique.
  - exact (dijkstra_cheapest m grid start goal false rD Hwf HbD ED).
  - exact (astar4_cheapest m grid start goal rA Hwf Hb EA).
Qed.

Lemma astar_dijkstra_equal_cost_witness :
  wfGrid exGrid2x2 /\ noWalls exGrid2x2 /\
  sumBound exGrid2x2 + heurBound exGrid2x2 (1, 1) < 2 ^ 53 /\
  exists n, forall m, (n <= m)%nat ->
    exists rD rA,
      runDijkstra m exGrid2x2 (0, 0) (1, 1) false = Returned rD /\
      runAStar (N := QNum) m exGrid2x2 (0, 0) (1, 1) false = Returned rA /\
      pathCost exGrid2x2 (path rD) = pathCost exGrid2x2 (path rA).
Proof.
  assert (Hwf : wfGrid exGrid2x2) by (apply wfGridb_wfGrid; reflexivity).
  assert (Hnw : noWalls exGrid2x2) by (apply noWallsb_noWalls; reflexivity).
  assert (Hb : sumBound exGrid2x2 + heurBound exGrid2x2 (1, 1) < 2 ^ 53)
    by (vm_compute; reflexivity).
  split; [exact Hwf|]. split; [exact Hnw|]. split; [exact Hb|].
  exact (astar_dijkstra_equal_cost (N := QNum) exGrid2x2 (0, 0) (1, 1) Hwf Hnw Hb).
Defined.

(** On two rows of two cells without walls, the weights 2^53 - 1 and
    2^53 + 2 above 1 and 2^53, Dijkstra returns the path from the top
    right to the bottom left cell through the top left cell, of cost 2^53,
    and A* the path through the bottom right cell, of cost 2^53 + 1: in
    doubles both ways cost 2^53. *)
Lemma equal_cost_counterexample :
  wfGrid exGridHeavy /\ noWalls exGridHeavy /\
  runDijkstra 10 exGridHeavy (0, 1) (1, 0) false =
    Returned (mkResult [(0, 1); (0, 0); (1, 1); (1, 0)] [(0, 1); (0, 0); (1, 0)]) /\
  runAStar (N := QNum) 10 exGridHeavy (0, 1) (1, 0) false =
    Returned (mkResult [(0, 1); (1, 1); (0, 0); (1, 0)] [(0, 1); (1, 1); (1, 0)]) /\
  pathCost exGridHeavy [(0, 1); (0, 0); (1, 0)] = 2 ^ 53 /\
  pathCost exGridHeavy [(0, 1); (1, 1); (1, 0)] = 2 ^ 53 + 1.
Proof.
  split; [apply wfGridb_wfGrid; vm_compute; reflexivity|].
  split; [apply noWallsb_noWalls; vm_compute; reflexivity|].
  repeat split; vm_compute; reflexivity.
Qed.

(** ** Start equal to goal *)

(** C3, as the code has it.  When start and goal are the same coordinate
    of a well-formed grid, all three planners return; the visited sequence
    of Dijkstra and of A* is that coordinate alone, the visited sequence
    of RRT* begins with it, and the path of RRT* is either empty or has at
    least three entries, the first and the last of which are that
    coordinate. *)
Theorem start_is_goal {N : JSNumber} {L : JSNumberLaws N}
    (rand : nat -> num) (grid : Grid) (start : coord) (diag : bool)
    (opts : RRTOpts) :
  wfGrid grid ->
  exists n, forall m, (n <= m)%nat ->
    exists rD rA rR,
      runDijkstra m grid start start diag = Returned rD /\
      runAStar m grid start start diag = Returned rA /\
      runRRTStar rand m grid start start opts = Returned rR /\
      visited rD = [start] /\
      visited rA = [start] /\
      head (visited rR) = Some start /\
      (path rR = [] \/
       (head (path rR) = Some start /\ last (path rR) = Some start /\
        (3 <= length (path rR))%nat)).
Proof.
  intros Hwf.
  destruct (searches_return grid start start diag Hwf) as [n1 H1].
  destruct (runRRTStar_result rand grid start Hwf start opts) as (rR & [n2 H2] & HR).
  exists (n1 `max` n2)%nat. intros m Hm.
  destruct (H1 m ltac:(lia)) as (rD & rA & ED & EA & SD & SA).
  exists rD, rA, rR.
  split; [exact ED|]. split; [exact EA|]. split; [apply H2; lia|].
  split; [apply (sr_same _ _ _ _ _ _ _ SD eq_refl)|].
  split; [apply (sr_same _ _ _ _ _ _ _ SA eq_refl)|].
  split; [apply (rr_visited _ _ _ _ _ _ HR) | apply (rr_shape _ _ _ _ _ _ HR)].
Qed.

Lemma start_is_goal_witness :
  wfGrid exGridRow3 /\
  exists n, forall m, (n <= m)%nat ->
    exists rD rA rR,
      runDijkstra m exGridRow3 (0, 0) (0, 0) true = Returned rD /\
      runAStar (N := QNum) m exGridRow3 (0, 0) (0, 0) true = Returned rA /\
      runRRTStar (N := QNum) randMiddle m exGridRow3 (0, 0) (0, 0) noOpts = Returned rR /\
      visited rD = [(0, 0)] /\
      visited rA = [(0, 0)] /\
      head (visited rR) = Some (0, 0) /\
      (path rR = [] \/
       (head (path rR) = Some (0, 0) /\ last (path rR) = Some (0, 0) /\
        (3 <= length (path rR))%nat)).
Proof.
  assert (Hwf : wfGrid exGridRow3) by (apply wfGridb_wfGrid; reflexivity).
  split; [exact Hwf|].
  exact (start_is_goal (N := QNum) (L := QNumLaws) randMiddle exGridRow3 (0, 0)
           true noOpts Hwf).
Defined.

(** With start and goal on the same free cell, Dijkstra and A* return an
    empty path and RRT* returns a path of three coordinates. *)
Lemma start_is_goal_counterexample :
  runDijkstra 10 exGridRow3 (0, 0) (0, 0) false =
    Returned (mkResult [(0, 0)] []) /\
  runAStar (N := QNum) 10 exGridRow3 (0, 0) (0, 0) false =
    Returned (mkResult [(0, 0)] []) /\
  runRRTStar (N := QNum) randMiddle 20 exGridRow3 (0, 0) (0, 0) noOpts =
    Returned (mkResult [(0, 0); (0, 1)] [(0, 0); (0, 1); (0, 0)]).
Proof. repeat split; vm_compute; reflexivity. Qed.

(** ** Stored costs of the tree *)

(** C4, as the code has it.  After any number of iterations of the RRT*
    loop, every node other than the root and the goal node stores a cost
    that is not below the stored cost of its current parent plus the
    weight of the node's cell times the Euclidean distance between the
    two. *)
Theorem stored_cost_bound {N : JSNumber} {L : JSNumberLaws N}
    (rand : nat -> num) (grid : Grid) (start goal : coord)
    (its : nat) (rad stp gb : num) :
  wfGrid grid ->
  exists st,
    settles (fun m => rrtLoop rand grid (gridRows grid) (gridCols grid)
                        its m goal rad stp gb (rrtStart start)) st /\
    forall k nd, (0 < k)%nat -> Z.of_nat k <> r_goalIndex st ->
      r_nodes st !! k = Some nd ->
      exists p pn,
        n_parent nd = Z.of_nat p /\ r_nodes st !! p = Some pn /\
        nleq (edgeCost grid pn nd) (n_cost nd) = true.
Proof.
  intros Hwf.
  destruct (rrtRun_settles rand grid start Hwf its goal rad stp gb) as (st & Hs & HI).
  exists st. split; [exact Hs|].
  intros k nd Hk Hg Hnd. exact (s_cost _ _ _ _ _ _ HI k nd Hk Hg Hnd).
Qed.

Lemma stored_cost_bound_witness :
  wfGrid exGridRow8 /\
  exists st : RState (N := QNum),
    settles (fun m => rrtLoop randRow8 exGridRow8
                        (gridRows exGridRow8) (gridCols exGridRow8)
                        3 m (0, 7) 1%Q 2%Q (Qmake 8 100) (rrtStart (0, 0))) st /\
    forall k nd, (0 < k)%nat -> Z.of_nat k <> r_goalIndex st ->
      r_nodes st !! k = Some nd ->
      exists p pn,
        n_parent nd = Z.of_nat p /\ r_nodes st !! p = Some pn /\
        nleq (JSNumberLaws := QNumLaws) (edgeCost exGridRow8 pn nd) (n_cost nd) = true.
Proof.
  assert (Hwf : wfGrid exGridRow8) by (apply wfGridb_wfGrid; reflexivity).
  split; [exact Hwf|].
  exact (stored_cost_bound (N := QNum) (L := QNumLaws) randRow8 exGridRow8
           (0, 0) (0, 7) 3 1%Q 2%Q (Qmake 8 100) Hwf).
Defined.

(** Three iterations on a row of eight cells: the third node is inserted
    below the second at cost 21, then the second is re-parented at a lower
    cost and the third keeps its cost, although its parent chain now adds
    up to 12.  And on a row of three cells the goal node stores the cost 1
    of its parent, although its chain adds up to 2. *)
Lemma stored_cost_counterexample :
  (exists st nd,
     rrtLoop (N := QNum) randRow8 exGridRow8 1 8 3 20 (0, 7) 1%Q 2%Q (Qmake 8 100)
       (rrtStart (0, 0)) = Returned st /\
     r_goalIndex st = -1 /\
     r_nodes st !! 2%nat = Some nd /\
     n_parent nd = 1 /\
     n_cost nd = 21%Q /\
     accumCost exGridRow8 10 (r_nodes st) 2 = Some 12%Q) /\
  (exists st nd,
     rrtLoop (N := QNum) randMiddle exGridRow3 1 3 1500 20 (0, 2) 4%Q 2%Q (Qmake 8 100)
       (rrtStart (0, 0)) = Returned st /\
     r_goalIndex st = 2 /\
     r_nodes st !! 2%nat = Some nd /\
     n_cost nd = 1%Q /\
     accumCost exGridRow3 10 (r_nodes st) 2 = Some 2%Q).
Proof.
  split; eexists _, _; (split; [vm_compute; reflexivity|]);
    repeat split; vm_compute; reflexivity.
Qed.

(** ** Invalid input *)

(** C5, as the code has it.  No planner validates its input: on a
    well-formed grid every start and goal, in bounds or not, occupied or
    not, gives an ordinary result from all three planners; only a grid
    without rows makes them throw, when the length of its first row is
    read. *)
Theorem no_input_validation {N : JSNumber} {L : JSNumberLaws N}
    (rand : nat -> num) (grid : Grid) (start goal : coord) (diag : bool)
    (opts : RRTOpts) :
  (wfGrid grid ->
   exists n, forall m, (n <= m)%nat ->
     exists rD rA rR,
       runDijkstra m grid start goal diag = Returned rD /\
       runAStar m grid start goal diag = Returned rA /\
       runRRTStar rand m grid start goal opts = Returned rR) /\
  (forall m,
     runDijkstra m [] start goal diag = Threw /\
     runAStar m [] start goal diag = Threw /\
     runRRTStar rand m [] start goal opts = Threw).
Proof.
  split.
  - intros Hwf.
    destruct (searches_return grid start goal diag Hwf) as [n1 H1].
    destruct (runRRTStar_result rand grid start Hwf goal opts) as (rR & [n2 H2] & _).
    exists (n1 `max` n2)%nat. intros m Hm.
    destruct (H1 m ltac:(lia)) as (rD & rA & ED & EA & _).
    exists rD, rA, rR.
    split; [exact ED|]. split; [exact EA|]. apply H2; lia.
  - intros m. split; [reflexivity|]. split; [destruct diag; reflexivity | reflexivity].
Qed.

Lemma no_input_validation_witness :
  wfGrid exGridRow3 /\
  (exists n, forall m, (n <= m)%nat ->
     exists rD rA rR,
       runDijkstra m exGridRow3 (5, 5) (0, 7) false = Returned rD /\
       runAStar (N := QNum) m exGridRow3 (5, 5) (0, 7) false = Returned rA /\
       runRRTStar (N := QNum) randGoal m exGridRow3 (5, 5) (0, 7) noOpts = Returned rR).
Proof.
  assert (Hwf : wfGrid exGridRow3) by (apply wfGridb_wfGrid; reflexivity).
  split; [exact Hwf|].
  exact (proj1 (no_input_validation (N := QNum) (L := QNumLaws) randGoal exGridRow3
                  (5, 5) (0, 7) false noOpts) Hwf).
Defined.

(** A start outside the grid, a goal outside the grid, an occupied start
    and a grid whose rows are empty all give an ordinary result. *)
Lemma no_input_validation_counterexample :
  runDijkstra 10 exGridRow3 (5, 5) (0, 0) false =
    Returned (mkResult [(5, 5)] []) /\
  runAStar (N := QNum) 10 exGridRow3 (0, -1) (0, 2) false =
    Returned (mkResult [(0, -1); (0, 0); (0, 1); (0, 2)]
                       [(0, -1); (0, 0); (0, 1); (0, 2)]) /\
  runDijkstra 10 exGridRow3 (0, 0) (0, 7) false =
    Returned (mkResult [(0, 0); (0, 1); (0, 2)] []) /\
  runRRTStar (N := QNum) randGoal 20 exGridWallStart (0, 0) (0, 1) noOpts =
    Returned (mkResult [(0, 0)] []) /\
  (occupied exGridWallStart (0, 0) /\
   runDijkstra 10 exGridWallStart (0, 0) (0, 1) true =
     Returned (mkResult [(0, 0); (0, 1)] [(0, 0); (0, 1)])) /\
  runDijkstra 10 [[]] (0, 0) (0, 2) false = Returned (mkResult [(0, 0)] []).
Proof.
  split; [vm_compute; reflexivity|].
  split; [vm_compute; reflexivity|].
  split; [vm_compute; reflexivity|].
  split; [vm_compute; reflexivity|].
  split; [split; [exact occupied_wall_start | vm_compute; reflexivity]|].
  vm_compute; reflexivity.
Qed.

(** ** Occupied start or goal *)

(** C6, as the code has it.  On a well-formed grid whose goal cell is
    occupied, Dijkstra and A* return an empty path.  Nothing of the kind
    holds of an occupied start, which is never tested. *)
Theorem occupied_goal_no_path {N : JSNumber} {L : JSNumberLaws N}
    (grid : Grid) (start goal : coord) (diag : bool) :
  wfGrid grid -> occupied grid goal ->
  exists n, forall m, (n <= m)%nat ->
    exists rD rA,
      runDijkstra m grid start goal diag = Returned rD /\
      runAStar m grid start goal diag = Returned rA /\
      path rD = [] /\ path rA = [].
Proof.
  intros Hwf Hocc.
  destruct (searches_return grid start goal diag Hwf) as [n H].
  exists n. intros m Hm.
  destruct (H m Hm) as (rD & rA & ED & EA & SD & SA).
  exists rD, rA. split; [exact ED|]. split; [exact EA|].
  split; [apply (sr_goal_wall _ _ _ _ _ _ _ SD Hocc)
         | apply (sr_goal_wall _ _ _ _ _ _ _ SA Hocc)].
Qed.

Lemma occupied_goal_no_path_witness :
  wfGrid exGridBlocked /\ occupied exGridBlocked (0, 1) /\
  exists n, forall m, (n <= m)%nat ->
    exists rD rA,
      runDijkstra m exGridBlocked (0, 0) (0, 1) true = Returned rD /\
      runAStar (N := QNum) m exGridBlocked (0, 0) (0, 1) true = Returned rA /\
      path rD = [] /\ path rA = [].
Proof.
  assert (Hwf : wfGrid exGridBlocked) by (apply wfGridb_wfGrid; reflexivity).
  assert (Hocc : occupied exGridBlocked (0, 1))
    by (exists wallCell1; split; reflexivity).
  split; [exact Hwf|]. split; [exact Hocc|].
  exact (occupied_goal_no_path (N := QNum) (L := QNumLaws) exGridBlocked (0, 0) (0, 1)
           true Hwf Hocc).
Defined.

(** From an occupied start Dijkstra and A* return a path of two cells. *)
Lemma occupied_start_counterexample :
  occupied exGridWallStart (0, 0) /\
  runDijkstra 10 exGridWallStart (0, 0) (0, 1) false =
    Returned (mkResult [(0, 0); (0, 1)] [(0, 0); (0, 1)]) /\
  runAStar (N := QNum) 10 exGridWallStart (0, 0) (0, 1) false =
    Returned (mkResult [(0, 0); (0, 1)] [(0, 0); (0, 1)]).
Proof.
  split; [exists wallCell1; split; reflexivity|].
  split; vm_compute; reflexivity.
Qed.

(** ** Unreachable goal *)

(** C7.  On a well-formed grid Dijkstra and A* return, never throw, for
    every start and goal; a run that never pops the goal returns an empty
    path and a non-empty visited sequence; and when no sequence of moves
    leads from the start to the goal, the goal is never popped. *)
Theorem unreachable_goal {N : JSNumber} {L : JSNumberLaws N}
    (grid : Grid) (start goal : coord) (diag : bool) :
  wfGrid grid ->
  exists n, forall m, (n <= m)%nat ->
    exists rD rA,
      runDijkstra m grid start goal diag = Returned rD /\
      runAStar m grid start goal diag = Returned rA /\
      ((goal ∉ visited rD) -> path rD = [] /\ visited rD <> []) /\
      ((goal ∉ visited rA) -> path rA = [] /\ visited rA <> []) /\
      ((forall c, ~ reach grid (gridRows grid) (gridCols grid) diag start goal c) ->
       (goal ∉ visited rD) /\ (goal ∉ visited rA)).
Proof.
  intros Hwf.
  destruct (searches_return grid start goal diag Hwf) as [n H].
  exists n. intros m Hm.
  destruct (H m Hm) as (rD & rA & ED & EA & SD & SA).
  exists rD, rA. split; [exact ED|]. split; [exact EA|].
  assert (Hgen : forall r,
            searchResult grid (gridRows grid) (gridCols grid) diag start goal r ->
            goal ∉ visited r -> path r = [] /\ visited r <> []).
  { intros r S Hg. split.
    - destruct (path r) as [|v p] eqn:E; [reflexivity|].
      exfalso. apply Hg. apply (sr_goal_visited _ _ _ _ _ _ _ S).
      rewrite E. discriminate.
    - pose proof (sr_visited _ _ _ _ _ _ _ S) as Hh. intros E.
      rewrite E in Hh. discriminate Hh. }
  split; [apply Hgen, SD|]. split; [apply Hgen, SA|].
  intros Hno. split; intros Hin.
  - destruct (sr_reach _ _ _ _ _ _ _ SD goal Hin) as [c Hc]. exact (Hno c Hc).
  - destruct (sr_reach _ _ _ _ _ _ _ SA goal Hin) as [c Hc]. exact (Hno c Hc).
Qed.

Lemma unreachable_goal_witness :
  wfGrid exGridBlocked /\
  exists n, forall m, (n <= m)%nat ->
    exists rD rA,
      runDijkstra m exGridBlocked (0, 0) (0, 2) false = Returned rD /\
      runAStar (N := QNum) m exGridBlocked (0, 0) (0, 2) false = Returned rA /\
      (((0, 2) ∉ visited rD) -> path rD = [] /\ visited rD <> []) /\
      (((0, 2) ∉ visited rA) -> path rA = [] /\ visited rA <> []) /\
      ((forall c, ~ reach exGridBlocked (gridRows exGridBlocked)
                      (gridCols exGridBlocked) false (0, 0) (0, 2) c) ->
       ((0, 2) ∉ visited rD) /\ ((0, 2) ∉ visited rA)).
Proof.
  assert (Hwf : wfGrid exGridBlocked) by (apply wfGridb_wfGrid; reflexivity).
  split; [exact Hwf|].
  exact (unreachable_goal (N := QNum) (L := QNumLaws) exGridBlocked (0, 0) (0, 2)
           false Hwf).
Defined.

(** ** The collision check *)



(** ** Acyclic parent links *)

(** C10.  After any number of iterations of the RRT* loop on a well-formed
    grid, every node but the root has a parent in the tree whose stored
    cost is not above its own, and the walk along the parent links from
    any node ends, at the start; and the whole planner, the final parent
    walk included, returns. *)
Theorem parent_links_acyclic {N : JSNumber} {L : JSNumberLaws N}
    (rand : nat -> num) (grid : Grid) (start goal : coord)
    (its : nat) (rad stp gb : num) (opts : RRTOpts) :
  wfGrid grid ->
  (exists st,
     settles (fun m => rrtLoop rand grid (gridRows grid) (gridCols grid)
                         its m goal rad stp gb (rrtStart start)) st /\
     (exists root,
        r_nodes st !! 0%nat = Some root /\ n_parent root = -1 /\ pos root = start) /\
     (forall k nd, (0 < k)%nat -> r_nodes st !! k = Some nd ->
        exists p pn,
          n_parent nd = Z.of_nat p /\ r_nodes st !! p = Some pn /\
          nleq (n_cost pn) (n_cost nd) = true) /\
     (forall k nd, r_nodes st !! k = Some nd ->
        exists l,
          settles (fun m => parentWalk m (r_nodes st) (Z.of_nat k)) l /\
          head l = Some (pos nd) /\ last l = Some start)) /\
  (exists r, settles (fun m => runRRTStar rand m grid start goal opts) r).
Proof.
  intros Hwf. split.
  - destruct (rrtRun_settles rand grid start Hwf its goal rad stp gb) as (st & Hs & HI).
    exists st. split; [exact Hs|].
    destruct (s_tree _ _ _ _ _ _ HI) as [stamp HT].
    split.
    { eexists. split; [apply (t_root _ _ _ _ _ _ HT)|].
      split; [reflexivity | by destruct start]. }
    split.
    + intros k nd Hk Hnd.
      destruct (t_parent _ _ _ _ _ _ HT k nd Hk Hnd) as (p & pn & Hp & Hpn & _ & Hle & _).
      exists p, pn. auto.
    + intros k nd Hnd.
      destruct (parentWalk_settles _ _ _ _ _ _ k nd HT Hnd) as (l & Hl & Hh & Hlast & _).
      exists l. auto.
  - destruct (runRRTStar_result rand grid start Hwf goal opts) as (r & Hr & _).
    exists r. exact Hr.
Qed.

Lemma parent_links_acyclic_witness :
  wfGrid exGridRow8 /\
  exists r,
    settles (fun m => runRRTStar (N := QNum) randRow8 m exGridRow8 (0, 0) (0, 7) noOpts) r.
Proof.
  assert (Hwf : wfGrid exGridRow8) by (apply wfGridb_wfGrid; reflexivity).
  split; [exact Hwf|].
  exact (proj2 (parent_links_acyclic (N := QNum) (L := QNumLaws) randRow8 exGridRow8
                  (0, 0) (0, 7) 3 1%Q 2%Q (Qmake 8 100) noOpts Hwf)).
Defined.

(** * Further properties of the code *)

(** ** MinHeap as a priority queue *)

Lemma pushAll_snoc l x : pushAll (l ++ [x]) = push Z.leb x (pushAll l).
Proof. unfold pushAll. by rewrite fold_left_app. Qed.

Lemma pushAll_ordered l : heapOrdered (pushAll l).
Proof.
  induction l as [|x l IH] using rev_ind; [apply heapOrdered_nil|].
  rewrite pushAll_snoc. by apply push_ordered.
Qed.

Lemma pushAll_perm l : pushAll l ≡ₚ l.
Proof.
  induction l as [|x l IH] using rev_ind; [done|].
  rewrite pushAll_snoc, push_perm, IH. by rewrite Permutation_app_comm.
Qed.

Lemma popAll_sorted a n :
  heapOrdered a -> (length a <= n)%nat ->
  popAll n a ≡ₚ a /\ Sorted prioLe (popAll n a).
Proof.
  revert a. induction n as [|n IH]; intros a Ha Hn.
  { destruct a; [|simpl in Hn; lia]. split; [done|constructor]. }
  simpl. destruct (pop Z.ltb a) as [[top a']|] eqn:Hpop.
  - pose proof (pop_perm _ _ _ _ Hpop) as Hperm.
    pose proof (pop_ordered _ _ _ Ha Hpop) as Ha'.
    pose proof (pop_min _ _ _ Ha Hpop) as Hmin.
    assert (Hlen : (length a' <= n)%nat).
    { apply Permutation_length in Hperm. simpl in Hperm. lia. }
    destruct (IH a' Ha' Hlen) as [Hp Hs].
    split; [by rewrite Hp, Hperm|].
    constructor; [done|].
    assert (Hall : Forall (prioLe top) (popAll n a')).
    { apply Forall_forall. intros e He. apply Hmin.
      rewrite Hperm. apply elem_of_cons. right. by rewrite <- Hp. }
    destruct Hall; constructor; done.
  - apply pop_None in Hpop. subst a. split; [done|constructor].
Qed.

(** X1.  [push] on a heap that is ordered gives a heap that is ordered,
    one entry longer, and holding the entries it held before together with
    the new one. *)
Theorem heap_push (x : entry Z) (a : list (entry Z)) :
  heapOrdered a ->
  heapOrdered (push Z.leb x a) /\
  push Z.leb x a ≡ₚ x :: a /\
  length (push Z.leb x a) = S (length a).
Proof.
  intros Ha. split; [by apply push_ordered|].
  split; [apply push_perm|].
  by rewrite (Permutation_length (push_perm Z.leb x a)).
Qed.

Lemma heap_push_witness :
  heapOrdered (pushAll [mkEntry 5 (0, 0); mkEntry 3 (0, 1)]) /\
  heapOrdered (push Z.leb (mkEntry 1 (1, 1))
                 (pushAll [mkEntry 5 (0, 0); mkEntry 3 (0, 1)])) /\
  push Z.leb (mkEntry 1 (1, 1)) (pushAll [mkEntry 5 (0, 0); mkEntry 3 (0, 1)])
    ≡ₚ mkEntry 1 (1, 1) :: pushAll [mkEntry 5 (0, 0); mkEntry 3 (0, 1)] /\
  length (push Z.leb (mkEntry 1 (1, 1))
            (pushAll [mkEntry 5 (0, 0); mkEntry 3 (0, 1)])) =
    S (length (pushAll [mkEntry 5 (0, 0); mkEntry 3 (0, 1)])).
Proof.
  assert (H : heapOrdered (pushAll [mkEntry 5 (0, 0); mkEntry 3 (0, 1)]))
    by apply pushAll_ordered.
  split; [exact H|].
  exact (heap_push (mkEntry 1 (1, 1)) (pushAll [mkEntry 5 (0, 0); mkEntry 3 (0, 1)]) H).
Defined.

(** X2.  [pop] returns [null] exactly on the empty heap.  On an ordered
    heap that is not empty it returns an entry of least priority and
    leaves an ordered heap holding the other entries. *)
Theorem heap_pop (a : list (entry Z)) :
  heapOrdered a ->
  (pop Z.ltb a = None <-> a = []) /\
  (a <> [] ->
   exists top a',
     pop Z.ltb a = Some (top, a') /\
     (forall e, e ∈ a -> prio top <= prio e) /\
     a ≡ₚ top :: a' /\
     heapOrdered a').
Proof.
  intros Ha. split; [apply pop_None|].
  intros Hne. destruct (pop Z.ltb a) as [[top a']|] eqn:Hpop.
  - exists top, a'. split; [done|].
    split; [by eapply pop_min|].
    split; [by eapply pop_perm | by eapply pop_ordered].
  - by apply pop_None in Hpop.
Qed.

Lemma heap_pop_witness :
  heapOrdered (pushAll [mkEntry 5 (0, 0); mkEntry 3 (0, 1)]) /\
  exists top a',
    pop Z.ltb (pushAll [mkEntry 5 (0, 0); mkEntry 3 (0, 1)]) = Some (top, a') /\
    (forall e, e ∈ pushAll [mkEntry 5 (0, 0); mkEntry 3 (0, 1)] -> prio top <= prio e) /\
    pushAll [mkEntry 5 (0, 0); mkEntry 3 (0, 1)] ≡ₚ top :: a' /\
    heapOrdered a'.
Proof.
  assert (H : heapOrdered (pushAll [mkEntry 5 (0, 0); mkEntry 3 (0, 1)]))
    by apply pushAll_ordered.
  split; [exact H|].
  apply (proj2 (heap_pop (pushAll [mkEntry 5 (0, 0); mkEntry 3 (0, 1)]) H)).
  vm_compute. discriminate.
Defined.

(** X3.  Pushing any entries onto an empty heap and popping until the heap
    is empty returns the same entries in order of non-decreasing
    priority. *)
Theorem heap_sorts (l : list (entry Z)) :
  popAll (length l) (pushAll l) ≡ₚ l /\
  Sorted prioLe (popAll (length l) (pushAll l)).
Proof.
  destruct (popAll_sorted (pushAll l) (length l)) as [Hp Hs].
  - apply pushAll_ordered.
  - by rewrite (Permutation_length (pushAll_perm l)).
  - split; [by rewrite Hp, pushAll_perm | done].
Qed.

(** ** Neighbours and distances *)

Lemma NoDup_omap_inj {A B : Type} (f : A -> option B) (l : list A) :
  (forall x y z, f x = Some z -> f y = Some z -> x = y) ->
  NoDup l -> NoDup (omap f l).
Proof.
  intros Hinj. induction 1 as [|a l Ha Hl IH]; simpl; [constructor|].
  destruct (f a) as [b|] eqn:E; [|done].
  constructor; [|done].
  intros (y & Hy & Hfy)%list_elem_of_omap.
  by rewrite (Hinj _ _ _ E Hfy) in Ha.
Qed.

Lemma omap_length_le {A B : Type} (f : A -> option B) (l : list A) :
  (length (omap f l) <= length l)%nat.
Proof.
  induction l as [|a l IH]; [done|]. cbn. destruct (f a); cbn; fold (omap f l); lia.
Qed.

Lemma neighbors_elem r c rows cols diag v :
  v ∈ neighbors r c rows cols diag <->
  exists d, d ∈ (if diag then DIRS8 else DIRS4) /\
            v = (r + fst d, c + snd d) /\
            inBounds (fst v) (snd v) rows cols = true.
Proof.
  unfold neighbors. rewrite list_elem_of_omap. split.
  - intros (d & Hd & Hv). exists d. split; [done|].
    destruct (inBounds _ _ _ _) eqn:E; [|done]. by simplify_eq.
  - intros (d & Hd & -> & Hb). exists d. split; [done|]. simpl in Hb. by rewrite Hb.
Qed.

Lemma DIRS4_elem d : d ∈ DIRS4 <-> Z.abs (fst d) + Z.abs (snd d) = 1.
Proof.
  unfold DIRS4. rewrite !elem_of_cons, elem_of_nil. destruct d as [a b]. simpl. split.
  - intros [H|[H|[H|[H|[]]]]]; simplify_eq; reflexivity.
  - intros H.
    assert ((a = 1 /\ b = 0) \/ (a = -1 /\ b = 0) \/ (a = 0 /\ b = 1) \/ (a = 0 /\ b = -1))
      as Hc by lia.
    destruct Hc as [[? ?]|[[? ?]|[[? ?]|[? ?]]]]; subst; auto.
Qed.

Lemma DIRS8_elem d : d ∈ DIRS8 <-> Z.max (Z.abs (fst d)) (Z.abs (snd d)) = 1.
Proof.
  unfold DIRS8, DIRS4. rewrite elem_of_app, !elem_of_cons, !elem_of_nil.
  destruct d as [a b]. simpl. split.
  - intros [[H|[H|[H|[H|[]]]]]|[H|[H|[H|[H|[]]]]]]; simplify_eq; reflexivity.
  - intros H.
    assert ((a = 1 \/ a = 0 \/ a = -1) /\ (b = 1 \/ b = 0 \/ b = -1) /\ ~ (a = 0 /\ b = 0))
      as Hc by lia.
    destruct Hc as ([?|[?|?]] & [?|[?|?]] & Hn); subst; auto 10.
Qed.

Lemma neighbors_char r c rows cols diag v :
  v ∈ neighbors r c rows cols diag <->
  inBounds (fst v) (snd v) rows cols = true /\
  (if diag then chebyshev v (r, c) else manhattan v (r, c)) = 1.
Proof.
  rewrite neighbors_elem. unfold chebyshev, manhattan. simpl. split.
  - intros (d & Hd & -> & Hb). split; [done|]. simpl.
    destruct diag; [apply DIRS8_elem in Hd|apply DIRS4_elem in Hd].
    all: replace (r + fst d - r) with (fst d) by lia;
         replace (c + snd d - c) with (snd d) by lia; done.
  - intros (Hb & Hd). exists (fst v - r, snd v - c). simpl.
    split; [|split; [destruct v; simpl; f_equal; lia|done]].
    destruct diag; [apply DIRS8_elem|apply DIRS4_elem]; done.
Qed.

(** X4.  [neighbors(r, c, rows, cols, diag)] lists exactly the cells in
    bounds that are one step away from [(r, c)]: at Manhattan distance 1
    without diagonals, at Chebyshev distance 1 with them.  No cell is
    listed twice, so there are at most four, respectively eight. *)
Theorem neighbors_spec (r c rows cols : Z) (diag : bool) :
  (forall v,
     v ∈ neighbors r c rows cols diag <->
     inBounds (fst v) (snd v) rows cols = true /\
     (if diag then chebyshev v (r, c) else manhattan v (r, c)) = 1) /\
  NoDup (neighbors r c rows cols diag) /\
  (length (neighbors r c rows cols diag) <= (if diag then 8 else 4))%nat.
Proof.
  split; [|split].
  - intros v. apply neighbors_char.
  - unfold neighbors.
    assert (Hinj : forall dirs : list (Z * Z), NoDup dirs ->
              NoDup (omap (fun d : Z * Z =>
                             if inBounds (r + fst d) (c + snd d) rows cols
                             then Some (r + fst d, c + snd d) else None) dirs)).
    { intros dirs Hnd. apply NoDup_omap_inj; [|done].
      intros d1 d2 y H1 H2.
      destruct (inBounds (r + fst d1) _ _ _); [|done].
      destruct (inBounds (r + fst d2) _ _ _); [|done].
      simplify_eq. destruct d1, d2; simpl in *. f_equal; lia. }
    apply Hinj. destruct diag; unfold DIRS8, DIRS4; simpl.
    all: repeat (apply NoDup_cons; split;
                 [rewrite ?elem_of_cons, elem_of_nil; intros H;
                  repeat (destruct H as [H|H]; [discriminate H|]); done|]).
    all: apply NoDup_nil; done.
  - unfold neighbors. etransitivity; [apply omap_length_le|].
    destruct diag; simpl; lia.
Qed.

(** X5.  Being a neighbour is symmetric between cells in bounds: the
    searches work on an undirected grid graph. *)
Theorem neighbors_symmetric (u v : coord) (rows cols : Z) (diag : bool) :
  inBounds (fst u) (snd u) rows cols = true ->
  v ∈ neighbors (fst u) (snd u) rows cols diag ->
  u ∈ neighbors (fst v) (snd v) rows cols diag.
Proof.
  intros Hu Hv.
  apply neighbors_char in Hv as [Hb Hd]. apply neighbors_char. split; [done|].
  unfold chebyshev, manhattan in *. simpl in *. destruct diag; lia.
Qed.

Lemma neighbors_symmetric_witness :
  inBounds (fst (1, 1)) (snd (1, 1)) 3 3 = true /\
  (1, 2) ∈ neighbors (fst (1, 1)) (snd (1, 1)) 3 3 false /\
  (1, 1) ∈ neighbors (fst (1, 2)) (snd (1, 2)) 3 3 false.
Proof.
  assert (H1 : inBounds (fst (1, 1)) (snd (1, 1)) 3 3 = true) by reflexivity.
  assert (H2 : (1, 2) ∈ neighbors (fst (1, 1)) (snd (1, 1)) 3 3 false).
  { vm_compute. apply elem_of_cons. right. apply elem_of_cons. right.
    apply elem_of_cons. by left. }
  split; [exact H1|]. split; [exact H2|].
  exact (neighbors_symmetric (1, 1) (1, 2) 3 3 false H1 H2).
Defined.

Lemma reach_lower_bound hfun grid rows cols diag start goal c :
  consistent hfun grid rows cols diag ->
  reach grid rows cols diag start goal c ->
  hfun start <= c + hfun goal.
Proof.
  intros Hc. induction 1 as [|u v c Hr IH He]; [lia|].
  specialize (Hc u v He). lia.
Qed.

Lemma chebyshev_consistent grid rows cols goal diag :
  posWeights grid ->
  consistent (fun a => chebyshev a goal) grid rows cols diag.
Proof.
  intros Hpos u v [Hadj Hpass].
  pose proof (enterCost_pos grid v Hpos) as Hw.
  apply neighbors_char in Hadj as [_ Hd].
  unfold chebyshev, manhattan in *. simpl in *. destruct diag; lia.
Qed.

(** X6.  On a grid whose weights are at least 1, no route between two
    cells costs less than their Manhattan distance when diagonal moves are
    off, nor less than their Chebyshev distance when they are on: the
    Manhattan heuristic of [runAStar] never overestimates without
    diagonals. *)
Theorem manhattan_admissible (grid : Grid) (rows cols : Z) (diag : bool)
    (start goal : coord) (c : Z) :
  posWeights grid ->
  reach grid rows cols diag start goal c ->
  chebyshev start goal <= c /\
  (diag = false -> manhattan start goal <= c).
Proof.
  intros Hpos Hr. split.
  - pose proof (reach_lower_bound _ _ _ _ _ _ _ _
                  (chebyshev_consistent grid rows cols goal diag Hpos) Hr) as H.
    simpl in H. unfold chebyshev in *. lia.
  - intros ->.
    pose proof (reach_lower_bound _ _ _ _ _ _ _ _
                  (manhattan_consistent grid rows cols goal Hpos) Hr) as H.
    simpl in H. unfold manhattan in *. lia.
Qed.

Lemma manhattan_admissible_witness :
  posWeights exGrid2x2 /\
  reach exGrid2x2 2 2 false (0, 0) (0, 1) (0 + enterCost exGrid2x2 (0, 1)) /\
  chebyshev (0, 0) (0, 1) <= 0 + enterCost exGrid2x2 (0, 1) /\
  (false = false -> manhattan (0, 0) (0, 1) <= 0 + enterCost exGrid2x2 (0, 1)).
Proof.
  assert (Hpos : posWeights exGrid2x2)
    by (apply (wfGridb_wfGrid exGrid2x2); reflexivity).
  assert (Hr : reach exGrid2x2 2 2 false (0, 0) (0, 1) (0 + enterCost exGrid2x2 (0, 1))).
  { apply (reach_step _ _ _ _ _ (0, 0)); [constructor|]. split.
    - unfold adjacent. vm_compute.
      apply elem_of_cons. right. apply elem_of_cons. by left.
    - exists freeCell1. split; reflexivity. }
  split; [exact Hpos|]. split; [exact Hr|].
  exact (manhattan_admissible exGrid2x2 2 2 false (0, 0) (0, 1) _ Hpos Hr).
Defined.

(** ** What the searches return *)

Lemma reach_cost grid rows cols diag s v c :
  posWeights grid -> reach grid rows cols diag s v c ->
  0 <= c /\ (c = 0 -> v = s).
Proof.
  intros Hpos. induction 1 as [|u v c Hr [IH1 IH2] He]; [done|].
  pose proof (enterCost_pos grid v Hpos). lia.
Qed.

Lemma reach_cell grid rows cols diag s v c :
  reach grid rows cols diag s v c ->
  v = s \/ (inBounds (fst v) (snd v) rows cols = true /\ passable grid v).
Proof.
  destruct 1 as [|u v c Hr [Hadj Hp]]; [by left|]. right.
  split; [|done]. by eapply neighbors_inBounds.
Qed.

Lemma cheapest_route grid rows cols diag start goal p c :
  posWeights grid -> start <> goal ->
  cheapest grid rows cols diag start goal p ->
  reach grid rows cols diag start goal c ->
  p <> [] /\ pathCost grid p <= c.
Proof.
  intros Hpos Hne [[Hr Hm]|[-> Hno]] Hc; [|destruct (Hno c Hc)].
  split; [|by apply Hm].
  intros ->. simpl in Hr. apply (reach_cost _ _ _ _ _ _ _ Hpos) in Hr as [_ Hr].
  by specialize (Hr eq_refl).
Qed.

(** X7.  On a well-formed grid, with or without diagonals and with any
    walls, whose weights are so small that the largest of them times the
    number of cells plus one stays below 2^53, [runDijkstra] returns; when
    no route leads from the start to the goal the path is empty, and when
    one does (the goal not being the start) the path runs from the start
    to the goal by moves to adjacent cells that are not walls and costs no
    more than any route. *)
Theorem dijkstra_shortest (grid : Grid) (start goal : coord) (diag : bool) :
  wfGrid grid -> sumBound grid < 2 ^ 53 ->
  exists n, forall m, (n <= m)%nat ->
    exists r,
      runDijkstra m grid start goal diag = Returned r /\
      ((forall c, ~ reach grid (gridRows grid) (gridCols grid) diag start goal c) ->
       path r = []) /\
      (start <> goal ->
       forall c, reach grid (gridRows grid) (gridCols grid) diag start goal c ->
         head (path r) = Some start /\ last (path r) = Some goal /\
         linked (edge grid (gridRows grid) (gridCols grid) diag) (path r) /\
         pathCost grid (path r) <= c).
Proof.
  intros Hwf Hb.
  destruct (runDijkstra_result grid start goal diag Hwf) as [n H].
  exists n. intros m Hm. destruct (H m Hm) as (r & E & S).
  exists r. split; [exact E|].
  pose proof (dijkstra_cheapest m grid start goal diag r Hwf Hb E) as Hch.
  destruct Hwf as (Hne & Hrect & Hpos).
  split.
  - intros Hno. destruct Hch as [[Hr _]|[? _]]; [destruct (Hno _ Hr)|done].
  - intros Hsg c Hc.
    destruct (cheapest_route _ _ _ _ _ _ _ _ Hpos Hsg Hch Hc) as [Hp Hle].
    destruct (sr_ends _ _ _ _ _ _ _ S) as [?|[Hh Hl]]; [done|].
    split; [done|]. split; [done|]. split; [apply (sr_linked _ _ _ _ _ _ _ S)|done].
Qed.

Lemma dijkstra_shortest_witness :
  wfGrid exGridBlocked /\ sumBound exGridBlocked < 2 ^ 53 /\
  exists n, forall m, (n <= m)%nat ->
    exists r,
      runDijkstra m exGridBlocked (0, 0) (0, 2) true = Returned r /\
      ((forall c, ~ reach exGridBlocked (gridRows exGridBlocked) (gridCols exGridBlocked)
                      true (0, 0) (0, 2) c) ->
       path r = []) /\
      ((0, 0) <> (0, 2) ->
       forall c, reach exGridBlocked (gridRows exGridBlocked) (gridCols exGridBlocked)
                   true (0, 0) (0, 2) c ->
         head (path r) = Some (0, 0) /\ last (path r) = Some (0, 2) /\
         linked (edge exGridBlocked (gridRows exGridBlocked) (gridCols exGridBlocked) true)
                (path r) /\
         pathCost exGridBlocked (path r) <= c).
Proof.
  assert (Hwf : wfGrid exGridBlocked) by (apply wfGridb_wfGrid; reflexivity).
  assert (Hb : sumBound exGridBlocked < 2 ^ 53) by (vm_compute; reflexivity).
  split; [exact Hwf|]. split; [exact Hb|].
  exact (dijkstra_shortest exGridBlocked (0, 0) (0, 2) true Hwf Hb).
Defined.



(** X9.  Every cell in the visited sequence of [runDijkstra] or of
    [runAStar] can be reached from the start; apart from the start itself
    it is in bounds and not a wall. *)
Theorem visited_reachable {N : JSNumber} {L : JSNumberLaws N}
    (grid : Grid) (start goal : coord) (diag : bool) :
  wfGrid grid ->
  exists n, forall m, (n <= m)%nat ->
    exists rD rA,
      runDijkstra m grid start goal diag = Returned rD /\
      runAStar m grid start goal diag = Returned rA /\
      forall v, v ∈ visited rD \/ v ∈ visited rA ->
        (exists c, reach grid (gridRows grid) (gridCols grid) diag start v c) /\
        (v = start \/
         (inBounds (fst v) (snd v) (gridRows grid) (gridCols grid) = true /\
          passable grid v)).
Proof.
  intros Hwf.
  destruct (searches_return grid start goal diag Hwf) as [n H].
  exists n. intros m Hm. destruct (H m Hm) as (rD & rA & ED & EA & SD & SA).
  exists rD, rA. split; [exact ED|]. split; [exact EA|].
  intros v Hv.
  assert (Hr : exists c, reach grid (gridRows grid) (gridCols grid) diag start v c).
  { destruct Hv as [Hv|Hv];
      [apply (sr_reach _ _ _ _ _ _ _ SD v Hv) | apply (sr_reach _ _ _ _ _ _ _ SA v Hv)]. }
  split; [exact Hr|]. destruct Hr as [c Hc]. by eapply reach_cell.
Qed.

Lemma visited_reachable_witness :
  wfGrid exGridBlocked /\
  exists n, forall m, (n <= m)%nat ->
    exists rD rA,
      runDijkstra m exGridBlocked (0, 0) (0, 2) true = Returned rD /\
      runAStar (N := QNum) m exGridBlocked (0, 0) (0, 2) true = Returned rA /\
      forall v, v ∈ visited rD \/ v ∈ visited rA ->
        (exists c, reach exGridBlocked (gridRows exGridBlocked) (gridCols exGridBlocked)
                     true (0, 0) v c) /\
        (v = (0, 0) \/
         (inBounds (fst v) (snd v) (gridRows exGridBlocked) (gridCols exGridBlocked) = true /\
          passable exGridBlocked v)).
Proof.
  assert (Hwf : wfGrid exGridBlocked) by (apply wfGridb_wfGrid; reflexivity).
  split; [exact Hwf|].
  exact (visited_reachable (N := QNum) (L := QNumLaws) exGridBlocked (0, 0) (0, 2) true Hwf).
Defined.

(** X10.  On a well-formed grid whose sums stay below 2^53,
    [runDijkstra] visits no cell twice, so never more than
    [rows * cols + 1] cells; it visits the cells in order of
    non-decreasing least cost from the start; and every cell of the path
    it returns has been visited. *)
Theorem dijkstra_visits (grid : Grid) (start goal : coord) (diag : bool)
    (m : nat) (r : PlanningResult) :
  wfGrid grid -> sumBound grid < 2 ^ 53 ->
  runDijkstra m grid start goal diag = Returned r ->
  NoDup (visited r) /\
  (length (visited r) <= 1 + length grid * Z.to_nat (gridCols grid))%nat /\
  (forall v, v ∈ path r -> v ∈ visited r) /\
  (forall i j u v du dv, (i <= j)%nat ->
     visited r !! i = Some u -> visited r !! j = Some v ->
     shortest grid (gridRows grid) (gridCols grid) diag start u du ->
     shortest grid (gridRows grid) (gridCols grid) diag start v dv ->
     du <= dv).
Proof.
  intros Hwf Hb E. rewrite (runDijkstra_exact _ _ _ _ _ Hwf Hb) in E.
  destruct Hwf as (Hne & Hrect & Hpos).
  pose proof (wfGrid_dims grid Hne) as Hdims.
  destruct (astar_visits (fun _ => 0) grid _ _ goal diag start Hdims Hpos
              (zero_consistent _ _ _ _ Hpos) m r E) as (Hnd & Hin & Hp & Ho).
  split; [done|]. split; [|split; [done|]].
  - pose proof (visited_length_bound _ _ _ _ Hnd Hin) as Hlen.
    unfold gridRows in Hlen. rewrite Nat2Z.id in Hlen. done.
  - intros i j u v du dv Hij Hu Hv Su Sv.
    pose proof (Ho i j u v du dv Hij Hu Hv Su Sv). lia.
Qed.

Lemma dijkstra_visits_witness :
  wfGrid exGrid2x2 /\ sumBound exGrid2x2 < 2 ^ 53 /\
  exists r,
    runDijkstra 20 exGrid2x2 (0, 0) (1, 1) true = Returned r /\
    NoDup (visited r) /\
    (length (visited r) <= 1 + length exGrid2x2 * Z.to_nat (gridCols exGrid2x2))%nat /\
    (forall v, v ∈ path r -> v ∈ visited r) /\
    (forall i j u v du dv, (i <= j)%nat ->
       visited r !! i = Some u -> visited r !! j = Some v ->
       shortest exGrid2x2 (gridRows exGrid2x2) (gridCols exGrid2x2) true (0, 0) u du ->
       shortest exGrid2x2 (gridRows exGrid2x2) (gridCols exGrid2x2) true (0, 0) v dv ->
       du <= dv).
Proof.
  assert (Hwf : wfGrid exGrid2x2) by (apply wfGridb_wfGrid; reflexivity).
  assert (Hb : sumBound exGrid2x2 < 2 ^ 53) by (vm_compute; reflexivity).
  split; [exact Hwf|]. split; [exact Hb|].
  eexists. split; [vm_compute; reflexivity|].
  apply (dijkstra_visits exGrid2x2 (0, 0) (1, 1) true 20 _ Hwf Hb).
  vm_compute; reflexivity.
Defined.

(** X11.  On a well-formed grid whose sums, a bound on the Manhattan
    distances to the goal added, stay below 2^53, [runAStar] without
    diagonals visits no cell twice either, visits the cells in order of
    non-decreasing least cost plus Manhattan distance to the goal, and
    returns a path of visited cells. *)
Theorem astar_visits4 {N : JSNumber} (grid : Grid) (start goal : coord)
    (m : nat) (r : PlanningResult) :
  wfGrid grid -> sumBound grid + heurBound grid goal < 2 ^ 53 ->
  runAStar m grid start goal false = Returned r ->
  NoDup (visited r) /\
  (length (visited r) <= 1 + length grid * Z.to_nat (gridCols grid))%nat /\
  (forall v, v ∈ path r -> v ∈ visited r) /\
  (forall i j u v du dv, (i <= j)%nat ->
     visited r !! i = Some u -> visited r !! j = Some v ->
     shortest grid (gridRows grid) (gridCols grid) false start u du ->
     shortest grid (gridRows grid) (gridCols grid) false start v dv ->
     du + manhattan u goal <= dv + manhattan v goal).
Proof.
  intros Hwf Hb E. rewrite (runAStar4_exact _ _ _ _ Hwf Hb) in E.
  destruct Hwf as (Hne & Hrect & Hpos).
  pose proof (wfGrid_dims grid Hne) as Hdims.
  destruct (astar_visits (fun a => manhattan a goal) grid _ _ goal false start Hdims Hpos
              (manhattan_consistent _ _ _ _ Hpos) m r E) as (Hnd & Hin & Hp & Ho).
  split; [done|]. split; [|split; [done|done]].
  pose proof (visited_length_bound _ _ _ _ Hnd Hin) as Hlen.
  unfold gridRows in Hlen. rewrite Nat2Z.id in Hlen. done.
Qed.

Lemma astar_visits4_witness :
  wfGrid exGrid2x2 /\ sumBound exGrid2x2 + heurBound exGrid2x2 (1, 1) < 2 ^ 53 /\
  exists r,
    runAStar (N := QNum) 20 exGrid2x2 (0, 0) (1, 1) false = Returned r /\
    NoDup (visited r) /\
    (length (visited r) <= 1 + length exGrid2x2 * Z.to_nat (gridCols exGrid2x2))%nat /\
    (forall v, v ∈ path r -> v ∈ visited r) /\
    (forall i j u v du dv, (i <= j)%nat ->
       visited r !! i = Some u -> visited r !! j = Some v ->
       shortest exGrid2x2 (gridRows exGrid2x2) (gridCols exGrid2x2) false (0, 0) u du ->
       shortest exGrid2x2 (gridRows exGrid2x2) (gridCols exGrid2x2) false (0, 0) v dv ->
       du + manhattan u (1, 1) <= dv + manhattan v (1, 1)).
Proof.
  assert (Hwf : wfGrid exGrid2x2) by (apply wfGridb_wfGrid; reflexivity).
  assert (Hb : sumBound exGrid2x2 + heurBound exGrid2x2 (1, 1) < 2 ^ 53)
    by (vm_compute; reflexivity).
  split; [exact Hwf|]. split; [exact Hb|].
  eexists. split; [vm_compute; reflexivity|].
  apply (astar_visits4 (N := QNum) exGrid2x2 (0, 0) (1, 1) 20 _ Hwf Hb).
  vm_compute; reflexivity.
Defined.

(** ** reconstruct *)

Lemma chain_spec n came v l :
  chain n came (Some v) = Some l ->
  head l = Some v /\
  linked (fun x y => came !! x = Some y) l /\
  exists t, last l = Some t /\ came !! t = None.
Proof.
  revert v l. induction n as [|n IH]; intros v l; [done|]. simpl.
  destruct (came !! v) as [u|] eqn:Hu.
  - destruct (chain n came (Some u)) as [l'|] eqn:Hl'; [|done].
    simpl. intros [= <-]. destruct (IH u l' Hl') as (Hh & Hlk & t & Ht & Hn).
    split; [done|]. destruct l' as [|u' l']; [done|]. simpl in Hh. simplify_eq.
    split; [by apply linked_cons|]. exists t. split; [|done].
    by rewrite last_cons, Ht.
  - destruct n; simpl; intros [= <-]; (split; [done|]); (split; [done|]); eauto.
Qed.

Lemma chain_loop n came v : came !! v = Some v -> chain n came (Some v) = None.
Proof.
  intros Hv. induction n as [|n IH]; [done|]. simpl. by rewrite Hv, IH.
Qed.

(** X12.  [reconstruct] returns the empty path when the goal key has no
    predecessor.  Otherwise the path it returns ends with the goal,
    begins with a key that has no predecessor, and each key in it is
    preceded by its predecessor in [cameFrom].  On a key that is its own
    predecessor the loop never ends. *)
Theorem reconstruct_spec (fuel : nat) (cameFrom : gmap coord coord)
    (gkey : coord) (p : list coord) :
  reconstruct fuel cameFrom gkey = Returned p ->
  (cameFrom !! gkey = None -> p = []) /\
  (is_Some (cameFrom !! gkey) ->
   last p = Some gkey /\
   (exists h, head p = Some h /\ cameFrom !! h = None) /\
   linked (fun u v => cameFrom !! v = Some u) p) /\
  (forall k n, cameFrom !! k = Some k -> reconstruct n cameFrom k = OutOfFuel).
Proof.
  intros Hrec. split; [|split].
  - unfold reconstruct in Hrec. intros Hn. rewrite Hn in Hrec. by simplify_eq.
  - intros [u Hu]. unfold reconstruct in Hrec. rewrite Hu in Hrec.
    destruct (chain fuel cameFrom (Some gkey)) as [l|] eqn:Hl; [|done].
    simplify_eq. destruct (chain_spec _ _ _ _ Hl) as (Hh & Hlk & t & Ht & Hn).
    split; [by rewrite last_reverse|].
    split; [exists t; by rewrite head_reverse|].
    by apply linked_reverse.
  - intros k n Hk. unfold reconstruct. by rewrite Hk, chain_loop.
Qed.

Lemma reconstruct_spec_witness :
  reconstruct 5 {[ (0, 2) := (0, 1) ]} (0, 2) = Returned [(0, 1); (0, 2)] /\
  (({[ (0, 2) := (0, 1) ]} : gmap coord coord) !! (0, 2) = None ->
   [(0, 1); (0, 2)] = ([] : list coord)) /\
  (is_Some (({[ (0, 2) := (0, 1) ]} : gmap coord coord) !! (0, 2)) ->
   last [(0, 1); (0, 2)] = Some (0, 2) /\
   (exists h, head [(0, 1); (0, 2)] = Some h /\
              ({[ (0, 2) := (0, 1) ]} : gmap coord coord) !! h = None) /\
   linked (fun u v => ({[ (0, 2) := (0, 1) ]} : gmap coord coord) !! v = Some u)
          [(0, 1); (0, 2)]) /\
  (forall k n, ({[ (0, 2) := (0, 1) ]} : gmap coord coord) !! k = Some k ->
               reconstruct n {[ (0, 2) := (0, 1) ]} k = OutOfFuel).
Proof.
  assert (E : reconstruct 5 {[ (0, 2) := (0, 1) ]} (0, 2) = Returned [(0, 1); (0, 2)])
    by (vm_compute; reflexivity).
  split; [exact E|].
  exact (reconstruct_spec 5 {[ (0, 2) := (0, 1) ]} (0, 2) [(0, 1); (0, 2)] E).
Defined.

(** ** The tree grown by runRRTStar *)

Section TreeShape.
Context {N : JSNumber}.
Variable rand : nat -> num.
Variable grid : Grid.
Variables rows cols : Z.

Local Abbreviation free := (freeCell grid rows cols).

Lemma isFree_true r c : isFree grid rows cols r c = Returned true -> free (r, c) = true.
Proof.
  unfold isFree, freeCell. simpl. destruct (inBounds r c rows cols); [|done].
  destruct (cellAt grid r c); [|done]. by intros [= ->].
Qed.

Lemma rewireOne_pos fuel rad nd newIndex nodes j nodes' :
  rewireOne grid rows cols fuel rad nd newIndex nodes j = Returned nodes' ->
  pos <$> nodes' = pos <$> nodes.
Proof.
  intros [->|(nbh & cell & Hj & _ & _ & _ & ->)]%rewireOne_cases; [done|].
  rewrite list_fmap_insert. apply list_insert_id.
  by rewrite list_lookup_fmap, Hj.
Qed.

Lemma rewire_pos fuel rad nd newIndex nodes nodes' :
  rewire grid rows cols fuel rad nd newIndex nodes = Returned nodes' ->
  pos <$> nodes' = pos <$> nodes.
Proof.
  unfold rewire.
  apply (foldOutcome_inv (rewireOne grid rows cols fuel rad nd newIndex)
           (fun ns => pos <$> ns = pos <$> nodes)); [|done].
  intros a j a' _ Ha Hr. rewrite <- Ha. by eapply rewireOne_pos.
Qed.

(** What one iteration does to the visited sequence and to the
    positions of the tree nodes. *)
Lemma rrtIter_visited fuel goal rad stp gb st st' :
  rrtIter rand grid rows cols fuel goal rad stp gb st = Returned st' ->
  (r_visited st' = r_visited st /\ pos <$> r_nodes st' = pos <$> r_nodes st /\
   r_goalIndex st' = r_goalIndex st) \/
  (exists p, free p = true /\ r_visited st' = r_visited st ++ [p] /\
     ((pos <$> r_nodes st' = (pos <$> r_nodes st) ++ [p] /\
       r_goalIndex st' = r_goalIndex st) \/
      (pos <$> r_nodes st' = (pos <$> r_nodes st) ++ [p; goal] /\
       r_goalIndex st' = Z.of_nat (S (length (r_nodes st)))))).
Proof.
  unfold rrtIter. destruct (drawSample _ _ _ _ _ _) as [[smp|] k].
  2:{ intros [= <-]. left. done. }
  destruct (isFree grid rows cols (fst smp) (snd smp)) as [[|]| |]; simpl;
    [|intros [= <-]; by left|done|done].
  destruct (r_nodes st !! nearest (r_nodes st) smp) as [near|]; [|done].
  destruct (steer stp (pos near) smp) as [newPt|]; [|intros [= <-]; by left].
  destruct (isFree grid rows cols (fst newPt) (snd newPt)) as [[|]| |] eqn:Hfn; simpl;
    [|intros [= <-]; by left|done|done].
  apply isFree_true in Hfn.
  assert (free newPt = true) as Hfree by (by destruct newPt).
  destruct (lineFree grid rows cols fuel (pos near) newPt) as [[|]| |]; simpl;
    [|intros [= <-]; by left|done|done].
  destruct (cellAt grid (fst newPt) (snd newPt)) as [cell|]; [|done].
  destruct (rewire _ _ _ _ _ _ _ _) as [nodes'| |] eqn:Hrw; simpl; [|done|done].
  pose proof (rewire_length _ _ _ _ _ _ _ _ _ Hrw) as Hlen.
  apply rewire_pos in Hrw. rewrite fmap_app in Hrw. simpl in Hrw.
  assert (Hp : pos (mkNode (fst newPt) (snd newPt)
                      (Z.of_nat (nearest (r_nodes st) smp))
                      (nadd (n_cost near)
                         (nmul (of_Z (weightOf cell)) (euclid (pos near) newPt))))
               = newPt) by (by destruct newPt).
  rewrite Hp in Hrw.
  rewrite length_app in Hlen. simpl in Hlen.
  destruct (nle _ stp).
  - destruct (lineFree grid rows cols fuel newPt goal) as [[|]| |]; simpl;
      [| |done|done]; intros [= <-]; simpl; right; exists newPt.
    + split; [done|]. split; [done|]. right. split.
      * rewrite fmap_app, Hrw. simpl. rewrite <- app_assoc.
        by destruct goal.
      * f_equal. lia.
    + split; [done|]. split; [done|]. by left.
  - intros [= <-]. simpl. right. exists newPt.
    split; [done|]. split; [done|]. by left.
Qed.

Lemma rrtLoop_visited its fuel start goal rad stp gb st st' l :
  r_goalIndex st = -1 ->
  r_visited st = start :: l -> Forall (fun v => free v = true) l ->
  pos <$> r_nodes st = r_visited st ->
  rrtLoop rand grid rows cols its fuel goal rad stp gb st = Returned st' ->
  exists l',
    r_visited st' = start :: l' /\ Forall (fun v => free v = true) l' /\
    (length l' <= length l + its)%nat /\
    ((r_goalIndex st' = -1 /\ pos <$> r_nodes st' = r_visited st') \/
     (0 <= r_goalIndex st' /\ pos <$> r_nodes st' = r_visited st' ++ [goal])).
Proof.
  revert st l. induction its as [|its IH]; intros st l Hgi Hv Hf Hn; simpl.
  { intros [= <-]. exists l. split; [done|]. split; [done|]. split; [lia|]. by left. }
  destruct (rrtIter _ _ _ _ _ _ _ _ _ _) as [st1| |] eqn:Hit; simpl; [|done|done].
  apply rrtIter_visited in Hit
    as [(Hv1 & Hn1 & Hg1)|(p & Hp & Hv1 & [[Hn1 Hg1]|[Hn1 Hg1]])].
  - rewrite Hg1, Hgi. simpl. intros Hl.
    destruct (IH st1 l) as (l' & ? & ? & ? & ?); try congruence.
    exists l'. repeat split; auto. lia.
  - rewrite Hg1, Hgi. simpl. intros Hl.
    destruct (IH st1 (l ++ [p])) as (l' & ? & ? & Hlen & ?); try congruence.
    + by rewrite Hv1, Hv.
    + apply Forall_app. split; [done|]. by constructor.
    + rewrite length_app in Hlen. simpl in Hlen.
      exists l'. repeat split; auto. lia.
  - rewrite Hg1.
    assert ((Z.of_nat (S (length (r_nodes st))) =? -1) = false) as ->
      by (apply Z.eqb_neq; lia).
    intros [= <-]. exists (l ++ [p]).
    split; [by rewrite Hv1, Hv|].
    split; [apply Forall_app; split; [done|by constructor]|].
    split; [rewrite length_app; simpl; lia|].
    right. split; [lia|]. rewrite Hn1, Hn, Hv1. by rewrite <- app_assoc.
Qed.
End TreeShape.

Lemma parentWalk_elems {N : JSNumber} fuel (nodes : list TreeNode) cur l :
  parentWalk fuel nodes cur = Returned l ->
  forall v, v ∈ l -> v ∈ pos <$> nodes.
Proof.
  revert cur l. induction fuel as [|fuel IH]; intros cur l; simpl.
  { destruct (cur =? -1); [|done]. intros [= <-] v Hv. by apply elem_of_nil in Hv. }
  destruct (cur =? -1); [intros [= <-] v Hv; by apply elem_of_nil in Hv|].
  destruct (0 <=? cur); [|done].
  destruct (nodes !! Z.to_nat cur) as [n|] eqn:Hn; [|done].
  destruct (parentWalk fuel nodes (n_parent n)) as [rest| |] eqn:Hr; simpl; [|done|done].
  intros [= <-] v [->|Hv]%elem_of_cons; [|by eapply IH].
  apply list_elem_of_fmap. exists n. split; [done|]. by eapply list_elem_of_lookup_2.
Qed.

(** X13.  The visited sequence of [runRRTStar] is the start followed by
    the points added to the tree, one for each iteration at most; every
    one of these points is a cell in bounds that is not a wall; and every
    coordinate of the returned path is the goal or a visited cell. *)
Theorem rrt_visited {N : JSNumber} (rand : nat -> num) (m : nat) (grid : Grid)
    (start goal : coord) (opts : RRTOpts) (r : PlanningResult) :
  runRRTStar rand m grid start goal opts = Returned r ->
  exists l,
    visited r = start :: l /\
    Forall (fun v => freeCell grid (gridRows grid) (gridCols grid) v = true) l /\
    (length l <= default 1500%nat (iterations opts))%nat /\
    forall v, v ∈ path r -> v = goal \/ v ∈ visited r.
Proof.
  unfold runRRTStar. destruct grid as [|row0 rest]; [done|].
  simpl dims. cbn [obind fst snd].
  change (Z.of_nat (length (row0 :: rest))) with (gridRows (row0 :: rest)).
  change (Z.of_nat (length row0)) with (gridCols (row0 :: rest)).
  destruct (rrtLoop _ _ _ _ _ _ _ _ _ _ _) as [st| |] eqn:Hloop; simpl; [|done|done].
  apply (rrtLoop_visited _ _ _ _ _ _ start _ _ _ _ _ _ []) in Hloop
    as (l & Hv & Hf & Hlen & Hshape); try done; try (by destruct start).
  destruct Hshape as [[Hg Hn]|[Hg Hn]].
  - rewrite Hg. simpl. intros [= <-]. simpl. exists l.
    repeat split; auto. intros v Hv'. by apply elem_of_nil in Hv'.
  - assert ((r_goalIndex st =? -1) = false) as -> by (apply Z.eqb_neq; lia).
    destruct (parentWalk m (r_nodes st) (r_goalIndex st)) as [p| |] eqn:Hp; simpl;
      [|done|done].
    intros [= <-]. simpl. exists l. repeat split; auto.
    intros v Hv'. rewrite elem_of_reverse in Hv'.
    apply (parentWalk_elems _ _ _ _ Hp) in Hv'. rewrite Hn in Hv'.
    apply elem_of_app in Hv' as [?|Hv'%list_elem_of_singleton]; auto.
Qed.

Lemma rrt_visited_witness :
  runRRTStar (N := QNum) randMiddle 20 exGridRow3 (0, 0) (0, 2) noOpts =
    Returned (mkResult [(0, 0); (0, 1)] [(0, 0); (0, 1); (0, 2)]) /\
  exists l,
    [(0, 0); (0, 1)] = (0, 0) :: l /\
    Forall (fun v => freeCell exGridRow3 (gridRows exGridRow3) (gridCols exGridRow3) v
                     = true) l /\
    (length l <= default 1500%nat (iterations (noOpts (N := QNum))))%nat /\
    forall v, v ∈ [(0, 0); (0, 1); (0, 2)] -> v = (0, 2) \/ v ∈ [(0, 0); (0, 1)].
Proof.
  assert (E : runRRTStar (N := QNum) randMiddle 20 exGridRow3 (0, 0) (0, 2) noOpts =
              Returned (mkResult [(0, 0); (0, 1)] [(0, 0); (0, 1); (0, 2)]))
    by (vm_compute; reflexivity).
  split; [exact E|].
  exact (rrt_visited (N := QNum) randMiddle 20 exGridRow3 (0, 0) (0, 2) noOpts _ E).
Defined.

(** X14.  On a well-formed grid [runRRTStar] returns, for every goal, a
    visited sequence that begins with the start and a path that is either
    empty or runs from the start to the goal through at least one other
    tree node. *)
Theorem rrt_path_shape {N : JSNumber} {L : JSNumberLaws N}
    (rand : nat -> num) (grid : Grid) (start goal : coord) (opts : RRTOpts) :
  wfGrid grid ->
  exists r,
    settles (fun m => runRRTStar rand m grid start goal opts) r /\
    head (visited r) = Some start /\
    (path r = [] \/
     (head (path r) = Some start /\ last (path r) = Some goal /\
      (3 <= length (path r))%nat)).
Proof.
  intros Hwf.
  destruct (runRRTStar_result rand grid start Hwf goal opts) as (r & Hs & HR).
  exists r. split; [exact Hs|].
  split; [apply (rr_visited _ _ _ _ _ _ HR) | apply (rr_shape _ _ _ _ _ _ HR)].
Qed.

Lemma rrt_path_shape_witness :
  wfGrid exGridRow8 /\
  exists r,
    settles (fun m => runRRTStar (N := QNum) randRow8 m exGridRow8 (0, 0) (0, 3) noOpts) r /\
    head (visited r) = Some (0, 0) /\
    (path r = [] \/
     (head (path r) = Some (0, 0) /\ last (path r) = Some (0, 3) /\
      (3 <= length (path r))%nat)).
Proof.
  assert (Hwf : wfGrid exGridRow8) by (apply wfGridb_wfGrid; reflexivity).
  split; [exact Hwf|].
  exact (rrt_path_shape (N := QNum) (L := QNumLaws) randRow8 exGridRow8 (0, 0) (0, 3)
           noOpts Hwf).
Defined.

(** ** nearest *)

Section Nearest.
Context {N : JSNumber}.
Hypothesis Hirr : forall a, nlt a a = false.
Hypothesis Hneg : forall a b c, nlt c b = true -> nlt a b = false -> nlt a c = false.
Hypothesis Hinf : forall a b, nlt a b = true -> nlt_infinity a = true.

Variable nodes : list TreeNode.
Variable pt : coord.

Local Abbreviation dist := (fun nd : TreeNode => euclid pt (pos nd)).

Lemma nearest_fold pre l acc :
  nodes = pre ++ l -> snd acc = length pre -> nearInv nodes pt acc ->
  nearInv nodes pt (fold_left (nearestStep pt) l acc) /\
  snd (fold_left (nearestStep pt) l acc) = length nodes.
Proof.
  revert pre acc. induction l as [|nd l IH]; intros pre acc Hn Hi HI.
  { simpl. split; [done|]. rewrite Hn, app_nil_r. done. }
  cbn [fold_left]. apply (IH (pre ++ [nd])).
  - by rewrite <- app_assoc.
  - destruct acc as [[best bestD] i]. simpl in Hi. subst i.
    rewrite length_app.
    destruct (nearestStep_cases pt best bestD (length pre) nd) as [d' [-> | ->]];
      simpl; lia.
  - destruct acc as [[best bestD] i]. simpl in Hi. subst i.
    assert (Hnd : nodes !! length pre = Some nd).
    { rewrite Hn. by rewrite list_lookup_middle. }
    unfold nearestStep, nearInv in *.
    destruct bestD as [b|]; cbv beta iota zeta in HI |- *.
    + destruct HI as (bn & Hb & -> & Hall).
      destruct (nlt (euclid pt (pos nd)) (euclid pt (pos bn))) eqn:Hlt;
        cbv beta iota zeta.
      * exists nd. split; [done|]. split; [done|].
        intros j nd' Hj Hnd'.
        destruct (decide (j = length pre)) as [->|Hne].
        -- simplify_eq. apply Hirr.
        -- eapply Hneg; [exact Hlt|]. apply (Hall j); [lia|done].
      * exists bn. split; [done|]. split; [done|].
        intros j nd' Hj Hnd'.
        destruct (decide (j = length pre)) as [->|Hne]; [by simplify_eq|].
        apply (Hall j); [lia|done].
    + destruct HI as (-> & Hall).
      destruct (nlt_infinity (euclid pt (pos nd))) eqn:Hlt; cbv beta iota zeta.
      * exists nd. split; [done|]. split; [done|].
        intros j nd' Hj Hnd'.
        destruct (decide (j = length pre)) as [->|Hne].
        -- simplify_eq. apply Hirr.
        -- destruct (nlt (euclid pt (pos nd')) (euclid pt (pos nd))) eqn:E; [|done].
           apply Hinf in E. rewrite (Hall j nd') in E; [done|lia|done].
      * split; [done|]. intros j nd' Hj Hnd'.
        destruct (decide (j = length pre)) as [->|Hne]; [by simplify_eq|].
        apply (Hall j); [lia|done].
Qed.

(** X15.  On a tree that is not empty, [nearest] returns the index of a
    node than which no node of the tree is strictly closer to the
    point. *)
Theorem nearest_closest :
  nodes <> [] ->
  exists best,
    nodes !! nearest nodes pt = Some best /\
    forall j nd, nodes !! j = Some nd -> nlt (dist nd) (dist best) = false.
Proof.
  intros Hne. unfold nearest.
  destruct (nearest_fold [] nodes (0%nat, None, 0%nat)) as [HI Hlen]; [done|done| |].
  { simpl. split; [done|]. intros j nd Hj. lia. }
  destruct (fold_left (nearestStep pt) nodes (0%nat, None, 0%nat)) as [[best bestD] i].
  simpl in *. subst i. destruct bestD as [b|].
  - destruct HI as (bn & Hb & -> & Hall). exists bn. split; [done|].
    intros j nd Hnd. apply (Hall j); [|done]. by eapply lookup_lt_Some.
  - destruct HI as (-> & Hall). destruct nodes as [|n0 ns] eqn:E; [done|].
    exists n0. split; [done|]. intros j nd Hnd.
    destruct (nlt (dist nd) (dist n0)) eqn:Hlt; [|done].
    apply Hinf in Hlt. rewrite (Hall j nd) in Hlt; [done| |done].
    by eapply lookup_lt_Some.
Qed.
End Nearest.

Lemma Qlt_bool_irrefl (a : Q) : negb (Qle_bool a a) = false.
Proof. apply negb_false_iff, Qle_bool_iff, Qle_refl. Qed.

Lemma Qlt_bool_neg (a b c : Q) :
  negb (Qle_bool b c) = true -> negb (Qle_bool b a) = false ->
  negb (Qle_bool c a) = false.
Proof.
  rewrite negb_true_iff, !negb_false_iff, !Qle_bool_iff.
  intros H1 H2. apply not_true_iff_false in H1. rewrite Qle_bool_iff in H1.
  apply Qnot_le_lt in H1. eapply Qle_trans; [|exact H2]. by apply Qlt_le_weak.
Qed.

Lemma nearest_closest_witness :
  (forall a : Q, nlt (JSNumber := QNum) a a = false) /\
  (forall a b c : Q, nlt (JSNumber := QNum) c b = true -> nlt (JSNumber := QNum) a b = false ->
                     nlt (JSNumber := QNum) a c = false) /\
  (forall a b : Q, nlt (JSNumber := QNum) a b = true -> nlt_infinity (JSNumber := QNum) a = true) /\
  [mkNode (N := QNum) 0 0 (-1) 0%Q; mkNode 0 3 0 3%Q] <> [] /\
  exists best,
    [mkNode (N := QNum) 0 0 (-1) 0%Q; mkNode 0 3 0 3%Q]
      !! nearest [mkNode (N := QNum) 0 0 (-1) 0%Q; mkNode 0 3 0 3%Q] (0, 2) = Some best /\
    forall j nd,
      [mkNode (N := QNum) 0 0 (-1) 0%Q; mkNode 0 3 0 3%Q] !! j = Some nd ->
      nlt (JSNumber := QNum) (euclid (0, 2) (pos nd)) (euclid (0, 2) (pos best)) = false.
Proof.
  assert (H1 : forall a : Q, nlt (JSNumber := QNum) a a = false) by exact Qlt_bool_irrefl.
  assert (H2 : forall a b c : Q, nlt (JSNumber := QNum) c b = true ->
                 nlt (JSNumber := QNum) a b = false -> nlt (JSNumber := QNum) a c = false)
    by (intros a b c; apply Qlt_bool_neg).
  assert (H3 : forall a b : Q, nlt (JSNumber := QNum) a b = true ->
                 nlt_infinity (JSNumber := QNum) a = true) by reflexivity.
  assert (H4 : [mkNode (N := QNum) 0 0 (-1) 0%Q; mkNode 0 3 0 3%Q] <> []) by discriminate.
  split; [exact H1|]. split; [exact H2|]. split; [exact H3|]. split; [exact H4|].
  exact (nearest_closest (N := QNum) H1 H2 H3 _ (0, 2) H4).
Defined.

(** ** A start that is not free *)

Section BlockedStart.
Context {N : JSNumber}.
Variable rand : nat -> num.
Variable grid : Grid.
Variables rows cols : Z.
Hypothesis Hdims : dims grid = Returned (rows, cols).
Hypothesis Hrect : rectGrid grid.
Variable start : coord.
Hypothesis Hstart : freeCell grid rows cols start = false.

Lemma rrtIter_blocked fuel goal rad stp gb k :
  exists k',
    rrtIter rand grid rows cols (S fuel) goal rad stp gb
      (mkRState [mkNode (fst start) (snd start) (-1) (of_Z 0)] [start] k (-1))
    = Returned (mkRState [mkNode (fst start) (snd start) (-1) (of_Z 0)] [start] k' (-1)).
Proof.
  unfold rrtIter. cbn [r_calls r_nodes r_visited r_goalIndex].
  destruct (drawSample _ _ _ _ _ _) as [[smp|] k']; [|by eexists].
  rewrite (isFree_freeCell grid rows cols Hdims Hrect).
  destruct (freeCell grid rows cols (fst smp, snd smp)); simpl; [|by eexists].
  assert (nearest [mkNode (fst start) (snd start) (-1) (of_Z 0)] smp = 0%nat) as ->.
  { unfold nearest. cbn [fold_left].
    by destruct (nearestStep_cases smp 0 None 0
                   (mkNode (fst start) (snd start) (-1) (of_Z 0))) as [d' [-> | ->]]. }
  cbn [lookup list_lookup].
  destruct (steer stp _ smp) as [newPt|]; [|by eexists].
  rewrite (isFree_freeCell grid rows cols Hdims Hrect).
  destruct (freeCell grid rows cols (fst newPt, snd newPt)); simpl; [|by eexists].
  unfold lineFree. rewrite (lineWalk_S grid rows cols Hdims Hrect).
  cbn [pos n_r n_c fst snd].
  assert (freeCell grid rows cols (fst start, snd start) = false) as ->
    by (by destruct start).
  simpl. by eexists.
Qed.

Lemma rrtLoop_blocked its fuel goal rad stp gb k :
  exists k',
    rrtLoop rand grid rows cols its (S fuel) goal rad stp gb
      (mkRState [mkNode (fst start) (snd start) (-1) (of_Z 0)] [start] k (-1))
    = Returned (mkRState [mkNode (fst start) (snd start) (-1) (of_Z 0)] [start] k' (-1)).
Proof.
  revert k. induction its as [|its IH]; intros k; [by eexists|].
  cbn [rrtLoop]. destruct (rrtIter_blocked fuel goal rad stp gb k) as [k1 ->].
  simpl. apply IH.
Qed.
End BlockedStart.

(** X16.  When the start is out of bounds or on a wall, [runRRTStar] adds
    no node to the tree, whatever the samples: it returns the start alone
    as visited sequence and an empty path. *)
Theorem rrt_blocked_start {N : JSNumber} (rand : nat -> num) (grid : Grid)
    (start goal : coord) (opts : RRTOpts) (m : nat) :
  grid <> [] -> rectGrid grid ->
  freeCell grid (gridRows grid) (gridCols grid) start = false ->
  runRRTStar rand (S m) grid start goal opts = Returned (mkResult [start] []).
Proof.
  intros Hne Hrect Hstart. unfold runRRTStar.
  rewrite (wfGrid_dims grid Hne). cbn [obind fst snd].
  destruct (rrtLoop_blocked rand grid _ _ (wfGrid_dims grid Hne) Hrect start Hstart
              (default 1500%nat (iterations opts)) m goal
              (default (of_Z 4) (radius opts)) (default (of_Z 2) (step opts))
              (default (ndiv (of_Z 8) (of_Z 100)) (goalBias opts)) 0%nat) as [k' E].
  unfold rrtStart. rewrite E. reflexivity.
Qed.

Lemma rrt_blocked_start_witness :
  exGridWallStart <> [] /\ rectGrid exGridWallStart /\
  freeCell exGridWallStart (gridRows exGridWallStart) (gridCols exGridWallStart) (0, 0)
    = false /\
  runRRTStar (N := QNum) randMiddle 5 exGridWallStart (0, 0) (0, 1) noOpts =
    Returned (mkResult [(0, 0)] []).
Proof.
  assert (H1 : exGridWallStart <> []) by discriminate.
  assert (H2 : rectGrid exGridWallStart)
    by (apply (wfGridb_wfGrid exGridWallStart); reflexivity).
  assert (H3 : freeCell exGridWallStart (gridRows exGridWallStart)
                 (gridCols exGridWallStart) (0, 0) = false) by reflexivity.
  split; [exact H1|]. split; [exact H2|]. split; [exact H3|].
  exact (rrt_blocked_start (N := QNum) randMiddle exGridWallStart (0, 0) (0, 1) noOpts 4
           H1 H2 H3).
Defined.

(** ** makeGrid *)

Lemma cellAt_cellOf g r c :
  0 <= r -> 0 <= c -> cellAt g r c = cellOf g (Z.to_nat r) (Z.to_nat c).
Proof.
  intros Hr Hc. unfold cellAt, cellOf.
  assert ((0 <=? r) && (0 <=? c) = true) as ->
    by (apply andb_true_iff; split; by apply Z.leb_le).
  by destruct (g !! Z.to_nat r).
Qed.

Lemma gridOK_wfGrid rows cols g : 1 <= rows -> gridOK rows cols g -> wfGrid g.
Proof.
  intros Hrows [Hlen Hall]. rewrite Forall_forall in Hall.
  split; [intros ->; simpl in Hlen; lia|]. split.
  - intros row row' Hr Hr'. destruct (Hall _ Hr) as [H1 _], (Hall _ Hr') as [H2 _]. lia.
  - intros row cell Hr Hc. destruct (Hall _ Hr) as [_ Hcells].
    rewrite Forall_forall in Hcells. destruct (Hcells _ Hc) as (w & Hw & Hb).
    unfold weightOf. rewrite Hw. simpl. lia.
Qed.

Lemma gridOK_dims rows cols g :
  1 <= rows -> gridOK rows cols g -> gridRows g = rows /\ gridCols g = cols.
Proof.
  intros Hrows [Hlen Hall]. split; [done|].
  destruct g as [|row0 g]; [simpl in Hlen; lia|].
  apply Forall_cons in Hall as [[H _] _]. done.
Qed.

Lemma makeGrid_cellOf rows cols r c :
  (r < Z.to_nat rows)%nat -> (c < Z.to_nat cols)%nat ->
  cellOf (makeGrid rows cols) r c = Some (mkCell false (Some 1)).
Proof.
  intros Hr Hc. unfold cellOf, makeGrid.
  rewrite lookup_replicate_2 by done. simpl. by rewrite lookup_replicate_2.
Qed.

Lemma makeGrid_OK rows cols : 0 <= rows -> 0 <= cols -> gridOK rows cols (makeGrid rows cols).
Proof.
  intros Hr Hc. unfold makeGrid. split.
  - rewrite length_replicate. lia.
  - apply Forall_replicate. split; [rewrite length_replicate; lia|].
    apply Forall_replicate. exists 1. split; [done|lia].
Qed.

Lemma makeGrid_noWalls rows cols : noWalls (makeGrid rows cols).
Proof.
  intros row cell [-> _]%elem_of_replicate [-> _]%elem_of_replicate. done.
Qed.

(** X17.  [makeGrid(rows, cols)] is the empty array when [rows] is not
    positive, on which every planner throws.  Otherwise it is a matrix of
    [rows] rows and [cols] columns whose cells are all free and of weight
    1, a well-formed grid without walls. *)
Theorem makeGrid_spec (rows cols : Z) :
  (rows <= 0 -> makeGrid rows cols = [] /\ dims (makeGrid rows cols) = Threw) /\
  (1 <= rows -> 0 <= cols ->
   dims (makeGrid rows cols) = Returned (rows, cols) /\
   wfGrid (makeGrid rows cols) /\ noWalls (makeGrid rows cols) /\
   forall r c, inBounds r c rows cols = true ->
               cellAt (makeGrid rows cols) r c = Some (mkCell false (Some 1))).
Proof.
  split.
  - intros Hr. unfold makeGrid. replace (Z.to_nat rows) with 0%nat by lia. done.
  - intros Hr Hc. pose proof (makeGrid_OK rows cols ltac:(lia) Hc) as HOK.
    pose proof (gridOK_wfGrid _ _ _ Hr HOK) as Hwf.
    destruct (gridOK_dims _ _ _ Hr HOK) as [H1 H2].
    split; [|split; [done|split; [apply makeGrid_noWalls|]]].
    + rewrite wfGrid_dims by apply Hwf. by rewrite H1, H2.
    + intros r c [Hrb Hcb]%inBounds_spec.
      rewrite cellAt_cellOf by lia. apply makeGrid_cellOf; lia.
Qed.

Lemma makeGrid_spec_witness :
  1 <= 24 /\ 0 <= 38 /\
  dims (makeGrid 24 38) = Returned (24, 38) /\
  wfGrid (makeGrid 24 38) /\ noWalls (makeGrid 24 38) /\
  forall r c, inBounds r c 24 38 = true ->
              cellAt (makeGrid 24 38) r c = Some (mkCell false (Some 1)).
Proof.
  assert (H1 : 1 <= 24) by lia. assert (H2 : 0 <= 38) by lia.
  split; [exact H1|]. split; [exact H2|].
  exact (proj2 (makeGrid_spec 24 38) H1 H2).
Defined.

(** ** The planners on a fresh grid *)

Lemma enterCost_makeGrid rows cols v : enterCost (makeGrid rows cols) v = 1.
Proof.
  unfold enterCost. destruct (cellAt _ _ _) as [cell|] eqn:E; [|done].
  apply cellAt_elem in E as (row & [-> _]%elem_of_replicate & [-> _]%elem_of_replicate).
  done.
Qed.

Lemma pathCost_makeGrid rows cols p :
  pathCost (makeGrid rows cols) p = Z.of_nat (length p - 1).
Proof.
  destruct p as [|u p]; [done|]. simpl. rewrite Nat.sub_0_r.
  induction p as [|v p IH]; [done|]. cbn [foldr length].
  rewrite enterCost_makeGrid, IH. lia.
Qed.

Lemma makeGrid_passable rows cols v :
  inBounds (fst v) (snd v) rows cols = true -> passable (makeGrid rows cols) v.
Proof.
  intros [Hr Hc]%inBounds_spec. exists (mkCell false (Some 1)). split; [|done].
  rewrite cellAt_cellOf by lia. apply makeGrid_cellOf; lia.
Qed.

Lemma fresh_reach rows cols (diag : bool) start :
  inBounds (fst start) (snd start) rows cols = true ->
  forall n goal,
    inBounds (fst goal) (snd goal) rows cols = true ->
    (if diag then chebyshev start goal else manhattan start goal) = Z.of_nat n ->
    reach (makeGrid rows cols) rows cols diag start goal (Z.of_nat n).
Proof.
  intros Hs. apply inBounds_spec in Hs as Hs'.
  induction n as [|n IH]; intros goal Hg Hd.
  { assert (goal = start) as ->; [|constructor].
    destruct goal, start. unfold chebyshev, manhattan in Hd. simpl in *.
    destruct diag; f_equal; lia. }
  apply inBounds_spec in Hg as Hg'.
  set (u := if diag
            then (fst goal - Z.sgn (fst goal - fst start),
                  snd goal - Z.sgn (snd goal - snd start))
            else if fst start <? fst goal then (fst goal - 1, snd goal)
            else if fst goal <? fst start then (fst goal + 1, snd goal)
            else if snd start <? snd goal then (fst goal, snd goal - 1)
            else (fst goal, snd goal + 1)).
  assert (Hu : inBounds (fst u) (snd u) rows cols = true /\
               (if diag then chebyshev start u else manhattan start u) = Z.of_nat n /\
               (if diag then chebyshev goal u else manhattan goal u) = 1).
  { unfold u, chebyshev, manhattan in *. rewrite inBounds_spec.
    destruct diag; simpl.
    - split; [|split]; lia.
    - repeat (case_match; simpl); rewrite ?Z.ltb_lt, ?Z.ltb_ge in *;
        (split; [|split]); lia. }
  destruct Hu as (Hub & Hun & Hug).
  replace (Z.of_nat (S n)) with (Z.of_nat n + enterCost (makeGrid rows cols) goal)
    by (rewrite enterCost_makeGrid; lia).
  apply (reach_step _ _ _ _ _ u); [by apply IH|].
  split; [|by apply makeGrid_passable].
  unfold adjacent. apply neighbors_char. split; [done|].
  by destruct u.
Qed.

(** X18.  On a fresh grid with so few cells that no sum reaches 2^53,
    between two different cells in bounds, [runDijkstra] and [runAStar]
    without diagonals return a path of as many cells as the Manhattan
    distance between the two, plus one, and [runDijkstra] with diagonals a
    path of as many cells as their Chebyshev distance, plus one. *)
Theorem fresh_grid_paths {N : JSNumber} (rows cols : Z) (start goal : coord) :
  inBounds (fst start) (snd start) rows cols = true ->
  inBounds (fst goal) (snd goal) rows cols = true ->
  start <> goal ->
  sumBound (makeGrid rows cols) + heurBound (makeGrid rows cols) goal < 2 ^ 53 ->
  exists n, forall m, (n <= m)%nat ->
    exists r4 rA r8,
      runDijkstra m (makeGrid rows cols) start goal false = Returned r4 /\
      runAStar m (makeGrid rows cols) start goal false = Returned rA /\
      runDijkstra m (makeGrid rows cols) start goal true = Returned r8 /\
      Z.of_nat (length (path r4)) = manhattan start goal + 1 /\
      Z.of_nat (length (path rA)) = manhattan start goal + 1 /\
      Z.of_nat (length (path r8)) = chebyshev start goal + 1.
Proof.
  intros Hs Hg Hne Hb.
  apply inBounds_spec in Hs as Hs'.
  assert (Hrows : 1 <= rows) by lia.
  assert (HOK : gridOK rows cols (makeGrid rows cols)) by (apply makeGrid_OK; lia).
  assert (Hwf : wfGrid (makeGrid rows cols)) by (eapply gridOK_wfGrid; [|exact HOK]; lia).
  destruct (gridOK_dims _ _ _ Hrows HOK) as [Hr Hc].
  pose proof (wfGrid_dims _ (proj1 Hwf)) as Hdims. rewrite Hr, Hc in Hdims.
  pose proof (proj2 (proj2 Hwf)) as Hpos.
  assert (HbD : sumBound (makeGrid rows cols) < 2 ^ 53).
  { unfold heurBound in Hb. rewrite Hr, Hc in Hb. lia. }
  destruct (runDijkstra_result _ start goal false Hwf) as [n1 H1].
  destruct (runAStar4_result _ start goal Hwf) as [n2 H2].
  destruct (runDijkstra_result _ start goal true Hwf) as [n3 H3].
  exists ((n1 `max` n2) `max` n3)%nat. intros m Hm.
  destruct (H1 m ltac:(lia)) as (r4 & E4 & _).
  destruct (H2 m ltac:(lia)) as (rA & EA & _).
  destruct (H3 m ltac:(lia)) as (r8 & E8 & _).
  exists r4, rA, r8. split; [exact E4|]. split; [exact EA|]. split; [exact E8|].
  assert (Hlen : forall diag p,
            cheapest (makeGrid rows cols) rows cols diag start goal p ->
            Z.of_nat (length p) =
              (if diag then chebyshev start goal else manhattan start goal) + 1).
  { intros diag p Hch.
    assert (Hd : 0 <= (if diag then chebyshev start goal else manhattan start goal))
      by (unfold chebyshev, manhattan; destruct diag; lia).
    assert (Hdn : (if diag then chebyshev start goal else manhattan start goal) =
                  Z.of_nat (Z.to_nat (if diag then chebyshev start goal
                                      else manhattan start goal))) by lia.
    pose proof (fresh_reach rows cols diag start Hs _ goal Hg Hdn) as Hreach.
    rewrite Z2Nat.id in Hreach by done.
    destruct (cheapest_route _ _ _ _ _ _ _ _ Hpos Hne Hch Hreach) as [Hp Hle].
    destruct Hch as [[Hrp _]|[-> _]]; [|done].
    rewrite pathCost_makeGrid in Hle, Hrp.
    assert (Hlow : (if diag then chebyshev start goal else manhattan start goal)
                   <= Z.of_nat (length p - 1)).
    { destruct diag.
      - pose proof (reach_lower_bound _ _ _ _ _ _ _ _
                      (chebyshev_consistent _ rows cols goal true Hpos) Hrp) as H.
        simpl in H. unfold chebyshev in *. lia.
      - pose proof (reach_lower_bound _ _ _ _ _ _ _ _
                      (manhattan_consistent _ rows cols goal Hpos) Hrp) as H.
        simpl in H. unfold manhattan in *. lia. }
    destruct p; [done|]. simpl in *. lia. }
  pose proof (dijkstra_cheapest _ _ _ _ _ _ Hwf HbD E4) as C4.
  pose proof (astar4_cheapest _ _ _ _ _ Hwf Hb EA) as CA.
  pose proof (dijkstra_cheapest _ _ _ _ _ _ Hwf HbD E8) as C8.
  rewrite Hr, Hc in C4, CA, C8.
  split; [|split].
  - by apply (Hlen false).
  - by apply (Hlen false).
  - by apply (Hlen true).
Qed.

Lemma fresh_grid_paths_witness :
  inBounds (fst (0, 0)) (snd (0, 0)) 5 5 = true /\
  inBounds (fst (4, 4)) (snd (4, 4)) 5 5 = true /\
  ((0, 0) : coord) <> (4, 4) /\
  sumBound (makeGrid 5 5) + heurBound (makeGrid 5 5) (4, 4) < 2 ^ 53 /\
  exists n, forall m, (n <= m)%nat ->
    exists r4 rA r8,
      runDijkstra m (makeGrid 5 5) (0, 0) (4, 4) false = Returned r4 /\
      runAStar (N := QNum) m (makeGrid 5 5) (0, 0) (4, 4) false = Returned rA /\
      runDijkstra m (makeGrid 5 5) (0, 0) (4, 4) true = Returned r8 /\
      Z.of_nat (length (path r4)) = manhattan (0, 0) (4, 4) + 1 /\
      Z.of_nat (length (path rA)) = manhattan (0, 0) (4, 4) + 1 /\
      Z.of_nat (length (path r8)) = chebyshev (0, 0) (4, 4) + 1.
Proof.
  assert (H1 : inBounds (fst (0, 0)) (snd (0, 0)) 5 5 = true) by reflexivity.
  assert (H2 : inBounds (fst (4, 4)) (snd (4, 4)) 5 5 = true) by reflexivity.
  assert (H3 : ((0, 0) : coord) <> (4, 4)) by discriminate.
  assert (H4 : sumBound (makeGrid 5 5) + heurBound (makeGrid 5 5) (4, 4) < 2 ^ 53)
    by (vm_compute; reflexivity).
  split; [exact H1|]. split; [exact H2|]. split; [exact H3|]. split; [exact H4|].
  exact (fresh_grid_paths (N := QNum) 5 5 (0, 0) (4, 4) H1 H2 H3 H4).
Defined.

(** ** Editing cells *)

Lemma mutateCell_rendered g r c fn row cell :
  g !! r = Some row -> row !! c = Some cell ->
  mutateCell g r c fn = Returned (Some (<[r := <[c := fn (Some cell)]> row]> g)).
Proof.
  intros Hr Hc. unfold mutateCell. rewrite Hr, Hc.
  apply lookup_lt_Some in Hc. apply Nat.ltb_lt in Hc. by rewrite Hc.
Qed.

Lemma cellOf_insert g r c x row r' c' :
  g !! r = Some row -> (c < length row)%nat ->
  cellOf (<[r := <[c := x]> row]> g) r' c' =
  if decide (r' = r /\ c' = c) then Some x else cellOf g r' c'.
Proof.
  intros Hr Hc. unfold cellOf.
  destruct (decide (r' = r)) as [->|Hne].
  - rewrite list_lookup_insert_eq by (by eapply lookup_lt_Some). simpl.
    rewrite Hr. simpl. destruct (decide (c' = c)) as [->|Hnc].
    + rewrite list_lookup_insert_eq by done. by rewrite decide_True.
    + rewrite list_lookup_insert_ne by done. by rewrite decide_False by tauto.
  - rewrite list_lookup_insert_ne by done. by rewrite decide_False by tauto.
Qed.

Lemma gridOK_insert rows cols g r c x row :
  gridOK rows cols g -> g !! r = Some row -> cellOK x ->
  gridOK rows cols (<[r := <[c := x]> row]> g).
Proof.
  intros [Hlen Hall] Hr Hx. split; [by rewrite length_insert|].
  apply Forall_insert; [done|].
  rewrite Forall_forall in Hall.
  destruct (Hall row (list_elem_of_lookup_2 _ _ _ Hr)) as [Hl Hc].
  split; [by rewrite length_insert|]. by apply Forall_insert.
Qed.

Lemma paint_OK t brush x : paint t brush = Some x -> cellOK x.
Proof.
  destruct t; intros [= <-]; eexists; (split; [reflexivity|]); unfold clamp; lia.
Qed.

Lemma handleCell_paint st r c row cell x :
  app_animating st = false ->
  app_grid st !! r = Some row -> row !! c = Some cell ->
  paint (app_tool st) (app_weightBrush st) = Some x ->
  handleCell st r c = Returned (Some (setGrid (<[r := <[c := x]> row]> (app_grid st)) st)).
Proof.
  intros Ha Hr Hc Hp. unfold handleCell. rewrite Ha.
  destruct (app_tool st); simpl in Hp; simplify_eq; unfold withGrid;
    by rewrite (mutateCell_rendered _ _ _ _ _ _ Hr Hc).
Qed.

(** X19.  A click on a rendered cell while no animation runs: with the
    start or goal tool it moves the start or the goal to that cell and
    leaves the grid alone; with the wall, erase or weight tool it replaces
    that one cell by a wall of weight 1, a free cell of weight 1, or a free
    cell whose weight is the brush clamped to 1..20, and leaves every
    other cell and the shape of the grid as they were.  Running the
    handler a second time, as the click that follows a press does, changes
    nothing more.  While an animation runs the handler changes nothing. *)
Theorem handleCell_edit (st : AppState) (r c : nat) :
  rendered (app_grid st) r c ->
  exists st',
    handleCell st r c = Returned (Some st') /\
    handleCell st' r c = Returned (Some st') /\
    (app_animating st = true -> st' = st) /\
    (app_animating st = false ->
     match paint (app_tool st) (app_weightBrush st) with
     | Some x =>
       st' = setGrid (app_grid st') st /\
       (forall r' c', cellOf (app_grid st') r' c' =
                      if decide (r' = r /\ c' = c) then Some x
                      else cellOf (app_grid st) r' c') /\
       (forall rows cols, gridOK rows cols (app_grid st) -> gridOK rows cols (app_grid st'))
     | None =>
       (app_tool st = START /\ st' = setStart (Z.of_nat r, Z.of_nat c) st) \/
       (app_tool st = GOAL /\ st' = setGoal (Z.of_nat r, Z.of_nat c) st)
     end).
Proof.
  intros (row & cell & Hr & Hc).
  destruct (app_animating st) eqn:Ha.
  { exists st. unfold handleCell. rewrite Ha. repeat split; done. }
  destruct (paint (app_tool st) (app_weightBrush st)) as [x|] eqn:Hp.
  - exists (setGrid (<[r := <[c := x]> row]> (app_grid st)) st).
    split; [by eapply handleCell_paint|]. split; [|split; [done|]].
    + assert (Hr' : <[r := <[c := x]> row]> (app_grid st) !! r = Some (<[c := x]> row))
        by (apply list_lookup_insert_eq; by eapply lookup_lt_Some).
      assert (Hc' : <[c := x]> row !! c = Some x)
        by (apply list_lookup_insert_eq; by eapply lookup_lt_Some).
      rewrite (handleCell_paint (setGrid (<[r := <[c := x]> row]> (app_grid st)) st)
                 r c _ x x Ha Hr' Hc' Hp).
      unfold setGrid. simpl. do 3 f_equal.
      by rewrite !list_insert_insert_eq.
    + intros _. simpl. split; [done|]. split.
      * intros r' c'. apply cellOf_insert; [done|by eapply lookup_lt_Some].
      * intros rows cols HOK. apply gridOK_insert; eauto using paint_OK.
  - unfold handleCell. rewrite Ha.
    destruct (app_tool st) eqn:Ht; simpl in Hp; try discriminate.
    + exists (setStart (Z.of_nat r, Z.of_nat c) st). simpl. rewrite Ha, Ht.
      repeat split; auto; done.
    + exists (setGoal (Z.of_nat r, Z.of_nat c) st). simpl. rewrite Ha, Ht.
      repeat split; auto; done.
Qed.

Lemma handleCell_edit_witness :
  rendered (app_grid initialState) 3 4 /\
  exists st',
    handleCell initialState 3 4 = Returned (Some st') /\
    handleCell st' 3 4 = Returned (Some st') /\
    (app_animating initialState = true -> st' = initialState) /\
    (app_animating initialState = false ->
     match paint (app_tool initialState) (app_weightBrush initialState) with
     | Some x =>
       st' = setGrid (app_grid st') initialState /\
       (forall r' c', cellOf (app_grid st') r' c' =
                      if decide (r' = 3%nat /\ c' = 4%nat) then Some x
                      else cellOf (app_grid initialState) r' c') /\
       (forall rows cols, gridOK rows cols (app_grid initialState) ->
                          gridOK rows cols (app_grid st'))
     | None =>
       (app_tool initialState = START /\
        st' = setStart (Z.of_nat 3, Z.of_nat 4) initialState) \/
       (app_tool initialState = GOAL /\
        st' = setGoal (Z.of_nat 3, Z.of_nat 4) initialState)
     end).
Proof.
  assert (H : rendered (app_grid initialState) 3 4).
  { eexists _, _. split; vm_compute; reflexivity. }
  split; [exact H|].
  exact (handleCell_edit initialState 3 4 H).
Defined.

(** ** Random scenes *)

Lemma mapCells_lookup f c0 row k0 :
  length (fst (mapCells f c0 row k0)) = length row /\
  forall i cell, row !! i = Some cell ->
    exists k, fst (mapCells f c0 row k0) !! i = Some (fst (f (c0 + i)%nat cell k)).
Proof.
  revert c0 k0. induction row as [|x row IH]; intros c0 k0; [done|].
  simpl. destruct (f c0 x k0) as [y k1] eqn:E.
  destruct (mapCells f (S c0) row k1) as [ys k2] eqn:E2.
  destruct (IH (S c0) k1) as [Hlen Hall]. rewrite E2 in Hlen, Hall. simpl in *.
  split; [by rewrite Hlen|].
  intros [|i] cell; simpl.
  - intros [= <-]. exists k0. rewrite Nat.add_0_r, E. done.
  - intros Hi. destruct (Hall i cell Hi) as [k Hk]. exists k.
    by rewrite Nat.add_succ_r.
Qed.

Lemma mapRows_lookup f r0 g k0 :
  length (fst (mapRows f r0 g k0)) = length g /\
  forall r row, g !! r = Some row ->
    exists k, fst (mapRows f r0 g k0) !! r
              = Some (fst (mapCells (f (r0 + r)%nat) 0 row k)).
Proof.
  revert r0 k0. induction g as [|x g IH]; intros r0 k0; [done|].
  simpl. destruct (mapCells (f r0) 0 x k0) as [y k1] eqn:E.
  destruct (mapRows f (S r0) g k1) as [ys k2] eqn:E2.
  destruct (IH (S r0) k1) as [Hlen Hall]. rewrite E2 in Hlen, Hall. simpl in *.
  split; [by rewrite Hlen|].
  intros [|r] row; simpl.
  - intros [= <-]. exists k0. rewrite Nat.add_0_r, E. done.
  - intros Hr. destruct (Hall r row Hr) as [k Hk]. exists k.
    by rewrite Nat.add_succ_r.
Qed.

(** Mapping over the cells keeps the shape of the grid and turns each
    cell into the value of the cell function at its place. *)
Lemma mapRows_cellOf f g k0 r c :
  match cellOf g r c with
  | Some cell => exists k, cellOf (fst (mapRows f 0 g k0)) r c = Some (fst (f r c cell k))
  | None => cellOf (fst (mapRows f 0 g k0)) r c = None
  end.
Proof.
  destruct (mapRows_lookup f 0 g k0) as [Hlen Hall]. unfold cellOf.
  destruct (g !! r) as [row|] eqn:Hr; simpl.
  - destruct (Hall r row Hr) as [k Hk]. simpl in Hk. rewrite Hk. simpl.
    destruct (mapCells_lookup (f r) 0 row k) as [Hl Hc].
    destruct (row !! c) as [cell|] eqn:Hcell.
    + destruct (Hc c cell Hcell) as [k' Hk']. exists k'. done.
    + apply lookup_ge_None in Hcell. apply lookup_ge_None. lia.
  - apply lookup_ge_None in Hr.
    rewrite (proj2 (lookup_ge_None (fst (mapRows f 0 g k0)) r)); [done|lia].
Qed.

Lemma mapRows_OK f rows cols g k0 :
  (forall r c cell k, cellOK (fst (f r c cell k))) ->
  gridOK rows cols g -> gridOK rows cols (fst (mapRows f 0 g k0)).
Proof.
  intros Hf [Hlen Hall]. destruct (mapRows_lookup f 0 g k0) as [Hl Hrows].
  split; [by rewrite Hl|].
  apply Forall_lookup. intros r row' Hr'.
  destruct (g !! r) as [row|] eqn:Hr.
  2:{ apply lookup_ge_None in Hr. apply lookup_lt_Some in Hr'. lia. }
  destruct (Hrows r row Hr) as [k Hk]. rewrite Hk in Hr'. simplify_eq.
  destruct (mapCells_lookup (f (0 + r)%nat) 0 row k) as [Hl' Hc].
  rewrite Forall_lookup in Hall. destruct (Hall r row Hr) as [Hcols _].
  split; [by rewrite Hl'|].
  apply Forall_lookup. intros c cell' Hc'.
  destruct (row !! c) as [cell|] eqn:Hcell.
  2:{ apply lookup_ge_None in Hcell. apply lookup_lt_Some in Hc'. lia. }
  destruct (Hc c cell Hcell) as [k' Hk']. rewrite Hk' in Hc'. simplify_eq. apply Hf.
Qed.

Lemma mazeCell_spec rand density start goal r c cell k :
  weight (fst (mazeCell rand density start goal r c cell k)) = Some 1 /\
  ((Z.of_nat r, Z.of_nat c) = start \/ (Z.of_nat r, Z.of_nat c) = goal ->
   wall (fst (mazeCell rand density start goal r c cell k)) = false).
Proof.
  unfold mazeCell.
  destruct (((Z.of_nat r =? fst start) && (Z.of_nat c =? snd start)) ||
            ((Z.of_nat r =? fst goal) && (Z.of_nat c =? snd goal))) eqn:E.
  - done.
  - split; [by destruct (Qltb _ _)|]. intros H. exfalso.
    apply orb_false_iff in E as [E1 E2].
    destruct H as [<-|<-]; simpl in *; rewrite !Z.eqb_refl in *; done.
Qed.

(** X20.  [randomMaze] keeps the shape of the grid, gives every cell the
    weight 1, leaves the cells of the start and of the goal free, and
    clears the result on display; start and goal stay where they are. *)
Theorem randomMaze_spec (rand : nat -> Q) (density : Q) (st : AppState) :
  (forall r c,
     match cellOf (app_grid st) r c with
     | Some _ =>
       exists cell', cellOf (app_grid (randomMaze rand density st)) r c = Some cell' /\
         weight cell' = Some 1 /\
         ((Z.of_nat r, Z.of_nat c) = app_start st \/
          (Z.of_nat r, Z.of_nat c) = app_goal st -> wall cell' = false)
     | None => cellOf (app_grid (randomMaze rand density st)) r c = None
     end) /\
  length (app_grid (randomMaze rand density st)) = length (app_grid st) /\
  app_start (randomMaze rand density st) = app_start st /\
  app_goal (randomMaze rand density st) = app_goal st /\
  app_visited (randomMaze rand density st) = [] /\
  app_path (randomMaze rand density st) = [] /\
  app_animating (randomMaze rand density st) = false.
Proof.
  split; [|split; [apply mapRows_lookup|done]].
  intros r c. simpl.
  pose proof (mapRows_cellOf (mazeCell rand density (app_start st) (app_goal st))
                (app_grid st) 0 r c) as H.
  destruct (cellOf (app_grid st) r c) as [cell|]; [|done].
  destruct H as [k Hk]. eexists. split; [exact Hk|]. apply mazeCell_spec.
Qed.

Lemma Qfloor_draw (x : Q) : (0 <= x)%Q -> (x < 1)%Q -> 0 <= Qfloor (x * 8) <= 7.
Proof.
  intros H0 H1. split.
  - change 0 with (Qfloor 0). apply Qfloor_resp_le.
    change 0%Q with (0 * 8)%Q. by apply Qmult_le_compat_r.
  - assert (H : (inject_Z (Qfloor (x * 8)) < inject_Z 8)%Q).
    { eapply Qle_lt_trans; [apply Qfloor_le|].
      change (inject_Z 8) with (1 * 8)%Q. by apply Qmult_lt_compat_r. }
    rewrite <- Zlt_Qlt in H. lia.
Qed.

Lemma weightCell_spec rand prob r c cell k :
  (forall j, (0 <= rand j)%Q /\ (rand j < 1)%Q) ->
  wall (fst (weightCell rand prob r c cell k)) = wall cell /\
  exists w, weight (fst (weightCell rand prob r c cell k)) = Some w /\
            (w = 1 \/ (wall cell = false /\ 6 <= w <= 13)).
Proof.
  intros Hr. unfold weightCell. destruct (wall cell) eqn:Hw.
  - split; [done|]. exists 1. auto.
  - destruct (Qltb (rand k) prob); cbn [fst wall weight].
    + split; [done|]. eexists. split; [done|]. right. split; [done|].
      destruct (Hr (S k)) as [H0 H1]. pose proof (Qfloor_draw _ H0 H1). lia.
    + split; [done|]. exists 1. auto.
Qed.

(** X21.  [randomWeights], whose random numbers lie in [[0, 1)], keeps the
    shape of the grid and its walls; every wall gets the weight 1 and
    every other cell the weight 1 or a weight from 6 to 13. *)
Theorem randomWeights_spec (rand : nat -> Q) (prob : Q) (st : AppState) :
  (forall k, (0 <= rand k)%Q /\ (rand k < 1)%Q) ->
  (forall r c,
     match cellOf (app_grid st) r c with
     | Some cell =>
       exists cell' w,
         cellOf (app_grid (randomWeights rand prob st)) r c = Some cell' /\
         wall cell' = wall cell /\ weight cell' = Some w /\
         (w = 1 \/ (wall cell = false /\ 6 <= w <= 13))
     | None => cellOf (app_grid (randomWeights rand prob st)) r c = None
     end) /\
  length (app_grid (randomWeights rand prob st)) = length (app_grid st) /\
  app_visited (randomWeights rand prob st) = [] /\
  app_path (randomWeights rand prob st) = [] /\
  app_animating (randomWeights rand prob st) = false.
Proof.
  intros Hr. split; [|split; [apply mapRows_lookup|done]].
  intros r c. simpl.
  pose proof (mapRows_cellOf (weightCell rand prob) (app_grid st) 0 r c) as H.
  destruct (cellOf (app_grid st) r c) as [cell|]; [|done].
  destruct H as [k Hk].
  destruct (weightCell_spec rand prob r c cell k Hr) as (Hw & w & Hwt & Hb).
  eexists _, w. split; [exact Hk|]. done.
Qed.

Lemma randomWeights_spec_witness :
  (forall k : nat, (0 <= Qmake 1 8)%Q /\ (Qmake 1 8 < 1)%Q) /\
  (forall r c,
     match cellOf (app_grid initialState) r c with
     | Some cell =>
       exists cell' w,
         cellOf (app_grid (randomWeights (fun _ => Qmake 1 8) (Qmake 1 4) initialState)) r c
           = Some cell' /\
         wall cell' = wall cell /\ weight cell' = Some w /\
         (w = 1 \/ (wall cell = false /\ 6 <= w <= 13))
     | None =>
       cellOf (app_grid (randomWeights (fun _ => Qmake 1 8) (Qmake 1 4) initialState)) r c
         = None
     end) /\
  length (app_grid (randomWeights (fun _ => Qmake 1 8) (Qmake 1 4) initialState))
    = length (app_grid initialState) /\
  app_visited (randomWeights (fun _ => Qmake 1 8) (Qmake 1 4) initialState) = [] /\
  app_path (randomWeights (fun _ => Qmake 1 8) (Qmake 1 4) initialState) = [] /\
  app_animating (randomWeights (fun _ => Qmake 1 8) (Qmake 1 4) initialState) = false.
Proof.
  assert (H : forall k : nat, (0 <= Qmake 1 8)%Q /\ (Qmake 1 8 < 1)%Q)
    by (intros _; split; [vm_compute; discriminate | vm_compute; reflexivity]).
  split; [exact H|].
  exact (randomWeights_spec (fun _ => Qmake 1 8) (Qmake 1 4) initialState H).
Defined.

(** ** The states of the editor *)

Lemma rendered_inBounds st r c :
  EInv st -> rendered (app_grid st) r c ->
  inBounds (Z.of_nat r) (Z.of_nat c) (app_rows st) (app_cols st) = true.
Proof.
  intros [_ _ [Hlen Hall] _ _] (row & cell & Hr & Hc).
  rewrite Forall_forall in Hall.
  destruct (Hall row (list_elem_of_lookup_2 _ _ _ Hr)) as [Hcols _].
  apply lookup_lt_Some in Hr, Hc. apply inBounds_spec. lia.
Qed.

Lemma handleCell_EInv st r c st' :
  EInv st -> rendered (app_grid st) r c ->
  handleCell st r c = Returned (Some st') -> EInv st'.
Proof.
  intros HE Hrend Hh. pose proof (rendered_inBounds _ _ _ HE Hrend) as Hb.
  destruct Hrend as (row & cell & Hr & Hc).
  destruct (app_animating st) eqn:Ha.
  { unfold handleCell in Hh. rewrite Ha in Hh. by simplify_eq. }
  destruct (paint (app_tool st) (app_weightBrush st)) as [x|] eqn:Hp.
  - rewrite (handleCell_paint _ _ _ _ _ _ Ha Hr Hc Hp) in Hh. simplify_eq.
    destruct HE as [H1 H2 H3 H4 H5]. split; simpl; auto.
    apply gridOK_insert; eauto using paint_OK.
  - unfold handleCell in Hh. rewrite Ha in Hh.
    destruct (app_tool st); simpl in Hp; try discriminate; simplify_eq;
      destruct HE as [H1 H2 H3 H4 H5]; split; simpl; auto.
Qed.

Lemma sizeEffect_EInv st :
  8 <= app_rows st <= 60 -> 8 <= app_cols st <= 80 -> EInv (sizeEffect st).
Proof.
  intros Hr Hc. split; simpl; auto.
  - apply makeGrid_OK; lia.
  - apply inBounds_spec. simpl. lia.
  - apply inBounds_spec. simpl. lia.
Qed.

Lemma runOnce_grid {N : JSNumber} rand fuel st st' :
  runOnce rand fuel st = Returned st' ->
  app_rows st' = app_rows st /\ app_cols st' = app_cols st /\ app_grid st' = app_grid st /\
  app_start st' = app_start st /\ app_goal st' = app_goal st.
Proof.
  unfold runOnce. destruct (app_animating st); [by intros [= <-]|].
  destruct (match app_algo st with ASTAR => _ | DIJKSTRA => _ | RRTSTAR => _ end);
    simpl; [|done|done].
  by intros [= <-].
Qed.

Lemma editorStep_EInv {N : JSNumber} st st' : EInv st -> editorStep st st' -> EInv st'.
Proof.
  intros HE Hstep. pose proof HE as [H1 H2 H3 H4 H5].
  destruct Hstep; try (split; simpl; auto; fail).
  - by eapply handleCell_EInv.
  - eapply (handleCell_EInv (setMouseDown true st)); [|done|done]. by split.
  - unfold handleDrag in *. destruct (negb (app_mouseDown st)); [by simplify_eq|].
    by eapply handleCell_EInv.
  - unfold changeRows. destruct (_ =? _); [done|].
    apply sizeEffect_EInv; simpl; [unfold clamp; lia|done].
  - unfold changeCols. destruct (_ =? _); [done|].
    apply sizeEffect_EInv; simpl; [done|unfold clamp; lia].
  - split; simpl; auto. apply makeGrid_OK; lia.
  - split; simpl; auto. apply mapRows_OK; [|done].
    intros r c cell k. exists 1.
    split; [apply mazeCell_spec|lia].
  - split; simpl; auto. apply mapRows_OK; [|done].
    intros r c cell k.
    destruct (weightCell_spec rand prob r c cell k ltac:(done)) as (_ & w & Hw & Hb).
    exists w. split; [done|]. lia.
  - destruct (runOnce_grid _ _ _ _ ltac:(eassumption)) as (E1 & E2 & E3 & E4 & E5).
    split; congruence.
Qed.

Lemma reachable_EInv {N : JSNumber} st : reachable st -> EInv st.
Proof.
  induction 1 as [|st st' _ IH Hstep]; [|by eapply editorStep_EInv].
  split; simpl; try done; try (unfold DEFAULT_ROWS, DEFAULT_COLS; lia).
  apply makeGrid_OK; unfold DEFAULT_ROWS, DEFAULT_COLS; lia.
Qed.

(** X22.  In every state the editor can reach by clicks and drags on the
    rendered cells, by its buttons, by integers typed into its size
    inputs and by runs of a planner (the animation and the import of a
    scene apart), the grid is a matrix of 8 to 60 rows and 8 to 80 columns
    whose weights lie between 1 and 20, a well-formed grid, and the start
    and the goal are cells of it. *)
Theorem editor_invariant {N : JSNumber} (st : AppState) :
  reachable st ->
  EInv st /\ wfGrid (app_grid st) /\
  gridRows (app_grid st) = app_rows st /\ gridCols (app_grid st) = app_cols st.
Proof.
  intros Hre. pose proof (reachable_EInv st Hre) as HE.
  split; [done|]. destruct HE as [H1 H2 H3 H4 H5].
  split; [eapply gridOK_wfGrid; [|done]; lia|].
  eapply gridOK_dims; [|done]. lia.
Qed.

Lemma editor_invariant_witness :
  reachable (N := QNum) (changeRows 10 initialState) /\
  EInv (changeRows 10 initialState) /\ wfGrid (app_grid (changeRows 10 initialState)) /\
  gridRows (app_grid (changeRows 10 initialState)) = app_rows (changeRows 10 initialState) /\
  gridCols (app_grid (changeRows 10 initialState)) = app_cols (changeRows 10 initialState).
Proof.
  assert (H : reachable (N := QNum) (changeRows 10 initialState))
    by (eapply reach_next; [apply reach_init|apply step_rows]).
  split; [exact H|].
  exact (editor_invariant (N := QNum) _ H).
Defined.

(** X23.  From every such state [runOnce] returns, whichever planner is
    selected: it neither throws nor runs forever, leaves the grid, the
    start and the goal as they are, and puts on display a visited
    sequence that begins with the start. *)
Theorem runOnce_returns {N : JSNumber} {L : JSNumberLaws N}
    (rand : nat -> num) (st : AppState) :
  reachable st -> app_animating st = false ->
  exists st',
    settles (fun m => runOnce rand m st) st' /\
    app_grid st' = app_grid st /\ app_start st' = app_start st /\ app_goal st' = app_goal st /\
    head (app_visited st') = Some (app_start st).
Proof.
  intros Hre Ha. pose proof (reachable_EInv st Hre) as HE.
  assert (Hwf : wfGrid (app_grid st)).
  { destruct HE as [H1 H2 H3 H4 H5]. eapply gridOK_wfGrid; [|done]. lia. }
  assert (Hres : exists r,
            settles (fun m =>
              match app_algo st with
              | ASTAR => runAStar m (app_grid st) (app_start st) (app_goal st) (app_diag st)
              | DIJKSTRA => runDijkstra m (app_grid st) (app_start st) (app_goal st) (app_diag st)
              | RRTSTAR => runRRTStar rand m (app_grid st) (app_start st) (app_goal st) uiOpts
              end) r /\ head (visited r) = Some (app_start st)).
  { destruct (app_algo st).
    - destruct (runAStar_result (app_grid st) (app_start st) (app_goal st) (app_diag st) Hwf)
        as [n H].
      destruct (H n (le_n n)) as (r & E & S). exists r.
      split; [|apply (sr_visited _ _ _ _ _ _ _ S)].
      exists n. intros m Hm. destruct (H m Hm) as (r' & E' & _).
      rewrite E'. rewrite (runAStar_fuel_mono n m) in E'; [congruence|congruence|done].
    - destruct (runDijkstra_result (app_grid st) (app_start st) (app_goal st) (app_diag st) Hwf)
        as [n H].
      destruct (H n (le_n n)) as (r & E & S). exists r.
      split; [|apply (sr_visited _ _ _ _ _ _ _ S)].
      exists n. intros m Hm. destruct (H m Hm) as (r' & E' & _).
      rewrite E'. rewrite (runDijkstra_fuel_mono n m) in E'; [congruence|congruence|done].
    - destruct (runRRTStar_result rand (app_grid st) (app_start st) Hwf (app_goal st) uiOpts)
        as (r & Hs & HR).
      exists r. split; [done|apply (rr_visited _ _ _ _ _ _ HR)]. }
  destruct Hres as (r & [n Hn] & Hv).
  exists (setResult (visited r) (path r) st).
  split; [|done].
  exists n. intros m Hm. unfold runOnce. rewrite Ha.
  specialize (Hn m Hm). destruct (app_algo st); rewrite Hn; done.
Qed.

Lemma runOnce_returns_witness :
  reachable (N := QNum) initialState /\ app_animating initialState = false /\
  exists st',
    settles (fun m => runOnce (N := QNum) randGoal m initialState) st' /\
    app_grid st' = app_grid initialState /\ app_start st' = app_start initialState /\
    app_goal st' = app_goal initialState /\
    head (app_visited st') = Some (app_start initialState).
Proof.
  assert (H : reachable (N := QNum) initialState) by apply reach_init.
  split; [exact H|]. split; [reflexivity|].
  exact (runOnce_returns (N := QNum) (L := QNumLaws) randGoal initialState H eq_refl).
Defined.

(** ** How far the line walk goes *)

Lemma linePoints_count_x fuel x1 y1 dx dy sx sy x0 y0 err rx ry :
  walkInv x1 y1 dx dy sx sy x0 y0 err rx ry ->
  dy <= dx -> 0 < dx ->
  dy - 2 * dx < 2 * (rx * dy - ry * dx) < dx ->
  (Z.to_nat rx < fuel)%nat ->
  length (linePoints fuel x1 y1 dx dy sx sy x0 y0 err) = S (Z.to_nat rx).
Proof.
  revert x0 y0 err rx ry. induction fuel as [|fuel IH]; intros x0 y0 err rx ry; [lia|].
  intros (Hrx & Hry & Hsx & Hsy & Hx & Hy & He) Hdd Hdx HI Hf.
  rewrite linePoints_S. cbn [length]. f_equal.
  assert (Hry0 : rx = 0 -> ry = 0) by (intros ->; nia).
  destruct ((x0 =? x1) && (y0 =? y1)) eqn:Hend.
  { apply andb_true_iff in Hend as [Ex%Z.eqb_eq Ey%Z.eqb_eq].
    assert (rx = 0) as -> by nia. done. }
  assert (Hrxp : 0 < rx).
  { destruct (decide (rx = 0)) as [->|]; [|lia].
    specialize (Hry0 eq_refl). subst ry.
    apply andb_false_iff in Hend as [H%Z.eqb_neq|H%Z.eqb_neq]; nia. }
  assert (Hxs : (- dy <? err * 2) = true) by (apply Z.ltb_lt; nia).
  rewrite Hxs.
  replace (Z.to_nat rx) with (S (Z.to_nat (rx - 1))) by lia.
  destruct (err * 2 <? dx) eqn:Hys;
    [apply Z.ltb_lt in Hys|apply Z.ltb_ge in Hys].
  - apply (IH _ _ _ (rx - 1) (ry - 1)); [|lia|lia|nia|lia].
    assert (0 < ry) by nia.
    unfold walkInv. repeat split; try lia; try nia.
  - apply (IH _ _ _ (rx - 1) ry); [|lia|lia|nia|lia].
    unfold walkInv. repeat split; try lia; try nia.
Qed.

Lemma linePoints_count_y fuel x1 y1 dx dy sx sy x0 y0 err rx ry :
  walkInv x1 y1 dx dy sx sy x0 y0 err rx ry ->
  dx < dy ->
  2 * (rx * dy - ry * dx) < 2 * dy - dx ->
  (Z.to_nat ry < fuel)%nat ->
  length (linePoints fuel x1 y1 dx dy sx sy x0 y0 err) = S (Z.to_nat ry).
Proof.
  revert x0 y0 err rx ry. induction fuel as [|fuel IH]; intros x0 y0 err rx ry; [lia|].
  intros (Hrx & Hry & Hsx & Hsy & Hx & Hy & He) Hdd HI Hf.
  rewrite linePoints_S. cbn [length]. f_equal.
  assert (Hrx0 : ry = 0 -> rx = 0) by (intros ->; nia).
  destruct ((x0 =? x1) && (y0 =? y1)) eqn:Hend.
  { apply andb_true_iff in Hend as [Ex%Z.eqb_eq Ey%Z.eqb_eq].
    assert (ry = 0) as -> by nia. done. }
  assert (Hryp : 0 < ry).
  { destruct (decide (ry = 0)) as [->|]; [|lia].
    specialize (Hrx0 eq_refl). subst rx.
    apply andb_false_iff in Hend as [H%Z.eqb_neq|H%Z.eqb_neq]; nia. }
  assert (Hys : (err * 2 <? dx) = true) by (apply Z.ltb_lt; nia).
  rewrite Hys.
  replace (Z.to_nat ry) with (S (Z.to_nat (ry - 1))) by lia.
  destruct (- dy <? err * 2) eqn:Hxs;
    [apply Z.ltb_lt in Hxs|apply Z.ltb_ge in Hxs].
  - apply (IH _ _ _ (rx - 1) (ry - 1)); [|lia|nia|lia].
    assert (0 < rx) by nia.
    unfold walkInv. repeat split; try lia; try nia.
  - apply (IH _ _ _ rx (ry - 1)); [|lia|nia|lia].
    unfold walkInv. repeat split; try lia; try nia.
Qed.

Lemma bresenham_length a b :
  Z.of_nat (length (bresenham a b)) = chebyshev a b + 1.
Proof.
  pose proof (bresenham_walkInv a b) as HW. unfold bresenham, chebyshev.
  set (dx := Z.abs (fst b - fst a)) in *. set (dy := Z.abs (snd b - snd a)) in *.
  replace (Z.abs (fst a - fst b)) with dx by lia.
  replace (Z.abs (snd a - snd b)) with dy by lia.
  destruct (decide (dx < dy)) as [Hlt|Hge].
  - rewrite (linePoints_count_y _ _ _ _ _ _ _ _ _ _ _ _ HW); lia.
  - destruct (decide (dx = 0)) as [Hz|Hnz].
    + assert (dy = 0) by lia.
      assert (fst a = fst b /\ snd a = snd b) as [E1 E2] by lia.
      rewrite linePoints_S. rewrite E1, E2, !Z.eqb_refl. simpl. lia.
    + rewrite (linePoints_count_x _ _ _ _ _ _ _ _ _ _ _ _ HW); lia.
Qed.

(** X24.  The walk of [lineFree(a, b)] looks at as many cells as the
    Chebyshev distance between [a] and [b], plus one, all of them within
    the rectangle spanned by [a] and [b].  On a grid that is a matrix,
    between two cells in bounds, it therefore never leaves the grid, and
    it answers [false] exactly when one of these cells is a wall. *)
Theorem line_walk_extent (grid : Grid) (a b : coord) :
  Z.of_nat (length (bresenham a b)) = chebyshev a b + 1 /\
  (forall v, v ∈ bresenham a b ->
     Z.min (fst a) (fst b) <= fst v <= Z.max (fst a) (fst b) /\
     Z.min (snd a) (snd b) <= snd v <= Z.max (snd a) (snd b)) /\
  (grid <> [] -> rectGrid grid ->
   inBounds (fst a) (snd a) (gridRows grid) (gridCols grid) = true ->
   inBounds (fst b) (snd b) (gridRows grid) (gridCols grid) = true ->
   exists res,
     settles (fun m => lineFree grid (gridRows grid) (gridCols grid) m a b) res /\
     (res = false <-> exists v, v ∈ bresenham a b /\ occupied grid v)).
Proof.
  split; [apply bresenham_length|]. split; [intros v; apply bresenham_box|].
  intros Hne Hrect Ha Hb.
  pose proof (wfGrid_dims grid Hne) as Hdims.
  exists (forallb (freeCell grid (gridRows grid) (gridCols grid)) (bresenham a b)).
  split.
  - exists (S (Z.to_nat (Z.abs (fst b - fst a) + Z.abs (snd b - snd a)))).
    intros m Hm. apply (lineFree_returns grid _ _ Hdims Hrect). lia.
  - rewrite forallb_false_elem. split; intros (v & Hv & Hf); exists v; (split; [done|]).
    all: pose proof (bresenham_inBounds _ _ a b v Ha Hb Hv) as Hin.
    all: by apply (not_free_occupied grid _ _ Hdims Hrect v Hin).
Qed.

Lemma line_walk_extent_witness :
  exGridBlocked <> [] /\ rectGrid exGridBlocked /\
  inBounds (fst (0, 0)) (snd (0, 0)) (gridRows exGridBlocked) (gridCols exGridBlocked)
    = true /\
  inBounds (fst (0, 2)) (snd (0, 2)) (gridRows exGridBlocked) (gridCols exGridBlocked)
    = true /\
  exists res,
    settles (fun m => lineFree exGridBlocked (gridRows exGridBlocked)
                        (gridCols exGridBlocked) m (0, 0) (0, 2)) res /\
    (res = false <-> exists v, v ∈ bresenham (0, 0) (0, 2) /\ occupied exGridBlocked v).
Proof.
  assert (H1 : exGridBlocked <> []) by discriminate.
  assert (H2 : rectGrid exGridBlocked)
    by (apply (wfGridb_wfGrid exGridBlocked); reflexivity).
  split; [exact H1|]. split; [exact H2|]. split; [reflexivity|]. split; [reflexivity|].
  exact (proj2 (proj2 (line_walk_extent exGridBlocked (0, 0) (0, 2)))
           H1 H2 eq_refl eq_refl).
Defined.

(** ** Keys *)

Lemma hasComma_uint d : hasComma (DecimalString.NilEmpty.string_of_uint d) = false.
Proof. induction d; simpl; [done|..]; by rewrite IHd. Qed.

Lemma hasComma_int z : hasComma (DecimalString.NilZero.string_of_int (Z.to_int z)) = false.
Proof.
  unfold DecimalString.NilZero.string_of_int, DecimalString.NilZero.string_of_uint.
  destruct (Z.to_int z) as [d|d]; destruct d; simpl; try done;
    apply hasComma_uint.
Qed.

Lemma splitComma_single s : hasComma s = false -> splitComma s = [s].
Proof.
  induction s as [|a s IH]; [done|]. simpl.
  intros [Ha Hs]%orb_false_iff. rewrite Ha, (IH Hs). done.
Qed.

Lemma splitComma_append s1 s2 :
  hasComma s1 = false ->
  splitComma (String.append s1 (String.String comma s2)) = s1 :: splitComma s2.
Proof.
  induction s1 as [|a s1 IH]; simpl.
  - intros _. reflexivity.
  - intros [Ha Hs]%orb_false_iff. rewrite Ha, (IH Hs). done.
Qed.

Lemma toNumber_int z :
  toNumber (DecimalString.NilZero.string_of_int (Z.to_int z)) = Some z.
Proof.
  unfold toNumber. rewrite DecimalString.NilZero.isi.
  - simpl. by rewrite DecimalZ.of_to.
  - destruct z; simpl; try discriminate.
    intros [= H]. by apply DecimalPos.Unsigned.to_uint_nonnil in H.
  - destruct z; simpl; try discriminate.
    intros [= H]. by apply DecimalPos.Unsigned.to_uint_nonnil in H.
Qed.

(** X25.  Reading a key back gives the coordinates it was made from:
    [key(r, c).split(",").map(Number)] is [[r, c]], so that two cells have
    the same key only if they are the same cell. *)
Theorem key_roundtrip (r c : Z) (k : String.string) :
  key r c = Some k ->
  parseKey k = (Some r, Some c) /\
  forall r' c', key r' c' = Some k -> (r', c') = (r, c).
Proof.
  assert (Hparse : forall r c k, key r c = Some k -> parseKey k = (Some r, Some c)).
  { clear. intros r c k. unfold key, numberToString.
    destruct (Z.abs r <? 10 ^ 21); [|done]. destruct (Z.abs c <? 10 ^ 21); [|done].
    intros [= <-]. unfold parseKey.
    rewrite splitComma_append by apply hasComma_int.
    rewrite splitComma_single by apply hasComma_int.
    by rewrite !toNumber_int. }
  intros Hk. split; [by apply Hparse|].
  intros r' c' Hk'. apply Hparse in Hk, Hk'. congruence.
Qed.

Lemma key_roundtrip_witness :
  exists k,
    key 12 (-3) = Some k /\
    parseKey k = (Some 12, Some (-3)) /\
    forall r' c', key r' c' = Some k -> (r', c') = (12, -3).
Proof.
  eexists. split; [vm_compute; reflexivity|].
  apply (key_roundtrip 12 (-3)). vm_compute; reflexivity.
Defined.

(** ** animate *)

Lemma take_slice {A : Type} (l : list A) i : take i l ++ slice l i (i + 3) = take (i + 3) l.
Proof.
  unfold slice. replace (i + 3 - i)%nat with 3%nat by lia.
  by rewrite take_take_drop.
Qed.

Lemma visitedFrames_spec fuel i res :
  (length res <= i + 3 * fuel)%nat ->
  Forall (fun f => f `prefix_of` res) (visitedFrames fuel i res (take i res)) /\
  ((i < length res)%nat ->
   last (visitedFrames fuel i res (take i res)) = Some res) /\
  (3 * length (visitedFrames fuel i res (take i res)) < length res - i + 3)%nat /\
  (length res - i <= 3 * length (visitedFrames fuel i res (take i res)))%nat.
Proof.
  revert i. induction fuel as [|fuel IH]; intros i Hf.
  { simpl. split; [constructor|]. split; [lia|]. lia. }
  simpl. destruct (i <? length res)%nat eqn:Hi;
    [apply Nat.ltb_lt in Hi|apply Nat.ltb_ge in Hi].
  2:{ split; [constructor|]. split; [lia|]. simpl. lia. }
  rewrite take_slice. destruct (IH (i + 3)%nat ltac:(lia)) as (H1 & H2 & H3 & H4).
  split; [constructor; [apply prefix_take|done]|]. split; [|simpl; lia].
  intros _. destruct (decide (i + 3 < length res)%nat) as [Hlt|Hge].
  - specialize (H2 Hlt).
    destruct (visitedFrames fuel (i + 3) res (take (i + 3) res)); [done|].
    by rewrite last_cons_cons.
  - destruct fuel; simpl.
    + by rewrite take_ge by lia.
    + assert ((i + 3 <? length res)%nat = false) as -> by (apply Nat.ltb_ge; lia).
      simpl. by rewrite take_ge by lia.
Qed.

Lemma pathFrames_spec res cur :
  length (pathFrames res cur) = length res /\
  Forall (fun f => f `prefix_of` cur ++ res) (pathFrames res cur) /\
  (res <> [] -> last (pathFrames res cur) = Some (cur ++ res)).
Proof.
  revert cur. induction res as [|v res IH]; intros cur; [by repeat constructor|].
  simpl. destruct (IH (cur ++ [v])) as (H1 & H2 & H3).
  rewrite <- app_assoc in H2, H3. simpl in H2, H3.
  split; [by rewrite H1|]. split.
  - constructor; [|done]. exists res. by rewrite <- app_assoc.
  - intros _. destruct res as [|w res]; [done|].
    specialize (H3 ltac:(done)). simpl in *.
    destruct (pathFrames res ((cur ++ [v]) ++ [w])); done.
Qed.

(** X26.  An animation that nothing interrupts ends with the whole
    visited sequence and the whole path of the planner on display and the
    animation flag off.  Before that it shows growing prefixes of the
    visited sequence, three cells more at a time, and then of the path,
    one cell more at a time, with the flag on; it waits as many times as
    the visited sequence has batches of three plus the path has cells.
    Started while an animation runs, it does nothing. *)
Theorem animate_shows_result (st : AppState) (result : PlanningResult) :
  (app_animating st = true -> animateFrames st result = []) /\
  (app_animating st = false ->
   exists waits,
     animateFrames st result =
       waits ++ [setAnimating false (setResult (visited result) (path result) st)] /\
     Forall (fun f => app_animating f = true /\
                      app_visited f `prefix_of` visited result /\
                      app_path f `prefix_of` path result /\
                      app_grid f = app_grid st) waits /\
     (length (visited result) <= 3 * (length waits - length (path result)) <
      length (visited result) + 3)%nat /\
     (length (path result) <= length waits)%nat).
Proof.
  split; [intros Ha; unfold animateFrames; by rewrite Ha|].
  intros Ha. unfold animateFrames. rewrite Ha.
  set (vs := visitedFrames (length (visited result)) 0 (visited result) []).
  set (ps := pathFrames (path result) []).
  destruct (visitedFrames_spec (length (visited result)) 0 (visited result) ltac:(lia))
    as (V1 & V2 & V3 & V4).
  rewrite take_0 in V1, V2, V3, V4. fold vs in V1, V2, V3, V4.
  destruct (pathFrames_spec (path result) []) as (P1 & P2 & P3).
  fold ps in P1, P2, P3. simpl in P2, P3.
  assert (Hshown : default [] (last vs) = visited result).
  { destruct (visited result) as [|v l] eqn:E; [done|].
    rewrite V2 by (simpl; lia). done. }
  assert (Hpath : default [] (last ps) = path result).
  { destruct (path result) as [|v l] eqn:E; [done|]. by rewrite P3. }
  rewrite Hshown, Hpath.
  eexists. rewrite app_assoc. split; [reflexivity|].
  split; [|split].
  - apply Forall_app. split; apply Forall_fmap, Forall_forall.
    + intros f Hf. rewrite Forall_forall in V1. simpl.
      repeat split; auto. apply prefix_nil.
    + intros f Hf. rewrite Forall_forall in P2. simpl.
      repeat split; auto.
  - rewrite length_app, !length_fmap, P1. lia.
  - rewrite length_app, !length_fmap, P1. lia.
Qed.

Lemma animate_shows_result_witness :
  app_animating initialState = false /\
  exists waits,
    animateFrames initialState (mkResult [(2, 2); (2, 3); (3, 2); (1, 2)] [(2, 2); (2, 3)]) =
      waits ++ [setAnimating false
                  (setResult [(2, 2); (2, 3); (3, 2); (1, 2)] [(2, 2); (2, 3)]
                     initialState)] /\
    Forall (fun f => app_animating f = true /\
                     app_visited f `prefix_of` [(2, 2); (2, 3); (3, 2); (1, 2)] /\
                     app_path f `prefix_of` [(2, 2); (2, 3)] /\
                     app_grid f = app_grid initialState) waits /\
    (length [(2, 2); (2, 3); (3, 2); (1, 2)]
       <= 3 * (length waits - length [(2, 2); (2, 3)]) <
     length [(2, 2); (2, 3); (3, 2); (1, 2)] + 3)%nat /\
    (length [(2, 2); (2, 3)] <= length waits)%nat.
Proof.
  split; [reflexivity|].
  exact (proj2 (animate_shows_result initialState
                  (mkResult [(2, 2); (2, 3); (3, 2); (1, 2)] [(2, 2); (2, 3)])) eq_refl).
Defined.
